(** * Page Speed library: JavaScript minifier, resource collection,
      redirect registry and image-format selection

    A shallow embedding of
      - pagespeed/js/js_minify.cc            (module [JsMinify]),
      - pagespeed/core/resource_collection.cc (module [ResourceCollection]),
      - pagespeed/image_compression/image_converter.cc (module [ImageConverter]),
    followed by the properties established about them. *)

From Stdlib Require Import String.
From Stdlib Require Import List ZArith QArith_base Lia Bool Ascii Arith OrderedTypeEx Sorted.
From stdpp Require Import gmap strings.
Import ListNotations.

Set Implicit Arguments.

(** ** Characters and strings

    [base::StringPiece] and [std::string] are byte sequences: [list ascii].
    String literals are written with [str]. *)

Definition bytes := list ascii.

Definition str (s : String.string) : bytes := String.list_ascii_of_string s.
Arguments str s%_string.

(** The code of a byte as an unsigned value, 0..255. *)
Definition byte_code (c : ascii) : Z := Z.of_N (N_of_ascii c).

(** Character literals of the source, as their [int] values. *)
Notation "'CH_TAB'" := 9%Z (only parsing).        (* '\t' *)
Notation "'CH_LF'" := 10%Z (only parsing).        (* '\n' *)
Notation "'CH_CR'" := 13%Z (only parsing).        (* '\r' *)
Notation "'CH_SPACE'" := 32%Z (only parsing).     (* ' '  *)
Notation "'CH_BANG'" := 33%Z (only parsing).      (* '!'  *)
Notation "'CH_DQUOTE'" := 34%Z (only parsing).    (* double quote *)
Notation "'CH_DOLLAR'" := 36%Z (only parsing).    (* '$'  *)
Notation "'CH_PERCENT'" := 37%Z (only parsing).   (* '%'  *)
Notation "'CH_AMP'" := 38%Z (only parsing).       (* '&'  *)
Notation "'CH_SQUOTE'" := 39%Z (only parsing).    (* single quote *)
Notation "'CH_LPAREN'" := 40%Z (only parsing).    (* '('  *)
Notation "'CH_RPAREN'" := 41%Z (only parsing).    (* ')'  *)
Notation "'CH_STAR'" := 42%Z (only parsing).      (* '*'  *)
Notation "'CH_PLUS'" := 43%Z (only parsing).      (* '+'  *)
Notation "'CH_COMMA'" := 44%Z (only parsing).     (* ','  *)
Notation "'CH_MINUS'" := 45%Z (only parsing).     (* '-'  *)
Notation "'CH_DOT'" := 46%Z (only parsing).       (* '.'  *)
Notation "'CH_SLASH'" := 47%Z (only parsing).     (* '/'  *)
Notation "'CH_0'" := 48%Z (only parsing).         (* '0'  *)
Notation "'CH_9'" := 57%Z (only parsing).         (* '9'  *)
Notation "'CH_COLON'" := 58%Z (only parsing).     (* ':'  *)
Notation "'CH_SEMI'" := 59%Z (only parsing).      (* ';'  *)
Notation "'CH_LT'" := 60%Z (only parsing).        (* '<'  *)
Notation "'CH_EQ'" := 61%Z (only parsing).        (* '='  *)
Notation "'CH_GT'" := 62%Z (only parsing).        (* '>'  *)
Notation "'CH_QUESTION'" := 63%Z (only parsing).  (* '?'  *)
Notation "'CH_AT'" := 64%Z (only parsing).        (* '@'  *)
Notation "'CH_A'" := 65%Z (only parsing).         (* 'A'  *)
Notation "'CH_Z'" := 90%Z (only parsing).         (* 'Z'  *)
Notation "'CH_LBRACKET'" := 91%Z (only parsing).  (* '['  *)
Notation "'CH_BACKSLASH'" := 92%Z (only parsing). (* '\\' *)
Notation "'CH_RBRACKET'" := 93%Z (only parsing).  (* ']'  *)
Notation "'CH_CARET'" := 94%Z (only parsing).     (* '^'  *)
Notation "'CH_UNDERSCORE'" := 95%Z (only parsing). (* '_' *)
Notation "'CH_BACKTICK'" := 96%Z (only parsing).  (* '`'  *)
Notation "'CH_a'" := 97%Z (only parsing).         (* 'a'  *)
Notation "'CH_z'" := 122%Z (only parsing).        (* 'z'  *)
Notation "'CH_LBRACE'" := 123%Z (only parsing).   (* '{'  *)
Notation "'CH_PIPE'" := 124%Z (only parsing).     (* '|'  *)
Notation "'CH_RBRACE'" := 125%Z (only parsing).   (* '}'  *)
Notation "'CH_TILDE'" := 126%Z (only parsing).    (* '~'  *)

(** [int] is 32 bits wide; arithmetic that leaves the range wraps. *)
Definition INT_MAX : Z := 2147483647.

Definition wrap_int (z : Z) : Z := ((z + 2147483648) mod 4294967296 - 2147483648)%Z.

(** [StringPiece::starts_with]. *)
Fixpoint starts_with (s prefix : bytes) : bool :=
  match prefix, s with
  | [], _ => true
  | _ :: _, [] => false
  | p :: prefix', c :: s' => Ascii.eqb c p && starts_with s' prefix'
  end.

(** [StringPiece::substr(pos, n)] and [substr(pos)]. *)
Definition substr (s : bytes) (pos n : nat) : bytes := firstn n (skipn pos s).

Definition substr_from (s : bytes) (pos : nat) : bytes := skipn pos s.

(** ** pagespeed/js/js_keywords.h *)

Module JsKeywords.

(** Modelled from the spec: js_keywords.h and its generated table are not part
    of the sources at hand.  The specification lists the identifier lexemes
    after which a regular expression literal may follow: return, throw,
    typeof, in, instanceof, new, delete, void (and, without naming them,
    control-flow keywords, which are therefore not listed here).  The
    minifier below takes the classifier as a parameter; this table only
    instantiates it for closed examples. *)
Definition CanKeywordPrecedeRegEx (name : bytes) : bool :=
  existsb (fun k => String.eqb (String.string_of_list_ascii name) k)
    ["return"; "throw"; "typeof"; "in"; "instanceof"; "new"; "delete"; "void"]%string.

End JsKeywords.

(** ** pagespeed/js/js_minify.cc *)

Module JsMinify.

Definition kEOF : Z := -1.

(** A token is either a character (0-255) or one of these constants. *)
Definition kStartToken : Z := 256.
Definition kCCCommentToken : Z := 257.
Definition kRegexToken : Z := 258.
Definition kStringToken : Z := 259.
Definition kNameNumberToken : Z := 260.
Definition kKeywordCanPrecedeRegExToken : Z := 261.
Definition kPlusPlusToken : Z := 262.
Definition kMinusMinusToken : Z := 263.

Definition IsIdentifierChar (c : Z) : bool :=
  ((CH_a <=? c) && (c <=? CH_z) || (CH_0 <=? c) && (c <=? CH_9) ||
   (CH_A <=? c) && (c <=? CH_Z) || (c =? CH_UNDERSCORE) || (c =? CH_DOLLAR) ||
   (c =? CH_BACKSLASH) || (127 <=? c))%Z.

Definition CannotBeginOrEndStatement (token : Z) : bool :=
  match token with
  | 256 (* kStartToken *)
  | CH_EQ | CH_LT | CH_GT | CH_SEMI | CH_COLON | CH_QUESTION | CH_PIPE
  | CH_CARET | CH_AMP | CH_STAR | CH_SLASH | CH_PERCENT | CH_COMMA | CH_DOT => true
  | _ => false
  end%Z.

Definition EndsPrimaryExpression (token : Z) : bool :=
  match token with
  | 260 (* kNameNumberToken *) | 258 (* kRegexToken *) | 259 (* kStringToken *)
  | CH_RPAREN | CH_RBRACKET => true
  | _ => false
  end%Z.

Definition CanSuppressLinebreak (prev_token next_token : Z) : bool :=
  if (CannotBeginOrEndStatement prev_token ||
      (prev_token =? CH_LPAREN) || (prev_token =? CH_LBRACKET) ||
      (prev_token =? CH_LBRACE) || (prev_token =? CH_BANG) ||
      (prev_token =? CH_TILDE) || (prev_token =? CH_PLUS) ||
      (prev_token =? CH_MINUS))%Z then true
  else if (CannotBeginOrEndStatement next_token ||
           (next_token =? CH_RPAREN) || (next_token =? CH_RBRACKET) ||
           (next_token =? CH_RBRACE))%Z then true
  else if (EndsPrimaryExpression prev_token &&
           ((next_token =? CH_LPAREN) || (next_token =? CH_LBRACKET) ||
            (next_token =? CH_PLUS) || (next_token =? CH_MINUS)))%Z then true
  else false.

(** The two output sinks share the interface the Minifier template uses. *)
Class OutputConsumer (O : Type) := {
  push_back : O -> ascii -> O;
  append : O -> bytes -> O
}.

Module StringConsumer.
Record t := Build { output_ : bytes }.
Definition push_back (o : t) (character : ascii) : t :=
  Build (output_ o ++ [character]).
Definition append (o : t) (s : bytes) : t := Build (output_ o ++ s).
End StringConsumer.

Module SizeConsumer.
(** [size_] is an [int]. *)
Record t := Build { size_ : Z }.
Definition push_back (o : t) (character : ascii) : t :=
  Build (wrap_int (size_ o + 1)).
Definition append (o : t) (s : bytes) : t :=
  Build (wrap_int (size_ o + Z.of_nat (length s))).
End SizeConsumer.

#[global] Instance StringConsumer_sink : OutputConsumer StringConsumer.t :=
  {| push_back := StringConsumer.push_back; append := StringConsumer.append |}.

#[global] Instance SizeConsumer_sink : OutputConsumer SizeConsumer.t :=
  {| push_back := SizeConsumer.push_back; append := SizeConsumer.append |}.

Inductive Whitespace := NO_WHITESPACE | SPACE | LINEBREAK.

Definition Whitespace_eqb (a b : Whitespace) : bool :=
  match a, b with
  | NO_WHITESPACE, NO_WHITESPACE | SPACE, SPACE | LINEBREAK, LINEBREAK => true
  | _, _ => false
  end.

(** How one of the scanning loops of the Consume functions is left: by a
    [return] from inside the loop, by [break], or because the loop condition
    [index_ < input_.size()] failed.  Each carries the value of [index_]. *)
Inductive LoopExit :=
| LoopReturn (index : nat)
| LoopBreak (index : nat)
| LoopEnd (index : nat).

Section Platform.

(** Whether plain [char] is signed is left to the implementation; it decides
    the [int] value of the bytes 128..255. *)
Variable char_is_signed : bool.

(** [JsKeywords::CanKeywordPrecedeRegEx], declared in js_keywords.h. *)
Variable CanKeywordPrecedeRegEx : bytes -> bool.

Definition char_to_int (c : ascii) : Z :=
  let n := byte_code c in
  if char_is_signed && (128 <=? n)%Z then (n - 256)%Z else n.

Section Minifier.

Context {O : Type} {sink : OutputConsumer O}.

Record Minifier := mkMinifier {
  index_ : nat;
  output_ : O;
  whitespace_ : Whitespace;
  prev_token_ : Z;
  error_ : bool;
  collapse_string_ : bool
}.

Definition set_index (m : Minifier) (i : nat) : Minifier :=
  mkMinifier i (output_ m) (whitespace_ m) (prev_token_ m) (error_ m) (collapse_string_ m).
Definition set_output (m : Minifier) (o : O) : Minifier :=
  mkMinifier (index_ m) o (whitespace_ m) (prev_token_ m) (error_ m) (collapse_string_ m).
Definition set_whitespace (m : Minifier) (w : Whitespace) : Minifier :=
  mkMinifier (index_ m) (output_ m) w (prev_token_ m) (error_ m) (collapse_string_ m).
Definition set_prev_token (m : Minifier) (t : Z) : Minifier :=
  mkMinifier (index_ m) (output_ m) (whitespace_ m) t (error_ m) (collapse_string_ m).
Definition set_error (m : Minifier) (e : bool) : Minifier :=
  mkMinifier (index_ m) (output_ m) (whitespace_ m) (prev_token_ m) e (collapse_string_ m).

Definition output_push_back (m : Minifier) (c : ascii) : Minifier :=
  set_output m (push_back (output_ m) c).
Definition output_append (m : Minifier) (s : bytes) : Minifier :=
  set_output m (append (output_ m) s).

(** The constructor; [out] is the sink built over the caller's string. *)
Definition init (out : O) : Minifier :=
  mkMinifier 0 out NO_WHITESPACE kStartToken false false.

Definition EnableStringCollapse (m : Minifier) : Minifier :=
  mkMinifier (index_ m) (output_ m) (whitespace_ m) (prev_token_ m) (error_ m) true.

Variable input_ : bytes.

Definition Peek (m : Minifier) : Z :=
  match nth_error input_ (index_ m + 1) with
  | Some c => char_to_int c
  | None => kEOF
  end.

Definition ChangeToken (next_token : Z) (m : Minifier) : Minifier :=
  let m :=
    if Whitespace_eqb (whitespace_ m) LINEBREAK &&
       negb (CanSuppressLinebreak (prev_token_ m) next_token)
    then output_push_back m "010"%char
    else m in
  set_prev_token (set_whitespace m NO_WHITESPACE) next_token.

Definition InsertSpaceIfNeeded (m : Minifier) : Minifier :=
  let m :=
    match whitespace_ m with
    | SPACE => output_push_back m " "%char
    | LINEBREAK => output_push_back m "010"%char
    | NO_WHITESPACE => m
    end in
  set_whitespace m NO_WHITESPACE.

(** The loop of ConsumeBlockComment over the rest of the input from [index]. *)
Fixpoint block_comment_loop (rest : bytes) (index : nat) : LoopExit :=
  match rest with
  | [] => LoopEnd index
  | c :: rest' =>
      let peek := match rest' with c' :: _ => char_to_int c' | [] => kEOF end in
      if ((char_to_int c =? CH_STAR) && (peek =? CH_SLASH))%Z
      then LoopReturn (index + 2)
      else block_comment_loop rest' (S index)
  end.

Definition ConsumeBlockComment (m : Minifier) : Minifier :=
  let begin := index_ m in
  let index := begin + 2 in
  let may_be_ccc :=
    match nth_error input_ index with
    | Some c => (char_to_int c =? CH_AT)%Z
    | None => false
    end in
  match block_comment_loop (substr_from input_ index) index with
  | LoopReturn index =>
      let m := set_index m index in
      let before_close :=
        match nth_error input_ (index - 3) with
        | Some c => (char_to_int c =? CH_AT)%Z
        | None => false
        end in
      if may_be_ccc && before_close then
        output_append (ChangeToken kCCCommentToken m) (substr input_ begin (index - begin))
      else if Whitespace_eqb (whitespace_ m) NO_WHITESPACE then
        set_whitespace m SPACE
      else m
  | LoopBreak index | LoopEnd index => set_error (set_index m index) true
  end.

Fixpoint line_comment_loop (rest : bytes) (index : nat) : nat :=
  match rest with
  | [] => index
  | c :: rest' =>
      if ((char_to_int c =? CH_LF) || (char_to_int c =? CH_CR))%Z then index
      else line_comment_loop rest' (S index)
  end.

Definition ConsumeLineComment (m : Minifier) : Minifier :=
  let index := line_comment_loop (substr_from input_ (index_ m)) (index_ m) in
  set_whitespace (set_index m index) LINEBREAK.

Fixpoint name_loop (rest : bytes) (index : nat) (token : bytes) : nat * bytes :=
  match rest with
  | [] => (index, token)
  | c :: rest' =>
      if IsIdentifierChar (char_to_int c)
      then name_loop rest' (S index) (token ++ [c])
      else (index, token)
  end.

Definition ConsumeNameOrNumber (m : Minifier) : Minifier :=
  let m :=
    if ((prev_token_ m =? kNameNumberToken) ||
        (prev_token_ m =? kKeywordCanPrecedeRegExToken) ||
        (prev_token_ m =? kRegexToken))%Z
    then InsertSpaceIfNeeded m else m in
  let '(index, token) := name_loop (substr_from input_ (index_ m)) (index_ m) [] in
  let m := set_index m index in
  let m := ChangeToken (if CanKeywordPrecedeRegEx token
                        then kKeywordCanPrecedeRegExToken
                        else kNameNumberToken) m in
  output_append m token.

Fixpoint regex_loop (rest : bytes) (index : nat) (within_brackets : bool) : LoopExit :=
  match rest with
  | [] => LoopEnd index
  | c :: rest' =>
      let ch := char_to_int c in
      let index := S index in
      if (ch =? CH_BACKSLASH)%Z then
        match rest' with
        | [] => LoopEnd (S index)
        | _ :: rest'' => regex_loop rest'' (S index) within_brackets
        end
      else if (ch =? CH_SLASH)%Z then
        if negb within_brackets then LoopReturn index
        else regex_loop rest' index within_brackets
      else if (ch =? CH_LBRACKET)%Z then regex_loop rest' index true
      else if (ch =? CH_RBRACKET)%Z then regex_loop rest' index false
      else if (ch =? CH_LF)%Z then LoopBreak index
      else regex_loop rest' index within_brackets
  end.

Definition ConsumeRegex (m : Minifier) : Minifier :=
  let begin := index_ m in
  match regex_loop (substr_from input_ (S begin)) (S begin) false with
  | LoopReturn index =>
      let m := set_index m index in
      let m := if (prev_token_ m =? CH_SLASH)%Z then InsertSpaceIfNeeded m else m in
      let m := ChangeToken kRegexToken m in
      output_append m (substr input_ begin (index - begin))
  | LoopBreak index | LoopEnd index => set_error (set_index m index) true
  end.

Fixpoint string_loop (quote : Z) (rest : bytes) (index : nat) : LoopExit :=
  match rest with
  | [] => LoopEnd index
  | c :: rest' =>
      let ch := char_to_int c in
      let index := S index in
      if (ch =? CH_BACKSLASH)%Z then
        match rest' with
        | [] => LoopEnd (S index)
        | _ :: rest'' => string_loop quote rest'' (S index)
        end
      else if (ch =? quote)%Z then LoopReturn index
      else string_loop quote rest' index
  end.

Definition ConsumeString (m : Minifier) : Minifier :=
  let begin := index_ m in
  match nth_error input_ begin with
  | None => m
  | Some quote =>
      match string_loop (char_to_int quote) (substr_from input_ (S begin)) (S begin) with
      | LoopReturn index =>
          let m := set_index m index in
          let m := ChangeToken kStringToken m in
          if collapse_string_ m then
            output_push_back (output_push_back m quote) quote
          else
            output_append m (substr input_ begin (index - begin))
      | LoopBreak index | LoopEnd index => set_error (set_index m index) true
      end
  end.

(** One iteration of the loop of Minify, entered with
    [index_ < input_.size() && !error_]. *)
Definition Minify_body (m : Minifier) : Minifier :=
  match nth_error input_ (index_ m) with
  | None => m
  | Some c =>
    let ch := char_to_int c in
    if ((ch =? CH_LF) || (ch =? CH_CR))%Z then
      set_index (set_whitespace m LINEBREAK) (S (index_ m))
    else if ((ch =? CH_SPACE) || (ch =? CH_TAB))%Z then
      let m := if Whitespace_eqb (whitespace_ m) NO_WHITESPACE
               then set_whitespace m SPACE else m in
      set_index m (S (index_ m))
    else if ((ch =? CH_SQUOTE) || (ch =? CH_DQUOTE) || (ch =? CH_BACKTICK))%Z then
      ConsumeString m
    else if (ch =? CH_SLASH)%Z then
      let next := Peek m in
      if (next =? CH_SLASH)%Z then ConsumeLineComment m
      else if (next =? CH_STAR)%Z then ConsumeBlockComment m
      else if EndsPrimaryExpression (prev_token_ m) then
        let m := ChangeToken CH_SLASH m in
        let m := output_push_back m c in
        set_index m (S (index_ m))
      else ConsumeRegex m
    else if IsIdentifierChar ch then
      ConsumeNameOrNumber m
    else if (ch =? CH_LT)%Z && starts_with (substr_from input_ (index_ m)) (str "<!--") then
      ConsumeLineComment m
    else if (ch =? CH_MINUS)%Z &&
            (Whitespace_eqb (whitespace_ m) LINEBREAK || (prev_token_ m =? kStartToken)%Z) &&
            starts_with (substr_from input_ (index_ m)) (str "-->") then
      ConsumeLineComment m
    else if ((ch =? CH_PLUS) && (Peek m =? CH_PLUS))%Z then
      let m := if ((prev_token_ m =? CH_PLUS) || (prev_token_ m =? kPlusPlusToken))%Z
               then InsertSpaceIfNeeded m else m in
      let m := ChangeToken kPlusPlusToken m in
      let m := output_append m (str "++") in
      set_index m (index_ m + 2)
    else if ((ch =? CH_MINUS) && (Peek m =? CH_MINUS))%Z then
      let m := if ((prev_token_ m =? CH_MINUS) || (prev_token_ m =? kMinusMinusToken) ||
                   (prev_token_ m =? CH_BANG))%Z
               then InsertSpaceIfNeeded m else m in
      let m := ChangeToken kMinusMinusToken m in
      let m := output_append m (str "--") in
      set_index m (index_ m + 2)
    else
      let m := if (((prev_token_ m =? ch) && ((ch =? CH_PLUS) || (ch =? CH_MINUS))) ||
                   ((prev_token_ m =? kPlusPlusToken) && (ch =? CH_PLUS)) ||
                   ((prev_token_ m =? kMinusMinusToken) && (ch =? CH_MINUS)) ||
                   ((prev_token_ m =? CH_LT) && (ch =? CH_BANG)) ||
                   ((prev_token_ m =? CH_BANG) && (ch =? CH_MINUS)))%Z
               then InsertSpaceIfNeeded m else m in
      let m := ChangeToken ch m in
      let m := output_push_back m c in
      set_index m (S (index_ m))
  end.

(** The loop condition of Minify. *)
Definition Minify_cond (m : Minifier) : bool :=
  (index_ m <? length input_) && negb (error_ m).

Fixpoint Minify_loop (fuel : nat) (m : Minifier) : Minifier :=
  match fuel with
  | 0 => m
  | S fuel' => if Minify_cond m then Minify_loop fuel' (Minify_body m) else m
  end.

(** Every iteration moves [index_] forward or raises [error_], so the bytes
    left to read bound the number of iterations ([Minify_exits] below). *)
Definition Minify (m : Minifier) : Minifier :=
  Minify_loop (length input_ - index_ m) m.

(** [None] stands for the NULL result. *)
Definition GetOutput (m : Minifier) : option O :=
  let m := Minify m in
  if negb (error_ m) then Some (output_ m) else None.

(** The Minifier object after GetOutput, for what the call left in the sink. *)
Definition after_GetOutput (m : Minifier) : Minifier := Minify m.

End Minifier.

(** namespace pagespeed::js.  [MinifyJs] appends to the caller's string
    [out] and returns whether it succeeded together with the string. *)
Definition MinifyJs (input out : bytes) : bool * bytes :=
  let minifier := init (StringConsumer.Build out) in
  let m := after_GetOutput input minifier in
  (match GetOutput input minifier with Some _ => true | None => false end,
   StringConsumer.output_ (output_ m)).

Definition GetMinifiedJsSize (input : bytes) : option Z :=
  let minifier := init (SizeConsumer.Build 0) in
  match GetOutput input minifier with
  | Some output => Some (SizeConsumer.size_ output)
  | None => None
  end.

Definition MinifyJsAndCollapseStrings (input out : bytes) : bool * bytes :=
  let minifier := EnableStringCollapse (init (StringConsumer.Build out)) in
  let m := after_GetOutput input minifier in
  (match GetOutput input minifier with Some _ => true | None => false end,
   StringConsumer.output_ (output_ m)).

Definition GetMinifiedStringCollapsedJsSize (input : bytes) : option Z :=
  let minifier := EnableStringCollapse (init (SizeConsumer.Build 0)) in
  match GetOutput input minifier with
  | Some output => Some (SizeConsumer.size_ output)
  | None => None
  end.

End Platform.

(** *** Notions used to state properties of the Minifier *)

(** What an iteration of the loop of Minify does to [index_] and [error_]:
    either it raises the error flag, or it moves forward and stays within the
    input.  The string-collapse flag is left alone. *)
Definition advances {O : Type} (input_ : bytes) (m m' : Minifier (O:=O)) : Prop :=
  collapse_string_ m' = collapse_string_ m /\
  (error_ m' = true \/
   error_ m' = false /\ index_ m < index_ m' <= length input_).

(** Two Minifiers over different sinks that agree on everything but the
    sink, whose contents are related by [R]; the string-collapse flags may
    differ only when [R] relates any two sinks. *)
Definition sim {O1 O2 : Type} (R : O1 -> O2 -> Prop)
  (m1 : Minifier (O:=O1)) (m2 : Minifier (O:=O2)) : Prop :=
  index_ m1 = index_ m2 /\ whitespace_ m1 = whitespace_ m2 /\
  prev_token_ m1 = prev_token_ m2 /\ error_ m1 = error_ m2 /\
  (collapse_string_ m1 = collapse_string_ m2 \/ forall a b, R a b) /\
  R (output_ m1) (output_ m2).

(** The byte that pending whitespace may still cost. *)
Definition pending (w : Whitespace) : nat :=
  match w with NO_WHITESPACE => 0 | SPACE | LINEBREAK => 1 end.

Definition outlen (m : Minifier (O:=StringConsumer.t)) : nat :=
  length (StringConsumer.output_ (output_ m)).

(** The output is no longer than what was read of the input, [K] being the
    length of the caller's string when the Minifier was built. *)
Definition bounded (K : nat) (m : Minifier (O:=StringConsumer.t)) : Prop :=
  outlen m + pending (whitespace_ m) <= K + index_ m.

(** The states in which the loop of Minify is entered, from the state
    [start]. *)
Inductive Reachable {O : Type} {sink : OutputConsumer O}
  (char_is_signed : bool) (CanKeywordPrecedeRegEx : bytes -> bool) (input_ : bytes)
  (start : Minifier (O:=O)) : Minifier (O:=O) -> Prop :=
| Reachable_start : Reachable char_is_signed CanKeywordPrecedeRegEx input_ start start
| Reachable_body m :
    Reachable char_is_signed CanKeywordPrecedeRegEx input_ start m ->
    Minify_cond input_ m = true ->
    Reachable char_is_signed CanKeywordPrecedeRegEx input_ start
      (Minify_body char_is_signed CanKeywordPrecedeRegEx input_ m).

(** **** The failure conditions, stated on the input

    These follow the wording of the specification: the end of the input is
    reached inside a block comment, inside a string literal or inside a
    regular expression literal, or a regular expression literal meets a raw
    newline. *)
Inductive MinifyError :=
| UnterminatedBlockComment
| UnterminatedString
| UnterminatedRegex
| NewlineInRegex.

Section Conditions.

Variable char_is_signed : bool.

(** The body of a block comment (what follows its opening) holds no closing
    star-slash. *)
Definition CommentUnclosed (body : bytes) : Prop :=
  forall j c c',
    nth_error body j = Some c -> nth_error body (S j) = Some c' ->
    ~ (char_to_int char_is_signed c = CH_STAR /\
       char_to_int char_is_signed c' = CH_SLASH).

(** The body of a string literal (what follows its opening quote) runs off
    the end of the input: no quote closes it, a backslash taking the byte
    after it along. *)
Inductive StringRunsOff (quote : Z) : bytes -> Prop :=
| StringRunsOff_end : StringRunsOff quote []
| StringRunsOff_backslash_end c :
    char_to_int char_is_signed c = CH_BACKSLASH -> StringRunsOff quote [c]
| StringRunsOff_escape c c' rest :
    char_to_int char_is_signed c = CH_BACKSLASH ->
    StringRunsOff quote rest -> StringRunsOff quote (c :: c' :: rest)
| StringRunsOff_char c rest :
    char_to_int char_is_signed c <> CH_BACKSLASH ->
    char_to_int char_is_signed c <> quote ->
    StringRunsOff quote rest -> StringRunsOff quote (c :: rest).

(** How the body of a regular expression literal (what follows its opening
    slash) ends. *)
Inductive RegexEnd := RegexClosed | RegexEndOfInput | RegexRawNewline.

Inductive RegexBody : bool -> bytes -> RegexEnd -> Prop :=
| RegexBody_end within_brackets : RegexBody within_brackets [] RegexEndOfInput
| RegexBody_backslash_end within_brackets c :
    char_to_int char_is_signed c = CH_BACKSLASH ->
    RegexBody within_brackets [c] RegexEndOfInput
| RegexBody_escape within_brackets c c' rest e :
    char_to_int char_is_signed c = CH_BACKSLASH ->
    RegexBody within_brackets rest e ->
    RegexBody within_brackets (c :: c' :: rest) e
| RegexBody_close c rest :
    char_to_int char_is_signed c = CH_SLASH ->
    RegexBody false (c :: rest) RegexClosed
| RegexBody_slash_in_brackets c rest e :
    char_to_int char_is_signed c = CH_SLASH ->
    RegexBody true rest e -> RegexBody true (c :: rest) e
| RegexBody_open_bracket within_brackets c rest e :
    char_to_int char_is_signed c = CH_LBRACKET ->
    RegexBody true rest e -> RegexBody within_brackets (c :: rest) e
| RegexBody_close_bracket within_brackets c rest e :
    char_to_int char_is_signed c = CH_RBRACKET ->
    RegexBody false rest e -> RegexBody within_brackets (c :: rest) e
| RegexBody_newline within_brackets c rest :
    char_to_int char_is_signed c = CH_LF ->
    RegexBody within_brackets (c :: rest) RegexRawNewline
| RegexBody_other within_brackets c rest e :
    char_to_int char_is_signed c <> CH_BACKSLASH ->
    char_to_int char_is_signed c <> CH_SLASH ->
    char_to_int char_is_signed c <> CH_LBRACKET ->
    char_to_int char_is_signed c <> CH_RBRACKET ->
    char_to_int char_is_signed c <> CH_LF ->
    RegexBody within_brackets rest e -> RegexBody within_brackets (c :: rest) e.

(** The lexeme that starts at [index_ m], read after the token
    [prev_token_ m], is a block comment, a string literal or a regular
    expression literal that fails in the given way. *)
Inductive LexemeFails {O : Type} (input_ : bytes) (m : Minifier (O:=O))
  : MinifyError -> Prop :=
| LexemeFails_comment c c' :
    nth_error input_ (index_ m) = Some c ->
    char_to_int char_is_signed c = CH_SLASH ->
    nth_error input_ (index_ m + 1) = Some c' ->
    char_to_int char_is_signed c' = CH_STAR ->
    CommentUnclosed (substr_from input_ (index_ m + 2)) ->
    LexemeFails input_ m UnterminatedBlockComment
| LexemeFails_string quote :
    nth_error input_ (index_ m) = Some quote ->
    char_to_int char_is_signed quote = CH_SQUOTE \/
    char_to_int char_is_signed quote = CH_DQUOTE \/
    char_to_int char_is_signed quote = CH_BACKTICK ->
    StringRunsOff (char_to_int char_is_signed quote)
                  (substr_from input_ (S (index_ m))) ->
    LexemeFails input_ m UnterminatedString
| LexemeFails_regex c e :
    nth_error input_ (index_ m) = Some c ->
    char_to_int char_is_signed c = CH_SLASH ->
    Peek char_is_signed input_ m <> CH_SLASH ->
    Peek char_is_signed input_ m <> CH_STAR ->
    EndsPrimaryExpression (prev_token_ m) = false ->
    RegexBody false (substr_from input_ (S (index_ m))) e ->
    forall kind,
      match e with
      | RegexClosed => False
      | RegexEndOfInput => kind = UnterminatedRegex
      | RegexRawNewline => kind = NewlineInRegex
      end ->
      LexemeFails input_ m kind.

End Conditions.

(** The way a regular expression literal ends, read off the exit of the loop
    of ConsumeRegex. *)
Definition RegexEnd_of (exit : LoopExit) : RegexEnd :=
  match exit with
  | LoopReturn _ => RegexClosed
  | LoopBreak _ => RegexRawNewline
  | LoopEnd _ => RegexEndOfInput
  end.

(** What the size-only sink holds when the string sink holds [a]. *)
Definition size_of_output (a : StringConsumer.t) (b : SizeConsumer.t) : Prop :=
  SizeConsumer.size_ b = wrap_int (Z.of_nat (length (StringConsumer.output_ a))).

(** Scanning [input_] reaches one of the failure conditions: the loop of
    Minify, started on a Minifier that appends to [out], is entered in a
    state whose next lexeme fails. *)
Definition MinifyFails (char_is_signed : bool) (CanKeywordPrecedeRegEx : bytes -> bool)
  (input_ out : bytes) (kind : MinifyError) : Prop :=
  exists m : Minifier (O:=StringConsumer.t),
    Reachable char_is_signed CanKeywordPrecedeRegEx input_
              (init (StringConsumer.Build out)) m /\
    Minify_cond input_ m = true /\
    LexemeFails char_is_signed input_ m kind.

(** *** One iteration of Minify as a function of the unread input *)

(** What an iteration does: how many bytes it consumes, whether it raises the
    error flag, and either the whitespace state it leaves (for whitespace
    and comments) or the token it emits, with its text and whether
    InsertSpaceIfNeeded is called before it. *)
Record Emission := mkEmission {
  consumed : nat;
  raises : bool;
  token : option Z;
  separated : bool;
  text : bytes;
  whitespace_after : Whitespace
}.

Definition emit_skip (n : nat) (w : Whitespace) : Emission :=
  mkEmission n false None false [] w.
Definition emit_fail (n : nat) (w : Whitespace) : Emission :=
  mkEmission n true None false [] w.
Definition emit_token (n : nat) (sep : bool) (tok : Z) (s : bytes) : Emission :=
  mkEmission n false (Some tok) sep s NO_WHITESPACE.

Definition space_after (w : Whitespace) : Whitespace :=
  if Whitespace_eqb w NO_WHITESPACE then SPACE else w.

Section Describe.

Variable char_is_signed : bool.
Variable CanKeywordPrecedeRegEx : bytes -> bool.

(** [unread] is the input from [index_] on; string collapsing is off.  This
    is no second model of the loop: [Minify_body_describe] proves that
    [Minify_body] does what [describe] says. *)
Definition describe (unread : bytes) (prev_token : Z) (whitespace : Whitespace)
  : Emission :=
  match unread with
  | [] => emit_skip 0 whitespace
  | c :: rest =>
    let ch := char_to_int char_is_signed c in
    let next := match rest with c' :: _ => char_to_int char_is_signed c' | [] => kEOF end in
    if ((ch =? CH_LF) || (ch =? CH_CR))%Z then emit_skip 1 LINEBREAK
    else if ((ch =? CH_SPACE) || (ch =? CH_TAB))%Z then emit_skip 1 (space_after whitespace)
    else if ((ch =? CH_SQUOTE) || (ch =? CH_DQUOTE) || (ch =? CH_BACKTICK))%Z then
      match string_loop char_is_signed ch rest 1 with
      | LoopReturn n => emit_token n false kStringToken (firstn n unread)
      | LoopBreak n | LoopEnd n => emit_fail n whitespace
      end
    else if (ch =? CH_SLASH)%Z then
      if (next =? CH_SLASH)%Z then
        emit_skip (line_comment_loop char_is_signed unread 0) LINEBREAK
      else if (next =? CH_STAR)%Z then
        match block_comment_loop char_is_signed (skipn 2 unread) 2 with
        | LoopReturn n =>
            let at_sign (i : nat) :=
              match nth_error unread i with
              | Some c' => (char_to_int char_is_signed c' =? CH_AT)%Z
              | None => false
              end in
            if at_sign 2 && at_sign (n - 3)
            then emit_token n false kCCCommentToken (firstn n unread)
            else emit_skip n (space_after whitespace)
        | LoopBreak n | LoopEnd n => emit_fail n whitespace
        end
      else if EndsPrimaryExpression prev_token then emit_token 1 false CH_SLASH [c]
      else
        match regex_loop char_is_signed rest 1 false with
        | LoopReturn n =>
            emit_token n (prev_token =? CH_SLASH)%Z kRegexToken (firstn n unread)
        | LoopBreak n | LoopEnd n => emit_fail n whitespace
        end
    else if IsIdentifierChar ch then
      let '(n, name) := name_loop char_is_signed unread 0 [] in
      emit_token n
        ((prev_token =? kNameNumberToken) ||
         (prev_token =? kKeywordCanPrecedeRegExToken) ||
         (prev_token =? kRegexToken))%Z
        (if CanKeywordPrecedeRegEx name
         then kKeywordCanPrecedeRegExToken else kNameNumberToken)
        name
    else if (ch =? CH_LT)%Z && starts_with unread (str "<!--") then
      emit_skip (line_comment_loop char_is_signed unread 0) LINEBREAK
    else if (ch =? CH_MINUS)%Z &&
            (Whitespace_eqb whitespace LINEBREAK || (prev_token =? kStartToken)%Z) &&
            starts_with unread (str "-->") then
      emit_skip (line_comment_loop char_is_signed unread 0) LINEBREAK
    else if ((ch =? CH_PLUS) && (next =? CH_PLUS))%Z then
      emit_token 2 ((prev_token =? CH_PLUS) || (prev_token =? kPlusPlusToken))%Z
                 kPlusPlusToken (str "++")
    else if ((ch =? CH_MINUS) && (next =? CH_MINUS))%Z then
      emit_token 2 ((prev_token =? CH_MINUS) || (prev_token =? kMinusMinusToken) ||
                    (prev_token =? CH_BANG))%Z
                 kMinusMinusToken (str "--")
    else
      emit_token 1
        (((prev_token =? ch) && ((ch =? CH_PLUS) || (ch =? CH_MINUS))) ||
         ((prev_token =? kPlusPlusToken) && (ch =? CH_PLUS)) ||
         ((prev_token =? kMinusMinusToken) && (ch =? CH_MINUS)) ||
         ((prev_token =? CH_LT) && (ch =? CH_BANG)) ||
         ((prev_token =? CH_BANG) && (ch =? CH_MINUS)))%Z
        ch [c]
  end.

End Describe.

(** The effect of an emission on a Minifier over the string sink. *)
Definition apply_emission (m : Minifier (O:=StringConsumer.t)) (e : Emission)
  : Minifier (O:=StringConsumer.t) :=
  if raises e then set_error (set_index m (index_ m + consumed e)) true
  else
    match token e with
    | None => set_index (set_whitespace m (whitespace_after e)) (index_ m + consumed e)
    | Some tok =>
        set_index
          (output_append
             (ChangeToken tok (if separated e then InsertSpaceIfNeeded m else m))
             (text e))
          (index_ m + consumed e)
    end.

(** What the string sink receives before the text of a token: the byte
    written by InsertSpaceIfNeeded (when [sep] says it is called) or by
    ChangeToken, if any. *)
Definition separator (w : Whitespace) (sep : bool) (prev tok : Z) : bytes :=
  match w with
  | NO_WHITESPACE => []
  | SPACE => if sep then [" "%char] else []
  | LINEBREAK =>
      if sep || negb (CanSuppressLinebreak prev tok) then ["010"%char] else []
  end.

(** The whitespace state after reading the bytes of [separator] again. *)
Definition whitespace_of (s : bytes) : Whitespace :=
  match s with
  | [] => NO_WHITESPACE
  | c :: _ => if Ascii.eqb c "010"%char then LINEBREAK else SPACE
  end.

(** The first unread byte does not extend the token [tok] just emitted: no
    identifier byte after a name, number or keyword, no '+' after '+' and no
    '-' after '-'. *)
Definition can_follow (char_is_signed : bool) (tok : Z) (unread : bytes) : bool :=
  match unread with
  | [] => true
  | c :: _ =>
      let ch := char_to_int char_is_signed c in
      negb (((tok =? kNameNumberToken) || (tok =? kKeywordCanPrecedeRegExToken))%Z &&
            IsIdentifierChar ch) &&
      negb ((tok =? CH_PLUS) && (ch =? CH_PLUS))%Z &&
      negb ((tok =? CH_MINUS) && (ch =? CH_MINUS))%Z
  end.

(** *** Tokens of the output that start a comment *)

Section Rescan.

Variable char_is_signed : bool.
Variable CanKeywordPrecedeRegEx : bytes -> bool.

(** The conditions under which an iteration of Minify calls
    ConsumeLineComment or ConsumeBlockComment: the unread input starts with
    [//] or [/*], with [<!--], or with [-->] at the start of the input or
    after a linebreak. *)
Definition comment_start (unread : bytes) (prev_token : Z) (whitespace : Whitespace)
  : bool :=
  match unread with
  | [] => false
  | c :: rest =>
      let ch := char_to_int char_is_signed c in
      let next := match rest with c' :: _ => char_to_int char_is_signed c' | [] => kEOF end in
      ((ch =? CH_SLASH) && ((next =? CH_SLASH) || (next =? CH_STAR)))%Z ||
      ((ch =? CH_LT)%Z && starts_with unread (str "<!--")) ||
      ((ch =? CH_MINUS)%Z &&
       (Whitespace_eqb whitespace LINEBREAK || (prev_token =? kStartToken)%Z) &&
       starts_with unread (str "-->"))
  end.

(** A run over [unread] that is to write [written]: no token that it
    writes, apart from the conditional compilation comments it keeps, stands
    in [written] where a run over [written] calls ConsumeLineComment or
    ConsumeBlockComment.  The run over [written] meets the token after the
    same previous token and after the byte, if any, that was written in
    front of it. *)
Fixpoint no_token_starts_comment (fuel : nat) (unread : bytes) (prev_token : Z)
  (whitespace : Whitespace) (written : bytes) : bool :=
  match fuel with
  | 0 => true
  | S fuel' =>
      match unread with
      | [] => true
      | _ :: _ =>
          let e := describe char_is_signed CanKeywordPrecedeRegEx
                            unread prev_token whitespace in
          if raises e then true
          else
            match token e with
            | None =>
                no_token_starts_comment fuel' (skipn (consumed e) unread) prev_token
                                        (whitespace_after e) written
            | Some tok =>
                let s := separator whitespace (separated e) prev_token tok in
                let here := skipn (length s) written in
                ((tok =? kCCCommentToken)%Z ||
                 negb (comment_start here prev_token (whitespace_of s))) &&
                no_token_starts_comment fuel' (skipn (consumed e) unread) tok
                                        NO_WHITESPACE (skipn (length (text e)) here)
            end
      end
  end.

End Rescan.

(** An exit of a scanning loop, moved by [a] bytes. *)
Definition shift_exit (a : nat) (exit : LoopExit) : LoopExit :=
  match exit with
  | LoopReturn i => LoopReturn (a + i)
  | LoopBreak i => LoopBreak (a + i)
  | LoopEnd i => LoopEnd (a + i)
  end.

(** The bytes that Minify counts as whitespace: space and tab, and the two
    linebreak bytes. *)
Definition linebreak_byte (c : ascii) : bool :=
  Ascii.eqb c "010"%char || Ascii.eqb c "013"%char.

Definition whitespace_byte (c : ascii) : bool :=
  linebreak_byte c || Ascii.eqb c " "%char || Ascii.eqb c "009"%char.

(** The sink over the caller's string [out] holds [out] followed by what
    the sink over the empty string holds. *)
Definition extends (out : bytes) (a b : StringConsumer.t) : Prop :=
  StringConsumer.output_ a = out ++ StringConsumer.output_ b.

(** The whitespace state after a run [ws] of whitespace bytes read in the
    state [w]. *)
Fixpoint skip_whitespace (ws : bytes) (w : Whitespace) : Whitespace :=
  match ws with
  | [] => w
  | c :: ws' =>
      skip_whitespace ws'
        (if linebreak_byte c then LINEBREAK
         else if Whitespace_eqb w NO_WHITESPACE then SPACE else w)
  end.

(** The three bytes that open a string literal: the single quote, the double
    quote (034) and the backtick. *)
Definition quote_byte (c : ascii) : bool :=
  Ascii.eqb c "'"%char || Ascii.eqb c "034"%char || Ascii.eqb c "`"%char.

End JsMinify.

(** ** pagespeed/core/resource_collection.cc *)

Module ResourceCollection.

(** Modelled from the spec: resource.h is not among the sources.  The code
    only asks whether the type of a resource is REDIRECT. *)
Inductive ResourceType := REDIRECT | OTHER.

Definition ResourceType_eqb (a b : ResourceType) : bool :=
  match a, b with
  | REDIRECT, REDIRECT | OTHER, OTHER => true
  | _, _ => false
  end.

(** Modelled from the spec: class Resource (resource.h) is not among the
    sources.  The record holds the attributes that the code reads through
    the accessors of the same names, the redirect target that
    resource_util::GetRedirectedUrl computes for the resource (empty when
    there is none), and [address], the identity of the object: what two
    [Resource*] are compared by and what a pointer-keyed map orders by. *)
Record Resource := {
  address : nat;
  GetRequestUrl : string;
  GetHost : string;
  GetResponseStatusCode : Z;
  request_start_time_millis : option Z;
  GetResourceType : ResourceType;
  GetRedirectedUrl : string
}.

Definition has_request_start_time_millis (r : Resource) : bool :=
  match request_start_time_millis r with Some _ => true | None => false end.

(** Modelled from the spec: Resource::IsRequestStartTimeLessThan compares the
    request start timestamps of the two resources. *)
Definition IsRequestStartTimeLessThan (lhs rhs : Resource) : bool :=
  match request_start_time_millis lhs, request_start_time_millis rhs with
  | Some a, Some b => (a <? b)%Z
  | _, _ => false
  end.

(** A [const Resource*]; [None] is NULL. *)
Definition ResourcePtr := option Resource.

Definition same_resource (a b : Resource) : bool := (address a =? address b)%nat.

Definition ResourceVector := list Resource.

(** std::set<const Resource*, ResourceUrlLessThan>: kept in ascending order of
    request URL; an element equivalent to one already present is not inserted. *)
Definition ResourceUrlLessThan (lhs rhs : Resource) : bool :=
  String.ltb (GetRequestUrl lhs) (GetRequestUrl rhs).

Fixpoint ResourceSet_insert (s : list Resource) (r : Resource) : list Resource :=
  match s with
  | [] => [r]
  | x :: s' =>
      if ResourceUrlLessThan r x then r :: s
      else if ResourceUrlLessThan x r then x :: ResourceSet_insert s' r
      else s
  end.

(** std::stable_sort with the comparator ResourceRequestStartTimeLessThan:
    an element goes in front of the first one that is not less than it. *)
Fixpoint stable_insert (x : Resource) (sorted : ResourceVector) : ResourceVector :=
  match sorted with
  | [] => [x]
  | y :: rest =>
      if IsRequestStartTimeLessThan y x then y :: stable_insert x rest
      else x :: sorted
  end.

Definition stable_sort (v : ResourceVector) : ResourceVector :=
  foldr stable_insert [] v.

(** *** RedirectRegistry: data *)

Definition RedirectChain := list Resource.
Definition RedirectChainVector := list RedirectChain.

(** A [const RedirectChain*]: the address of a slot of the storage of a
    vector of chains, counted in chains. *)
Definition RedirectChainPtr := nat.

(** [redirect_chains_] is a std::vector<RedirectChain>.  Its elements lie
    one after the other in a block of storage: the element at index [i] in
    the slot at the address [redirect_chains_data_ + i], and the block has
    room for [redirect_chains_capacity_] elements.  The map
    [resource_to_redirect_chain_map_] holds addresses of slots, under the
    addresses of the resources. *)
Record RedirectRegistry := mkRegistry {
  redirect_chains_ : RedirectChainVector;
  redirect_chains_data_ : nat;
  redirect_chains_capacity_ : nat;
  resource_to_redirect_chain_map_ : gmap nat RedirectChainPtr;
  initialized_ : bool
}.

(** A new registry: the vector is empty and owns no storage. *)
Definition new_RedirectRegistry : RedirectRegistry := mkRegistry [] 0 0 ∅ false.

(** What a stored pointer designates now: the element in its slot, when the
    slot belongs to the block that the vector owns and holds an element.
    After an element in front of it was erased, that is the chain that
    moved into the slot.  [None] when the address lies in a block that
    push_back has released, or behind the last element: reading through the
    pointer is undefined then. *)
Definition deref_chain (registry : RedirectRegistry) (p : RedirectChainPtr)
  : option RedirectChain :=
  if (redirect_chains_data_ registry <=? p)%nat
  then redirect_chains_ registry !! (p - redirect_chains_data_ registry)%nat
  else None.

(** *** ResourceCollection: data *)

Record ResourceCollection := mkCollection {
  resources_ : ResourceVector;
  url_resource_map_ : gmap string Resource;
  host_resource_map_ : gmap string (list Resource);
  request_order_vector_ : ResourceVector;
  primary_resource_url_ : string;
  frozen_ : bool;
  (** ResourceFilter::IsAccepted of [resource_filter_] *)
  resource_filter_ : Resource -> bool;
  redirect_registry_ : RedirectRegistry
}.

Definition AllowAllResourceFilter (r : Resource) : bool := true.

Definition new_ResourceCollection_with (resource_filter : Resource -> bool)
  : ResourceCollection :=
  mkCollection [] ∅ ∅ [] "" false resource_filter new_RedirectRegistry.

Definition new_ResourceCollection : ResourceCollection :=
  new_ResourceCollection_with AllowAllResourceFilter.

(** *** std::map<std::string, std::vector<std::string> >

    Iteration visits the entries in ascending order of the key
    (std::less<std::string>: bytewise lexicographic), so the map is kept as
    an association list sorted by key. *)
Definition RedirectMap := list (string * list string).

(** [m[key].push_back(value)] *)
Fixpoint RedirectMap_push_back (m : RedirectMap) (key value : string) : RedirectMap :=
  match m with
  | [] => [(key, [value])]
  | (k, vs) :: m' =>
      match String.compare key k with
      | Lt => (key, [value]) :: m
      | Eq => (k, vs ++ [value]) :: m'
      | Gt => (k, vs) :: RedirectMap_push_back m' key value
      end
  end.

(** [m[key]] on a non-const map: an absent key is inserted with an empty
    vector. *)
Fixpoint RedirectMap_subscript (m : RedirectMap) (key : string)
  : RedirectMap * list string :=
  match m with
  | [] => ([(key, [])], [])
  | (k, vs) :: m' =>
      match String.compare key k with
      | Lt => ((key, []) :: m, [])
      | Eq => (m, vs)
      | Gt => let '(m'', targets) := RedirectMap_subscript m' key in
              ((k, vs) :: m'', targets)
      end
  end.

Section Libraries.

(** uri_util::GetUriWithoutFragment (uri_util.h): [None] when it returns
    false. *)
Variable GetUriWithoutFragment : string -> option string.

(** uri_util::CanonicalizeUrl (uri_util.h). *)
Variable CanonicalizeUrl : string -> string.

(** The capacity that std::vector asks for when push_back finds the storage
    full, from the capacity it has: the choice is left to the implementation
    of the library. *)
Variable vector_growth : nat -> nat.

Definition url_canon_of (url : string) : string :=
  match GetUriWithoutFragment url with
  | Some url_canon => url_canon
  | None => url
  end.

Definition is_frozen (c : ResourceCollection) : bool := frozen_ c.

Definition num_resources (c : ResourceCollection) : nat := length (resources_ c).

Definition GetResource (c : ResourceCollection) (idx : nat) : option Resource :=
  resources_ c !! idx.

Definition has_resource_with_url (c : ResourceCollection) (url : string) : bool :=
  let url_canon := url_canon_of url in
  match url_resource_map_ c !! url_canon with
  | Some _ => true
  | None => false
  end.

Definition GetResourceWithUrlOrNull (c : ResourceCollection) (url : string)
  : ResourcePtr :=
  let url_canon := url_canon_of url in
  url_resource_map_ c !! url_canon.

Definition IsValidResource (c : ResourceCollection) (resource : Resource) : bool :=
  let url := GetRequestUrl resource in
  if String.eqb url "" then false
  else if has_resource_with_url c url then false
  else if (GetResponseStatusCode resource <=? 0)%Z then false
  else if negb (resource_filter_ c resource) then false
  else true.

Definition AddResource (c : ResourceCollection) (resource : Resource)
  : bool * ResourceCollection :=
  if is_frozen c then (false, c)
  else if negb (IsValidResource c resource) then (false, c)
  else
    let url := GetRequestUrl resource in
    let host := GetHost resource in
    (true,
     mkCollection
       (resources_ c ++ [resource])
       (<[url := resource]> (url_resource_map_ c))
       (<[host := ResourceSet_insert (default [] (host_resource_map_ c !! host)) resource]>
          (host_resource_map_ c))
       (request_order_vector_ c)
       (primary_resource_url_ c)
       (frozen_ c)
       (resource_filter_ c)
       (redirect_registry_ c)).

Definition GetResourcesInRequestOrder (c : ResourceCollection) : option ResourceVector :=
  match request_order_vector_ c with
  | [] => None
  | _ :: _ => Some (request_order_vector_ c)
  end.

Definition GetPrimaryResourceOrNull (c : ResourceCollection) : ResourcePtr :=
  let primary_resource_url := url_canon_of (primary_resource_url_ c) in
  if String.eqb primary_resource_url "" then None
  else GetResourceWithUrlOrNull c primary_resource_url.

Definition SetPrimaryResourceUrl (c : ResourceCollection) (url : string)
  : bool * ResourceCollection :=
  if is_frozen c then (false, c)
  else
    let canon_url := CanonicalizeUrl url in
    if negb (has_resource_with_url c canon_url) then (false, c)
    else
      (true,
       mkCollection (resources_ c) (url_resource_map_ c) (host_resource_map_ c)
         (request_order_vector_ c) canon_url (frozen_ c) (resource_filter_ c)
         (redirect_registry_ c)).

(** *** BuildFixUpRedirectChain *)

Fixpoint BuildFixUpRedirectChain_loop (resources : ResourceVector) (i : nat)
  (chain : RedirectChain) : RedirectChain :=
  match resources with
  | [] => chain
  | resource :: rest =>
      if ResourceType_eqb (GetResourceType resource) REDIRECT then
        BuildFixUpRedirectChain_loop rest (S i) (chain ++ [resource])
      else if (0 <? i)%nat then chain ++ [resource]
      else chain
  end.

Definition BuildFixUpRedirectChain (chain : RedirectChain)
  (resource_collection : ResourceCollection) : RedirectChain :=
  match GetResourcesInRequestOrder resource_collection with
  | None => chain
  | Some resources => BuildFixUpRedirectChain_loop resources 0 chain
  end.

(** *** RedirectGraph *)

Record RedirectGraph := mkGraph {
  redirect_map_ : RedirectMap;
  destinations_ : gset string;
  processed_ : gset string;
  resource_collection_ : ResourceCollection
}.

Definition new_RedirectGraph (resource_collection : ResourceCollection) : RedirectGraph :=
  mkGraph [] ∅ ∅ resource_collection.

Definition RedirectGraph_AddResource (g : RedirectGraph) (resource : Resource)
  : RedirectGraph :=
  let destination := GetRedirectedUrl resource in
  if String.eqb destination "" then g
  else
    mkGraph (RedirectMap_push_back (redirect_map_ g) (GetRequestUrl resource) destination)
            ({[destination]} ∪ destinations_ g)
            (processed_ g)
            (resource_collection_ g).

Fixpoint GetPriorizedRoots_loop (destinations : gset string) (m : RedirectMap)
  (primary_roots secondary_roots : list string) : list string * list string :=
  match m with
  | [] => (primary_roots, secondary_roots)
  | (root, _) :: m' =>
      if bool_decide (root ∈ destinations)
      then GetPriorizedRoots_loop destinations m' primary_roots (secondary_roots ++ [root])
      else GetPriorizedRoots_loop destinations m' (primary_roots ++ [root]) secondary_roots
  end.

Definition GetPriorizedRoots (g : RedirectGraph) (roots : list string) : list string :=
  let '(primary_roots, secondary_roots) :=
    GetPriorizedRoots_loop (destinations_ g) (redirect_map_ g) [] [] in
  (roots ++ primary_roots) ++ secondary_roots.

(** The number of target entries of the map; it bounds the pushes onto the
    work stack of the traversal below. *)
Definition RedirectMap_edges (m : RedirectMap) : nat :=
  foldr (fun entry n => length (snd entry) + n) 0 m.

(** The loop of PopulateRedirectChainResult.  The work stack is a list whose
    head is the back of the vector. *)
Fixpoint PopulateRedirectChainResult_loop (fuel : nat) (g : RedirectGraph)
  (work_stack : list string) (chain : RedirectChain) : RedirectGraph * RedirectChain :=
  match fuel with
  | 0 => (g, chain)
  | S fuel' =>
      match work_stack with
      | [] => (g, chain)
      | current :: work_stack =>
          match GetResourceWithUrlOrNull (resource_collection_ g) current with
          | None => PopulateRedirectChainResult_loop fuel' g work_stack chain
          | Some resource =>
              let chain := chain ++ [resource] in
              if bool_decide (current ∈ processed_ g) then
                PopulateRedirectChainResult_loop fuel' g work_stack chain
              else
                let '(m, targets) := RedirectMap_subscript (redirect_map_ g) current in
                let g := mkGraph m (destinations_ g) ({[current]} ∪ processed_ g)
                                 (resource_collection_ g) in
                PopulateRedirectChainResult_loop fuel' g (targets ++ work_stack) chain
          end
      end
  end.

Definition PopulateRedirectChainResult (g : RedirectGraph) (root : string)
  (chain : RedirectChain) : RedirectGraph * RedirectChain :=
  PopulateRedirectChainResult_loop (S (RedirectMap_edges (redirect_map_ g))) g [root] chain.

Fixpoint AppendRedirectChainResults_loop (g : RedirectGraph) (roots : list string)
  (chains : RedirectChainVector) : RedirectGraph * RedirectChainVector :=
  match roots with
  | [] => (g, chains)
  | root :: roots' =>
      if bool_decide (root ∈ processed_ g) then
        AppendRedirectChainResults_loop g roots' chains
      else
        let '(g', chain) := PopulateRedirectChainResult g root [] in
        AppendRedirectChainResults_loop g' roots' (chains ++ [chain])
  end.

Definition AppendRedirectChainResults (g : RedirectGraph) (chains : RedirectChainVector)
  : RedirectGraph * RedirectChainVector :=
  AppendRedirectChainResults_loop g (GetPriorizedRoots g []) chains.

(** *** RedirectRegistry *)

(** [resource_to_redirect_chain_map_[*cit] = chain] for every element of the
    chain. *)
Definition map_chain_resources (chain : RedirectChain) (p : RedirectChainPtr)
  (m : gmap nat RedirectChainPtr) : gmap nat RedirectChainPtr :=
  foldl (fun m resource => <[address resource := p]> m) m chain.

Fixpoint map_chains (chains : RedirectChainVector) (p : RedirectChainPtr)
  (m : gmap nat RedirectChainPtr) : gmap nat RedirectChainPtr :=
  match chains with
  | [] => m
  | chain :: rest => map_chains rest (S p) (map_chain_resources chain p m)
  end.

(** The storage (the address of its first slot and its capacity) of a
    vector of [size] elements after push_back.  With room left the element
    goes into the next slot.  Otherwise the elements are moved to a new
    block, which holds at least one element more and does not overlap the old
    one, and the old block is released. *)
Definition push_back_storage (data capacity size : nat) : nat * nat :=
  if (size <? capacity)%nat then (data, capacity)
  else (data + capacity, Nat.max (S size) (vector_growth capacity))%nat.

(** The storage after [n] calls of push_back on a vector of [size]
    elements. *)
Fixpoint push_backs_storage (n : nat) (data capacity size : nat) : nat * nat :=
  match n with
  | 0 => (data, capacity)
  | S n' =>
      let '(data', capacity') := push_back_storage data capacity size in
      push_backs_storage n' data' capacity' (S size)
  end.

(** [redirect_chains_.clear()] keeps the storage;
    AppendRedirectChainResults then calls push_back once for each chain.  The
    pointers that go into the map are taken when the vector is complete. *)
Definition BuildRedirectChains (registry : RedirectRegistry)
  (resource_collection : ResourceCollection) : RedirectRegistry :=
  let redirect_graph :=
    foldl RedirectGraph_AddResource (new_RedirectGraph resource_collection)
          (resources_ resource_collection) in
  let '(_, chains) := AppendRedirectChainResults redirect_graph [] in
  let '(data, capacity) :=
    push_backs_storage (length chains) (redirect_chains_data_ registry)
                       (redirect_chains_capacity_ registry) 0 in
  mkRegistry chains data capacity
             (map_chains chains data (resource_to_redirect_chain_map_ registry))
             (initialized_ registry).

Definition GetRedirectChains (registry : RedirectRegistry) : RedirectChainVector :=
  redirect_chains_ registry.

Definition GetRedirectChainOrNull (registry : RedirectRegistry) (resource : ResourcePtr)
  : option RedirectChainPtr :=
  match resource with
  | None => None
  | Some r => resource_to_redirect_chain_map_ registry !! address r
  end.

(** [None] stands for undefined behaviour: [back()] of an empty chain, or
    through a pointer that designates no element of the vector. *)
Definition GetFinalRedirectTarget (registry : RedirectRegistry) (resource : ResourcePtr)
  : option ResourcePtr :=
  match GetRedirectChainOrNull registry resource with
  | Some chain =>
      match deref_chain registry chain with
      | Some c => match last c with Some r => Some (Some r) | None => None end
      | None => None
      end
  | None => Some resource
  end.

(** The loop of Init that removes the chains whose first resource occurs in
    the fix-up chain, together with their entries of the map.  erase moves
    the elements behind the erased one a slot down, in the same storage. *)
Fixpoint Init_erase_loop (chains : RedirectChainVector) (m : gmap nat RedirectChainPtr)
  (fixup_chain : RedirectChain) : RedirectChainVector * gmap nat RedirectChainPtr :=
  match chains with
  | [] => ([], m)
  | chain :: rest =>
      match chain with
      | [] =>
          let '(rest', m') := Init_erase_loop rest m fixup_chain in
          (chain :: rest', m')
      | first :: _ =>
          if existsb (same_resource first) fixup_chain then
            let m := foldl (fun m resource => delete (address resource) m) m chain in
            Init_erase_loop rest m fixup_chain
          else
            let '(rest', m') := Init_erase_loop rest m fixup_chain in
            (chain :: rest', m')
      end
  end.

(** The first statement of Init: the chains are built unless the registry is
    initialized already. *)
Definition Init_build (registry : RedirectRegistry)
  (resource_collection : ResourceCollection) : RedirectRegistry :=
  if negb (initialized_ registry) && is_frozen resource_collection then
    let r := BuildRedirectChains registry resource_collection in
    mkRegistry (redirect_chains_ r) (redirect_chains_data_ r)
               (redirect_chains_capacity_ r) (resource_to_redirect_chain_map_ r) true
  else registry.

Definition Init (registry : RedirectRegistry) (resource_collection : ResourceCollection)
  : RedirectRegistry :=
  let registry := Init_build registry resource_collection in
  let fixup_chain := BuildFixUpRedirectChain [] resource_collection in
  match last fixup_chain with
  | None => registry
  | Some fixup_back =>
      let primary_resource :=
        match GetPrimaryResourceOrNull resource_collection with
        | None => fixup_back
        | Some r => r
        end in
      let primary_chain := GetRedirectChainOrNull registry (Some primary_resource) in
      let replace :=
        match primary_chain with
        | None => true
        | Some p =>
            (* primary_chain->size(); after BuildRedirectChains the pointer
               designates an element of the vector, nothing having been
               erased or pushed yet *)
            (length (default [] (deref_chain registry p)) <? length fixup_chain)%nat
        end in
      if replace then
        let '(chains, m) :=
          Init_erase_loop (redirect_chains_ registry)
                          (resource_to_redirect_chain_map_ registry) fixup_chain in
        (* redirect_chains_.push_back(fixup_chain) *)
        let '(data, capacity) :=
          push_back_storage (redirect_chains_data_ registry)
                            (redirect_chains_capacity_ registry) (length chains) in
        let chains := chains ++ [fixup_chain] in
        (* &redirect_chains_.back() *)
        let primary_chain := (data + (length chains - 1))%nat in
        mkRegistry chains data capacity
                   (map_chain_resources fixup_chain primary_chain m)
                   (initialized_ registry)
      else registry
  end.

(** *** ResourceCollection::Freeze *)

Definition Freeze (c : ResourceCollection) : bool * ResourceCollection :=
  let have_start_times_for_all_resources :=
    forallb has_request_start_time_millis (resources_ c) in
  let request_order_vector :=
    if have_start_times_for_all_resources then stable_sort (resources_ c)
    else request_order_vector_ c in
  let frozen :=
    mkCollection (resources_ c) (url_resource_map_ c) (host_resource_map_ c)
      request_order_vector (primary_resource_url_ c) true (resource_filter_ c)
      (redirect_registry_ c) in
  (true,
   mkCollection (resources_ c) (url_resource_map_ c) (host_resource_map_ c)
     request_order_vector (primary_resource_url_ c) true (resource_filter_ c)
     (Init (redirect_registry_ c) frozen)).

Definition GetRedirectRegistry (c : ResourceCollection) : RedirectRegistry :=
  redirect_registry_ c.

End Libraries.

(** Modelled from the spec: uri_util is not among the sources.  The
    specification describes the canonical form used as a key as the URL with
    its fragment stripped; this instance cuts the URL at the first '#' and
    never fails.  It only instantiates the parameter for closed examples. *)
Fixpoint strip_fragment (url : string) : string :=
  match url with
  | EmptyString => EmptyString
  | String c rest => if Ascii.eqb c "#" then EmptyString else String c (strip_fragment rest)
  end.

Definition GetUriWithoutFragment_model (url : string) : option string :=
  Some (strip_fragment url).

(** Modelled from the spec: CanonicalizeUrl is only described as an external
    primitive; the instance for closed examples leaves the URL as it is. *)
Definition CanonicalizeUrl_model (url : string) : string := url.

(** std::vector is not among the sources.  The instance for closed examples
    doubles the capacity, as libstdc++ and libc++ do; with the one element
    more that push_back asks for, a vector without storage gets room for one
    element. *)
Definition vector_growth_model (capacity : nat) : nat := 2 * capacity.

(** *** Notions used to state properties of the collection and the registry *)

(** The order of std::less<std::string>. *)
Definition url_lt (a b : string) : Prop := String.compare a b = Lt.

(** The graph that BuildRedirectChains builds from the collection. *)
Definition graph_of (resource_collection : ResourceCollection) : RedirectGraph :=
  foldl RedirectGraph_AddResource (new_RedirectGraph resource_collection)
        (resources_ resource_collection).

(** A redirect source: the request URL of a resource of the vector for which
    a redirect target is computed. *)
Definition is_source (resources : ResourceVector) (url : string) : Prop :=
  exists r, In r resources /\ GetRequestUrl r = url /\ GetRedirectedUrl r <> "".

(** The redirect sources in the order in which the scan of the resource
    vector first meets them. *)
Fixpoint first_observed (resources : ResourceVector) (seen : list string) : list string :=
  match resources with
  | [] => []
  | r :: rest =>
      if String.eqb (GetRedirectedUrl r) "" then first_observed rest seen
      else if existsb (String.eqb (GetRequestUrl r)) seen then first_observed rest seen
      else GetRequestUrl r :: first_observed rest (GetRequestUrl r :: seen)
  end.

(** The roots as C6 states them: those that are no redirect target first,
    each group in first-observed order. *)
Definition roots_in_observation_order (resource_collection : ResourceCollection)
  : list string :=
  let g := graph_of resource_collection in
  let sources := first_observed (resources_ resource_collection) [] in
  List.filter (fun u => negb (bool_decide (u ∈ destinations_ g))) sources ++
  List.filter (fun u => bool_decide (u ∈ destinations_ g)) sources.

Definition is_redirect (r : Resource) : bool :=
  ResourceType_eqb (GetResourceType r) REDIRECT.

(** The REDIRECT resources at the front of a vector, and the first resource
    behind them. *)
Fixpoint leading_redirects (v : ResourceVector) : ResourceVector :=
  match v with
  | [] => []
  | r :: rest => if is_redirect r then r :: leading_redirects rest else []
  end.

Fixpoint first_non_redirect (v : ResourceVector) : option Resource :=
  match v with
  | [] => None
  | r :: rest => if is_redirect r then first_non_redirect rest else Some r
  end.

(** The target entries of the keys that are not processed yet: with the
    height of the work stack, what is left to do for the traversal. *)
Definition unprocessed_edges (processed : gset string) (m : RedirectMap) : nat :=
  foldr (fun entry n =>
           (if bool_decide (fst entry ∈ processed) then 0 else length (snd entry)) + n)
        0 m.

(** *** Resources and collections for closed examples *)

Definition example_resource (addr : nat) (url : string) (type : ResourceType)
  (target : string) (start : option Z) : Resource :=
  {| address := addr; GetRequestUrl := url; GetHost := "www.example.com";
     GetResponseStatusCode := 200; request_start_time_millis := start;
     GetResourceType := type; GetRedirectedUrl := target |}.

Definition add_all (resources : list Resource) : ResourceCollection :=
  foldl (fun c r => snd (AddResource GetUriWithoutFragment_model c r))
        new_ResourceCollection resources.

Definition freeze_all (resources : list Resource) : ResourceCollection :=
  snd (Freeze GetUriWithoutFragment_model vector_growth_model (add_all resources)).

(** A chain of two redirects that ends in a page. *)
Definition example_a := example_resource 1 "http://a/" REDIRECT "http://b/" (Some 1%Z).
Definition example_b := example_resource 2 "http://b/" REDIRECT "http://c/" (Some 2%Z).
Definition example_c := example_resource 3 "http://c/" OTHER "" (Some 3%Z).

(** A page that is requested before them. *)
Definition example_p := example_resource 7 "http://p/" OTHER "" (Some 0%Z).

(** Two unrelated redirects, the one with the greater URL added first. *)
Definition example_z := example_resource 4 "http://z/" REDIRECT "http://z2/" None.
Definition example_y := example_resource 5 "http://y/" REDIRECT "http://y2/" None.

(** A resource whose request URL carries a fragment. *)
Definition example_fragment :=
  example_resource 6 "http://www.example.com/#top" OTHER "" None.

(** A redirect R to the page S and a page Q, requested in the order R, Q, S,
    and a redirect X to R that is requested last. *)
Definition example_r := example_resource 8 "http://r/" REDIRECT "http://s/" (Some 10%Z).
Definition example_q := example_resource 9 "http://q/" OTHER "" (Some 11%Z).
Definition example_s := example_resource 10 "http://s/" OTHER "" (Some 12%Z).
Definition example_x := example_resource 11 "http://x/" REDIRECT "http://r/" (Some 13%Z).

(** A redirect M to the page N, requested after A and C. *)
Definition example_m := example_resource 12 "http://m/" REDIRECT "http://n/" (Some 4%Z).
Definition example_n := example_resource 13 "http://n/" OTHER "" (Some 5%Z).

(** *** Notions used to state further properties of the collection *)

Section Built.

Variable GetUriWithoutFragment : string -> option string.
Variable CanonicalizeUrl : string -> string.

(** The collections a caller can have before Freeze: a new one, to which
    AddResource and SetPrimaryResourceUrl were applied, whatever they
    returned.  The resources stay as they were added: no change is made to
    them through GetMutableResource. *)
Inductive Built : ResourceCollection -> Prop :=
| Built_new resource_filter : Built (new_ResourceCollection_with resource_filter)
| Built_AddResource c resource :
    Built c -> Built (snd (AddResource GetUriWithoutFragment c resource))
| Built_SetPrimaryResourceUrl c url :
    Built c ->
    Built (snd (SetPrimaryResourceUrl GetUriWithoutFragment CanonicalizeUrl c url)).

End Built.

End ResourceCollection.

(** ** pagespeed/image_compression/image_converter.cc *)

Module ImageConverter.

(** Modelled from the spec: image_converter.h is not among the sources; these
    are the enumerators of ImageConverter::ImageType that the code names. *)
Inductive ImageType := IMAGE_NONE | IMAGE_PNG | IMAGE_JPEG | IMAGE_WEBP.

Definition ImageType_eqb (a b : ImageType) : bool :=
  match a, b with
  | IMAGE_NONE, IMAGE_NONE | IMAGE_PNG, IMAGE_PNG
  | IMAGE_JPEG, IMAGE_JPEG | IMAGE_WEBP, IMAGE_WEBP => true
  | _, _ => false
  end.

(** The code only tells UNSUPPORTED from the other pixel formats. *)
Inductive PixelFormat := UNSUPPORTED | SUPPORTED.

(** A pointer that is dereferenced while it is NULL. *)
Inductive NullPointer := null_webp_writer | null_jpeg_options | null_best_lossy_image.

(** What a call comes to: it completes with a value, or it dereferences a
    null pointer. *)
Inductive Outcome (A : Type) :=
| Done (a : A)
| NullDereference (p : NullPointer).
Arguments Done {A} a.
Arguments NullDereference {A} p.

Definition bind {A B : Type} (x : Outcome A) (f : A -> Outcome B) : Outcome B :=
  match x with
  | Done a => f a
  | NullDereference p => NullDereference p
  end.

(** [*p] *)
Definition deref {A : Type} (p : option A) (which : NullPointer) : Outcome A :=
  match p with
  | Some a => Done a
  | None => NullDereference which
  end.

Definition kMinJpegSavingsRatio : Q := (8 # 10)%Q.
Definition kMinWebpSavingsRatio : Q := (8 # 10)%Q.

Section Libraries.

(** The libraries behind the readers and writers (libpng, libjpeg, libwebp,
    PngOptimizer) are parameters.  A failure reported by a library, be it a
    false result or a longjmp back to the setjmp of the caller, is the
    failing answer of the corresponding function. *)
Variables PngReaderInterface JpegCompressionOptions WebpConfiguration Scanline : Type.

(** [WebpConfiguration webp_config_lossless;] *)
Variable default_WebpConfiguration : WebpConfiguration.

(** The comparison [a < b * ratio], which the source evaluates in double
    precision. *)
Variable size_less_than_scaled : nat -> nat -> Q -> bool.

Record PngImage := {
  GetImageWidth : nat;
  GetImageHeight : nat;
  GetPixelFormat : PixelFormat;
  (** what the successive calls of ReadNextScanline give, [None] for a
      failed read *)
  scanlines : list (option Scanline)
}.

(** PngScanlineReader::InitializeRead under the given transform
    ([true] when PNG_TRANSFORM_GRAY_TO_RGB is part of it). *)
Variable PngScanlineReader_InitializeRead :
  PngReaderInterface -> bytes -> bool -> option PngImage.

Variable JpegScanlineWriter_Init : nat -> nat -> PixelFormat -> bool.
Variable JpegScanlineWriter_WriteNextScanline : list Scanline -> Scanline -> bool.
(** FinalizeWrite of a writer that was given the options and the rows: the
    bytes left in the output string when it succeeds. *)
Variable JpegScanlineWriter_FinalizeWrite :
  JpegCompressionOptions -> list Scanline -> option bytes.

Variable WebpScanlineWriter_Init : nat -> nat -> PixelFormat -> bool.
Variable WebpScanlineWriter_InitializeWrite : WebpConfiguration -> bool.
Variable WebpScanlineWriter_WriteNextScanline : list Scanline -> Scanline -> bool.
Variable WebpScanlineWriter_FinalizeWrite :
  WebpConfiguration -> list Scanline -> option bytes.

Variable OptimizePngBestCompression : PngReaderInterface -> bytes -> option bytes.

(** A writer: the rows written so far and what FinalizeWrite left in the
    output string. *)
Record Writer := mkWriter {
  rows : list Scanline;
  written : bytes
}.

(** ConvertImage over a reader that still has the given scanlines to
    deliver, with the two operations of the writer. *)
Fixpoint ConvertImage (reader : list (option Scanline))
  (WriteNextScanline : list Scanline -> Scanline -> bool)
  (FinalizeWrite : list Scanline -> option bytes)
  (writer : Writer) : bool * Writer :=
  match reader with
  | [] =>
      match FinalizeWrite (rows writer) with
      | Some out => (true, mkWriter (rows writer) out)
      | None => (false, writer)
      end
  | None :: _ => (false, writer)
  | Some scan_row :: reader' =>
      if WriteNextScanline (rows writer) scan_row
      then ConvertImage reader' WriteNextScanline FinalizeWrite
             (mkWriter (rows writer ++ [scan_row]) (written writer))
      else (false, writer)
  end.

Definition ConvertPngToJpeg (png_struct_reader : PngReaderInterface) (input : bytes)
  (options : JpegCompressionOptions) : bool * bytes :=
  match PngScanlineReader_InitializeRead png_struct_reader input false with
  | None => (false, [])
  | Some png_reader =>
      let width := GetImageWidth png_reader in
      let height := GetImageHeight png_reader in
      let format := GetPixelFormat png_reader in
      if (0 <? height)%nat && (0 <? width)%nat &&
         negb (match format with UNSUPPORTED => true | SUPPORTED => false end) then
        if JpegScanlineWriter_Init width height format then
          let '(jpeg_success, jpeg_writer) :=
            ConvertImage (scanlines png_reader)
                         JpegScanlineWriter_WriteNextScanline
                         (JpegScanlineWriter_FinalizeWrite options)
                         (mkWriter [] []) in
          (jpeg_success, written jpeg_writer)
        else (false, [])
      else (false, [])
  end.

(** The five-argument ConvertPngToWebp, entered with [*webp_writer == NULL];
    the third component is [*webp_writer] on return. *)
Definition ConvertPngToWebp (png_struct_reader : PngReaderInterface) (input : bytes)
  (webp_config : WebpConfiguration) : bool * bytes * option Writer :=
  match PngScanlineReader_InitializeRead png_struct_reader input true with
  | None => (false, [], None)
  | Some png_reader =>
      let width := GetImageWidth png_reader in
      let height := GetImageHeight png_reader in
      let format := GetPixelFormat png_reader in
      let webp_writer := mkWriter [] [] in
      if (0 <? height)%nat && (0 <? width)%nat &&
         negb (match format with UNSUPPORTED => true | SUPPORTED => false end) then
        if WebpScanlineWriter_Init width height format &&
           WebpScanlineWriter_InitializeWrite webp_config then
          let '(webp_success, webp_writer) :=
            ConvertImage (scanlines png_reader)
                         WebpScanlineWriter_WriteNextScanline
                         (WebpScanlineWriter_FinalizeWrite webp_config)
                         webp_writer in
          (webp_success, written webp_writer, Some webp_writer)
        else (false, [], Some webp_writer)
      else (false, [], Some webp_writer)
  end.

(** SelectSmallerImage updates [*best_image_type] and [*best_image]; a
    [const std::string*] is the string it points to, or [None] for NULL. *)
Definition SelectSmallerImage (new_image_type : ImageType) (new_image : bytes)
  (threshold_ratio : Q) (best : ImageType * option bytes)
  : ImageType * option bytes :=
  let '(best_image_type, best_image) := best in
  let new_image_size := length new_image in
  if (0 <? new_image_size)%nat &&
     (ImageType_eqb best_image_type IMAGE_NONE ||
      (negb (ImageType_eqb new_image_type IMAGE_NONE) &&
       match best_image with
       | Some b => size_less_than_scaled new_image_size (length b) threshold_ratio
       | None => false
       end))
  then (new_image_type, Some new_image)
  else best.

(** The candidate encodings that GetSmallestOfPngJpegWebp prepares. *)
Record Candidates := mkCandidates {
  jpeg_out : bytes;
  png_out : bytes;
  webp_lossless_out : bytes;
  webp_lossy_out : bytes
}.

(** The first part of GetSmallestOfPngJpegWebp, up to the conversions. *)
Definition GetSmallestOfPngJpegWebp_convert (png_struct_reader : PngReaderInterface)
  (input : bytes) (jpeg_options : option JpegCompressionOptions)
  (webp_config : option WebpConfiguration) : Outcome Candidates :=
  let '(lossless_ok, lossless_out, webp_writer) :=
    ConvertPngToWebp png_struct_reader input default_WebpConfiguration in
  let webp_lossless_out := if lossless_ok then lossless_out else [] in
  bind
    (match webp_config with
     | None => Done []
     | Some config =>
         bind (deref webp_writer null_webp_writer) (fun writer =>
           if WebpScanlineWriter_InitializeWrite config then
             match WebpScanlineWriter_FinalizeWrite config (rows writer) with
             | Some out => Done out
             | None => Done []
             end
           else Done [])
     end)
    (fun webp_lossy_out =>
  let png_out :=
    match OptimizePngBestCompression png_struct_reader input with
    | Some out => out
    | None => []
    end in
  bind
    (match jpeg_options with
     | None =>
         (* jpeg_options == NULL: the second operand is evaluated *)
         bind (deref jpeg_options null_jpeg_options) (fun options =>
           let '(ok, out) := ConvertPngToJpeg png_struct_reader input options in
           Done (if ok then out else []))
     | Some _ => Done []
     end)
    (fun jpeg_out =>
  Done (mkCandidates jpeg_out png_out webp_lossless_out webp_lossy_out))).

(** The second part: the selection among the candidates. *)
Definition GetSmallestOfPngJpegWebp_select (input : bytes) (c : Candidates)
  : Outcome (ImageType * bytes) :=
  let best_lossless := (IMAGE_NONE, None) in
  let best_lossy := (IMAGE_NONE, None) in
  let best_lossless := SelectSmallerImage IMAGE_NONE input 1 best_lossless in
  let best_lossless := SelectSmallerImage IMAGE_WEBP (webp_lossless_out c) 1 best_lossless in
  let best_lossless := SelectSmallerImage IMAGE_PNG (png_out c) 1 best_lossless in
  let best_lossy := SelectSmallerImage IMAGE_WEBP (webp_lossy_out c) 1 best_lossy in
  let best_lossy := SelectSmallerImage IMAGE_JPEG (jpeg_out c) 1 best_lossy in
  let '(best_lossy_image_type, best_lossy_image) := best_lossy in
  let threshold_ratio :=
    if ImageType_eqb best_lossy_image_type IMAGE_WEBP
    then kMinWebpSavingsRatio else kMinJpegSavingsRatio in
  bind (deref best_lossy_image null_best_lossy_image) (fun lossy =>
    let '(best_image_type, best_image) :=
      SelectSmallerImage best_lossy_image_type lossy threshold_ratio best_lossless in
    Done (best_image_type,
          match best_image with Some b => b | None => input end)).

(** The result is the returned ImageType and the contents of [*out]. *)
Definition GetSmallestOfPngJpegWebp (png_struct_reader : PngReaderInterface)
  (input : bytes) (jpeg_options : option JpegCompressionOptions)
  (webp_config : option WebpConfiguration) : Outcome (ImageType * bytes) :=
  bind (GetSmallestOfPngJpegWebp_convert png_struct_reader input jpeg_options webp_config)
       (GetSmallestOfPngJpegWebp_select input).

(** *** OptimizePngOrConvertToJpeg *)

(** The comparison [a > ratio * b], which the source evaluates in double
    precision. *)
Variable size_greater_than_scaled : nat -> nat -> Q -> bool.

(** The result is the returned bool, the contents of [*out] and
    [*is_out_png].  The string [optimized_png_out] is read only when the
    optimizer succeeded. *)
Definition OptimizePngOrConvertToJpeg (png_struct_reader : PngReaderInterface)
  (input : bytes) (options : JpegCompressionOptions) : bool * bytes * bool :=
  let '(jpeg_success, out) := ConvertPngToJpeg png_struct_reader input options in
  let '(png_success, optimized_png_out) :=
    match OptimizePngBestCompression png_struct_reader input with
    | Some optimized => (true, optimized)
    | None => (false, [])
    end in
  if png_success &&
     (negb jpeg_success ||
      size_greater_than_scaled (length out) (length optimized_png_out)
                               kMinJpegSavingsRatio)
  then (jpeg_success || png_success, optimized_png_out, true)
  else (jpeg_success || png_success, out, false).

End Libraries.

End ImageConverter.

(** * Properties *)

Unset Implicit Arguments.

(** ** The minifier *)

Module JsMinifyFacts.
Import JsMinify.

#[local] Arguments substr_from : simpl never.
#[local] Arguments substr : simpl never.

Section Scanning.

Variable char_is_signed : bool.

#[local] Abbreviation block_comment_loop := (block_comment_loop char_is_signed).
#[local] Abbreviation line_comment_loop := (line_comment_loop char_is_signed).
#[local] Abbreviation name_loop := (name_loop char_is_signed).
#[local] Abbreviation regex_loop := (regex_loop char_is_signed).
#[local] Abbreviation string_loop := (string_loop char_is_signed).

Lemma block_comment_loop_bounds rest index :
  match block_comment_loop rest index with
  | LoopReturn i => index + 2 <= i <= index + length rest
  | LoopBreak _ => False
  | LoopEnd i => i = index + length rest
  end.
Proof.
  revert index; induction rest as [|c rest IH]; intros index; simpl.
  - lia.
  - destruct (_ && _) eqn:E.
    + destruct rest as [|c' rest]; simpl in *; [|lia].
      apply andb_true_iff in E as [_ E]. discriminate.
    + specialize (IH (S index)). destruct (block_comment_loop rest (S index)); lia.
Qed.

Lemma line_comment_loop_bounds rest index :
  index <= line_comment_loop rest index <= index + length rest.
Proof.
  revert index; induction rest as [|c rest IH]; intros index; simpl; [lia|].
  destruct (_ || _); [lia|]. specialize (IH (S index)). lia.
Qed.

Lemma name_loop_spec rest index token :
  exists n, n <= length rest /\
    name_loop rest index token = (index + n, token ++ firstn n rest).
Proof.
  revert index token; induction rest as [|c rest IH]; intros index token; simpl.
  - exists 0. rewrite app_nil_r, Nat.add_0_r. auto.
  - destruct (IsIdentifierChar _).
    + destruct (IH (S index) (token ++ [c])) as (n & Hn & ->).
      exists (S n). split; [lia|]. simpl. rewrite <- app_assoc. simpl.
      f_equal. lia.
    + exists 0. simpl. rewrite app_nil_r, Nat.add_0_r. split; [lia|auto].
Qed.

Lemma regex_loop_bounds rest index wb :
  match regex_loop rest index wb with
  | LoopReturn i | LoopBreak i => index < i <= index + length rest
  | LoopEnd i => index + length rest <= i <= index + length rest + 1
  end.
Proof.
  remember (length rest) as n eqn:Hn.
  revert rest index wb Hn. induction n as [n IH] using lt_wf_ind.
  intros rest index wb ->.
  destruct rest as [|c rest]; simpl; [lia|].
  destruct (_ =? _)%Z.
  { destruct rest as [|c' rest]; simpl; [lia|].
    specialize (IH (length rest) ltac:(simpl; lia) rest (S (S index)) wb eq_refl).
    destruct (regex_loop rest _ wb); lia. }
  assert (Hrec : forall wb', match regex_loop rest (S index) wb' with
     | LoopReturn i | LoopBreak i => index < i <= index + S (length rest)
     | LoopEnd i => index + S (length rest) <= i <= index + S (length rest) + 1 end).
  { intros wb'. specialize (IH (length rest) ltac:(simpl; lia) rest (S index) wb' eq_refl).
    destruct (regex_loop rest _ wb'); lia. }
  destruct (_ =? _)%Z.
  { destruct wb; simpl; [apply Hrec | lia]. }
  destruct (_ =? _)%Z; [apply Hrec|].
  destruct (_ =? _)%Z; [apply Hrec|].
  destruct (_ =? _)%Z; [lia | apply Hrec].
Qed.

Lemma string_loop_bounds quote rest index :
  match string_loop quote rest index with
  | LoopReturn i => index < i <= index + length rest
  | LoopBreak _ => False
  | LoopEnd i => index + length rest <= i <= index + length rest + 1
  end.
Proof.
  remember (length rest) as n eqn:Hn.
  revert rest index Hn. induction n as [n IH] using lt_wf_ind.
  intros rest index ->.
  destruct rest as [|c rest]; simpl; [lia|].
  destruct (_ =? _)%Z.
  { destruct rest as [|c' rest]; simpl; [lia|].
    specialize (IH (length rest) ltac:(simpl; lia) rest (S (S index)) eq_refl).
    destruct (string_loop quote rest _); lia. }
  destruct (_ =? _)%Z; [lia|].
  specialize (IH (length rest) ltac:(simpl; lia) rest (S index) eq_refl).
  destruct (string_loop quote rest _); lia.
Qed.

End Scanning.

(** Each of the operations on the Minifier state, field by field. *)
Section Fields.

Context {O : Type} {sink : OutputConsumer O}.
Implicit Types m : Minifier (O:=O).

Lemma ChangeToken_index t m : index_ (ChangeToken t m) = index_ m.
Proof. unfold ChangeToken. destruct (_ && _); reflexivity. Qed.
Lemma ChangeToken_error t m : error_ (ChangeToken t m) = error_ m.
Proof. unfold ChangeToken. destruct (_ && _); reflexivity. Qed.
Lemma ChangeToken_collapse t m : collapse_string_ (ChangeToken t m) = collapse_string_ m.
Proof. unfold ChangeToken. destruct (_ && _); reflexivity. Qed.
Lemma ChangeToken_whitespace t m : whitespace_ (ChangeToken t m) = NO_WHITESPACE.
Proof. unfold ChangeToken. destruct (_ && _); reflexivity. Qed.
Lemma ChangeToken_prev_token t m : prev_token_ (ChangeToken t m) = t.
Proof. unfold ChangeToken. destruct (_ && _); reflexivity. Qed.

Lemma InsertSpaceIfNeeded_index m : index_ (InsertSpaceIfNeeded m) = index_ m.
Proof. unfold InsertSpaceIfNeeded. destruct (whitespace_ m); reflexivity. Qed.
Lemma InsertSpaceIfNeeded_error m : error_ (InsertSpaceIfNeeded m) = error_ m.
Proof. unfold InsertSpaceIfNeeded. destruct (whitespace_ m); reflexivity. Qed.
Lemma InsertSpaceIfNeeded_collapse m :
  collapse_string_ (InsertSpaceIfNeeded m) = collapse_string_ m.
Proof. unfold InsertSpaceIfNeeded. destruct (whitespace_ m); reflexivity. Qed.
Lemma InsertSpaceIfNeeded_whitespace m : whitespace_ (InsertSpaceIfNeeded m) = NO_WHITESPACE.
Proof. unfold InsertSpaceIfNeeded. destruct (whitespace_ m); reflexivity. Qed.
Lemma InsertSpaceIfNeeded_prev_token m : prev_token_ (InsertSpaceIfNeeded m) = prev_token_ m.
Proof. unfold InsertSpaceIfNeeded. destruct (whitespace_ m); reflexivity. Qed.

End Fields.

Create Rewrite HintDb minifier.

#[export] Hint Rewrite @ChangeToken_index @ChangeToken_error @ChangeToken_collapse
  @ChangeToken_whitespace @ChangeToken_prev_token
  @InsertSpaceIfNeeded_index @InsertSpaceIfNeeded_error @InsertSpaceIfNeeded_collapse
  @InsertSpaceIfNeeded_whitespace @InsertSpaceIfNeeded_prev_token : minifier.

(** The control part of the state: everything but the sink. *)
Ltac fields := cbn [index_ error_ collapse_string_ whitespace_ prev_token_ output_
                    set_index set_error set_whitespace set_prev_token set_output
                    output_push_back output_append] in *.

Ltac branch :=
  match goal with |- ?P (if ?b then _ else _) => destruct b eqn:? end.

Ltac space_if :=
  match goal with
  | |- context [if ?b then InsertSpaceIfNeeded _ else _] => destruct b eqn:?
  end.

Ltac msimpl := repeat (progress (fields; autorewrite with minifier in * )).

Section Progress.

Variable char_is_signed : bool.
Variable CanKeywordPrecedeRegEx : bytes -> bool.
Context {O : Type} {sink : OutputConsumer O}.
Variable input_ : bytes.
Implicit Types m : Minifier (O:=O).

#[local] Abbreviation Minify_body := (Minify_body char_is_signed CanKeywordPrecedeRegEx input_).
#[local] Abbreviation Minify_loop := (Minify_loop char_is_signed CanKeywordPrecedeRegEx input_).
#[local] Abbreviation Minify := (Minify char_is_signed CanKeywordPrecedeRegEx input_).
#[local] Abbreviation ConsumeString := (ConsumeString char_is_signed input_).
#[local] Abbreviation ConsumeRegex := (ConsumeRegex char_is_signed input_).
#[local] Abbreviation ConsumeBlockComment := (ConsumeBlockComment char_is_signed input_).
#[local] Abbreviation ConsumeLineComment := (ConsumeLineComment char_is_signed input_).
#[local] Abbreviation ConsumeNameOrNumber :=
  (ConsumeNameOrNumber char_is_signed CanKeywordPrecedeRegEx input_).

#[local] Abbreviation advances := (JsMinify.advances input_).

Lemma skipn_length_le (i : nat) : i <= length input_ ->
  i + length (substr_from input_ i) = length input_.
Proof. intros. unfold substr_from. rewrite length_skipn. lia. Qed.

Lemma ConsumeString_advances m :
  index_ m < length input_ -> error_ m = false -> advances m (ConsumeString m).
Proof.
  intros Hi He. unfold ConsumeString, JsMinify.advances.
  destruct (nth_error input_ (index_ m)) as [q|] eqn:Hq;
    [|apply nth_error_None in Hq; lia].
  pose proof (string_loop_bounds char_is_signed (char_to_int char_is_signed q)
                (substr_from input_ (S (index_ m))) (S (index_ m))) as Hb.
  pose proof (skipn_length_le (S (index_ m)) ltac:(lia)).
  destruct (string_loop _ _ _ _) as [i|i|i]; fields.
  - msimpl.
    destruct (collapse_string_ m) eqn:Hcol; fields;
      autorewrite with minifier; fields; (split; [auto|right; split; [auto|lia]]).
  - tauto.
  - auto.
Qed.

Lemma ConsumeRegex_advances m :
  index_ m < length input_ -> error_ m = false -> advances m (ConsumeRegex m).
Proof.
  intros Hi He. unfold ConsumeRegex, JsMinify.advances.
  pose proof (regex_loop_bounds char_is_signed
                (substr_from input_ (S (index_ m))) (S (index_ m)) false) as Hb.
  pose proof (skipn_length_le (S (index_ m)) ltac:(lia)).
  destruct (regex_loop _ _ _ _) as [i|i|i]; fields; auto.
  destruct (_ =? _)%Z; msimpl;
    (split; [auto|right; split; [auto|lia]]).
Qed.

Lemma ConsumeBlockComment_advances m :
  index_ m + 1 < length input_ -> error_ m = false ->
  advances m (ConsumeBlockComment m).
Proof.
  intros Hi He. unfold ConsumeBlockComment, JsMinify.advances.
  pose proof (block_comment_loop_bounds char_is_signed
                (substr_from input_ (index_ m + 2)) (index_ m + 2)) as Hb.
  pose proof (skipn_length_le (index_ m + 2) ltac:(lia)).
  destruct (block_comment_loop _ _ _) as [i|i|i]; fields; auto.
  destruct (_ && _); [|destruct (Whitespace_eqb _ _)];
    msimpl; (split; [auto|right; split; [auto|lia]]).
Qed.

Lemma substr_from_cons (i : nat) c :
  nth_error input_ i = Some c ->
  substr_from input_ i = c :: substr_from input_ (S i).
Proof.
  unfold substr_from. revert i. induction input_ as [|a l IH]; intros [|i] Hn;
    simpl in *; try discriminate.
  - injection Hn as ->. reflexivity.
  - rewrite (IH i Hn). reflexivity.
Qed.

Lemma ConsumeLineComment_advances m c :
  nth_error input_ (index_ m) = Some c ->
  ((char_to_int char_is_signed c =? CH_LF) ||
   (char_to_int char_is_signed c =? CH_CR))%Z = false ->
  error_ m = false -> advances m (ConsumeLineComment m).
Proof.
  intros Hc Hnl He. unfold ConsumeLineComment, JsMinify.advances. fields.
  assert (Hi : index_ m < length input_) by (apply nth_error_Some; congruence).
  rewrite (substr_from_cons _ _ Hc). simpl. rewrite Hnl.
  pose proof (line_comment_loop_bounds char_is_signed
                (substr_from input_ (S (index_ m))) (S (index_ m))) as Hb.
  pose proof (skipn_length_le (S (index_ m)) ltac:(lia)).
  split; [auto|right; split; [auto|lia]].
Qed.

Lemma ConsumeNameOrNumber_advances m c :
  nth_error input_ (index_ m) = Some c ->
  IsIdentifierChar (char_to_int char_is_signed c) = true ->
  error_ m = false -> advances m (ConsumeNameOrNumber m).
Proof.
  intros Hc Hid He. unfold ConsumeNameOrNumber, JsMinify.advances.
  assert (Hi : index_ m < length input_) by (apply nth_error_Some; congruence).
  set (m0 := if (_ || _)%bool then InsertSpaceIfNeeded m else m).
  assert (H0 : index_ m0 = index_ m /\ error_ m0 = error_ m /\
               collapse_string_ m0 = collapse_string_ m).
  { subst m0. destruct (_ || _)%bool; autorewrite with minifier; auto. }
  destruct H0 as (Hi0 & He0 & Hc0). rewrite Hi0.
  rewrite (substr_from_cons _ _ Hc). simpl. rewrite Hid.
  destruct (name_loop_spec char_is_signed (substr_from input_ (S (index_ m)))
              (S (index_ m)) [c]) as (n & Hn & ->).
  pose proof (skipn_length_le (S (index_ m)) ltac:(lia)).
  msimpl. rewrite He0, Hc0.
  split; [auto|right; split; [auto|lia]].
Qed.

Lemma Minify_body_advances m :
  Minify_cond input_ m = true -> advances m (Minify_body m).
Proof.
  unfold Minify_cond. intros Hcond.
  apply andb_true_iff in Hcond as [Hi He].
  apply Nat.ltb_lt in Hi. apply negb_true_iff in He.
  unfold Minify_body.
  destruct (nth_error input_ (index_ m)) as [c|] eqn:Hc;
    [|apply nth_error_None in Hc; lia].
  cbv zeta.
  assert (Hplain : forall (m1 : Minifier (O:=O)) k,
            index_ m1 = index_ m -> error_ m1 = false ->
            collapse_string_ m1 = collapse_string_ m ->
            0 < k -> index_ m + k <= length input_ ->
            advances m (set_index m1 (index_ m1 + k))).
  { intros m1 k H1 H2 H3 H4 H5. unfold JsMinify.advances. fields.
    split; [auto|right; split; [auto|lia]]. }
  branch.
  { unfold JsMinify.advances; fields. split; [auto|right; split; [auto|lia]]. }
  branch.
  { destruct (Whitespace_eqb _ _); unfold JsMinify.advances; fields;
      (split; [auto|right; split; [auto|lia]]). }
  branch; [apply ConsumeString_advances; auto|].
  branch.
  { branch; [eapply ConsumeLineComment_advances; eauto|].
    branch.
    { apply ConsumeBlockComment_advances; auto.
      match goal with H : (Peek _ _ _ =? _)%Z = true |- _ => unfold Peek in H end.
      destruct (nth_error input_ (index_ m + 1)) eqn:Hn; [|discriminate].
      apply nth_error_Some. congruence. }
    branch; [|apply ConsumeRegex_advances; auto].
    unfold JsMinify.advances. msimpl.
    split; [auto|right; split; [auto|lia]]. }
  branch; [eapply ConsumeNameOrNumber_advances; eauto|].
  branch; [eapply ConsumeLineComment_advances; eauto|].
  branch; [eapply ConsumeLineComment_advances; eauto|].
  branch.
  { match goal with H : (_ && (Peek _ _ _ =? _))%Z = true |- _ =>
      apply andb_true_iff in H as [_ Hpk]; unfold Peek in Hpk end.
    destruct (nth_error input_ (index_ m + 1)) eqn:Hn; [|discriminate].
    assert (index_ m + 1 < length input_) by (apply nth_error_Some; congruence).
    unfold JsMinify.advances.
    space_if; msimpl; (split; [auto|right; split; [auto|lia]]). }
  branch.
  { match goal with H : (_ && (Peek _ _ _ =? _))%Z = true |- _ =>
      apply andb_true_iff in H as [_ Hpk]; unfold Peek in Hpk end.
    destruct (nth_error input_ (index_ m + 1)) eqn:Hn; [|discriminate].
    assert (index_ m + 1 < length input_) by (apply nth_error_Some; congruence).
    unfold JsMinify.advances.
    space_if; msimpl; (split; [auto|right; split; [auto|lia]]). }
  unfold JsMinify.advances.
  space_if; msimpl; (split; [auto|right; split; [auto|lia]]).
Qed.

(** The loop of Minify is left with its condition false: the fuel never runs
    out before. *)
Lemma Minify_loop_exits fuel m :
  length input_ - index_ m <= fuel ->
  Minify_cond input_ (Minify_loop fuel m) = false.
Proof.
  revert m. induction fuel as [|fuel IH]; intros m Hf; simpl.
  - unfold Minify_cond. destruct (Nat.ltb_spec (index_ m) (length input_)); [lia|auto].
  - destruct (Minify_cond input_ m) eqn:Hc; [|exact Hc].
    destruct (Minify_body_advances m Hc) as [_ [He|[He Hi]]].
    + clear IH Hf. revert He. generalize (Minify_body m). clear.
      induction fuel as [|fuel IH]; intros m He; simpl.
      * unfold Minify_cond. rewrite He. apply andb_false_r.
      * destruct (Minify_cond input_ m) eqn:Hc; [|exact Hc].
        unfold Minify_cond in Hc. rewrite He, andb_false_r in Hc. discriminate.
    + apply IH. lia.
Qed.

Lemma Minify_exits m : Minify_cond input_ (Minify m) = false.
Proof. apply Minify_loop_exits. lia. Qed.

End Progress.

(** ** Two Minifiers over different sinks run in lockstep *)

Section Simulation.

Variable char_is_signed : bool.
Variable CanKeywordPrecedeRegEx : bytes -> bool.
Context {O1 O2 : Type} {sink1 : OutputConsumer O1} {sink2 : OutputConsumer O2}.
Variable R : O1 -> O2 -> Prop.
Hypothesis R_push_back : forall a b c, R a b -> R (push_back a c) (push_back b c).
Hypothesis R_append : forall a b s, R a b -> R (append a s) (append b s).
Variable input_ : bytes.

#[local] Abbreviation sim := (JsMinify.sim R).

Ltac sim_intro H :=
  let Hi := fresh "Hi" in let Hw := fresh "Hw" in let Hp := fresh "Hp" in
  let He := fresh "He" in let Hc := fresh "Hc" in let HR := fresh "HR" in
  destruct H as (Hi & Hw & Hp & He & Hc & HR).

Ltac sim_split := unfold JsMinify.sim; fields; repeat split; auto.

Lemma sim_set_index m1 m2 i : sim m1 m2 -> sim (set_index m1 i) (set_index m2 i).
Proof. intros H; sim_intro H; sim_split. Qed.
Lemma sim_set_whitespace m1 m2 w :
  sim m1 m2 -> sim (set_whitespace m1 w) (set_whitespace m2 w).
Proof. intros H; sim_intro H; sim_split. Qed.
Lemma sim_set_prev_token m1 m2 t :
  sim m1 m2 -> sim (set_prev_token m1 t) (set_prev_token m2 t).
Proof. intros H; sim_intro H; sim_split. Qed.
Lemma sim_set_error m1 m2 e : sim m1 m2 -> sim (set_error m1 e) (set_error m2 e).
Proof. intros H; sim_intro H; sim_split. Qed.
Lemma sim_output_push_back m1 m2 c :
  sim m1 m2 -> sim (output_push_back m1 c) (output_push_back m2 c).
Proof. intros H; sim_intro H; sim_split. Qed.
Lemma sim_output_append m1 m2 s :
  sim m1 m2 -> sim (output_append m1 s) (output_append m2 s).
Proof. intros H; sim_intro H; sim_split. Qed.

Create HintDb sim.

Hint Resolve sim_set_index sim_set_whitespace sim_set_prev_token sim_set_error
  sim_output_push_back sim_output_append : sim.

Lemma sim_ChangeToken m1 m2 t : sim m1 m2 -> sim (ChangeToken t m1) (ChangeToken t m2).
Proof.
  intros H. pose proof H as H'. sim_intro H'. unfold ChangeToken.
  rewrite <- Hw, <- Hp. destruct (_ && _); auto with sim.
Qed.

Lemma sim_InsertSpaceIfNeeded m1 m2 :
  sim m1 m2 -> sim (InsertSpaceIfNeeded m1) (InsertSpaceIfNeeded m2).
Proof.
  intros H. pose proof H as H'. sim_intro H'. unfold InsertSpaceIfNeeded.
  rewrite <- Hw. destruct (whitespace_ m1); auto with sim.
Qed.

Hint Resolve sim_ChangeToken sim_InsertSpaceIfNeeded : sim.

Lemma sim_if_InsertSpaceIfNeeded (b : bool) m1 m2 :
  sim m1 m2 ->
  sim (if b then InsertSpaceIfNeeded m1 else m1) (if b then InsertSpaceIfNeeded m2 else m2).
Proof. destruct b; auto with sim. Qed.

Hint Resolve sim_if_InsertSpaceIfNeeded : sim.

Lemma sim_ConsumeString m1 m2 :
  sim m1 m2 ->
  sim (ConsumeString char_is_signed input_ m1) (ConsumeString char_is_signed input_ m2).
Proof.
  intros H. pose proof H as H'. sim_intro H'. unfold ConsumeString.
  rewrite <- Hi. destruct (nth_error input_ (index_ m1)) as [q|]; [|exact H].
  destruct (string_loop _ _ _ _) as [i|i|i]; auto with sim.
  msimpl. destruct Hc as [Hc|Htotal].
  - rewrite <- Hc. destruct (collapse_string_ m1); auto 6 with sim.
  - assert (sim (ChangeToken kStringToken (set_index m1 i))
                (ChangeToken kStringToken (set_index m2 i))) as Hs by auto with sim.
    sim_intro Hs.
    destruct (collapse_string_ m1), (collapse_string_ m2); sim_split.
Qed.

Lemma sim_ConsumeRegex m1 m2 :
  sim m1 m2 ->
  sim (ConsumeRegex char_is_signed input_ m1) (ConsumeRegex char_is_signed input_ m2).
Proof.
  intros H. pose proof H as H'. sim_intro H'. unfold ConsumeRegex.
  rewrite <- Hi. destruct (regex_loop _ _ _ _) as [i|i|i]; auto with sim.
  fields. rewrite <- Hp. auto 6 with sim.
Qed.

Lemma sim_ConsumeBlockComment m1 m2 :
  sim m1 m2 ->
  sim (ConsumeBlockComment char_is_signed input_ m1)
      (ConsumeBlockComment char_is_signed input_ m2).
Proof.
  intros H. pose proof H as H'. sim_intro H'. unfold ConsumeBlockComment.
  rewrite <- Hi. destruct (block_comment_loop _ _ _) as [i|i|i]; auto with sim.
  fields. rewrite <- Hw. destruct (_ && _); [auto with sim|].
  destruct (Whitespace_eqb _ _); auto with sim.
Qed.

Lemma sim_ConsumeLineComment m1 m2 :
  sim m1 m2 ->
  sim (ConsumeLineComment char_is_signed input_ m1)
      (ConsumeLineComment char_is_signed input_ m2).
Proof.
  intros H. pose proof H as H'. sim_intro H'. unfold ConsumeLineComment.
  rewrite <- Hi. auto with sim.
Qed.

Lemma sim_ConsumeNameOrNumber m1 m2 :
  sim m1 m2 ->
  sim (ConsumeNameOrNumber char_is_signed CanKeywordPrecedeRegEx input_ m1)
      (ConsumeNameOrNumber char_is_signed CanKeywordPrecedeRegEx input_ m2).
Proof.
  intros H. pose proof H as H'. sim_intro H'. unfold ConsumeNameOrNumber.
  rewrite <- Hp.
  set (b := (_ || _)%bool).
  assert (Hs : sim (if b then InsertSpaceIfNeeded m1 else m1)
                   (if b then InsertSpaceIfNeeded m2 else m2)) by auto with sim.
  revert Hs. generalize (if b then InsertSpaceIfNeeded m1 else m1).
  generalize (if b then InsertSpaceIfNeeded m2 else m2).
  intros n2 n1 Hs. pose proof Hs as Hs'. sim_intro Hs'.
  rewrite <- Hi0. destruct (name_loop _ _ _ _) as [i token]. auto with sim.
Qed.

Hint Resolve sim_ConsumeString sim_ConsumeRegex sim_ConsumeBlockComment
  sim_ConsumeLineComment sim_ConsumeNameOrNumber : sim.

Lemma sim_Minify_body m1 m2 :
  sim m1 m2 ->
  sim (Minify_body char_is_signed CanKeywordPrecedeRegEx input_ m1)
      (Minify_body char_is_signed CanKeywordPrecedeRegEx input_ m2).
Proof.
  intros H. pose proof H as H'. sim_intro H'. unfold Minify_body, Peek.
  rewrite <- Hi, <- Hw, <- Hp.
  destruct (nth_error input_ (index_ m1)) as [c|]; [|exact H].
  cbv zeta.
  repeat match goal with
         | |- sim (if ?b then _ else _) _ => destruct b
         end; auto 8 with sim.
  all: match goal with
       | |- sim (set_index ?X _) (set_index ?Y _) =>
           let Hs := fresh in
           assert (Hs : sim X Y);
           [|rewrite <- (proj1 Hs); apply sim_set_index; exact Hs]
       end.
  all: try (destruct (Whitespace_eqb _ _)); auto 8 with sim.
Qed.

Lemma sim_Minify_cond m1 m2 :
  sim m1 m2 -> Minify_cond input_ m1 = Minify_cond input_ m2.
Proof. intros H; sim_intro H. unfold Minify_cond. congruence. Qed.

Lemma sim_Minify_loop fuel m1 m2 :
  sim m1 m2 ->
  sim (Minify_loop char_is_signed CanKeywordPrecedeRegEx input_ fuel m1)
      (Minify_loop char_is_signed CanKeywordPrecedeRegEx input_ fuel m2).
Proof.
  revert m1 m2. induction fuel as [|fuel IH]; intros m1 m2 H; simpl; [exact H|].
  rewrite <- (sim_Minify_cond m1 m2 H).
  destruct (Minify_cond input_ m1); [|exact H].
  apply IH, sim_Minify_body, H.
Qed.

Lemma sim_Minify m1 m2 :
  sim m1 m2 ->
  sim (Minify char_is_signed CanKeywordPrecedeRegEx input_ m1)
      (Minify char_is_signed CanKeywordPrecedeRegEx input_ m2).
Proof.
  intros H. unfold Minify. destruct H as (Hi & H).
  rewrite <- Hi. apply sim_Minify_loop. split; auto.
Qed.

End Simulation.

(** ** The output never outgrows the input read so far *)

Section OutputBound.

Variable char_is_signed : bool.
Variable CanKeywordPrecedeRegEx : bytes -> bool.
Variable input_ : bytes.
Implicit Types m : Minifier (O:=StringConsumer.t).

Lemma outlen_push_back m c : outlen (output_push_back m c) = outlen m + 1.
Proof. unfold outlen. simpl. rewrite length_app. reflexivity. Qed.

Lemma outlen_append m s : outlen (output_append m s) = outlen m + length s.
Proof. unfold outlen. simpl. rewrite length_app. reflexivity. Qed.

Lemma outlen_set_index m i : outlen (set_index m i) = outlen m.
Proof. reflexivity. Qed.
Lemma outlen_set_whitespace m w : outlen (set_whitespace m w) = outlen m.
Proof. reflexivity. Qed.
Lemma outlen_set_error m e : outlen (set_error m e) = outlen m.
Proof. reflexivity. Qed.

Ltac osimpl :=
  repeat (progress (msimpl;
                    rewrite ?outlen_push_back, ?outlen_append, ?outlen_set_index,
                      ?outlen_set_whitespace, ?outlen_set_error in *;
                    cbn [pending] in * )).

Lemma outlen_ChangeToken t m :
  outlen (ChangeToken t m) <= outlen m + pending (whitespace_ m).
Proof.
  unfold ChangeToken, outlen.
  destruct (whitespace_ m); simpl; try lia.
  destruct (negb _); simpl; rewrite ?length_app; simpl; lia.
Qed.

Lemma outlen_InsertSpaceIfNeeded m :
  outlen (InsertSpaceIfNeeded m) = outlen m + pending (whitespace_ m).
Proof.
  unfold InsertSpaceIfNeeded, outlen.
  destruct (whitespace_ m); simpl; rewrite ?length_app; simpl; lia.
Qed.

Lemma outlen_token (b : bool) t m :
  outlen (ChangeToken t (if b then InsertSpaceIfNeeded m else m))
  <= outlen m + pending (whitespace_ m).
Proof.
  destruct b; [|apply outlen_ChangeToken].
  etransitivity; [apply outlen_ChangeToken|].
  rewrite InsertSpaceIfNeeded_whitespace, outlen_InsertSpaceIfNeeded. simpl. lia.
Qed.

Lemma length_substr (s : bytes) pos n : length (substr s pos n) <= n.
Proof. unfold substr. rewrite length_firstn. lia. Qed.

Lemma bounded_ConsumeString K m :
  index_ m < length input_ -> bounded K m ->
  bounded K (ConsumeString char_is_signed input_ m).
Proof.
  intros Hi Hb. unfold ConsumeString, bounded in *.
  destruct (nth_error input_ (index_ m)) as [q|]; [|exact Hb].
  pose proof (string_loop_bounds char_is_signed (char_to_int char_is_signed q)
                (substr_from input_ (S (index_ m))) (S (index_ m))) as Hl.
  destruct (string_loop _ _ _ _) as [i|i|i]; try tauto.
  - pose proof (outlen_ChangeToken kStringToken (set_index m i)) as Ho.
    pose proof (length_substr input_ (index_ m) (i - index_ m)).
    msimpl. destruct (collapse_string_ m); osimpl; lia.
  - osimpl. lia.
Qed.

Lemma bounded_ConsumeRegex K m :
  index_ m < length input_ -> bounded K m ->
  bounded K (ConsumeRegex char_is_signed input_ m).
Proof.
  intros Hi Hb. unfold ConsumeRegex, bounded in *.
  pose proof (regex_loop_bounds char_is_signed
                (substr_from input_ (S (index_ m))) (S (index_ m)) false) as Hl.
  destruct (regex_loop _ _ _ _) as [i|i|i]; try (osimpl; lia).
  pose proof (outlen_token (prev_token_ (set_index m i) =? CH_SLASH)%Z
                kRegexToken (set_index m i)) as Ho.
  pose proof (length_substr input_ (index_ m) (i - index_ m)).
  osimpl. space_if; osimpl; lia.
Qed.

Lemma bounded_ConsumeBlockComment K m :
  index_ m + 1 < length input_ -> bounded K m ->
  bounded K (ConsumeBlockComment char_is_signed input_ m).
Proof.
  intros Hi Hb. unfold ConsumeBlockComment, bounded in *.
  pose proof (block_comment_loop_bounds char_is_signed
                (substr_from input_ (index_ m + 2)) (index_ m + 2)) as Hl.
  destruct (block_comment_loop _ _ _) as [i|i|i]; try (osimpl; lia).
  match goal with |- context [if ?b then output_append _ _ else _] => destruct b end.
  - pose proof (outlen_ChangeToken kCCCommentToken (set_index m i)) as Ho.
    pose proof (length_substr input_ (index_ m) (i - index_ m)).
    osimpl. lia.
  - fields. destruct (whitespace_ m) eqn:Hw; simpl; osimpl; rewrite ?Hw; simpl; lia.
Qed.

Lemma bounded_ConsumeLineComment K m c :
  nth_error input_ (index_ m) = Some c ->
  ((char_to_int char_is_signed c =? CH_LF) ||
   (char_to_int char_is_signed c =? CH_CR))%Z = false ->
  bounded K m -> bounded K (ConsumeLineComment char_is_signed input_ m).
Proof.
  intros Hc Hnl Hb. unfold ConsumeLineComment, bounded in *. fields.
  rewrite (substr_from_cons _ _ _ Hc). simpl. rewrite Hnl.
  pose proof (line_comment_loop_bounds char_is_signed
                (substr_from input_ (S (index_ m))) (S (index_ m))) as Hl.
  osimpl. destruct (whitespace_ m); simpl in *; lia.
Qed.

Lemma bounded_ConsumeNameOrNumber K m :
  bounded K m ->
  bounded K (ConsumeNameOrNumber char_is_signed CanKeywordPrecedeRegEx input_ m).
Proof.
  intros Hb. unfold ConsumeNameOrNumber, bounded in *.
  set (b := (_ || _)%bool).
  assert (Hidx : index_ (if b then InsertSpaceIfNeeded m else m) = index_ m)
    by (destruct b; msimpl; reflexivity).
  rewrite Hidx.
  destruct (name_loop_spec char_is_signed (substr_from input_ (index_ m))
              (index_ m) []) as (n & Hn & ->).
  set (t := if CanKeywordPrecedeRegEx _ then _ else _).
  pose proof (outlen_token b t m) as Ho.
  rewrite outlen_append. msimpl. simpl.
  assert (length (firstn n (substr_from input_ (index_ m))) <= n)
    by (rewrite length_firstn; lia).
  match goal with
  | |- outlen (ChangeToken t (set_index ?X ?i)) + _ + _ <= _ =>
      assert (outlen (ChangeToken t (set_index X i)) = outlen (ChangeToken t X)) as ->
  end.
  { unfold ChangeToken. fields. destruct (_ && _); reflexivity. }
  lia.
Qed.

Lemma bounded_Minify_body K m :
  Minify_cond input_ m = true -> bounded K m ->
  bounded K (Minify_body char_is_signed CanKeywordPrecedeRegEx input_ m).
Proof.
  unfold Minify_cond. intros Hcond Hb.
  apply andb_true_iff in Hcond as [Hi He].
  apply Nat.ltb_lt in Hi. apply negb_true_iff in He.
  unfold Minify_body.
  destruct (nth_error input_ (index_ m)) as [c|] eqn:Hc;
    [|apply nth_error_None in Hc; lia].
  cbv zeta.
  assert (Htok : forall (b : bool) t k s,
            length s <= k ->
            bounded K (set_index
              (output_append (ChangeToken t (if b then InsertSpaceIfNeeded m else m)) s)
              (index_ (output_append
                         (ChangeToken t (if b then InsertSpaceIfNeeded m else m)) s) + k))).
  { intros b t k s Hs. unfold bounded in *. pose proof (outlen_token b t m).
    fields. replace (outlen (set_index _ _)) with
      (outlen (output_append (ChangeToken t (if b then InsertSpaceIfNeeded m else m)) s))
      by reflexivity.
    rewrite outlen_append. msimpl.
    destruct b; msimpl; simpl; lia. }
  assert (Hchr : forall (b : bool) t ch,
            bounded K (set_index
              (output_push_back (ChangeToken t (if b then InsertSpaceIfNeeded m else m)) ch)
              (S (index_ (output_push_back
                         (ChangeToken t (if b then InsertSpaceIfNeeded m else m)) ch))))).
  { intros b t ch. unfold bounded in *. pose proof (outlen_token b t m).
    fields. replace (outlen (set_index _ _)) with
      (outlen (output_push_back (ChangeToken t (if b then InsertSpaceIfNeeded m else m)) ch))
      by reflexivity.
    rewrite outlen_push_back. msimpl.
    destruct b; msimpl; simpl; lia. }
  branch.
  { unfold bounded in *. osimpl. lia. }
  branch.
  { unfold bounded in *.
    destruct (whitespace_ m) eqn:Hw; simpl; osimpl; rewrite ?Hw; simpl; lia. }
  branch; [apply bounded_ConsumeString; auto|].
  branch.
  { branch; [eapply bounded_ConsumeLineComment; eauto|].
    branch.
    { apply bounded_ConsumeBlockComment; auto.
      match goal with H : (Peek _ _ _ =? _)%Z = true |- _ => unfold Peek in H end.
      destruct (nth_error input_ (index_ m + 1)) eqn:Hn; [|discriminate].
      apply nth_error_Some. congruence. }
    branch; [|apply bounded_ConsumeRegex; auto].
    apply (Hchr false). }
  branch; [eapply bounded_ConsumeNameOrNumber; eauto|].
  branch; [eapply bounded_ConsumeLineComment; eauto|].
  branch; [eapply bounded_ConsumeLineComment; eauto|].
  branch; [apply Htok; simpl; lia|].
  branch; [apply Htok; simpl; lia|].
  apply Hchr.
Qed.

Lemma bounded_Minify_loop K fuel m :
  bounded K m ->
  bounded K (Minify_loop char_is_signed CanKeywordPrecedeRegEx input_ fuel m).
Proof.
  revert m. induction fuel as [|fuel IH]; intros m Hb; simpl; [exact Hb|].
  destruct (Minify_cond input_ m) eqn:Hc; [|exact Hb].
  apply IH, bounded_Minify_body; auto.
Qed.

End OutputBound.

(** ** The loop as a whole *)

Section Loop.

Variable char_is_signed : bool.
Variable CanKeywordPrecedeRegEx : bytes -> bool.
Context {O : Type} {sink : OutputConsumer O}.
Variable input_ : bytes.
Implicit Types m : Minifier (O:=O).

#[local] Abbreviation Minify_body := (Minify_body char_is_signed CanKeywordPrecedeRegEx input_).
#[local] Abbreviation Minify_loop := (Minify_loop char_is_signed CanKeywordPrecedeRegEx input_).
#[local] Abbreviation Minify := (Minify char_is_signed CanKeywordPrecedeRegEx input_).
#[local] Abbreviation Reachable := (Reachable char_is_signed CanKeywordPrecedeRegEx input_).

Lemma Minify_loop_error fuel m : error_ m = true -> Minify_loop fuel m = m.
Proof.
  intros He. destruct fuel; simpl; [reflexivity|].
  unfold Minify_cond. rewrite He, andb_false_r. reflexivity.
Qed.

(** Any fuel that covers the bytes left gives the same result. *)
Lemma Minify_loop_fuel fuel m :
  length input_ - index_ m <= fuel -> Minify_loop fuel m = Minify m.
Proof.
  unfold JsMinify.Minify.
  assert (H : forall f1 f2 m, length input_ - index_ m <= f1 ->
                length input_ - index_ m <= f2 -> Minify_loop f1 m = Minify_loop f2 m).
  { clear. induction f1 as [|f1 IH]; intros f2 m H1 H2.
    - simpl. destruct f2; simpl; [reflexivity|].
      unfold Minify_cond.
      destruct (Nat.ltb_spec (index_ m) (length input_)); [lia|reflexivity].
    - simpl. destruct (Minify_cond input_ m) eqn:Hc.
      + destruct f2 as [|f2].
        { unfold Minify_cond in Hc. apply andb_true_iff in Hc as [Hc _].
          apply Nat.ltb_lt in Hc. lia. }
        simpl. rewrite Hc.
        destruct (Minify_body_advances char_is_signed CanKeywordPrecedeRegEx input_ m Hc)
          as [_ [He|[He Hi]]].
        * rewrite !Minify_loop_error by exact He. reflexivity.
        * apply IH; lia.
      + destruct f2; simpl; rewrite ?Hc; reflexivity. }
  intros Hf. apply H; [exact Hf|lia].
Qed.

Lemma Minify_unfold m :
  Minify m = if Minify_cond input_ m then Minify (Minify_body m) else m.
Proof.
  destruct (Minify_cond input_ m) eqn:Hc.
  - rewrite <- (Minify_loop_fuel (S (length input_ - index_ m)) m) by lia.
    simpl. rewrite Hc.
    destruct (Minify_body_advances char_is_signed CanKeywordPrecedeRegEx input_ m Hc)
      as [_ [He|[He Hi]]].
    + unfold JsMinify.Minify. rewrite !Minify_loop_error by exact He. reflexivity.
    + apply Minify_loop_fuel. lia.
  - unfold JsMinify.Minify. destruct (length input_ - index_ m); simpl; rewrite ?Hc; reflexivity.
Qed.

Lemma Minify_Reachable start m : Reachable start m -> Minify m = Minify start.
Proof.
  induction 1 as [|m Hr IH Hc]; [reflexivity|].
  rewrite <- IH. rewrite (Minify_unfold m), Hc. reflexivity.
Qed.

(** The run ends with the error flag up exactly when some iteration of the
    loop raises it. *)
Lemma Minify_error_iff start :
  error_ start = false ->
  error_ (Minify start) = true <->
  exists m, Reachable start m /\ Minify_cond input_ m = true /\
            error_ (Minify_body m) = true.
Proof.
  intros Hs. split.
  - unfold JsMinify.Minify. generalize (length input_ - index_ start). intros fuel.
    assert (H : forall fuel m, Reachable start m -> error_ m = false ->
                  error_ (Minify_loop fuel m) = true ->
                  exists m', Reachable start m' /\ Minify_cond input_ m' = true /\
                             error_ (Minify_body m') = true).
    { clear fuel. induction fuel as [|fuel IH]; intros m Hr He Hl; simpl in Hl.
      - congruence.
      - destruct (Minify_cond input_ m) eqn:Hc; [|congruence].
        destruct (error_ (Minify_body m)) eqn:Hb.
        + exists m. auto.
        + apply (IH (Minify_body m)); auto. constructor; auto. }
    apply H; [constructor|exact Hs].
  - intros (m & Hr & Hc & He).
    rewrite <- (Minify_Reachable start m Hr), Minify_unfold, Hc, Minify_unfold.
    unfold Minify_cond at 1. rewrite He, andb_false_r. exact He.
Qed.

End Loop.

(** ** The scanning loops against the failure conditions *)

Section Conditions.

Variable char_is_signed : bool.

#[local] Abbreviation code := (char_to_int char_is_signed).

Lemma string_loop_end_RunsOff quote rest index i :
  string_loop char_is_signed quote rest index = LoopEnd i ->
  StringRunsOff char_is_signed quote rest.
Proof.
  remember (length rest) as n eqn:Hn.
  revert rest index Hn. induction n as [n IH] using lt_wf_ind.
  intros rest index -> Hl.
  destruct rest as [|c rest]; simpl in Hl; [constructor|].
  destruct (code c =? CH_BACKSLASH)%Z eqn:Hb.
  { apply Z.eqb_eq in Hb. destruct rest as [|c' rest].
    - apply StringRunsOff_backslash_end; auto.
    - apply StringRunsOff_escape; auto.
      eapply (IH (length rest)); eauto. simpl; lia. }
  apply Z.eqb_neq in Hb.
  destruct (code c =? quote)%Z eqn:Hq; [discriminate|].
  apply Z.eqb_neq in Hq.
  apply StringRunsOff_char; auto.
  eapply (IH (length rest)); eauto.
Qed.

Lemma string_loop_RunsOff_end quote rest index :
  StringRunsOff char_is_signed quote rest ->
  exists i, string_loop char_is_signed quote rest index = LoopEnd i.
Proof.
  intros H. revert index.
  induction H as [|c Hc|c c' rest Hc H IH|c rest Hc Hq H IH]; intros index; simpl.
  - eauto.
  - rewrite Hc. simpl. eauto.
  - rewrite Hc. simpl. apply IH.
  - apply Z.eqb_neq in Hc, Hq. rewrite Hc, Hq. apply IH.
Qed.

Lemma regex_loop_RegexBody rest index within_brackets :
  RegexBody char_is_signed within_brackets rest
    (RegexEnd_of (regex_loop char_is_signed rest index within_brackets)).
Proof.
  remember (length rest) as n eqn:Hn.
  revert rest index within_brackets Hn. induction n as [n IH] using lt_wf_ind.
  intros rest index wb ->.
  destruct rest as [|c rest]; simpl; [constructor|].
  destruct (code c =? CH_BACKSLASH)%Z eqn:Hb.
  { apply Z.eqb_eq in Hb. destruct rest as [|c' rest]; simpl.
    - apply RegexBody_backslash_end; auto.
    - apply RegexBody_escape; auto. eapply (IH (length rest)); eauto. simpl; lia. }
  destruct (code c =? CH_SLASH)%Z eqn:Hs.
  { apply Z.eqb_eq in Hs. destruct wb; simpl.
    - apply RegexBody_slash_in_brackets; auto. eapply (IH (length rest)); eauto.
    - apply RegexBody_close; auto. }
  destruct (code c =? CH_LBRACKET)%Z eqn:Hl.
  { apply Z.eqb_eq in Hl. apply RegexBody_open_bracket; auto.
    eapply (IH (length rest)); eauto. }
  destruct (code c =? CH_RBRACKET)%Z eqn:Hr.
  { apply Z.eqb_eq in Hr. apply RegexBody_close_bracket; auto.
    eapply (IH (length rest)); eauto. }
  destruct (code c =? CH_LF)%Z eqn:Hn.
  { apply Z.eqb_eq in Hn. simpl. apply RegexBody_newline; auto. }
  apply Z.eqb_neq in Hb, Hs, Hl, Hr, Hn.
  apply RegexBody_other; auto. eapply (IH (length rest)); eauto.
Qed.

Lemma RegexBody_regex_loop within_brackets rest e index :
  RegexBody char_is_signed within_brackets rest e ->
  RegexEnd_of (regex_loop char_is_signed rest index within_brackets) = e.
Proof.
  intros H. revert index.
  induction H; intros index; simpl;
    repeat match goal with
           | H : code _ = _ |- _ => rewrite H; clear H
           | H : code _ <> _ |- _ => apply Z.eqb_neq in H; rewrite H; clear H
           end; simpl; auto.
Qed.

Lemma block_comment_loop_end_unclosed rest index i :
  block_comment_loop char_is_signed rest index = LoopEnd i ->
  CommentUnclosed char_is_signed rest.
Proof.
  revert index. induction rest as [|c rest IH]; intros index Hl j a a' Ha Ha'.
  - destruct j; discriminate.
  - simpl in Hl.
    destruct ((code c =? CH_STAR) && _)%Z eqn:Hc; [discriminate|].
    destruct j as [|j]; simpl in Ha, Ha'.
    + injection Ha as <-. destruct rest as [|c' rest]; [discriminate|].
      injection Ha' as <-. intros [H1 H2]. rewrite H1, H2 in Hc. discriminate.
    + eapply IH; eauto.
Qed.

Lemma block_comment_loop_unclosed_end rest index :
  CommentUnclosed char_is_signed rest ->
  exists i, block_comment_loop char_is_signed rest index = LoopEnd i.
Proof.
  revert index. induction rest as [|c rest IH]; intros index H; simpl; [eauto|].
  destruct ((code c =? CH_STAR) && _)%Z eqn:Hc.
  - exfalso. apply andb_true_iff in Hc as [H1 H2].
    destruct rest as [|c' rest]; [discriminate|].
    apply Z.eqb_eq in H1, H2. apply (H 0 c c'); auto.
  - apply IH. intros j a a' Ha Ha'. apply (H (S j) a a'); auto.
Qed.

End Conditions.

(** ** When an iteration raises the error flag *)

Section BodyError.

Variable char_is_signed : bool.
Variable CanKeywordPrecedeRegEx : bytes -> bool.
Context {O : Type} {sink : OutputConsumer O}.
Variable input_ : bytes.
Implicit Types m : Minifier (O:=O).

#[local] Abbreviation code := (char_to_int char_is_signed).
#[local] Abbreviation Minify_body := (Minify_body char_is_signed CanKeywordPrecedeRegEx input_).

Lemma ConsumeString_error_iff m quote :
  nth_error input_ (index_ m) = Some quote -> error_ m = false ->
  error_ (ConsumeString char_is_signed input_ m) = true <->
  StringRunsOff char_is_signed (code quote) (substr_from input_ (S (index_ m))).
Proof.
  intros Hq He. unfold ConsumeString. rewrite Hq.
  pose proof (string_loop_bounds char_is_signed (code quote)
                (substr_from input_ (S (index_ m))) (S (index_ m))) as Hb.
  destruct (string_loop _ _ _ _) as [i|i|i] eqn:Hl; [|tauto|].
  - split.
    + intros H. exfalso. revert H. msimpl.
      destruct (collapse_string_ m); msimpl; congruence.
    + intros H. destruct (string_loop_RunsOff_end char_is_signed _ _ (S (index_ m)) H).
      congruence.
  - split; [|reflexivity]. intros _. eapply string_loop_end_RunsOff; eauto.
Qed.

Lemma ConsumeRegex_error_iff m :
  error_ m = false ->
  error_ (ConsumeRegex char_is_signed input_ m) = true <->
  exists e, RegexBody char_is_signed false (substr_from input_ (S (index_ m))) e /\
            e <> RegexClosed.
Proof.
  intros He. unfold ConsumeRegex.
  pose proof (regex_loop_RegexBody char_is_signed
                (substr_from input_ (S (index_ m))) (S (index_ m)) false) as Hr.
  destruct (regex_loop _ _ _ _) as [i|i|i] eqn:Hl; simpl in Hr.
  - split.
    + intros H. exfalso. revert H. msimpl. space_if; msimpl; congruence.
    + intros (e & Hb & Hne).
      apply (RegexBody_regex_loop char_is_signed _ _ _ (S (index_ m))) in Hb.
      rewrite Hl in Hb. simpl in Hb. congruence.
  - split; [|reflexivity]. intros _. eexists; split; [exact Hr|discriminate].
  - split; [|reflexivity]. intros _. eexists; split; [exact Hr|discriminate].
Qed.

Lemma ConsumeBlockComment_error_iff m :
  error_ m = false ->
  error_ (ConsumeBlockComment char_is_signed input_ m) = true <->
  CommentUnclosed char_is_signed (substr_from input_ (index_ m + 2)).
Proof.
  intros He. unfold ConsumeBlockComment.
  pose proof (block_comment_loop_bounds char_is_signed
                (substr_from input_ (index_ m + 2)) (index_ m + 2)) as Hb.
  destruct (block_comment_loop _ _ _) as [i|i|i] eqn:Hl; [|tauto|].
  - split.
    + intros H. exfalso. revert H.
      match goal with |- context [if ?b then output_append _ _ else _] => destruct b end;
        [|destruct (Whitespace_eqb _ _)]; msimpl; congruence.
    + intros H.
      destruct (block_comment_loop_unclosed_end char_is_signed _ (index_ m + 2) H).
      congruence.
  - split; [|reflexivity]. intros _. eapply block_comment_loop_end_unclosed; eauto.
Qed.

Lemma ConsumeLineComment_error m :
  error_ (ConsumeLineComment char_is_signed input_ m) = error_ m.
Proof. reflexivity. Qed.

Lemma ConsumeNameOrNumber_error m :
  error_ (ConsumeNameOrNumber char_is_signed CanKeywordPrecedeRegEx input_ m) = error_ m.
Proof.
  unfold ConsumeNameOrNumber. destruct (name_loop _ _ _ _).
  msimpl. space_if; msimpl; reflexivity.
Qed.

Ltac ebranch :=
  match goal with
  | |- context [error_ (if ?b then _ else _)] => destruct b eqn:?
  end.

Lemma Minify_body_error_iff m :
  Minify_cond input_ m = true ->
  error_ (Minify_body m) = true <->
  exists kind, LexemeFails char_is_signed input_ m kind.
Proof.
  unfold Minify_cond. intros Hcond.
  apply andb_true_iff in Hcond as [Hi He].
  apply Nat.ltb_lt in Hi. apply negb_true_iff in He.
  split.
  - unfold JsMinify.Minify_body.
    destruct (nth_error input_ (index_ m)) as [c|] eqn:Hc; [|congruence].
    cbv zeta.
    ebranch; [msimpl; congruence|].
    ebranch; [destruct (Whitespace_eqb _ _); msimpl; congruence|].
    ebranch.
    { intros H. apply (ConsumeString_error_iff m c Hc He) in H.
      exists UnterminatedString. eapply LexemeFails_string; eauto.
      repeat match goal with
             | H : (_ || _)%bool = true |- _ => apply orb_true_iff in H as [H|H]
             | H : (_ =? _)%Z = true |- _ => apply Z.eqb_eq in H
             end; auto. }
    ebranch.
    { match goal with H : (code c =? _)%Z = true |- _ => apply Z.eqb_eq in H end.
      ebranch; [rewrite ConsumeLineComment_error; congruence|].
      ebranch.
      { intros H. apply (ConsumeBlockComment_error_iff m He) in H.
        match goal with H : (Peek _ _ _ =? _)%Z = true |- _ =>
          unfold Peek in H; apply Z.eqb_eq in H end.
        destruct (nth_error input_ (index_ m + 1)) as [c'|] eqn:Hc'; [|discriminate].
        exists UnterminatedBlockComment. eapply LexemeFails_comment; eauto. }
      ebranch; [msimpl; congruence|].
      intros H. apply (ConsumeRegex_error_iff m He) in H as (e & Hb & Hne).
      exists (match e with RegexRawNewline => NewlineInRegex | _ => UnterminatedRegex end).
      eapply LexemeFails_regex with (e := e); eauto.
      + apply Z.eqb_neq; assumption.
      + apply Z.eqb_neq; assumption.
      + destruct e; auto. }
    ebranch; [rewrite ConsumeNameOrNumber_error; congruence|].
    ebranch; [rewrite ConsumeLineComment_error; congruence|].
    ebranch; [rewrite ConsumeLineComment_error; congruence|].
    ebranch; [space_if; msimpl; congruence|].
    ebranch; [space_if; msimpl; congruence|].
    space_if; msimpl; congruence.
  - intros (kind & H). unfold JsMinify.Minify_body.
    destruct H as [c c' Hc Hcode Hc' Hcode' Hu|q Hc Hq Hr|c e Hc Hcode Hp1 Hp2 Hprev Hb kind Hk];
      rewrite Hc; cbv zeta.
    + rewrite Hcode. unfold Peek. rewrite Hc', Hcode'. simpl.
      apply (proj2 (ConsumeBlockComment_error_iff m He)); exact Hu.
    + assert (Hd : ((code q =? CH_LF) || (code q =? CH_CR))%Z = false /\
                   ((code q =? CH_SPACE) || (code q =? CH_TAB))%Z = false /\
                   ((code q =? CH_SQUOTE) || (code q =? CH_DQUOTE) ||
                    (code q =? CH_BACKTICK))%Z = true)
        by (destruct Hq as [->|[->| ->]]; repeat split; reflexivity).
      destruct Hd as (-> & -> & ->).
      apply (proj2 (ConsumeString_error_iff m q Hc He)); exact Hr.
    + rewrite Hcode. simpl.
      apply Z.eqb_neq in Hp1, Hp2. rewrite Hp1, Hp2, Hprev.
      apply (proj2 (ConsumeRegex_error_iff m He)).
      exists e. split; [exact Hb|]. destruct e; [contradiction|discriminate|discriminate].
Qed.

End BodyError.

(** ** The entry points *)

Section EntryPoints.

Variable char_is_signed : bool.
Variable CanKeywordPrecedeRegEx : bytes -> bool.

#[local] Abbreviation Minify := (Minify char_is_signed CanKeywordPrecedeRegEx).
#[local] Abbreviation MinifyJs := (MinifyJs char_is_signed CanKeywordPrecedeRegEx).
#[local] Abbreviation MinifyJsAndCollapseStrings :=
  (MinifyJsAndCollapseStrings char_is_signed CanKeywordPrecedeRegEx).
#[local] Abbreviation GetMinifiedJsSize :=
  (GetMinifiedJsSize char_is_signed CanKeywordPrecedeRegEx).
#[local] Abbreviation GetMinifiedStringCollapsedJsSize :=
  (GetMinifiedStringCollapsedJsSize char_is_signed CanKeywordPrecedeRegEx).

Lemma MinifyJs_eq input out :
  MinifyJs input out =
  (negb (error_ (Minify input (init (StringConsumer.Build out)))),
   StringConsumer.output_ (output_ (Minify input (init (StringConsumer.Build out))))).
Proof.
  unfold JsMinify.MinifyJs, GetOutput, after_GetOutput.
  destruct (error_ _); reflexivity.
Qed.

Lemma MinifyJsAndCollapseStrings_eq input out :
  MinifyJsAndCollapseStrings input out =
  (negb (error_ (Minify input (EnableStringCollapse (init (StringConsumer.Build out))))),
   StringConsumer.output_
     (output_ (Minify input (EnableStringCollapse (init (StringConsumer.Build out)))))).
Proof.
  unfold JsMinify.MinifyJsAndCollapseStrings, GetOutput, after_GetOutput.
  destruct (error_ _); reflexivity.
Qed.

Lemma wrap_int_add_l a b : wrap_int (wrap_int a + b) = wrap_int (a + b).
Proof.
  unfold wrap_int.
  replace ((a + 2147483648) mod 4294967296 - 2147483648 + b + 2147483648)%Z
    with ((a + 2147483648) mod 4294967296 + b)%Z by lia.
  rewrite Zplus_mod_idemp_l. f_equal. f_equal. lia.
Qed.

Lemma wrap_int_small z : (0 <= z <= INT_MAX)%Z -> wrap_int z = z.
Proof.
  unfold wrap_int, INT_MAX. intros H. rewrite Z.mod_small; lia.
Qed.

Lemma size_of_output_push_back a b c :
  size_of_output a b -> size_of_output (push_back a c) (push_back b c).
Proof.
  unfold size_of_output. simpl. intros ->.
  rewrite wrap_int_add_l, length_app. simpl. f_equal. lia.
Qed.

Lemma size_of_output_append a b s :
  size_of_output a b -> size_of_output (append a s) (append b s).
Proof.
  unfold size_of_output. simpl. intros ->.
  rewrite wrap_int_add_l, length_app. f_equal. lia.
Qed.

(** A run that ends without error has read the input to its end, not
    beyond. *)
Lemma Minify_index {O : Type} {sink : OutputConsumer O} input (m : Minifier (O:=O)) :
  index_ m <= length input ->
  error_ (Minify input m) = false -> index_ (Minify input m) = length input.
Proof.
  intros Hi He.
  assert (Hle : index_ (Minify input m) <= length input).
  { revert Hi He. unfold JsMinify.Minify. generalize (length input - index_ m).
    intros fuel. revert m. induction fuel as [|fuel IH]; intros m Hi; simpl; [auto|].
    destruct (Minify_cond input m) eqn:Hc; [|auto].
    destruct (Minify_body_advances char_is_signed CanKeywordPrecedeRegEx input m Hc)
      as [_ [Hb|[Hb Hlt]]].
    - rewrite Minify_loop_error by exact Hb. congruence.
    - apply IH. lia. }
  pose proof (Minify_exits char_is_signed CanKeywordPrecedeRegEx input m) as Hx.
  unfold Minify_cond in Hx. rewrite He, andb_true_r in Hx.
  apply Nat.ltb_ge in Hx. lia.
Qed.

(** The minified output is no longer than the input. *)
Lemma MinifyJs_length input out ok y :
  MinifyJs input out = (ok, y) -> ok = true ->
  length y <= length out + length input.
Proof.
  rewrite MinifyJs_eq. intros [= <- <-] Hok. apply negb_true_iff in Hok.
  pose proof (bounded_Minify_loop char_is_signed CanKeywordPrecedeRegEx input
                (length out) (length input - 0) (init (StringConsumer.Build out))) as Hb.
  pose proof (Minify_index input (init (StringConsumer.Build out))) as Hi.
  unfold bounded, outlen in Hb. simpl in Hb, Hi.
  specialize (Hb ltac:(lia)). specialize (Hi ltac:(lia) Hok).
  unfold JsMinify.Minify in *. simpl in *. lia.
Qed.

Lemma MinifyJsAndCollapseStrings_length input out ok y :
  MinifyJsAndCollapseStrings input out = (ok, y) -> ok = true ->
  length y <= length out + length input.
Proof.
  rewrite MinifyJsAndCollapseStrings_eq. intros [= <- <-] Hok. apply negb_true_iff in Hok.
  pose proof (bounded_Minify_loop char_is_signed CanKeywordPrecedeRegEx input
                (length out) (length input - 0)
                (EnableStringCollapse (init (StringConsumer.Build out)))) as Hb.
  pose proof (Minify_index input (EnableStringCollapse (init (StringConsumer.Build out))))
    as Hi.
  unfold bounded, outlen in Hb. simpl in Hb, Hi.
  specialize (Hb ltac:(lia)). specialize (Hi ltac:(lia) Hok).
  unfold JsMinify.Minify in *. simpl in *. lia.
Qed.

(** The size-only sink counts, modulo the range of [int], what the string
    sink appends. *)
Lemma GetMinifiedJsSize_MinifyJs input :
  GetMinifiedJsSize input =
  if fst (MinifyJs input [])
  then Some (wrap_int (Z.of_nat (length (snd (MinifyJs input [])))))
  else None.
Proof.
  rewrite MinifyJs_eq. unfold JsMinify.GetMinifiedJsSize, GetOutput. simpl.
  pose proof (sim_Minify char_is_signed CanKeywordPrecedeRegEx size_of_output
                size_of_output_push_back size_of_output_append input
                (init (StringConsumer.Build [])) (init (SizeConsumer.Build 0))) as Hs.
  destruct Hs as (_ & _ & _ & He & _ & HR).
  { unfold sim, size_of_output; simpl. repeat split; auto. }
  rewrite <- He. destruct (error_ _); simpl; [reflexivity|].
  rewrite HR. reflexivity.
Qed.

Lemma GetMinifiedStringCollapsedJsSize_MinifyJsAndCollapseStrings input :
  GetMinifiedStringCollapsedJsSize input =
  if fst (MinifyJsAndCollapseStrings input [])
  then Some (wrap_int (Z.of_nat (length (snd (MinifyJsAndCollapseStrings input [])))))
  else None.
Proof.
  rewrite MinifyJsAndCollapseStrings_eq.
  unfold JsMinify.GetMinifiedStringCollapsedJsSize, GetOutput. simpl.
  pose proof (sim_Minify char_is_signed CanKeywordPrecedeRegEx size_of_output
                size_of_output_push_back size_of_output_append input
                (EnableStringCollapse (init (StringConsumer.Build [])))
                (EnableStringCollapse (init (SizeConsumer.Build 0)))) as Hs.
  destruct Hs as (_ & _ & _ & He & _ & HR).
  { unfold sim, size_of_output; simpl. repeat split; auto. }
  rewrite <- He. destruct (error_ _); simpl; [reflexivity|].
  rewrite HR. reflexivity.
Qed.

(** Collapsing strings changes what is emitted, not whether the run fails. *)
Lemma MinifyJsAndCollapseStrings_ok input out :
  fst (MinifyJsAndCollapseStrings input out) = fst (MinifyJs input out).
Proof.
  rewrite MinifyJs_eq, MinifyJsAndCollapseStrings_eq. simpl.
  pose proof (sim_Minify char_is_signed CanKeywordPrecedeRegEx
                (fun _ _ : StringConsumer.t => True)
                ltac:(auto) ltac:(auto) input
                (EnableStringCollapse (init (StringConsumer.Build out)))
                (init (StringConsumer.Build out))) as Hs.
  destruct Hs as (_ & _ & _ & He & _).
  { unfold sim; simpl. repeat split; auto. }
  rewrite He. reflexivity.
Qed.

(** The caller's string plays no part in whether the run fails. *)
Lemma MinifyJs_ok_out input out out' :
  fst (MinifyJs input out) = fst (MinifyJs input out').
Proof.
  rewrite !MinifyJs_eq. simpl.
  pose proof (sim_Minify char_is_signed CanKeywordPrecedeRegEx
                (fun _ _ : StringConsumer.t => True)
                ltac:(auto) ltac:(auto) input
                (init (StringConsumer.Build out))
                (init (StringConsumer.Build out'))) as Hs.
  destruct Hs as (_ & _ & _ & He & _).
  { unfold sim; simpl. repeat split; auto. }
  rewrite He. reflexivity.
Qed.

End EntryPoints.

(** ** Minifying the output again *)

(** The scanning loops started [a] bytes further on. *)
Section Shift.

Variable char_is_signed : bool.

Lemma string_loop_shift quote rest a b :
  string_loop char_is_signed quote rest (a + b) =
  shift_exit a (string_loop char_is_signed quote rest b).
Proof.
  remember (length rest) as n eqn:Hn.
  revert rest b Hn. induction n as [n IH] using lt_wf_ind.
  intros rest b ->. destruct rest as [|c rest]; simpl; [reflexivity|].
  destruct (_ =? _)%Z.
  { destruct rest as [|c' rest]; simpl; [f_equal; lia|].
    replace (S (S (a + b))) with (a + S (S b)) by lia.
    eapply IH; [|reflexivity]. simpl; lia. }
  destruct (_ =? _)%Z; simpl; [f_equal; lia|].
  replace (S (a + b)) with (a + S b) by lia.
  eapply IH; [|reflexivity]. simpl; lia.
Qed.

Lemma regex_loop_shift rest a b within_brackets :
  regex_loop char_is_signed rest (a + b) within_brackets =
  shift_exit a (regex_loop char_is_signed rest b within_brackets).
Proof.
  remember (length rest) as n eqn:Hn.
  revert rest b within_brackets Hn. induction n as [n IH] using lt_wf_ind.
  intros rest b wb ->. destruct rest as [|c rest]; simpl; [reflexivity|].
  assert (Hrec : forall wb', regex_loop char_is_signed rest (S (a + b)) wb' =
                   shift_exit a (regex_loop char_is_signed rest (S b) wb')).
  { intros wb'. replace (S (a + b)) with (a + S b) by lia.
    eapply IH; [|reflexivity]. simpl; lia. }
  destruct (_ =? _)%Z.
  { destruct rest as [|c' rest]; simpl; [f_equal; lia|].
    replace (S (S (a + b))) with (a + S (S b)) by lia.
    eapply IH; [|reflexivity]. simpl; lia. }
  destruct (_ =? _)%Z.
  { destruct wb; simpl; [apply Hrec|f_equal; lia]. }
  destruct (_ =? _)%Z; [apply Hrec|].
  destruct (_ =? _)%Z; [apply Hrec|].
  destruct (_ =? _)%Z; simpl; [f_equal; lia|apply Hrec].
Qed.

Lemma block_comment_loop_shift rest a b :
  block_comment_loop char_is_signed rest (a + b) =
  shift_exit a (block_comment_loop char_is_signed rest b).
Proof.
  revert b. induction rest as [|c rest IH]; intros b; simpl; [reflexivity|].
  destruct (_ && _); simpl; [f_equal; lia|].
  replace (S (a + b)) with (a + S b) by lia. apply IH.
Qed.

Lemma line_comment_loop_shift rest a b :
  line_comment_loop char_is_signed rest (a + b) =
  a + line_comment_loop char_is_signed rest b.
Proof.
  revert b. induction rest as [|c rest IH]; intros b; simpl; [reflexivity|].
  destruct (_ || _); [reflexivity|].
  replace (S (a + b)) with (a + S b) by lia. apply IH.
Qed.

Lemma name_loop_shift rest a b token :
  name_loop char_is_signed rest (a + b) token =
  (a + fst (name_loop char_is_signed rest b token),
   snd (name_loop char_is_signed rest b token)).
Proof.
  revert b token. induction rest as [|c rest IH]; intros b token; simpl; [reflexivity|].
  destruct (IsIdentifierChar _); [|reflexivity].
  replace (S (a + b)) with (a + S b) by lia. apply IH.
Qed.

End Shift.

(** Reading [input_] from [index_] on is reading the unread input. *)
Section Unread.

Variable input_ : bytes.

Lemma nth_error_unread i k :
  nth_error input_ (i + k) = nth_error (substr_from input_ i) k.
Proof. unfold substr_from. symmetry. apply nth_error_skipn. Qed.

Lemma substr_from_unread i k :
  substr_from input_ (i + k) = skipn k (substr_from input_ i).
Proof. unfold substr_from. rewrite skipn_skipn. f_equal. lia. Qed.

Lemma substr_unread i n : substr input_ i n = firstn n (substr_from input_ i).
Proof. reflexivity. Qed.

End Unread.

(** What the scanning loops read, and what they do on another input with
    the same first bytes. *)
Section Scans.

Variable char_is_signed : bool.

Lemma name_loop_stops rest i token :
  can_follow char_is_signed kNameNumberToken
    (skipn (fst (name_loop char_is_signed rest i token) - i) rest) = true.
Proof.
  revert i token. induction rest as [|c rest IH]; intros i token; simpl.
  { rewrite skipn_nil. reflexivity. }
  destruct (IsIdentifierChar _) eqn:E; simpl.
  - destruct (name_loop_spec char_is_signed rest (S i) (token ++ [c])) as (n & Hn & E0).
    specialize (IH (S i) (token ++ [c])). rewrite E0 in *. cbn [fst] in *.
    replace (S i + n - S i) with n in IH by lia.
    replace (S i + n - i) with (S n) by lia. exact IH.
  - rewrite Nat.sub_diag. simpl. rewrite E. reflexivity.
Qed.

Lemma char_to_int_range c :
  (-128 <= char_to_int char_is_signed c < 256)%Z.
Proof.
  unfold char_to_int, byte_code.
  pose proof (N_ascii_bounded c) as Hb.
  destruct char_is_signed; simpl; [destruct (Z.leb_spec 128 (Z.of_N (N_of_ascii c)))|]; lia.
Qed.

Lemma char_to_int_eqb c c0 :
  (byte_code c0 < 128)%Z ->
  (char_to_int char_is_signed c =? byte_code c0)%Z = Ascii.eqb c c0.
Proof.
  intros H0. unfold char_to_int.
  pose proof (N_ascii_bounded c) as Hb.
  destruct (Ascii.eqb_spec c c0) as [->|Hne].
  - destruct char_is_signed; simpl; [destruct (Z.leb_spec 128 (byte_code c0))|];
      try lia; apply Z.eqb_refl.
  - apply Z.eqb_neq. intros E. apply Hne.
    assert (E' : byte_code c = byte_code c0).
    { unfold byte_code in *.
      destruct char_is_signed; simpl in E;
        [destruct (Z.leb_spec 128 (Z.of_N (N_of_ascii c)))|]; lia. }
    unfold byte_code in E'. apply N2Z.inj in E'.
    rewrite <- (ascii_N_embedding c), <- (ascii_N_embedding c0), E'. reflexivity.
Qed.

Lemma string_loop_prefix quote rest i n r :
  string_loop char_is_signed quote rest i = LoopReturn n ->
  string_loop char_is_signed quote (firstn (n - i) rest ++ r) i = LoopReturn n.
Proof.
  remember (length rest) as k eqn:Hk.
  revert rest i Hk. induction k as [k IH] using lt_wf_ind.
  intros rest i -> H. destruct rest as [|c rest]; [discriminate|].
  pose proof (string_loop_bounds char_is_signed quote (c :: rest) i) as Hb.
  rewrite H in Hb. simpl in H.
  destruct (n - i) as [|j] eqn:Hj; [lia|]. simpl.
  destruct (_ =? _)%Z.
  { destruct rest as [|c' rest]; [discriminate|].
    pose proof (string_loop_bounds char_is_signed quote rest (S (S i))) as Hb'.
    rewrite H in Hb'.
    destruct j as [|j]; [lia|]. simpl.
    replace j with (n - S (S i)) by lia.
    eapply IH; [|reflexivity|exact H]. simpl; lia. }
  destruct (_ =? _)%Z; [exact H|].
  pose proof (string_loop_bounds char_is_signed quote rest (S i)) as Hb'.
  rewrite H in Hb'.
  replace j with (n - S i) by lia.
  eapply IH; [|reflexivity|exact H]. simpl; lia.
Qed.

Lemma regex_loop_prefix rest i within_brackets n r :
  regex_loop char_is_signed rest i within_brackets = LoopReturn n ->
  regex_loop char_is_signed (firstn (n - i) rest ++ r) i within_brackets = LoopReturn n.
Proof.
  remember (length rest) as k eqn:Hk.
  revert rest i within_brackets Hk. induction k as [k IH] using lt_wf_ind.
  intros rest i wb -> H. destruct rest as [|c rest]; [discriminate|].
  pose proof (regex_loop_bounds char_is_signed (c :: rest) i wb) as Hb.
  rewrite H in Hb. simpl in H.
  destruct (n - i) as [|j] eqn:Hj; [lia|]. simpl.
  assert (Hrec : forall wb', regex_loop char_is_signed rest (S i) wb' = LoopReturn n ->
                   regex_loop char_is_signed (firstn j rest ++ r) (S i) wb' = LoopReturn n).
  { intros wb' H'.
    pose proof (regex_loop_bounds char_is_signed rest (S i) wb') as Hb'.
    rewrite H' in Hb'.
    replace j with (n - S i) by lia.
    eapply IH; [|reflexivity|exact H']. simpl; lia. }
  destruct (_ =? _)%Z.
  { destruct rest as [|c' rest]; [discriminate|].
    pose proof (regex_loop_bounds char_is_signed rest (S (S i)) wb) as Hb'.
    rewrite H in Hb'.
    destruct j as [|j]; [lia|]. simpl.
    replace j with (n - S (S i)) by lia.
    eapply IH; [|reflexivity|exact H]. simpl; lia. }
  destruct (_ =? _)%Z.
  { destruct wb; [apply Hrec; exact H|exact H]. }
  destruct (_ =? _)%Z; [apply Hrec; exact H|].
  destruct (_ =? _)%Z; [apply Hrec; exact H|].
  destruct (_ =? _)%Z; [discriminate|apply Hrec; exact H].
Qed.

Lemma name_loop_prefix rest i token r :
  can_follow char_is_signed kNameNumberToken r = true ->
  name_loop char_is_signed
    (firstn (fst (name_loop char_is_signed rest i token) - i) rest ++ r) i token =
  name_loop char_is_signed rest i token.
Proof.
  intros Hr. revert i token. induction rest as [|c rest IH]; intros i token.
  - rewrite firstn_nil. simpl. destruct r as [|c r]; [reflexivity|].
    simpl in *. destruct (IsIdentifierChar _); [discriminate|reflexivity].
  - simpl. destruct (IsIdentifierChar _) eqn:E.
    + destruct (name_loop_spec char_is_signed rest (S i) (token ++ [c])) as (n & Hn & E0).
      specialize (IH (S i) (token ++ [c])). rewrite E0 in *. cbn [fst] in *.
      replace (S i + n - S i) with n in IH by lia.
      replace (S i + n - i) with (S n) by lia.
      simpl. rewrite E. exact IH.
    + cbn [fst]. rewrite Nat.sub_diag. simpl. destruct r as [|c' r]; [reflexivity|].
      simpl in *. destruct (IsIdentifierChar _); [discriminate|reflexivity].
Qed.

End Scans.

(** An iteration of Minify is the emission [describe] computes from the
    unread input. *)
Ltac record_norm :=
  cbv beta iota zeta delta
    [apply_emission ChangeToken InsertSpaceIfNeeded space_after
     set_index set_whitespace set_prev_token set_error set_output
     output_push_back output_append
     index_ output_ whitespace_ prev_token_ error_ collapse_string_
     Whitespace_eqb andb negb
     raises token separated text consumed whitespace_after
     emit_token emit_skip emit_fail].

Ltac record_eq m :=
  destruct m as [? ? w ? ? ?]; destruct w; record_norm;
  rewrite ?Nat.add_1_r, ?Nat.add_0_r;
  repeat (match goal with
          | |- context [if ?b then _ else _] =>
              lazymatch b with
              | context [if _ then _ else _] => fail
              | _ => destruct b
              end
          end; record_norm);
  reflexivity.

Section Describe.

Variable char_is_signed : bool.
Variable CanKeywordPrecedeRegEx : bytes -> bool.
Variable input_ : bytes.

#[local] Abbreviation Minifier := (Minifier (O:=StringConsumer.t)).
#[local] Abbreviation Minify_body := (Minify_body char_is_signed CanKeywordPrecedeRegEx input_).
#[local] Abbreviation describe := (describe char_is_signed CanKeywordPrecedeRegEx).

Lemma Minify_body_describe (m : Minifier) :
  collapse_string_ m = false ->
  Minify_body m =
  apply_emission m (describe (substr_from input_ (index_ m)) (prev_token_ m) (whitespace_ m)).
Proof.
  intros Hcol.
  destruct (substr_from input_ (index_ m)) as [|c rest] eqn:Hs.
  { assert (Hn : nth_error input_ (index_ m) = None).
    { rewrite <- (Nat.add_0_r (index_ m)), nth_error_unread, Hs. reflexivity. }
    unfold JsMinify.Minify_body. rewrite Hn.
    destruct m; unfold apply_emission; simpl. rewrite Nat.add_0_r. reflexivity. }
  assert (Hc : nth_error input_ (index_ m) = Some c).
  { rewrite <- (Nat.add_0_r (index_ m)), nth_error_unread, Hs. reflexivity. }
  assert (Hrest : substr_from input_ (S (index_ m)) = rest).
  { rewrite <- Nat.add_1_r, substr_from_unread, Hs. reflexivity. }
  assert (Hpeek : Peek char_is_signed input_ m =
                  match rest with c' :: _ => char_to_int char_is_signed c' | [] => kEOF end).
  { unfold Peek. rewrite nth_error_unread, Hs. destruct rest; reflexivity. }
  unfold JsMinify.Minify_body, JsMinify.describe. rewrite Hc. cbv zeta. rewrite Hpeek.
  destruct (_ || _).
  { destruct m; unfold apply_emission; simpl. rewrite Nat.add_1_r. reflexivity. }
  destruct (_ || _).
  { destruct m as [i o w p e cs]; unfold apply_emission, space_after; simpl.
    rewrite Nat.add_1_r. destruct (Whitespace_eqb w NO_WHITESPACE); reflexivity. }
  destruct (_ || _).
  { unfold ConsumeString. rewrite Hc, Hrest.
    rewrite <- (Nat.add_1_r (index_ m)), string_loop_shift.
    destruct (string_loop _ _ rest 1) as [n|n|n]; cbv iota beta zeta;
      unfold shift_exit; cbv iota beta; try (record_eq m).
    rewrite ChangeToken_collapse. fields. rewrite Hcol, substr_unread, Hs.
    replace (index_ m + n - index_ m) with n by lia.
    record_eq m. }
  destruct (_ =? _)%Z.
  { destruct (_ =? _)%Z.
    { unfold ConsumeLineComment. rewrite Hs.
      rewrite <- (Nat.add_0_r (index_ m)) at 1. rewrite line_comment_loop_shift.
      record_eq m. }
    destruct (_ =? _)%Z.
    { unfold ConsumeBlockComment.
      rewrite substr_from_unread, nth_error_unread, Hs, block_comment_loop_shift.
      pose proof (block_comment_loop_bounds char_is_signed (skipn 2 (c :: rest)) 2) as Hb.
      destruct (block_comment_loop _ (skipn 2 (c :: rest)) 2) as [n|n|n]; cbv iota beta zeta;
        unfold shift_exit; cbv iota beta; try (record_eq m).
      fields.
      replace (index_ m + n - 3) with (index_ m + (n - 3)) by lia.
      rewrite nth_error_unread, Hs, substr_unread, Hs.
      replace (index_ m + n - index_ m) with n by lia.
      destruct (_ && _); record_eq m. }
    destruct (EndsPrimaryExpression _).
    { record_eq m. }
    unfold ConsumeRegex. rewrite Hrest.
    rewrite <- (Nat.add_1_r (index_ m)), regex_loop_shift.
    destruct (regex_loop _ rest 1 false) as [n|n|n]; cbv iota beta zeta;
      unfold shift_exit; cbv iota beta; try (record_eq m).
    fields. rewrite substr_unread, Hs.
    replace (index_ m + n - index_ m) with n by lia.
    record_eq m. }
  destruct (IsIdentifierChar _).
  { unfold ConsumeNameOrNumber. cbv zeta.
    destruct (name_loop_spec char_is_signed (c :: rest) 0 []) as (n & Hn & E0).
    rewrite E0. cbn [app Nat.add].
    assert (E : name_loop char_is_signed (c :: rest) (index_ m) [] =
                (index_ m + n, firstn n (c :: rest))).
    { rewrite <- (Nat.add_0_r (index_ m)) at 1. rewrite name_loop_shift, E0. reflexivity. }
    destruct (_ || _); msimpl; rewrite Hs, E; record_eq m. }
  rewrite Hs.
  destruct (_ && _).
  { unfold ConsumeLineComment. rewrite Hs.
    rewrite <- (Nat.add_0_r (index_ m)) at 1. rewrite line_comment_loop_shift.
    record_eq m. }
  destruct (_ && _).
  { unfold ConsumeLineComment. rewrite Hs.
    rewrite <- (Nat.add_0_r (index_ m)) at 1. rewrite line_comment_loop_shift.
    record_eq m. }
  destruct (_ && _); [record_eq m|].
  destruct (_ && _); record_eq m.
Qed.

End Describe.

(** What [describe] says of a token and of what follows it. *)
Section DescribeFacts.

Variable char_is_signed : bool.
Variable CanKeywordPrecedeRegEx : bytes -> bool.

#[local] Abbreviation describe := (describe char_is_signed CanKeywordPrecedeRegEx).
#[local] Abbreviation code := (char_to_int char_is_signed).
#[local] Abbreviation can_follow := (can_follow char_is_signed).

Lemma describe_skip u prev w :
  u <> [] ->
  token (describe u prev w) = None ->
  raises (describe u prev w) = false ->
  whitespace_after (describe u prev w) <> NO_WHITESPACE.
Proof.
  destruct u as [|c rest]; [congruence|intros _].
  unfold JsMinify.describe. cbv zeta.
  repeat match goal with
         | |- context [if ?b then _ else _] =>
             lazymatch b with
             | context [if _ then _ else _] => fail
             | _ => destruct b
             end
         | |- context [match ?l with LoopReturn _ => _ | _ => _ end] => destruct l
         | |- context [let '(_, _) := ?p in _] => destruct p
         end;
    cbn; unfold space_after; try destruct w; cbn; congruence.
Qed.

Lemma can_follow_other tok u :
  (261 < tok)%Z \/ (45 < tok < 260)%Z -> can_follow tok u = true.
Proof.
  intros H. destruct u as [|c u]; [reflexivity|]. unfold JsMinify.can_follow. cbv zeta.
  replace (tok =? kNameNumberToken)%Z with false
    by (symmetry; apply Z.eqb_neq; unfold kNameNumberToken; lia).
  replace (tok =? kKeywordCanPrecedeRegExToken)%Z with false
    by (symmetry; apply Z.eqb_neq; unfold kKeywordCanPrecedeRegExToken; lia).
  replace (tok =? 43)%Z with false by (symmetry; apply Z.eqb_neq; lia).
  replace (tok =? 45)%Z with false by (symmetry; apply Z.eqb_neq; lia).
  reflexivity.
Qed.

Lemma can_follow_char ch rest :
  (-128 <= ch < 256)%Z ->
  can_follow ch rest =
  let next := match rest with c' :: _ => code c' | [] => kEOF end in
  negb ((ch =? 43) && (next =? 43))%Z && negb ((ch =? 45) && (next =? 45))%Z.
Proof.
  intros Hrange.
  destruct rest as [|c' rest]; unfold JsMinify.can_follow; cbv zeta.
  - destruct (ch =? 43)%Z, (ch =? 45)%Z; reflexivity.
  - replace (ch =? kNameNumberToken)%Z with false
      by (symmetry; apply Z.eqb_neq; unfold kNameNumberToken; lia).
    replace (ch =? kKeywordCanPrecedeRegExToken)%Z with false
      by (symmetry; apply Z.eqb_neq; unfold kKeywordCanPrecedeRegExToken; lia).
    reflexivity.
Qed.

Lemma can_follow_keyword r :
  can_follow kKeywordCanPrecedeRegExToken r = can_follow kNameNumberToken r.
Proof. destruct r; reflexivity. Qed.

Lemma firstn_prefix (k : nat) (l r : bytes) :
  k <= length l -> firstn k (firstn k l ++ r) = firstn k l.
Proof.
  revert l. induction k as [|k IH]; intros l Hk; [reflexivity|].
  destruct l as [|c l]; simpl in *; [lia|]. f_equal. apply IH. lia.
Qed.

Lemma describe_token u prev w tok :
  token (describe u prev w) = Some tok ->
  raises (describe u prev w) = false /\
  1 <= consumed (describe u prev w) <= length u /\
  text (describe u prev w) = firstn (consumed (describe u prev w)) u /\
  can_follow tok (skipn (consumed (describe u prev w)) u) = true /\
  (separated (describe u prev w) = false -> can_follow prev u = true).
Proof.
  destruct u as [|c rest]; [discriminate|].
  unfold JsMinify.describe. cbv zeta.
  pose proof (char_to_int_range char_is_signed c) as Hrange.
  set (next := match rest with [] => kEOF | c' :: _ => code c' end).
  assert (Hfollow : forall t, can_follow t (c :: rest) =
    negb (((t =? kNameNumberToken) || (t =? kKeywordCanPrecedeRegExToken))%Z &&
          IsIdentifierChar (code c)) &&
    negb ((t =? 43) && (code c =? 43))%Z && negb ((t =? 45) && (code c =? 45))%Z)
    by reflexivity.
  assert (Hrest : can_follow (code c) rest =
    negb ((code c =? 43) && (next =? 43))%Z && negb ((code c =? 45) && (next =? 45))%Z).
  { destruct rest as [|c' rest]; unfold JsMinify.can_follow; subst next; cbv zeta.
    - destruct (code c =? 43)%Z, (code c =? 45)%Z; reflexivity.
    - replace (code c =? kNameNumberToken)%Z with false
        by (symmetry; apply Z.eqb_neq; unfold kNameNumberToken; lia).
      replace (code c =? kKeywordCanPrecedeRegExToken)%Z with false
        by (symmetry; apply Z.eqb_neq; unfold kKeywordCanPrecedeRegExToken; lia).
      reflexivity. }
  remember (code c) as ch eqn:Hch.
  destruct ((ch =? 10) || (ch =? 13))%Z eqn:Hnl; [discriminate|].
  destruct ((ch =? 32) || (ch =? 9))%Z eqn:Hsp; [discriminate|].
  destruct ((ch =? 39) || (ch =? 34) || (ch =? 96))%Z eqn:Hq.
  { pose proof (string_loop_bounds char_is_signed ch rest 1) as Hb.
    destruct (string_loop _ _ rest 1) as [n|n|n]; [|discriminate..].
    cbn [token raises consumed text separated emit_token]. intros [= <-].
    repeat split; cbn [length firstn skipn]; try lia; try reflexivity.
    - apply can_follow_other. unfold kStringToken. lia.
    - intros _. rewrite Hfollow.
      assert (ch = 39 \/ ch = 34 \/ ch = 96)%Z as [->|[->| ->]] by lia;
        simpl; rewrite !andb_false_r; reflexivity. }
  destruct (ch =? 47)%Z eqn:Hslash.
  { apply Z.eqb_eq in Hslash. rewrite Hslash in *.
    assert (Hprev : forall t, can_follow t (c :: rest) = true).
    { intros t. rewrite Hfollow. simpl. rewrite !andb_false_r. reflexivity. }
    destruct (next =? 47)%Z eqn:Hn1; [discriminate|].
    destruct (next =? 42)%Z eqn:Hn2.
    { pose proof (block_comment_loop_bounds char_is_signed (skipn 2 (c :: rest)) 2) as Hb.
      destruct (block_comment_loop _ _ 2) as [n|n|n]; [|discriminate..].
      match goal with
      | |- context [if ?b then emit_token _ _ kCCCommentToken _ else _] => destruct b
      end; [|discriminate].
      cbn [token raises consumed text separated emit_token]. intros [= <-].
      assert (rest <> []) by (intros ->; discriminate).
      destruct rest as [|c' rest]; [congruence|].
      change (skipn 2 (c :: c' :: rest)) with rest in Hb. cbn [length] in Hb.
      repeat split; cbn [length firstn skipn]; try lia; try reflexivity.
      - apply can_follow_other. unfold kCCCommentToken. lia.
      - intros _. apply Hprev. }
    destruct (EndsPrimaryExpression prev).
    { cbn [token raises consumed text separated emit_token]. intros [= <-].
      repeat split; cbn [length firstn skipn]; try lia; try reflexivity.
      - apply can_follow_other. lia.
      - intros _. apply Hprev. }
    pose proof (regex_loop_bounds char_is_signed rest 1 false) as Hb.
    destruct (regex_loop _ rest 1 false) as [n|n|n]; [|discriminate..].
    cbn [token raises consumed text separated emit_token]. intros [= <-].
    repeat split; cbn [length firstn skipn]; try lia; try reflexivity.
    - apply can_follow_other. unfold kRegexToken. lia.
    - intros _. apply Hprev. }
  destruct (IsIdentifierChar ch) eqn:Hid.
  { destruct (name_loop_spec char_is_signed (c :: rest) 0 []) as (n & Hn & E0).
    pose proof (name_loop_stops char_is_signed (c :: rest) 0 []) as Hstop.
    rewrite E0 in *. cbn [fst app Nat.add] in *. rewrite Nat.sub_0_r in Hstop.
    assert (1 <= n).
    { simpl in E0. rewrite <- Hch, Hid in E0.
      destruct (name_loop_spec char_is_signed rest 1 [c]) as (n' & _ & E1).
      rewrite E1 in E0. injection E0 as <- _. lia. }
    cbn [token raises consumed text separated emit_token]. intros [= <-].
    repeat split; try lia; try reflexivity.
    - revert Hstop. unfold JsMinify.can_follow. destruct (skipn n (c :: rest)); [reflexivity|].
      cbv zeta. destruct (CanKeywordPrecedeRegEx _); simpl; intros ->; reflexivity.
    - intros Hsep. rewrite Hfollow.
      apply orb_false_iff in Hsep as [Hsep _]. rewrite Hsep. simpl.
      destruct (Z.eqb_spec ch 43) as [->|_]; [discriminate|].
      destruct (Z.eqb_spec ch 45) as [->|_]; [discriminate|].
      rewrite !andb_false_r. reflexivity. }
  destruct ((ch =? 60)%Z && _) eqn:Hlt; [discriminate|].
  destruct ((ch =? 45)%Z && _ && _) eqn:Hgt; [discriminate|].
  destruct ((ch =? 43) && (next =? 43))%Z eqn:Hpp.
  { cbn [token raises consumed text separated emit_token]. intros [= <-].
    apply andb_true_iff in Hpp as [Hp1 Hp2].
    apply Z.eqb_eq in Hp1. rewrite Hp1 in *.
    destruct rest as [|c' rest]; [discriminate|]. subst next.
    apply Z.eqb_eq in Hp2.
    assert (Ec : c = "+"%char).
    { apply Ascii.eqb_eq. rewrite <- (char_to_int_eqb char_is_signed) by (vm_compute; reflexivity).
      rewrite <- Hch. reflexivity. }
    assert (Ec' : c' = "+"%char).
    { apply Ascii.eqb_eq. rewrite <- (char_to_int_eqb char_is_signed) by (vm_compute; reflexivity).
      rewrite Hp2. reflexivity. }
    subst c c'.
    repeat split; cbn [length firstn skipn]; try lia; try reflexivity.
    - apply can_follow_other. unfold kPlusPlusToken. lia.
    - intros Hsep. rewrite Hfollow. apply orb_false_iff in Hsep as [-> _].
      simpl. rewrite !andb_false_r. reflexivity. }
  destruct ((ch =? 45) && (next =? 45))%Z eqn:Hmm.
  { cbn [token raises consumed text separated emit_token]. intros [= <-].
    apply andb_true_iff in Hmm as [Hp1 Hp2].
    apply Z.eqb_eq in Hp1. rewrite Hp1 in *.
    destruct rest as [|c' rest]; [discriminate|]. subst next.
    apply Z.eqb_eq in Hp2.
    assert (Ec : c = "-"%char).
    { apply Ascii.eqb_eq. rewrite <- (char_to_int_eqb char_is_signed) by (vm_compute; reflexivity).
      rewrite <- Hch. reflexivity. }
    assert (Ec' : c' = "-"%char).
    { apply Ascii.eqb_eq. rewrite <- (char_to_int_eqb char_is_signed) by (vm_compute; reflexivity).
      rewrite Hp2. reflexivity. }
    subst c c'.
    repeat split; cbn [length firstn skipn]; try lia; try reflexivity.
    - apply can_follow_other. unfold kMinusMinusToken. lia.
    - intros Hsep. rewrite Hfollow.
      apply orb_false_iff in Hsep as [Hsep _]. apply orb_false_iff in Hsep as [-> _].
      simpl. rewrite !andb_false_r. reflexivity. }
  cbn [token raises consumed text separated emit_token]. intros [= <-].
  repeat split; cbn [length firstn skipn]; try lia; try reflexivity.
  - change (skipn 0 rest) with rest. rewrite Hrest. reflexivity.
  - intros Hsep. rewrite Hfollow, andb_false_r.
    apply orb_false_iff in Hsep as [Hsep _]. apply orb_false_iff in Hsep as [Hsep _].
    apply orb_false_iff in Hsep as [Hsep _]. apply orb_false_iff in Hsep as [Hsep _].
    destruct (Z.eqb_spec prev 43) as [Hp|Hp], (Z.eqb_spec ch 43) as [Hc|Hc],
             (Z.eqb_spec prev 45) as [Hp'|Hp'], (Z.eqb_spec ch 45) as [Hc'|Hc'];
      try reflexivity; try lia; rewrite ?Hp, ?Hp', ?Hc, ?Hc' in Hsep; discriminate.
Qed.

End DescribeFacts.

(** The fields of a Minifier after an emission. *)
Section Emissions.

#[local] Abbreviation Minifier := (Minifier (O:=StringConsumer.t)).
#[local] Abbreviation out := (fun m : Minifier => StringConsumer.output_ (output_ m)).

Lemma apply_emission_token (m : Minifier) e tok :
  raises e = false -> token e = Some tok ->
  out (apply_emission m e) =
    out m ++ separator (whitespace_ m) (separated e) (prev_token_ m) tok ++ text e /\
  index_ (apply_emission m e) = index_ m + consumed e /\
  whitespace_ (apply_emission m e) = NO_WHITESPACE /\
  prev_token_ (apply_emission m e) = tok /\
  error_ (apply_emission m e) = error_ m /\
  collapse_string_ (apply_emission m e) = collapse_string_ m.
Proof.
  intros Hr Ht. unfold apply_emission. rewrite Hr, Ht.
  destruct m as [i o w p er cs]. unfold separator.
  destruct w, (separated e); record_norm;
    try destruct (CanSuppressLinebreak p tok); record_norm;
    cbn [StringConsumer.output_ StringConsumer.append StringConsumer.push_back
         append push_back StringConsumer_sink orb];
    rewrite <- ?app_assoc, ?app_nil_l; repeat split; reflexivity.
Qed.

Lemma apply_emission_skip (m : Minifier) e :
  raises e = false -> token e = None ->
  out (apply_emission m e) = out m /\
  index_ (apply_emission m e) = index_ m + consumed e /\
  whitespace_ (apply_emission m e) = whitespace_after e /\
  prev_token_ (apply_emission m e) = prev_token_ m /\
  error_ (apply_emission m e) = error_ m /\
  collapse_string_ (apply_emission m e) = collapse_string_ m.
Proof.
  intros Hr Ht. unfold apply_emission. rewrite Hr, Ht.
  destruct m; repeat split; reflexivity.
Qed.

Lemma apply_emission_fail (m : Minifier) e :
  raises e = true -> error_ (apply_emission m e) = true.
Proof. intros Hr. unfold apply_emission. rewrite Hr. reflexivity. Qed.

Lemma separator_again w sep prev tok :
  separator (whitespace_of (separator w sep prev tok)) sep prev tok =
  separator w sep prev tok.
Proof.
  unfold separator. destruct w, sep; simpl; try reflexivity.
  destruct (CanSuppressLinebreak prev tok) eqn:E; simpl; rewrite ?E; reflexivity.
Qed.

End Emissions.

(** The second run reads what the first one wrote. *)
Section Idempotence.

Variable char_is_signed : bool.
Variable CanKeywordPrecedeRegEx : bytes -> bool.

#[local] Abbreviation Minifier := (Minifier (O:=StringConsumer.t)).
#[local] Abbreviation out := (fun m : Minifier => StringConsumer.output_ (output_ m)).
#[local] Abbreviation describe := (describe char_is_signed CanKeywordPrecedeRegEx).
#[local] Abbreviation can_follow := (can_follow char_is_signed).
#[local] Abbreviation Minify_body := (Minify_body char_is_signed CanKeywordPrecedeRegEx).
#[local] Abbreviation Minify_loop := (Minify_loop char_is_signed CanKeywordPrecedeRegEx).
#[local] Abbreviation Minify := (Minify char_is_signed CanKeywordPrecedeRegEx).

Lemma can_follow_head tok c a b : can_follow tok (c :: a) = can_follow tok (c :: b).
Proof. reflexivity. Qed.

Lemma can_follow_separator tok w sep prev tok' rest :
  separator w sep prev tok' <> [] ->
  can_follow tok (separator w sep prev tok' ++ rest) = true.
Proof.
  unfold separator.
  destruct w, sep; try destruct (CanSuppressLinebreak prev tok'); simpl; try congruence;
    intros _; unfold JsMinify.can_follow, char_to_int; destruct char_is_signed; simpl;
    rewrite !andb_false_r; reflexivity.
Qed.

Lemma separator_nil w sep prev tok :
  separator w sep prev tok = [] -> w = NO_WHITESPACE \/ sep = false.
Proof.
  unfold separator. destruct w, sep; simpl; auto; discriminate.
Qed.

Lemma Minify_cond_unread input_ (m : Minifier) :
  Minify_cond input_ m = true -> substr_from input_ (index_ m) <> [].
Proof.
  unfold Minify_cond, substr_from. intros H. apply andb_true_iff in H as [H _].
  apply Nat.ltb_lt in H. intros E. apply (f_equal (@length _)) in E.
  rewrite length_skipn in E. simpl in E. lia.
Qed.

(** What a run appends to the sink starts with a byte that can follow the
    last token, when the unread input does or whitespace was seen. *)
Lemma Minify_loop_output input_ fuel (m : Minifier) :
  collapse_string_ m = false ->
  whitespace_ m <> NO_WHITESPACE \/
    can_follow (prev_token_ m) (substr_from input_ (index_ m)) = true ->
  error_ (Minify_loop input_ fuel m) = false ->
  exists r, out (Minify_loop input_ fuel m) = out m ++ r /\
            can_follow (prev_token_ m) r = true.
Proof.
  revert m. induction fuel as [|fuel IH]; intros m Hcol Hpre Herr; simpl in *.
  { exists []. rewrite app_nil_r. auto. }
  destruct (Minify_cond input_ m) eqn:Hc.
  2: { exists []. rewrite app_nil_r. auto. }
  pose proof (Minify_cond_unread _ _ Hc) as Hu.
  rewrite Minify_body_describe in * by exact Hcol.
  set (e := describe (substr_from input_ (index_ m)) (prev_token_ m) (whitespace_ m)) in *.
  destruct (raises e) eqn:Hr.
  { rewrite Minify_loop_error in Herr by (apply apply_emission_fail; exact Hr).
    rewrite apply_emission_fail in Herr by exact Hr. discriminate. }
  destruct (token e) as [tok|] eqn:Ht.
  - destruct (apply_emission_token m e tok Hr Ht) as (Ho & Hi & Hw & Hp & He & Hcs).
    destruct (describe_token _ _ _ _ _ _ Ht) as (_ & Hn & Htext & Hnext & Hsep).
    fold e in Hn, Htext, Hnext, Hsep.
    destruct (IH (apply_emission m e)) as (r & Hout & Hfol).
    + rewrite Hcs. exact Hcol.
    + right. rewrite Hp, Hi, substr_from_unread. exact Hnext.
    + exact Herr.
    + exists (separator (whitespace_ m) (separated e) (prev_token_ m) tok ++ text e ++ r).
      split; [rewrite Hout, Ho, <- !app_assoc; reflexivity|].
      destruct (separator _ _ _ _) eqn:Es.
      * simpl. rewrite Htext.
        destruct (substr_from input_ (index_ m)) as [|c u] eqn:Eu; [congruence|].
        destruct (consumed e) as [|k]; [lia|]. cbn [firstn app].
        rewrite (can_follow_head _ _ _ u).
        destruct (separator_nil _ _ _ _ Es) as [Hw0|Hs0]; [|auto].
        destruct Hpre as [Hpre|Hpre]; [congruence|exact Hpre].
      * rewrite <- Es. apply can_follow_separator. congruence.
  - destruct (apply_emission_skip m e Hr Ht) as (Ho & Hi & Hw & Hp & He & Hcs).
    destruct (IH (apply_emission m e)) as (r & Hout & Hfol).
    + rewrite Hcs. exact Hcol.
    + left. rewrite Hw. apply describe_skip; assumption.
    + exact Herr.
    + exists r. rewrite Hout, Ho, <- Hp. auto.
Qed.

Lemma skipn_app_length (a b : bytes) : skipn (length a) (a ++ b) = b.
Proof. induction a; simpl; auto. Qed.

Lemma describe_separator w sep prev tok rest prev' :
  separator w sep prev tok <> [] ->
  describe (separator w sep prev tok ++ rest) prev' NO_WHITESPACE =
  emit_skip 1 (whitespace_of (separator w sep prev tok)).
Proof.
  unfold separator.
  destruct w, sep; try destruct (CanSuppressLinebreak prev tok); simpl; try congruence;
    intros _; unfold JsMinify.describe, char_to_int; destruct char_is_signed; reflexivity.
Qed.

End Idempotence.

Section Rescans.

Variable char_is_signed : bool.

Lemma block_comment_loop_prefix rest i n r :
  block_comment_loop char_is_signed rest i = LoopReturn n ->
  block_comment_loop char_is_signed (firstn (n - i) rest ++ r) i = LoopReturn n.
Proof.
  revert i. induction rest as [|c rest IH]; intros i H; [discriminate|].
  pose proof (block_comment_loop_bounds char_is_signed (c :: rest) i) as Hb.
  rewrite H in Hb. simpl in H.
  destruct (n - i) as [|j] eqn:Hj; [simpl in Hb; lia|].
  cbn [firstn app block_comment_loop].
  destruct rest as [|c' rest].
  - rewrite andb_false_r in H. discriminate.
  - destruct ((_ =? _)%Z && (_ =? _)%Z) eqn:E.
    + injection H as <-. destruct j as [|j]; [lia|]. cbn [firstn app]. rewrite E. reflexivity.
    + pose proof (block_comment_loop_bounds char_is_signed (c' :: rest) (S i)) as Hb'.
      rewrite H in Hb'. cbn [length] in Hb'.
      destruct j as [|j]; [lia|].
      change (firstn (S j) (c' :: rest) ++ r) with (c' :: (firstn j rest ++ r)).
      cbv iota. rewrite E.
      change (c' :: (firstn j rest ++ r)) with (firstn (S j) (c' :: rest) ++ r).
      replace (S j) with (n - S i) by lia. apply IH. exact H.
Qed.

Lemma nth_error_prefix (n k : nat) (l r : bytes) :
  k < n -> n <= length l -> nth_error (firstn n l ++ r) k = nth_error l k.
Proof.
  intros Hk Hn. rewrite nth_error_app1 by (rewrite length_firstn; lia).
  rewrite nth_error_firstn. destruct (Nat.ltb_spec k n); [reflexivity|lia].
Qed.

End Rescans.

Section DescribeAgain.

Variable char_is_signed : bool.
Variable CanKeywordPrecedeRegEx : bytes -> bool.

#[local] Abbreviation describe := (describe char_is_signed CanKeywordPrecedeRegEx).
#[local] Abbreviation code := (char_to_int char_is_signed).
#[local] Abbreviation can_follow := (can_follow char_is_signed).
#[local] Abbreviation comment_start := (comment_start char_is_signed).

(** A token is read again as it was read, from what was written of it and
    whatever follows, unless a comment starts there now. *)
Lemma describe_again u prev w w' tok r :
  token (describe u prev w) = Some tok ->
  (tok =? kCCCommentToken)%Z ||
  negb (comment_start (firstn (consumed (describe u prev w)) u ++ r) prev w') = true ->
  can_follow tok r = true ->
  describe (firstn (consumed (describe u prev w)) u ++ r) prev w' = describe u prev w.
Proof.
  intros Htok Hopen Hfol.
  destruct (describe_token _ _ _ _ _ _ Htok) as (_ & Hn & _).
  destruct u as [|c rest]; [discriminate|].
  remember (consumed (describe (c :: rest) prev w)) as n eqn:En.
  destruct n as [|k]; [lia|].
  change (firstn (S k) (c :: rest) ++ r) with (c :: (firstn k rest ++ r)) in *.
  cbn [length] in Hn.
  pose proof (char_to_int_range char_is_signed c) as Hrange.
  set (next := match rest with [] => kEOF | c' :: _ => code c' end).
  set (next' := match firstn k rest ++ r with [] => kEOF | c' :: _ => code c' end) in *.
  assert (Hstart : tok <> kCCCommentToken ->
            ((code c =? 47) && ((next' =? 47) || (next' =? 42)))%Z = false /\
            ((code c =? 60)%Z && starts_with (c :: firstn k rest ++ r) (str "<!--")) = false /\
            ((code c =? 45)%Z &&
             (Whitespace_eqb w' LINEBREAK || (prev =? kStartToken)%Z) &&
             starts_with (c :: firstn k rest ++ r) (str "-->")) = false).
  { intros Hne. apply orb_true_iff in Hopen as [Ho|Ho]; [apply Z.eqb_eq in Ho; congruence|].
    apply negb_true_iff in Ho. unfold JsMinify.comment_start in Ho. cbv zeta in Ho.
    fold next' in Ho.
    apply orb_false_iff in Ho as [Ho H3]. apply orb_false_iff in Ho as [H1 H2]. auto. }
  assert (Hnext : 1 <= k -> next' = next).
  { intros Hk. subst next next'. destruct rest as [|c' rest]; [simpl in Hn; lia|].
    destruct k as [|k']; [lia|]. reflexivity. }
  clear Hopen.
  revert Htok En. unfold JsMinify.describe. cbv zeta. fold next next'.
  remember (code c) as ch eqn:Hch.
  destruct ((ch =? 10) || (ch =? 13))%Z eqn:Hnl; [discriminate|].
  destruct ((ch =? 32) || (ch =? 9))%Z eqn:Hsp; [discriminate|].
  destruct ((ch =? 39) || (ch =? 34) || (ch =? 96))%Z eqn:Hq.
  { destruct (string_loop _ _ rest 1) as [n|n|n] eqn:E; [|discriminate..].
    cbn [token consumed emit_token]. intros _ <-.
    pose proof (string_loop_prefix char_is_signed ch rest 1 (S k) r E) as E'.
    replace (S k - 1) with k in E' by lia. rewrite E'.
    cbn [firstn]. rewrite firstn_prefix by lia. reflexivity. }
  destruct (ch =? 47)%Z eqn:Hs.
  { destruct (next =? 47)%Z eqn:Hx1; [discriminate|].
    destruct (next =? 42)%Z eqn:Hx2.
    { pose proof (block_comment_loop_bounds char_is_signed (skipn 2 (c :: rest)) 2) as Hb.
      destruct (block_comment_loop _ (skipn 2 (c :: rest)) 2) as [n|n|n] eqn:E; [|discriminate..].
      match goal with
      | |- context [if ?b then emit_token _ _ kCCCommentToken _ else _] =>
          destruct b eqn:Hcc
      end; [|discriminate].
      cbn [token consumed emit_token]. intros _ <-.
      destruct rest as [|c' rest]; [discriminate|].
      destruct k as [|k]; [simpl in Hb; lia|].
      rewrite (Hnext ltac:(lia)), Hx1, Hx2.
      change (skipn 2 (c :: c' :: rest)) with rest in *.
      change (skipn 2 (c :: firstn (S k) (c' :: rest) ++ r)) with (firstn k rest ++ r).
      pose proof (block_comment_loop_prefix char_is_signed rest 2 (S (S k)) r E) as E'.
      replace (S (S k) - 2) with k in E' by lia. rewrite E'.
      simpl in Hb.
      change (c :: firstn (S k) (c' :: rest) ++ r)
        with (firstn (S (S k)) (c :: c' :: rest) ++ r).
      rewrite !nth_error_prefix by (simpl; lia). rewrite Hcc.
      rewrite firstn_prefix by (simpl; lia). reflexivity. }
    destruct (EndsPrimaryExpression prev).
    { cbn [token consumed emit_token]. intros [= <-] [= ->].
      destruct Hstart as (H1 & _); [unfold kCCCommentToken; lia|]. cbn [andb] in H1.
      apply orb_false_iff in H1 as [-> ->]. reflexivity. }
    pose proof (regex_loop_bounds char_is_signed rest 1 false) as Hb.
    destruct (regex_loop _ rest 1 false) as [n|n|n] eqn:E; [|discriminate..].
    cbn [token consumed emit_token]. intros _ <-.
    rewrite (Hnext ltac:(lia)), Hx1, Hx2.
    pose proof (regex_loop_prefix char_is_signed rest 1 false (S k) r E) as E'.
    replace (S k - 1) with k in E' by lia. rewrite E'.
    cbn [firstn]. rewrite firstn_prefix by lia. reflexivity. }
  destruct (IsIdentifierChar ch) eqn:Hid.
  { destruct (name_loop char_is_signed (c :: rest) 0 []) as [n name] eqn:E.
    cbn [token consumed emit_token]. intros [= <-] <-.
    assert (Hr : JsMinify.can_follow char_is_signed kNameNumberToken r = true).
    { destruct (CanKeywordPrecedeRegEx name); [rewrite <- can_follow_keyword|]; exact Hfol. }
    pose proof (name_loop_prefix char_is_signed (c :: rest) 0 [] r Hr) as E'.
    rewrite E in E'. cbn [fst] in E'. rewrite Nat.sub_0_r in E'.
    change (firstn (S k) (c :: rest) ++ r) with (c :: (firstn k rest ++ r)) in E'.
    rewrite E'. reflexivity. }
  destruct ((ch =? 60)%Z && starts_with (c :: rest) _); [discriminate|].
  destruct ((ch =? 45)%Z && _ && starts_with (c :: rest) _); [discriminate|].
  destruct ((ch =? 43) && (next =? 43))%Z eqn:Hpp.
  { cbn [token consumed emit_token]. intros [= <-] [= ->].
    destruct Hstart as (_ & -> & ->); [unfold kPlusPlusToken, kCCCommentToken; lia|].
    rewrite (Hnext ltac:(lia)), Hpp. reflexivity. }
  destruct ((ch =? 45) && (next =? 45))%Z eqn:Hmm.
  { cbn [token consumed emit_token]. intros [= <-] [= ->].
    destruct Hstart as (_ & -> & ->); [unfold kMinusMinusToken, kCCCommentToken; lia|].
    rewrite (Hnext ltac:(lia)), Hmm.
    apply andb_true_iff in Hmm as [H1 H2]. apply Z.eqb_eq in H1.
    rewrite H1. reflexivity. }
  cbn [token consumed emit_token]. intros [= <-] [= ->].
  destruct Hstart as (_ & -> & ->); [unfold kCCCommentToken; lia|].
  rewrite can_follow_char in Hfol by exact Hrange. cbv zeta in Hfol.
  change (firstn 0 rest ++ r) with r in next'. fold next' in Hfol.
  apply andb_true_iff in Hfol as [H1 H2].
  apply negb_true_iff in H1, H2. rewrite H1, H2. reflexivity.
Qed.

End DescribeAgain.


(** The second run reads what the first one wrote. *)
Section Twice.

Variable char_is_signed : bool.
Variable CanKeywordPrecedeRegEx : bytes -> bool.

#[local] Abbreviation Minifier := (Minifier (O:=StringConsumer.t)).
#[local] Abbreviation out := (fun m : Minifier => StringConsumer.output_ (output_ m)).
#[local] Abbreviation describe := (describe char_is_signed CanKeywordPrecedeRegEx).
#[local] Abbreviation can_follow := (can_follow char_is_signed).
#[local] Abbreviation Minify_loop := (Minify_loop char_is_signed CanKeywordPrecedeRegEx).
#[local] Abbreviation Minify := (Minify char_is_signed CanKeywordPrecedeRegEx).
#[local] Abbreviation no_token_starts_comment :=
  (no_token_starts_comment char_is_signed CanKeywordPrecedeRegEx).

(** The run over the output [y] of a run over [x], token by token: [t] reads
    [y] and has written what [m], reading [x], has written. *)
Lemma Minify_twice x y fuel (m t : Minifier) :
  collapse_string_ m = false -> collapse_string_ t = false ->
  error_ t = false ->
  whitespace_ m <> NO_WHITESPACE \/
    can_follow (prev_token_ m) (substr_from x (index_ m)) = true ->
  out t = out m -> index_ t = length (out m) ->
  prev_token_ t = prev_token_ m -> whitespace_ t = NO_WHITESPACE ->
  error_ (Minify_loop x fuel m) = false ->
  Minify_cond x (Minify_loop x fuel m) = false ->
  out (Minify_loop x fuel m) = y ->
  no_token_starts_comment fuel (substr_from x (index_ m)) (prev_token_ m) (whitespace_ m)
                          (skipn (length (out m)) y) = true ->
  error_ (Minify y t) = false /\ out (Minify y t) = y.
Proof.
  revert m t. induction fuel as [|fuel IH];
    intros m t Hcm Hct Het Hpre Hout Hidx Hprev Hws Herr Hend Hy Hno;
    cbn [JsMinify.Minify_loop] in *.
  { rewrite Minify_unfold. unfold Minify_cond. rewrite Hidx, Hy, Nat.ltb_irrefl. simpl.
    split; [exact Het|congruence]. }
  destruct (Minify_cond x m) eqn:Hc.
  2: { rewrite Minify_unfold. unfold Minify_cond. rewrite Hidx, Hy, Nat.ltb_irrefl. simpl.
       split; [exact Het|congruence]. }
  pose proof (Minify_cond_unread _ _ Hc) as Hu.
  cbn [JsMinify.no_token_starts_comment] in Hno.
  destruct (substr_from x (index_ m)) as [|c0 u0] eqn:Eu0; [congruence|].
  rewrite <- Eu0 in *. clear Eu0 c0 u0.
  rewrite Minify_body_describe in * by exact Hcm.
  set (e := describe (substr_from x (index_ m)) (prev_token_ m) (whitespace_ m)) in *.
  destruct (raises e) eqn:Hr.
  { rewrite Minify_loop_error in Herr by (apply apply_emission_fail; exact Hr).
    rewrite apply_emission_fail in Herr by exact Hr. discriminate. }
  destruct (token e) as [tok|] eqn:Ht.
  2: { destruct (apply_emission_skip m e Hr Ht) as (Ho & Hi & Hw & Hp & He & Hcs).
       apply (IH (apply_emission m e) t); try assumption.
       - rewrite Hcs. exact Hcm.
       - left. rewrite Hw. apply describe_skip; assumption.
       - rewrite Ho. exact Hout.
       - rewrite Ho. exact Hidx.
       - rewrite Hp. exact Hprev.
       - rewrite Hi, substr_from_unread, Hp, Hw, Ho. exact Hno. }
  destruct (apply_emission_token m e tok Hr Ht) as (Ho & Hi & Hw & Hp & He & Hcs).
  destruct (describe_token _ _ _ _ _ _ Ht) as (_ & Hn & Htext & Hnext & Hsep).
  fold e in Hn, Htext, Hnext, Hsep.
  assert (Hpre' : whitespace_ (apply_emission m e) <> NO_WHITESPACE \/
            can_follow (prev_token_ (apply_emission m e))
              (substr_from x (index_ (apply_emission m e))) = true).
  { right. rewrite Hp, Hi, substr_from_unread. exact Hnext. }
  assert (Hcm' : collapse_string_ (apply_emission m e) = false) by (rewrite Hcs; exact Hcm).
  destruct (Minify_loop_output _ _ x fuel (apply_emission m e) Hcm' Hpre' Herr)
    as (r & Hfin & Hfol).
  rewrite Hp in Hfol.
  set (s := separator (whitespace_ m) (separated e) (prev_token_ m) tok) in *.
  assert (Ey : y = out m ++ s ++ text e ++ r).
  { rewrite <- Hy, Hfin, Ho, <- !app_assoc. reflexivity. }
  assert (Hlen : length (text e) = consumed e).
  { rewrite Htext. apply firstn_length_le. lia. }
  apply andb_true_iff in Hno as [Hhere Hno].
  rewrite Ey in Hhere, Hno. rewrite !skipn_app_length in Hhere.
  rewrite !skipn_app_length in Hno.
  assert (Etok : describe (text e ++ r) (prev_token_ m) (whitespace_of s) = e).
  { rewrite Htext. apply describe_again with (tok := tok); try assumption.
    fold e. rewrite <- Htext. exact Hhere. }
  assert (Hstep : forall t' : Minifier,
    collapse_string_ t' = false -> error_ t' = false ->
    index_ t' = length (out m ++ s) -> prev_token_ t' = prev_token_ m ->
    whitespace_ t' = whitespace_of s ->
    out t' ++ separator (whitespace_ t') (separated e) (prev_token_ m) tok = out m ++ s ->
    error_ (Minify y t') = false /\ out (Minify y t') = y).
  { intros t' Hct' Het' Hidx' Hprev' Hws' Hout'.
    assert (Eu : substr_from y (index_ t') = text e ++ r).
    { unfold substr_from. rewrite Hidx', Ey, app_assoc. apply skipn_app_length. }
    rewrite Minify_unfold.
    replace (Minify_cond y t') with true.
    2: { symmetry. unfold Minify_cond. rewrite Het', Hidx', Ey, app_assoc, !length_app.
         cbn [negb]. rewrite andb_true_r. apply Nat.ltb_lt. lia. }
    rewrite Minify_body_describe by exact Hct'.
    rewrite Eu, Hprev', Hws', Etok.
    destruct (apply_emission_token t' e tok Hr Ht) as (Ho' & Hi' & Hw' & Hp' & He' & Hcs').
    apply (IH (apply_emission m e) (apply_emission t' e)); try assumption.
    - rewrite Hcs'. exact Hct'.
    - rewrite He'. exact Het'.
    - rewrite Ho', Ho, Hprev'. fold s. rewrite !app_assoc. rewrite Hout'. reflexivity.
    - rewrite Hi', Ho, Hidx'. fold s. rewrite !length_app. lia.
    - rewrite Hp', Hp. reflexivity.
    - rewrite Hi, substr_from_unread, Hp, Hw, Ho. fold s.
      rewrite Ey, !app_assoc, skipn_app_length. exact Hno. }
  destruct s as [|cs s'] eqn:Es.
  - apply (Hstep t); try assumption.
    + rewrite app_nil_r. exact Hidx.
    + rewrite Hws. simpl. rewrite !app_nil_r. exact Hout.
  - assert (Hs1 : s' = []).
    { revert Es. unfold s, separator.
      destruct (whitespace_ m), (separated e); try destruct (CanSuppressLinebreak _ _);
        simpl; congruence. }
    subst s'.
    assert (Eu : substr_from y (index_ t) = s ++ text e ++ r).
    { unfold substr_from. rewrite Hidx, Ey. fold s. rewrite Es. apply skipn_app_length. }
    rewrite Minify_unfold.
    replace (Minify_cond y t) with true.
    2: { symmetry. unfold Minify_cond. rewrite Het, Hidx, Ey, !length_app.
         cbn [negb]. rewrite andb_true_r. apply Nat.ltb_lt. simpl. lia. }
    rewrite Minify_body_describe by exact Hct.
    rewrite Eu, Hws. unfold s. rewrite describe_separator by (fold s; rewrite Es; congruence).
    fold s.
    destruct (apply_emission_skip t (emit_skip 1 (whitespace_of s)) eq_refl eq_refl)
      as (Ho' & Hi' & Hw' & Hp' & He' & Hcs').
    apply Hstep.
    + rewrite Hcs'. exact Hct.
    + rewrite He'. exact Het.
    + rewrite Hi', Hidx, Es, length_app. reflexivity.
    + rewrite Hp'. exact Hprev.
    + rewrite Hw', Es. reflexivity.
    + rewrite Ho', Hw'. cbn [whitespace_after emit_skip]. unfold s.
      rewrite separator_again. fold s. rewrite Hout, Es. reflexivity.
Qed.

End Twice.

(** ** Results on the entry points *)

(** C1, as amended: on the 22 bytes of [function () { foo(); }] MinifyJs
    succeeds and produces exactly the 18 bytes [function(){foo();}], with no
    linebreak in front, whatever the keyword table and the signedness of
    [char]. *)
Theorem MinifyJs_function_foo char_is_signed CanKeywordPrecedeRegEx :
  MinifyJs char_is_signed CanKeywordPrecedeRegEx (str "function () { foo(); }") [] =
  (true, str "function(){foo();}").
Proof.
  rewrite MinifyJs_eq.
  destruct char_is_signed;
    repeat (rewrite Minify_unfold;
            match goal with
            | |- context [Minify_cond ?i ?m] =>
                let c := eval vm_compute in (Minify_cond i m) in
                change (Minify_cond i m) with c
            end; cbv iota;
            try match goal with
                | |- context [JsMinify.Minify_body ?s ?k ?i ?m] =>
                    let r := eval vm_compute in (JsMinify.Minify_body s k i m) in
                    change (JsMinify.Minify_body s k i m) with r
                end;
            repeat match goal with
                   | |- context [CanKeywordPrecedeRegEx ?x] =>
                       destruct (CanKeywordPrecedeRegEx x)
                   end);
    reflexivity.
Qed.

(** C1, as stated, fails: the output does not start with a newline byte. *)
Lemma MinifyJs_function_foo_no_leading_newline :
  MinifyJs true JsKeywords.CanKeywordPrecedeRegEx (str "function () { foo(); }") [] <>
  (true, "010"%char :: str "function(){foo();}").
Proof. vm_compute. discriminate. Qed.

(** C2, as stated, fails: minifying [-- >] succeeds with [-->], and
    minifying that succeeds with the empty string, since a line that starts
    with [-->] is read as a comment. *)
Lemma MinifyJs_not_idempotent :
  MinifyJs true JsKeywords.CanKeywordPrecedeRegEx (str "-- >") [] = (true, str "-->") /\
  MinifyJs true JsKeywords.CanKeywordPrecedeRegEx (str "-->") [] <> (true, str "-->").
Proof. split; vm_compute; [reflexivity|discriminate]. Qed.

(** C2, as amended: when MinifyJs succeeds on [x] with output [y], and no
    token that it writes, apart from the conditional compilation comments it
    keeps, stands in [y] where a comment starts for the run over [y] (a
    slash in front of a slash or a star, [<!--], or [-->] at the start of
    [y] or after a linebreak), MinifyJs succeeds on [y] and gives [y] back,
    whatever the keyword table and the signedness of [char].  Comment
    openers inside the string and regex literals of [y], the comments that
    are kept, and a [-->] in the middle of a line do not matter. *)
Theorem MinifyJs_idempotent_no_token_starts_comment
  char_is_signed CanKeywordPrecedeRegEx (x y : bytes) :
  MinifyJs char_is_signed CanKeywordPrecedeRegEx x [] = (true, y) ->
  no_token_starts_comment char_is_signed CanKeywordPrecedeRegEx
    (length x) x kStartToken NO_WHITESPACE y = true ->
  MinifyJs char_is_signed CanKeywordPrecedeRegEx y [] = (true, y).
Proof.
  rewrite !MinifyJs_eq. intros H Hno.
  injection H as He Hy. apply negb_true_iff in He.
  destruct (Minify_twice char_is_signed CanKeywordPrecedeRegEx x y (length x - 0)
              (init (StringConsumer.Build [])) (init (StringConsumer.Build [])))
    as [He' Hy']; try reflexivity; try assumption.
  - right. apply can_follow_other. unfold init, kStartToken. simpl. lia.
  - apply Minify_loop_exits. simpl. lia.
  - rewrite Nat.sub_0_r. exact Hno.
  - rewrite He', Hy'. reflexivity.
Qed.

Lemma MinifyJs_idempotent_no_token_starts_comment_witness :
  let again x y :=
    MinifyJs true JsKeywords.CanKeywordPrecedeRegEx x [] = (true, y) /\
    no_token_starts_comment true JsKeywords.CanKeywordPrecedeRegEx
      (length x) x kStartToken NO_WHITESPACE y = true /\
    MinifyJs true JsKeywords.CanKeywordPrecedeRegEx y [] = (true, y) in
  again (str "var u = 'http://x/y' ;") (str "var u='http://x/y';") /\
  again (str "/*@cc_on @*/ var x = 1 ;") (str "/*@cc_on @*/var x=1;") /\
  again (str "while ( a-- > b ) ;") (str "while(a-->b);") /\
  again (str "return  a + +b ;") (str "return a+ +b;").
Proof.
  cbv zeta.
  assert (Hagain : forall x y,
            MinifyJs true JsKeywords.CanKeywordPrecedeRegEx x [] = (true, y) ->
            no_token_starts_comment true JsKeywords.CanKeywordPrecedeRegEx
              (length x) x kStartToken NO_WHITESPACE y = true ->
            MinifyJs true JsKeywords.CanKeywordPrecedeRegEx x [] = (true, y) /\
            no_token_starts_comment true JsKeywords.CanKeywordPrecedeRegEx
              (length x) x kStartToken NO_WHITESPACE y = true /\
            MinifyJs true JsKeywords.CanKeywordPrecedeRegEx y [] = (true, y)).
  { intros x y H1 H2. split; [exact H1|]. split; [exact H2|].
    exact (MinifyJs_idempotent_no_token_starts_comment true
             JsKeywords.CanKeywordPrecedeRegEx x y H1 H2). }
  split; [apply Hagain; vm_compute; reflexivity|].
  split; [apply Hagain; vm_compute; reflexivity|].
  split; apply Hagain; vm_compute; reflexivity.
Defined.

(** The hypothesis of the amended C2 fails where the second run differs: in
    the output [-->] of [-- >] the token [--] stands at the start of the
    input, where [-->] starts a comment; and in the output [a/*b] of
    [a / *b] the division slash stands in front of a star. *)
Example no_token_starts_comment_joined :
  no_token_starts_comment true JsKeywords.CanKeywordPrecedeRegEx
    4 (str "-- >") kStartToken NO_WHITESPACE (str "-->") = false /\
  MinifyJs true JsKeywords.CanKeywordPrecedeRegEx (str "a / *b") [] = (true, str "a/*b") /\
  no_token_starts_comment true JsKeywords.CanKeywordPrecedeRegEx
    6 (str "a / *b") kStartToken NO_WHITESPACE (str "a/*b") = false.
Proof. repeat split; vm_compute; reflexivity. Qed.

(** C3: for an input within the range of the [int] index and counter, the
    size-only entry points succeed exactly when the string entry points do,
    and then report the length of the string produced. *)
Theorem size_sink_agrees char_is_signed CanKeywordPrecedeRegEx input :
  (Z.of_nat (length input) <= INT_MAX)%Z ->
  GetMinifiedJsSize char_is_signed CanKeywordPrecedeRegEx input =
    (if fst (MinifyJs char_is_signed CanKeywordPrecedeRegEx input [])
     then Some (Z.of_nat (length (snd (MinifyJs char_is_signed CanKeywordPrecedeRegEx
                                          input []))))
     else None) /\
  GetMinifiedStringCollapsedJsSize char_is_signed CanKeywordPrecedeRegEx input =
    (if fst (MinifyJsAndCollapseStrings char_is_signed CanKeywordPrecedeRegEx input [])
     then Some (Z.of_nat (length (snd (MinifyJsAndCollapseStrings char_is_signed
                                          CanKeywordPrecedeRegEx input []))))
     else None).
Proof.
  intros Hlen. split.
  - rewrite GetMinifiedJsSize_MinifyJs.
    destruct (MinifyJs char_is_signed CanKeywordPrecedeRegEx input []) as [ok y] eqn:Hm.
    simpl. destruct ok; [|reflexivity].
    pose proof (MinifyJs_length _ _ _ _ _ _ Hm eq_refl). simpl in *.
    rewrite wrap_int_small by lia. reflexivity.
  - rewrite GetMinifiedStringCollapsedJsSize_MinifyJsAndCollapseStrings.
    destruct (MinifyJsAndCollapseStrings char_is_signed CanKeywordPrecedeRegEx input [])
      as [ok y] eqn:Hm.
    simpl. destruct ok; [|reflexivity].
    pose proof (MinifyJsAndCollapseStrings_length _ _ _ _ _ _ Hm eq_refl). simpl in *.
    rewrite wrap_int_small by lia. reflexivity.
Qed.

Lemma size_sink_agrees_witness :
  (Z.of_nat (length (str "var s = 'a b';  /* c */")) <= INT_MAX)%Z /\
  GetMinifiedJsSize true JsKeywords.CanKeywordPrecedeRegEx (str "var s = 'a b';  /* c */")
    = Some 12%Z /\
  GetMinifiedStringCollapsedJsSize true JsKeywords.CanKeywordPrecedeRegEx
    (str "var s = 'a b';  /* c */") = Some 9%Z.
Proof.
  split; [vm_compute; discriminate|].
  apply (size_sink_agrees true JsKeywords.CanKeywordPrecedeRegEx
           (str "var s = 'a b';  /* c */")).
  vm_compute. discriminate.
Defined.

(** C4: MinifyJs fails exactly when scanning reaches the end of the input
    inside a block comment, a string literal or a regular expression
    literal, or meets a raw newline inside a regular expression literal; the
    other three entry points fail on the same inputs. *)
Theorem MinifyJs_fails_iff char_is_signed CanKeywordPrecedeRegEx input out :
  (fst (MinifyJs char_is_signed CanKeywordPrecedeRegEx input out) = false <->
   exists kind, MinifyFails char_is_signed CanKeywordPrecedeRegEx input out kind) /\
  fst (MinifyJsAndCollapseStrings char_is_signed CanKeywordPrecedeRegEx input out) =
    fst (MinifyJs char_is_signed CanKeywordPrecedeRegEx input out) /\
  (GetMinifiedJsSize char_is_signed CanKeywordPrecedeRegEx input = None <->
   fst (MinifyJs char_is_signed CanKeywordPrecedeRegEx input out) = false) /\
  (GetMinifiedStringCollapsedJsSize char_is_signed CanKeywordPrecedeRegEx input = None <->
   fst (MinifyJs char_is_signed CanKeywordPrecedeRegEx input out) = false).
Proof.
  split; [|split; [|split]].
  - rewrite MinifyJs_eq. simpl. rewrite negb_false_iff.
    rewrite (Minify_error_iff char_is_signed CanKeywordPrecedeRegEx input
               (init (StringConsumer.Build out)) eq_refl).
    unfold MinifyFails. split.
    + intros (m & Hr & Hc & He).
      apply (Minify_body_error_iff char_is_signed CanKeywordPrecedeRegEx input m Hc) in He
        as (kind & Hk).
      exists kind, m. auto.
    + intros (kind & m & Hr & Hc & Hk). exists m. split; [exact Hr|]. split; [exact Hc|].
      apply (Minify_body_error_iff char_is_signed CanKeywordPrecedeRegEx input m Hc).
      exists kind. exact Hk.
  - apply MinifyJsAndCollapseStrings_ok.
  - rewrite GetMinifiedJsSize_MinifyJs.
    rewrite (MinifyJs_ok_out char_is_signed CanKeywordPrecedeRegEx input out []).
    destruct (fst _); split; congruence.
  - rewrite GetMinifiedStringCollapsedJsSize_MinifyJsAndCollapseStrings.
    rewrite MinifyJsAndCollapseStrings_ok.
    rewrite (MinifyJs_ok_out char_is_signed CanKeywordPrecedeRegEx input out []).
    destruct (fst _); split; congruence.
Qed.

End JsMinifyFacts.

(** ** The resource collection and the redirect registry *)

Module ResourceCollectionFacts.
Import ResourceCollection.

Section Facts.

Variable GetUriWithoutFragment : string -> option string.

#[local] Abbreviation url_canon_of := (url_canon_of GetUriWithoutFragment).
#[local] Abbreviation AddResource := (AddResource GetUriWithoutFragment).
#[local] Abbreviation has_resource_with_url := (has_resource_with_url GetUriWithoutFragment).
#[local] Abbreviation GetResourceWithUrlOrNull :=
  (GetResourceWithUrlOrNull GetUriWithoutFragment).

(** An accepted resource is stored under its request URL as it is, and is
    found by every query whose canonical form is that URL. *)
Lemma AddResource_lookup c resource c' query :
  AddResource c resource = (true, c') ->
  url_canon_of query = GetRequestUrl resource ->
  GetResourceWithUrlOrNull c' query = Some resource /\
  has_resource_with_url c' query = true.
Proof.
  unfold ResourceCollection.AddResource.
  destruct (is_frozen c); [discriminate|].
  destruct (negb _); [discriminate|]. intros [= <-] Hq.
  unfold ResourceCollection.GetResourceWithUrlOrNull,
    ResourceCollection.has_resource_with_url. simpl.
  rewrite Hq, lookup_insert_eq. auto.
Qed.

Lemma AddResource_keys c resource c' :
  AddResource c resource = (true, c') ->
  dom (url_resource_map_ c') = {[GetRequestUrl resource]} ∪ dom (url_resource_map_ c).
Proof.
  unfold ResourceCollection.AddResource.
  destruct (is_frozen c); [discriminate|].
  destruct (negb _); [discriminate|]. intros [= <-]. simpl.
  apply dom_insert_L.
Qed.

End Facts.

(** C5, the failing input: a resource whose request URL carries a fragment
    is accepted and stored under that URL, fragment included, so that the
    key is not in canonical form; the lookups, which strip the fragment of
    the query, do not find the resource under its own URL nor under its
    canonical URL, and a second resource with the same URL is accepted as
    well. *)
Theorem AddResource_fragment_key :
  let c := add_all [example_fragment] in
  fst (AddResource GetUriWithoutFragment_model new_ResourceCollection example_fragment)
    = true /\
  dom (url_resource_map_ c) = {[ "http://www.example.com/#top" ]} /\
  url_canon_of GetUriWithoutFragment_model "http://www.example.com/#top"
    = "http://www.example.com/" /\
  has_resource_with_url GetUriWithoutFragment_model c "http://www.example.com/#top"
    = false /\
  GetResourceWithUrlOrNull GetUriWithoutFragment_model c "http://www.example.com/" = None /\
  fst (AddResource GetUriWithoutFragment_model c example_fragment) = true.
Proof. vm_compute. repeat split; reflexivity. Qed.


(** ** The redirect map and the roots *)

Section Roots.

#[local] Abbreviation keys := (map fst : RedirectMap -> list string).

Lemma url_lt_trans a b c : url_lt a b -> url_lt b c -> url_lt a c.
Proof.
  unfold url_lt. intros H1 H2.
  apply String_as_OT.cmp_lt in H1, H2. apply String_as_OT.cmp_lt.
  eapply String_as_OT.lt_trans; eauto.
Qed.

Lemma url_lt_irrefl a : ~ url_lt a a.
Proof.
  unfold url_lt. intros H.
  assert (String.compare a a = Eq) by (apply String_as_OT.cmp_eq; reflexivity).
  congruence.
Qed.

Lemma compare_Gt_lt a b : String.compare a b = Gt -> url_lt b a.
Proof.
  unfold url_lt. intros H.
  pose proof (String_as_OT.cmp_antisym b a) as Ha. unfold String_as_OT.cmp in Ha.
  rewrite H in Ha. exact Ha.
Qed.

Lemma RedirectMap_push_back_keys m key value u :
  In u (keys (RedirectMap_push_back m key value)) <-> u = key \/ In u (keys m).
Proof.
  induction m as [|[k vs] m IH]; simpl.
  - intuition.
  - destruct (String.compare key k) eqn:Hc; simpl.
    + apply String_as_OT.cmp_eq in Hc. subst. intuition.
    + intuition.
    + rewrite IH. intuition.
Qed.

Lemma RedirectMap_push_back_sorted m key value :
  StronglySorted url_lt (keys m) ->
  StronglySorted url_lt (keys (RedirectMap_push_back m key value)).
Proof.
  induction m as [|[k vs] m IH]; simpl; intros Hs.
  - repeat constructor.
  - apply StronglySorted_inv in Hs as [Hs Hall].
    destruct (String.compare key k) eqn:Hc; simpl.
    + constructor; auto.
    + constructor; [constructor; auto|].
      constructor; [exact Hc|].
      eapply List.Forall_impl; [|exact Hall]. intros x Hx. eapply url_lt_trans; eauto.
    + constructor; [auto|].
      apply List.Forall_forall. intros x Hx.
      apply RedirectMap_push_back_keys in Hx as [->|Hx].
      * apply compare_Gt_lt; exact Hc.
      * rewrite List.Forall_forall in Hall. auto.
Qed.

(** The map that the scan of the resources builds: its keys, in iteration
    order, ascend strictly, and they are the redirect sources. *)
Lemma AddResource_scan g resources :
  StronglySorted url_lt (keys (redirect_map_ g)) ->
  let g' := foldl RedirectGraph_AddResource g resources in
  StronglySorted url_lt (keys (redirect_map_ g')) /\
  forall u, In u (keys (redirect_map_ g')) <->
            In u (keys (redirect_map_ g)) \/ is_source resources u.
Proof.
  revert g. induction resources as [|r resources IH]; intros g Hs; simpl.
  - split; [exact Hs|]. intros u. split; [auto|].
    intros [H|(r & [] & _)]; exact H.
  - unfold RedirectGraph_AddResource at 2 4.
    destruct (String.eqb_spec (GetRedirectedUrl r) "") as [He|Hne].
    + destruct (IH g Hs) as [H1 H2]. split; [exact H1|].
      intros u. rewrite H2. split; intros [H|H]; auto.
      * right. destruct H as (r' & Hin & Hu & Ht). exists r'. simpl. auto.
      * right. destruct H as (r' & [<-|Hin] & Hu & Ht); [contradiction|].
        exists r'. auto.
    + match goal with |- context [foldl _ ?g0 resources] => destruct (IH g0) as [H1 H2] end.
      { simpl. apply RedirectMap_push_back_sorted, Hs. }
      split; [exact H1|]. intros u. rewrite H2. simpl.
      rewrite RedirectMap_push_back_keys. split.
      * intros [[->|H]|H]; auto.
        -- right. exists r. simpl. auto.
        -- right. destruct H as (r' & Hin & Hu & Ht). exists r'. simpl. auto.
      * intros [H|(r' & [<-|Hin] & Hu & Ht)]; auto.
        right. exists r'. auto.
Qed.

Lemma GetPriorizedRoots_loop_filter destinations m primary secondary :
  GetPriorizedRoots_loop destinations m primary secondary =
  (primary ++ List.filter (fun u => negb (bool_decide (u ∈ destinations))) (keys m),
   secondary ++ List.filter (fun u => bool_decide (u ∈ destinations)) (keys m)).
Proof.
  revert primary secondary. induction m as [|[k vs] m IH]; intros primary secondary; simpl.
  - rewrite !app_nil_r. reflexivity.
  - destruct (bool_decide _); simpl; rewrite IH, <- ?app_assoc; reflexivity.
Qed.

Lemma StronglySorted_filter {A} (R : A -> A -> Prop) (f : A -> bool) l :
  StronglySorted R l -> StronglySorted R (List.filter f l).
Proof.
  induction 1 as [|a l Hs IH Hall]; simpl; [constructor|].
  destruct (f a); [|exact IH]. constructor; [exact IH|].
  apply List.Forall_forall. intros x Hx. apply filter_In in Hx as [Hx _].
  rewrite List.Forall_forall in Hall. auto.
Qed.

End Roots.

(** The redirect [http://z/] is added before the redirect [http://y/], yet
    the roots start with [http://y/]. *)
Lemma roots_of_example_z_y :
  let c := add_all [example_z; example_y] in
  roots_in_observation_order c = ["http://z/"; "http://y/"] /\
  GetPriorizedRoots (graph_of c) [] = ["http://y/"; "http://z/"].
Proof. vm_compute. split; reflexivity. Qed.

(** C6, as stated, fails: on that collection the roots are not in the order
    in which the sources were first observed. *)
Lemma roots_differ_from_observation_order :
  GetPriorizedRoots (graph_of (add_all [example_z; example_y])) [] <>
  roots_in_observation_order (add_all [example_z; example_y]).
Proof. vm_compute. discriminate. Qed.

(** C6, as amended: the roots are the redirect sources, those that are no
    redirect target first and those that are one after them, each group in
    strictly ascending bytewise order of the URL, which is the order in which
    the std::map iterates. *)
Theorem GetPriorizedRoots_order resource_collection :
  let g := graph_of resource_collection in
  exists primary secondary,
    GetPriorizedRoots g [] = primary ++ secondary /\
    Forall (fun u => u ∉ destinations_ g) primary /\
    Forall (fun u => u ∈ destinations_ g) secondary /\
    StronglySorted url_lt primary /\
    StronglySorted url_lt secondary /\
    forall u, In u (primary ++ secondary) <->
              is_source (resources_ resource_collection) u.
Proof.
  intros g.
  destruct (AddResource_scan (new_RedirectGraph resource_collection)
              (resources_ resource_collection)) as [Hs Hk]; [constructor|].
  fold (graph_of resource_collection) in Hs, Hk. fold g in Hs, Hk.
  unfold GetPriorizedRoots. rewrite GetPriorizedRoots_loop_filter. simpl.
  eexists _, _. split; [reflexivity|].
  split; [|split; [|split; [|split]]].
  - apply List.Forall_forall. intros u Hu. apply filter_In in Hu as [_ Hu].
    apply negb_true_iff, bool_decide_eq_false in Hu. exact Hu.
  - apply List.Forall_forall. intros u Hu. apply filter_In in Hu as [_ Hu].
    apply bool_decide_eq_true in Hu. exact Hu.
  - apply StronglySorted_filter, Hs.
  - apply StronglySorted_filter, Hs.
  - intros u. rewrite in_app_iff, !filter_In.
    specialize (Hk u). simpl in Hk.
    destruct (bool_decide (u ∈ destinations_ g)); simpl; split.
    + intros [[_ [=]]|[H _]]. apply Hk in H as [[]|H]. exact H.
    + intros H. right. split; [|reflexivity]. apply Hk. auto.
    + intros [[H _]|[_ [=]]]. apply Hk in H as [[]|H]. exact H.
    + intros H. left. split; [|reflexivity]. apply Hk. auto.
Qed.


(** ** The traversal never runs out of fuel *)

Section Traversal.

Variable GetUriWithoutFragment : string -> option string.

#[local] Abbreviation PopulateRedirectChainResult_loop :=
  (PopulateRedirectChainResult_loop GetUriWithoutFragment).

Lemma unprocessed_edges_mono processed processed' m :
  processed ⊆ processed' ->
  unprocessed_edges processed' m <= unprocessed_edges processed m.
Proof.
  intros Hsub. induction m as [|[k vs] m IH]; simpl; [lia|].
  destruct (bool_decide_reflect (k ∈ processed)) as [Hk|Hk].
  - rewrite bool_decide_eq_true_2 by set_solver. lia.
  - destruct (bool_decide (k ∈ processed')); lia.
Qed.

Lemma unprocessed_edges_le processed m :
  unprocessed_edges processed m <= RedirectMap_edges m.
Proof.
  induction m as [|[k vs] m IH]; simpl; [lia|].
  destruct (bool_decide _); simpl; lia.
Qed.

Lemma RedirectMap_subscript_edges processed m key :
  key ∉ processed ->
  let '(m', targets) := RedirectMap_subscript m key in
  unprocessed_edges ({[key]} ∪ processed) m' + length targets
  <= unprocessed_edges processed m.
Proof.
  intros Hk. induction m as [|[k vs] m IH]; simpl.
  - rewrite bool_decide_eq_true_2 by set_solver. lia.
  - destruct (String.compare key k) eqn:Hc.
    + apply String_as_OT.cmp_eq in Hc. subst k. simpl.
      rewrite bool_decide_eq_true_2 by set_solver.
      rewrite bool_decide_eq_false_2 by exact Hk.
      pose proof (unprocessed_edges_mono processed ({[key]} ∪ processed) m
                    ltac:(set_solver)). lia.
    + simpl. rewrite bool_decide_eq_true_2 by set_solver.
      pose proof (unprocessed_edges_mono processed ({[key]} ∪ processed) m
                    ltac:(set_solver)).
      destruct (bool_decide_reflect (k ∈ processed)).
      * rewrite bool_decide_eq_true_2 by set_solver. lia.
      * destruct (bool_decide (k ∈ {[key]} ∪ processed)); lia.
    + destruct (RedirectMap_subscript m key) as [m'' targets]. simpl.
      destruct (bool_decide_reflect (k ∈ processed)).
      * rewrite bool_decide_eq_true_2 by set_solver. lia.
      * destruct (bool_decide (k ∈ {[key]} ∪ processed)); lia.
Qed.

(** Once the fuel covers the work stack and the unprocessed target entries,
    more fuel changes nothing: the loop ends because the stack is empty. *)
Lemma PopulateRedirectChainResult_loop_fuel fuel extra g work_stack chain :
  length work_stack + unprocessed_edges (processed_ g) (redirect_map_ g) <= fuel ->
  PopulateRedirectChainResult_loop (fuel + extra) g work_stack chain =
  PopulateRedirectChainResult_loop fuel g work_stack chain.
Proof.
  revert g work_stack chain.
  induction fuel as [|fuel IH]; intros g work_stack chain Hf.
  - destruct work_stack; [|simpl in Hf; lia]. destruct extra; reflexivity.
  - simpl. destruct work_stack as [|current work_stack]; [reflexivity|].
    simpl in Hf.
    destruct (GetResourceWithUrlOrNull _ _ _) as [resource|]; [|apply IH; lia].
    destruct (bool_decide_reflect (current ∈ processed_ g)) as [Hp|Hp]; [apply IH; lia|].
    pose proof (RedirectMap_subscript_edges (processed_ g) (redirect_map_ g) current Hp)
      as He.
    destruct (RedirectMap_subscript (redirect_map_ g) current) as [m targets].
    apply IH. simpl. rewrite length_app. lia.
Qed.

Lemma PopulateRedirectChainResult_fuel extra g root chain :
  PopulateRedirectChainResult_loop
    (S (RedirectMap_edges (redirect_map_ g)) + extra) g [root] chain =
  PopulateRedirectChainResult GetUriWithoutFragment g root chain.
Proof.
  apply PopulateRedirectChainResult_loop_fuel. simpl.
  pose proof (unprocessed_edges_le (processed_ g) (redirect_map_ g)). lia.
Qed.

End Traversal.

(** ** The registry *)

(** The chain A, B, C of the specification: one chain, whose last element is
    the final target of A. *)
Example chain_a_b_c :
  let registry := redirect_registry_ (freeze_all [example_a; example_b; example_c]) in
  GetRedirectChains registry = [[example_a; example_b; example_c]] /\
  GetFinalRedirectTarget registry (Some example_a) = Some (Some example_c).
Proof. vm_compute. split; reflexivity. Qed.

(** What GetFinalRedirectTarget returns where its result is defined: NULL
    for NULL, the resource itself when the map has no chain for it, and the
    last element of the chain that the stored pointer designates. *)
Lemma GetFinalRedirectTarget_defined registry resource :
  GetFinalRedirectTarget registry None = Some None /\
  (GetRedirectChainOrNull registry resource = None ->
   GetFinalRedirectTarget registry resource = Some resource) /\
  (forall p, GetRedirectChainOrNull registry resource = Some p ->
             GetFinalRedirectTarget registry resource =
             match deref_chain registry p with
             | Some chain => option_map Some (last chain)
             | None => None
             end).
Proof.
  unfold GetFinalRedirectTarget. split; [reflexivity|]. split.
  - intros ->. reflexivity.
  - intros p ->. destruct (deref_chain registry p) as [chain|]; [|reflexivity].
    destruct (last chain); reflexivity.
Qed.

(** C7, at an input on which the code fails.  X redirects to R and R to the
    page S; R and the page Q are requested before S and X, and no primary
    resource URL is set.  BuildRedirectChains finds the one chain X, R, S,
    and the final redirect target of X is S then.  Init goes on: the fix-up
    chain is R, Q, its last resource Q has no chain, no chain starts with R
    or Q, and push_back appends the fix-up chain to a vector that is full
    (the library gives a vector without storage room for one element:
    [vector_growth 0 <= 1]), so the chains move to new storage.  The map
    still holds for X the address of the chain in the released storage:
    GetRedirectChainOrNull returns it, it designates no element of the
    vector, and the result of GetFinalRedirectTarget, which reads through it,
    is undefined; it is not the last element S of the chain of X. *)
Theorem GetFinalRedirectTarget_released_storage (vector_growth : nat -> nat) :
  vector_growth 0 <= 1 ->
  let c := add_all [example_r; example_q; example_s; example_x] in
  let frozen := snd (Freeze GetUriWithoutFragment_model vector_growth c) in
  let built :=
    Init_build GetUriWithoutFragment_model vector_growth new_RedirectRegistry frozen in
  let registry := GetRedirectRegistry frozen in
  (GetRedirectChains built = [[example_x; example_r; example_s]] /\
   GetFinalRedirectTarget built (Some example_x) = Some (Some example_s)) /\
  BuildFixUpRedirectChain [] frozen = [example_r; example_q] /\
  GetRedirectChains registry =
    [[example_x; example_r; example_s]; [example_r; example_q]] /\
  (exists p, GetRedirectChainOrNull built (Some example_x) = Some p /\
             GetRedirectChainOrNull registry (Some example_x) = Some p /\
             deref_chain registry p = None) /\
  GetFinalRedirectTarget registry (Some example_x) = None.
Proof.
  intros Hg.
  assert (E : vector_growth 0 = 0 \/ vector_growth 0 = 1) by lia.
  clear Hg. vm_compute.
  destruct E as [E|E]; rewrite E.
  all: repeat split; try reflexivity.
  all: exists 0; repeat split; reflexivity.
Qed.

Lemma GetFinalRedirectTarget_released_storage_witness :
  vector_growth_model 0 <= 1 /\
  let registry :=
    GetRedirectRegistry (freeze_all [example_r; example_q; example_s; example_x]) in
  GetRedirectChains registry =
    [[example_x; example_r; example_s]; [example_r; example_q]] /\
  GetRedirectChainOrNull registry (Some example_x) = Some 0 /\
  deref_chain registry 0 = None /\
  GetFinalRedirectTarget registry (Some example_x) = None.
Proof.
  assert (Hg : vector_growth_model 0 <= 1) by (unfold vector_growth_model; lia).
  split; [exact Hg|].
  destruct (GetFinalRedirectTarget_released_storage vector_growth_model Hg)
    as (_ & _ & Hchains & _ & Hfinal).
  split; [exact Hchains|]. split; [vm_compute; reflexivity|].
  split; [vm_compute; reflexivity|exact Hfinal].
Defined.

(** Erasing a chain moves the chains behind it a slot down, under the
    pointers that the map holds for them.  A redirects to a resource that is
    missing, C is the page requested after A, and M redirects to N.
    BuildRedirectChains finds the chains A and M, N; Init erases the chain
    A and appends the fix-up chain A, C, which comes to lie in the slot that
    the map holds for M: the final redirect target of M is N before and C
    after, whatever storage the vector takes when it grows. *)
Lemma GetFinalRedirectTarget_moved_chain (vector_growth : nat -> nat) :
  let c := add_all [example_a; example_c; example_m; example_n] in
  let frozen := snd (Freeze GetUriWithoutFragment_model vector_growth c) in
  let built :=
    Init_build GetUriWithoutFragment_model vector_growth new_RedirectRegistry frozen in
  let registry := GetRedirectRegistry frozen in
  GetRedirectChains built = [[example_a]; [example_m; example_n]] /\
  GetFinalRedirectTarget built (Some example_m) = Some (Some example_n) /\
  GetRedirectChains registry = [[example_m; example_n]; [example_a; example_c]] /\
  GetFinalRedirectTarget registry (Some example_m) = Some (Some example_c).
Proof.
  vm_compute.
  destruct (vector_growth 0) as [|[|k]];
    try (destruct (vector_growth 1) as [|[|k']]);
    repeat split; reflexivity.
Qed.


(** ** The fix-up chain *)

Section FixUp.

Variable GetUriWithoutFragment : string -> option string.
Variable vector_growth : nat -> nat.

Lemma BuildFixUpRedirectChain_loop_shape resources i chain :
  BuildFixUpRedirectChain_loop resources i chain =
  chain ++ leading_redirects resources ++
  match first_non_redirect resources with
  | Some terminus => if (0 <? i + length (leading_redirects resources))%nat
                     then [terminus] else []
  | None => []
  end.
Proof.
  revert i chain. induction resources as [|r rest IH]; intros i chain; simpl.
  - rewrite app_nil_r. reflexivity.
  - unfold is_redirect. destruct (ResourceType_eqb _ _).
    + rewrite IH. simpl. rewrite <- app_assoc. simpl.
      destruct (first_non_redirect rest); [|reflexivity].
      destruct (Nat.ltb_spec 0 (i + S (length (leading_redirects rest))));
        [reflexivity|lia].
    + simpl. rewrite Nat.add_0_r. destruct (0 <? i)%nat; [reflexivity|].
      rewrite app_nil_r. reflexivity.
Qed.

(** C10: the fix-up chain is the leading REDIRECT resources of the
    request-order view followed, when there is at least one of them, by the
    first resource that is no REDIRECT.  Hence it is empty unless the view
    exists and starts with a REDIRECT, it is never a single resource that is
    no REDIRECT, and Init leaves the registry as the chain building step made
    it when the view is missing or starts with a resource that is no
    REDIRECT. *)
Theorem BuildFixUpRedirectChain_spec resource_collection :
  (forall resources,
     GetResourcesInRequestOrder resource_collection = Some resources ->
     BuildFixUpRedirectChain [] resource_collection =
     leading_redirects resources ++
     match leading_redirects resources, first_non_redirect resources with
     | _ :: _, Some terminus => [terminus]
     | _, _ => []
     end) /\
  (BuildFixUpRedirectChain [] resource_collection <> [] ->
   exists first rest,
     GetResourcesInRequestOrder resource_collection = Some (first :: rest) /\
     GetResourceType first = REDIRECT) /\
  (forall r, BuildFixUpRedirectChain [] resource_collection = [r] ->
             GetResourceType r = REDIRECT) /\
  (forall registry,
     (forall first rest,
        GetResourcesInRequestOrder resource_collection = Some (first :: rest) ->
        GetResourceType first <> REDIRECT) ->
     Init GetUriWithoutFragment vector_growth registry resource_collection =
     Init_build GetUriWithoutFragment vector_growth registry resource_collection).
Proof.
  assert (Hshape : forall resources,
            GetResourcesInRequestOrder resource_collection = Some resources ->
            BuildFixUpRedirectChain [] resource_collection =
            leading_redirects resources ++
            match leading_redirects resources, first_non_redirect resources with
            | _ :: _, Some terminus => [terminus]
            | _, _ => []
            end).
  { intros resources Hv. unfold BuildFixUpRedirectChain. rewrite Hv.
    rewrite BuildFixUpRedirectChain_loop_shape. simpl.
    destruct (leading_redirects resources), (first_non_redirect resources); reflexivity. }
  assert (Hnil : (forall first rest,
                    GetResourcesInRequestOrder resource_collection = Some (first :: rest) ->
                    GetResourceType first <> REDIRECT) ->
                 BuildFixUpRedirectChain [] resource_collection = []).
  { intros Hfirst.
    destruct (GetResourcesInRequestOrder resource_collection) as [resources|] eqn:Hv.
    - rewrite (Hshape resources eq_refl).
      destruct resources as [|first rest]; [reflexivity|].
      specialize (Hfirst first rest eq_refl). simpl. unfold is_redirect.
      destruct (GetResourceType first); [contradiction|reflexivity].
    - unfold BuildFixUpRedirectChain. rewrite Hv. reflexivity. }
  split; [exact Hshape|]. split; [|split].
  - intros Hne.
    destruct (GetResourcesInRequestOrder resource_collection) as [resources|] eqn:Hv.
    + destruct resources as [|first rest].
      * unfold GetResourcesInRequestOrder in Hv.
        destruct (request_order_vector_ resource_collection); discriminate.
      * exists first, rest. split; [reflexivity|].
        destruct (GetResourceType first) eqn:Ht; [reflexivity|].
        exfalso. apply Hne. rewrite (Hshape _ eq_refl). simpl.
        unfold is_redirect. rewrite Ht. reflexivity.
    + exfalso. apply Hne. unfold BuildFixUpRedirectChain. rewrite Hv. reflexivity.
  - intros r Hr.
    destruct (GetResourcesInRequestOrder resource_collection) as [resources|] eqn:Hv.
    + rewrite (Hshape _ eq_refl) in Hr.
      destruct resources as [|first rest]; [discriminate|].
      simpl in Hr. unfold is_redirect in Hr.
      destruct (GetResourceType first) eqn:Ht; simpl in Hr; [|discriminate].
      injection Hr as <- _. exact Ht.
    + unfold BuildFixUpRedirectChain in Hr. rewrite Hv in Hr. discriminate.
  - intros registry Hfirst. unfold Init. fold (Init_build GetUriWithoutFragment
      vector_growth registry resource_collection).
    rewrite (Hnil Hfirst). reflexivity.
Qed.

End FixUp.

Lemma BuildFixUpRedirectChain_spec_witness :
  let c := freeze_all [example_p; example_a; example_b; example_c] in
  let c' := freeze_all [example_a; example_b; example_c] in
  ((forall first rest,
      GetResourcesInRequestOrder c = Some (first :: rest) ->
      GetResourceType first <> REDIRECT) /\
   Init GetUriWithoutFragment_model vector_growth_model new_RedirectRegistry c =
   Init_build GetUriWithoutFragment_model vector_growth_model new_RedirectRegistry c) /\
  (BuildFixUpRedirectChain [] c' <> [] /\
   exists first rest,
     GetResourcesInRequestOrder c' = Some (first :: rest) /\
     GetResourceType first = REDIRECT).
Proof.
  intros c c'.
  assert (H1 : forall first rest,
             GetResourcesInRequestOrder c = Some (first :: rest) ->
             GetResourceType first <> REDIRECT).
  { intros first rest H.
    assert (Hc : GetResourcesInRequestOrder c =
                 Some [example_p; example_a; example_b; example_c])
      by (vm_compute; reflexivity).
    rewrite Hc in H. injection H as <- _. discriminate. }
  assert (H2 : BuildFixUpRedirectChain [] c' <> []) by (vm_compute; discriminate).
  split.
  - split; [exact H1|].
    exact (proj2 (proj2 (proj2 (BuildFixUpRedirectChain_spec GetUriWithoutFragment_model
                                 vector_growth_model c)))
             new_RedirectRegistry H1).
  - split; [exact H2|].
    exact (proj1 (proj2 (BuildFixUpRedirectChain_spec GetUriWithoutFragment_model
                            vector_growth_model c')) H2).
Defined.

End ResourceCollectionFacts.

(** ** The image converter *)

Module ImageConverterFacts.
Import ImageConverter.

Section Facts.

Variables PngReaderInterface JpegCompressionOptions WebpConfiguration Scanline : Type.
Variable default_WebpConfiguration : WebpConfiguration.
Variable size_less_than_scaled : nat -> nat -> Q -> bool.
Variable PngScanlineReader_InitializeRead :
  PngReaderInterface -> bytes -> bool -> option (PngImage Scanline).
Variable JpegScanlineWriter_Init : nat -> nat -> PixelFormat -> bool.
Variable JpegScanlineWriter_WriteNextScanline : list Scanline -> Scanline -> bool.
Variable JpegScanlineWriter_FinalizeWrite :
  JpegCompressionOptions -> list Scanline -> option bytes.
Variable WebpScanlineWriter_Init : nat -> nat -> PixelFormat -> bool.
Variable WebpScanlineWriter_InitializeWrite : WebpConfiguration -> bool.
Variable WebpScanlineWriter_WriteNextScanline : list Scanline -> Scanline -> bool.
Variable WebpScanlineWriter_FinalizeWrite :
  WebpConfiguration -> list Scanline -> option bytes.
Variable OptimizePngBestCompression : PngReaderInterface -> bytes -> option bytes.

#[local] Abbreviation convert :=
  (GetSmallestOfPngJpegWebp_convert default_WebpConfiguration
     PngScanlineReader_InitializeRead
     JpegScanlineWriter_Init JpegScanlineWriter_WriteNextScanline
     JpegScanlineWriter_FinalizeWrite
     WebpScanlineWriter_Init WebpScanlineWriter_InitializeWrite
     WebpScanlineWriter_WriteNextScanline WebpScanlineWriter_FinalizeWrite
     OptimizePngBestCompression).

#[local] Abbreviation GetSmallestOfPngJpegWebp :=
  (GetSmallestOfPngJpegWebp default_WebpConfiguration size_less_than_scaled
     PngScanlineReader_InitializeRead
     JpegScanlineWriter_Init JpegScanlineWriter_WriteNextScanline
     JpegScanlineWriter_FinalizeWrite
     WebpScanlineWriter_Init WebpScanlineWriter_InitializeWrite
     WebpScanlineWriter_WriteNextScanline WebpScanlineWriter_FinalizeWrite
     OptimizePngBestCompression).

#[local] Abbreviation select := (GetSmallestOfPngJpegWebp_select size_less_than_scaled).

(** With [jpeg_options] NULL the conversions end in a null dereference. *)
Lemma convert_null_jpeg_options reader input webp_config :
  exists p, convert reader input None webp_config = NullDereference p.
Proof.
  unfold GetSmallestOfPngJpegWebp_convert.
  destruct (ConvertPngToWebp _ _ _ _ _ _ _ _) as [[ok out] writer].
  destruct webp_config as [config|]; simpl; [|eauto].
  destruct writer as [writer|]; simpl; [|eauto].
  destruct (WebpScanlineWriter_InitializeWrite config); simpl; [|eauto].
  destruct (WebpScanlineWriter_FinalizeWrite config _); simpl; eauto.
Qed.

(** With [jpeg_options] provided, the JPEG conversion is not attempted:
    [jpeg_out] stays empty. *)
Lemma convert_jpeg_out reader input options webp_config c :
  convert reader input (Some options) webp_config = Done c -> jpeg_out c = [].
Proof.
  unfold GetSmallestOfPngJpegWebp_convert.
  destruct (ConvertPngToWebp _ _ _ _ _ _ _ _) as [[ok out] writer].
  destruct webp_config as [config|]; simpl.
  - destruct writer as [writer|]; simpl; [|discriminate].
    destruct (WebpScanlineWriter_InitializeWrite config); simpl;
      [destruct (WebpScanlineWriter_FinalizeWrite config _); simpl|];
      intros [= <-]; reflexivity.
  - intros [= <-]. reflexivity.
Qed.

Lemma convert_null_webp_config reader input jpeg_options c :
  convert reader input jpeg_options None = Done c -> webp_lossy_out c = [].
Proof.
  unfold GetSmallestOfPngJpegWebp_convert.
  destruct (ConvertPngToWebp _ _ _ _ _ _ _ _) as [[ok out] writer]. simpl.
  destruct jpeg_options; simpl; [|discriminate]. intros [= <-]. reflexivity.
Qed.

(** SelectSmallerImage leaves a null [best_image] null exactly when the new
    image is empty, provided no type was chosen before. *)
Lemma SelectSmallerImage_none new_type new_image ratio :
  snd (SelectSmallerImage size_less_than_scaled new_type new_image ratio (IMAGE_NONE, None))
  = if (0 <? length new_image)%nat then Some new_image else None.
Proof. unfold SelectSmallerImage. simpl. destruct (0 <? _)%nat; reflexivity. Qed.

Lemma select_lossy_empty input c :
  webp_lossy_out c = [] -> jpeg_out c = [] ->
  select input c = NullDereference null_best_lossy_image.
Proof.
  intros Hw Hj. unfold GetSmallestOfPngJpegWebp_select. rewrite Hw, Hj. reflexivity.
Qed.

Lemma select_done input c r :
  select input c = Done r -> webp_lossy_out c <> [] \/ jpeg_out c <> [].
Proof.
  intros H.
  destruct (webp_lossy_out c) eqn:Hw; [|left; discriminate].
  destruct (jpeg_out c) eqn:Hj; [|right; discriminate].
  rewrite (select_lossy_empty input c Hw Hj) in H. discriminate.
Qed.

(** C8, evaluated at the failing input: when [jpeg_options] is NULL the code
    dereferences it (alone when [webp_config] is NULL too, and after at most
    one other null dereference otherwise), and when [jpeg_options] is
    provided no JPEG conversion takes place: [jpeg_out] is empty.  The claim
    asks for the opposite on both counts. *)
Theorem GetSmallestOfPngJpegWebp_jpeg_options_inverted reader input :
  GetSmallestOfPngJpegWebp reader input None None = NullDereference null_jpeg_options /\
  (forall webp_config,
     exists p, GetSmallestOfPngJpegWebp reader input None webp_config = NullDereference p) /\
  (forall options webp_config,
     match convert reader input (Some options) webp_config with
     | Done c => jpeg_out c = []
     | NullDereference _ => True
     end).
Proof.
  split; [|split].
  - unfold ImageConverter.GetSmallestOfPngJpegWebp, GetSmallestOfPngJpegWebp_convert.
    destruct (ConvertPngToWebp _ _ _ _ _ _ _ _) as [[ok out] writer]. reflexivity.
  - intros webp_config. unfold ImageConverter.GetSmallestOfPngJpegWebp.
    destruct (convert_null_jpeg_options reader input webp_config) as [p ->].
    exists p. reflexivity.
  - intros options webp_config.
    destruct (convert reader input (Some options) webp_config) as [c|p] eqn:Hc; [|exact I].
    eapply convert_jpeg_out; eauto.
Qed.

(** With [webp_config] NULL the call never completes: it ends in a null
    dereference, of [jpeg_options] or of [best_lossy_image]. *)
Lemma GetSmallestOfPngJpegWebp_null_webp_config reader input jpeg_options :
  exists p, GetSmallestOfPngJpegWebp reader input jpeg_options None = NullDereference p.
Proof.
  unfold ImageConverter.GetSmallestOfPngJpegWebp.
  destruct (convert reader input jpeg_options None) as [c|p] eqn:Hc; simpl; [|eauto].
  exists null_best_lossy_image. apply select_lossy_empty.
  - eapply convert_null_webp_config; eauto.
  - destruct jpeg_options as [options|].
    + eapply convert_jpeg_out; eauto.
    + destruct (convert_null_jpeg_options reader input None) as [p Hp]. congruence.
Qed.

(** C9: the selection dereferences [best_lossy_image] whatever the
    candidates are, so a call that completes has prepared candidates of which
    a lossy one, [webp_lossy_out] or [jpeg_out], is not empty.  As the code
    stands this is [webp_lossy_out], with both option pointers provided. *)
Theorem GetSmallestOfPngJpegWebp_lossy_precondition
  reader input jpeg_options webp_config result :
  GetSmallestOfPngJpegWebp reader input jpeg_options webp_config = Done result ->
  exists c,
    convert reader input jpeg_options webp_config = Done c /\
    (webp_lossy_out c <> [] \/ jpeg_out c <> []) /\
    webp_lossy_out c <> [] /\
    jpeg_options <> None /\ webp_config <> None.
Proof.
  intros H.
  destruct webp_config as [config|]; cycle 1.
  { destruct (GetSmallestOfPngJpegWebp_null_webp_config reader input jpeg_options)
      as [p Hp]. congruence. }
  destruct jpeg_options as [options|]; cycle 1.
  { destruct (convert_null_jpeg_options reader input (Some config)) as [p Hp].
    unfold ImageConverter.GetSmallestOfPngJpegWebp in H. rewrite Hp in H. discriminate. }
  unfold ImageConverter.GetSmallestOfPngJpegWebp in H.
  destruct (convert reader input (Some options) (Some config)) as [c|p] eqn:Hc;
    [|discriminate].
  simpl in H. exists c. split; [reflexivity|].
  pose proof (select_done input c result H) as Hd.
  pose proof (convert_jpeg_out reader input options (Some config) c Hc) as Hj.
  split; [exact Hd|]. split; [|split; discriminate].
  destruct Hd as [Hd|Hd]; [exact Hd|contradiction].
Qed.

End Facts.

Lemma GetSmallestOfPngJpegWebp_lossy_precondition_witness :
  let InitializeRead := fun (_ : unit) (_ : bytes) (_ : bool) =>
    Some {| GetImageWidth := 1; GetImageHeight := 1; GetPixelFormat := SUPPORTED;
            scanlines := [Some tt] |} in
  let smaller := fun (a b : nat) (_ : Q) => (a <? b)%nat in
  let yes3 := fun (_ _ : nat) (_ : PixelFormat) => true in
  let write := fun (_ : list unit) (_ : unit) => true in
  let finalize := fun (_ : unit) (_ : list unit) => Some (str "w") in
  let optimize := fun (_ : unit) (_ : bytes) => Some (str "png") in
  GetSmallestOfPngJpegWebp tt smaller InitializeRead yes3 write finalize
    yes3 (fun _ => true) write finalize optimize tt (str "input") (Some tt) (Some tt)
    = Done (IMAGE_WEBP, str "w") /\
  exists c,
    GetSmallestOfPngJpegWebp_convert tt InitializeRead yes3 write finalize
      yes3 (fun _ => true) write finalize optimize tt (str "input") (Some tt) (Some tt)
      = Done c /\
    (webp_lossy_out c <> [] \/ jpeg_out c <> []) /\
    webp_lossy_out c <> [] /\
    Some tt <> None /\ Some tt <> None.
Proof.
  intros InitializeRead smaller yes3 write finalize optimize.
  assert (H : GetSmallestOfPngJpegWebp tt smaller InitializeRead yes3 write finalize
                yes3 (fun _ => true) write finalize optimize tt (str "input")
                (Some tt) (Some tt) = Done (IMAGE_WEBP, str "w")) by reflexivity.
  split; [exact H|].
  exact (GetSmallestOfPngJpegWebp_lossy_precondition unit unit unit unit tt smaller
           InitializeRead yes3 write finalize yes3 (fun _ => true) write finalize optimize
           tt (str "input") (Some tt) (Some tt) _ H).
Defined.

End ImageConverterFacts.

(** * Further properties

    Properties of the three files beyond the ones above: edge cases,
    invariants and compositions read off the code. *)

(** ** The minifier *)

Module JsMinifyMore.
Import JsMinify.
Import JsMinifyFacts.

#[local] Arguments substr_from : simpl never.
#[local] Arguments substr : simpl never.

(** ** Further properties of the entry points *)

Section Appending.

Variable char_is_signed : bool.
Variable CanKeywordPrecedeRegEx : bytes -> bool.

#[local] Abbreviation MinifyJs := (MinifyJs char_is_signed CanKeywordPrecedeRegEx).
#[local] Abbreviation MinifyJsAndCollapseStrings :=
  (MinifyJsAndCollapseStrings char_is_signed CanKeywordPrecedeRegEx).

Lemma extends_push_back out a b c :
  extends out a b -> extends out (push_back a c) (push_back b c).
Proof. unfold extends. simpl. intros ->. rewrite app_assoc. reflexivity. Qed.

Lemma extends_append out a b s :
  extends out a b -> extends out (append a s) (append b s).
Proof. unfold extends. simpl. intros ->. rewrite app_assoc. reflexivity. Qed.

Lemma Minify_extends out input (m1 m2 : Minifier (O:=StringConsumer.t)) :
  sim (extends out) m1 m2 ->
  error_ (Minify char_is_signed CanKeywordPrecedeRegEx input m1) =
    error_ (Minify char_is_signed CanKeywordPrecedeRegEx input m2) /\
  StringConsumer.output_ (output_ (Minify char_is_signed CanKeywordPrecedeRegEx input m1)) =
    out ++ StringConsumer.output_
             (output_ (Minify char_is_signed CanKeywordPrecedeRegEx input m2)).
Proof.
  intros H.
  pose proof (sim_Minify char_is_signed CanKeywordPrecedeRegEx (extends out)
                (extends_push_back out) (extends_append out) input m1 m2 H)
    as (_ & _ & _ & He & _ & Ho).
  split; [exact He|exact Ho].
Qed.

End Appending.

(** X1: MinifyJs and MinifyJsAndCollapseStrings append to the caller's
    string: what [out] held stays in front, and the result and what is
    appended do not depend on it. *)
Theorem MinifyJs_appends char_is_signed CanKeywordPrecedeRegEx input out :
  MinifyJs char_is_signed CanKeywordPrecedeRegEx input out =
    (fst (MinifyJs char_is_signed CanKeywordPrecedeRegEx input []),
     out ++ snd (MinifyJs char_is_signed CanKeywordPrecedeRegEx input [])) /\
  MinifyJsAndCollapseStrings char_is_signed CanKeywordPrecedeRegEx input out =
    (fst (MinifyJsAndCollapseStrings char_is_signed CanKeywordPrecedeRegEx input []),
     out ++ snd (MinifyJsAndCollapseStrings char_is_signed CanKeywordPrecedeRegEx input [])).
Proof.
  rewrite !MinifyJs_eq, !MinifyJsAndCollapseStrings_eq. cbn [fst snd]. split.
  - destruct (Minify_extends char_is_signed CanKeywordPrecedeRegEx out input
                (init (StringConsumer.Build out)) (init (StringConsumer.Build [])))
      as [He Ho].
    { unfold sim, extends. simpl. rewrite app_nil_r. repeat split; auto. }
    rewrite He, Ho. reflexivity.
  - destruct (Minify_extends char_is_signed CanKeywordPrecedeRegEx out input
                (EnableStringCollapse (init (StringConsumer.Build out)))
                (EnableStringCollapse (init (StringConsumer.Build []))))
      as [He Ho].
    { unfold sim, extends. simpl. rewrite app_nil_r. repeat split; auto. }
    rewrite He, Ho. reflexivity.
Qed.
(** X2: a successful run gives an output that is no longer than the input
    (after what the caller's string held), with string collapsing or
    without. *)
Theorem MinifyJs_never_grows char_is_signed CanKeywordPrecedeRegEx input out :
  fst (MinifyJs char_is_signed CanKeywordPrecedeRegEx input out) = true ->
  length (snd (MinifyJs char_is_signed CanKeywordPrecedeRegEx input out)) <=
    length out + length input /\
  length (snd (MinifyJsAndCollapseStrings char_is_signed CanKeywordPrecedeRegEx input out)) <=
    length out + length input.
Proof.
  intros Hok. split.
  - apply (MinifyJs_length char_is_signed CanKeywordPrecedeRegEx input out true);
      [|reflexivity].
    rewrite <- Hok. apply surjective_pairing.
  - apply (MinifyJsAndCollapseStrings_length char_is_signed CanKeywordPrecedeRegEx
             input out true); [|reflexivity].
    rewrite <- Hok, <- MinifyJsAndCollapseStrings_ok. apply surjective_pairing.
Qed.

Lemma MinifyJs_never_grows_witness :
  fst (MinifyJs true JsKeywords.CanKeywordPrecedeRegEx (str "a  =  1 ;") (str "x")) = true /\
  length (snd (MinifyJs true JsKeywords.CanKeywordPrecedeRegEx (str "a  =  1 ;") (str "x"))) <=
    1 + 9.
Proof.
  assert (H : fst (MinifyJs true JsKeywords.CanKeywordPrecedeRegEx
                     (str "a  =  1 ;") (str "x")) = true) by (vm_compute; reflexivity).
  split; [exact H|].
  exact (proj1 (MinifyJs_never_grows true JsKeywords.CanKeywordPrecedeRegEx
                  (str "a  =  1 ;") (str "x") H)).
Defined.

(** X3: for an input within the range of [int], the size that the size-only
    entry points report is not negative and not more than the size of the
    input. *)
Theorem GetMinifiedJsSize_bound char_is_signed CanKeywordPrecedeRegEx input n :
  (Z.of_nat (length input) <= INT_MAX)%Z ->
  GetMinifiedJsSize char_is_signed CanKeywordPrecedeRegEx input = Some n \/
  GetMinifiedStringCollapsedJsSize char_is_signed CanKeywordPrecedeRegEx input = Some n ->
  (0 <= n <= Z.of_nat (length input))%Z.
Proof.
  intros Hmax [H|H].
  - rewrite GetMinifiedJsSize_MinifyJs in H.
    destruct (fst (MinifyJs _ _ input [])) eqn:Hok; [|discriminate].
    assert (Hl : length (snd (MinifyJs char_is_signed CanKeywordPrecedeRegEx input [])) <=
                 0 + length input).
    { apply (MinifyJs_length char_is_signed CanKeywordPrecedeRegEx input [] true);
        [|reflexivity].
      rewrite <- Hok. apply surjective_pairing. }
    assert (En : n = wrap_int (Z.of_nat (length (snd (MinifyJs char_is_signed
                                  CanKeywordPrecedeRegEx input []))))) by congruence.
    rewrite En, wrap_int_small; lia.
  - rewrite GetMinifiedStringCollapsedJsSize_MinifyJsAndCollapseStrings in H.
    destruct (fst (MinifyJsAndCollapseStrings _ _ input [])) eqn:Hok; [|discriminate].
    assert (Hl : length (snd (MinifyJsAndCollapseStrings char_is_signed
                                CanKeywordPrecedeRegEx input [])) <= 0 + length input).
    { apply (MinifyJsAndCollapseStrings_length char_is_signed CanKeywordPrecedeRegEx
               input [] true); [|reflexivity].
      rewrite <- Hok. apply surjective_pairing. }
    assert (En : n = wrap_int (Z.of_nat (length (snd (MinifyJsAndCollapseStrings
                                  char_is_signed CanKeywordPrecedeRegEx input [])))))
      by congruence.
    rewrite En, wrap_int_small; lia.
Qed.

Lemma GetMinifiedJsSize_bound_witness :
  (Z.of_nat (length (str "a  =  1 ;")) <= INT_MAX)%Z /\
  GetMinifiedJsSize true JsKeywords.CanKeywordPrecedeRegEx (str "a  =  1 ;") = Some 4%Z /\
  (0 <= 4 <= Z.of_nat (length (str "a  =  1 ;")))%Z.
Proof.
  assert (H1 : (Z.of_nat (length (str "a  =  1 ;")) <= INT_MAX)%Z) by (vm_compute; discriminate).
  assert (H2 : GetMinifiedJsSize true JsKeywords.CanKeywordPrecedeRegEx (str "a  =  1 ;") =
               Some 4%Z) by (vm_compute; reflexivity).
  split; [exact H1|]. split; [exact H2|].
  exact (GetMinifiedJsSize_bound true JsKeywords.CanKeywordPrecedeRegEx
           (str "a  =  1 ;") 4%Z H1 (or_introl H2)).
Defined.

Section Whitespace.

Variable char_is_signed : bool.
Variable CanKeywordPrecedeRegEx : bytes -> bool.
Context {O : Type} {sink : OutputConsumer O}.
Variable input_ : bytes.

#[local] Abbreviation Minify := (Minify char_is_signed CanKeywordPrecedeRegEx input_).
#[local] Abbreviation Minify_body := (Minify_body char_is_signed CanKeywordPrecedeRegEx input_).

Lemma whitespace_byte_cases c :
  whitespace_byte c = true ->
  c = "010"%char \/ c = "013"%char \/ c = " "%char \/ c = "009"%char.
Proof.
  unfold whitespace_byte, linebreak_byte. intros H.
  repeat (apply orb_true_iff in H as [H|H]); apply Ascii.eqb_eq in H; auto.
Qed.

(** An iteration that reads a whitespace byte only records it. *)
Lemma Minify_body_whitespace (m : Minifier (O:=O)) c :
  nth_error input_ (index_ m) = Some c ->
  whitespace_byte c = true ->
  Minify_body m =
  set_index (set_whitespace m
               (if linebreak_byte c then LINEBREAK
                else if Whitespace_eqb (whitespace_ m) NO_WHITESPACE then SPACE
                     else whitespace_ m))
            (S (index_ m)).
Proof.
  intros Hn Hc. unfold JsMinify.Minify_body. rewrite Hn.
  destruct (whitespace_byte_cases c Hc) as [->|[->|[->| ->]]];
    unfold char_to_int; destruct char_is_signed; simpl;
    destruct m as [i o w p e cs]; destruct w; reflexivity.
Qed.

Lemma Minify_whitespace (m : Minifier (O:=O)) :
  error_ m = false ->
  forallb whitespace_byte (substr_from input_ (index_ m)) = true ->
  output_ (Minify m) = output_ m /\ error_ (Minify m) = false /\
  prev_token_ (Minify m) = prev_token_ m.
Proof.
  remember (length input_ - index_ m) as n eqn:Hn.
  revert m Hn. induction n as [|n IH]; intros m Hn He Hw; rewrite Minify_unfold.
  - replace (Minify_cond input_ m) with false; [auto|].
    symmetry. unfold Minify_cond. apply andb_false_iff. left. apply Nat.ltb_ge. lia.
  - replace (Minify_cond input_ m) with true.
    2: { symmetry. unfold Minify_cond. rewrite He. simpl. rewrite andb_true_r.
         apply Nat.ltb_lt. lia. }
    destruct (nth_error input_ (index_ m)) as [c|] eqn:Hc.
    2: { apply nth_error_None in Hc. lia. }
    pose proof (substr_from_cons input_ (index_ m) c Hc) as Hs.
    rewrite Hs in Hw. simpl in Hw. apply andb_true_iff in Hw as [Hwc Hw].
    rewrite (Minify_body_whitespace m c Hc Hwc).
    destruct (IH (set_index (set_whitespace m
                    (if linebreak_byte c then LINEBREAK
                     else if Whitespace_eqb (whitespace_ m) NO_WHITESPACE then SPACE
                          else whitespace_ m)) (S (index_ m))))
      as (Ho & He' & Hp); fields; try assumption; [lia|].
    rewrite Ho, He', Hp. auto.
Qed.

End Whitespace.

(** X4: on an input that holds nothing but spaces, tabs and linebreaks the
    four entry points succeed and produce nothing: the caller's string is
    left as it was and the size is zero. *)
Theorem MinifyJs_whitespace_only char_is_signed CanKeywordPrecedeRegEx input out :
  forallb whitespace_byte input = true ->
  MinifyJs char_is_signed CanKeywordPrecedeRegEx input out = (true, out) /\
  MinifyJsAndCollapseStrings char_is_signed CanKeywordPrecedeRegEx input out = (true, out) /\
  GetMinifiedJsSize char_is_signed CanKeywordPrecedeRegEx input = Some 0%Z /\
  GetMinifiedStringCollapsedJsSize char_is_signed CanKeywordPrecedeRegEx input = Some 0%Z.
Proof.
  intros Hw.
  assert (H1 : forall out', MinifyJs char_is_signed CanKeywordPrecedeRegEx input out' =
                            (true, out')).
  { intros out'. rewrite MinifyJs_eq.
    destruct (Minify_whitespace char_is_signed CanKeywordPrecedeRegEx input
                (init (StringConsumer.Build out')) eq_refl Hw) as (Ho & He & _).
    rewrite Ho, He. reflexivity. }
  assert (H2 : forall out', MinifyJsAndCollapseStrings char_is_signed CanKeywordPrecedeRegEx
                              input out' = (true, out')).
  { intros out'. rewrite MinifyJsAndCollapseStrings_eq.
    destruct (Minify_whitespace char_is_signed CanKeywordPrecedeRegEx input
                (EnableStringCollapse (init (StringConsumer.Build out'))) eq_refl Hw)
      as (Ho & He & _).
    rewrite Ho, He. reflexivity. }
  split; [apply H1|]. split; [apply H2|].
  rewrite GetMinifiedJsSize_MinifyJs,
    GetMinifiedStringCollapsedJsSize_MinifyJsAndCollapseStrings, H1, H2.
  split; reflexivity.
Qed.

Lemma MinifyJs_whitespace_only_witness :
  forallb whitespace_byte [" "; "009"; "010"; "013"; " "]%char = true /\
  MinifyJs true JsKeywords.CanKeywordPrecedeRegEx [" "; "009"; "010"; "013"; " "]%char
    (str "x") = (true, str "x").
Proof.
  assert (H : forallb whitespace_byte [" "; "009"; "010"; "013"; " "]%char = true)
    by reflexivity.
  split; [exact H|].
  exact (proj1 (MinifyJs_whitespace_only true JsKeywords.CanKeywordPrecedeRegEx
                  [" "; "009"; "010"; "013"; " "]%char (str "x") H)).
Defined.

Section FirstByte.

Variable char_is_signed : bool.
Variable CanKeywordPrecedeRegEx : bytes -> bool.

#[local] Abbreviation describe := (describe char_is_signed CanKeywordPrecedeRegEx).
#[local] Abbreviation code := (char_to_int char_is_signed).
#[local] Abbreviation out := (fun m : Minifier (O:=StringConsumer.t) =>
                                StringConsumer.output_ (output_ m)).

Lemma whitespace_byte_code c :
  whitespace_byte c =
  ((code c =? 10) || (code c =? 13) || (code c =? 32) || (code c =? 9))%Z.
Proof.
  unfold whitespace_byte, linebreak_byte.
  change 10%Z with (byte_code "010"). change 13%Z with (byte_code "013").
  change 32%Z with (byte_code " "). change 9%Z with (byte_code "009").
  rewrite !char_to_int_eqb by (vm_compute; reflexivity). reflexivity.
Qed.

(** A token does not start with a whitespace byte. *)
Lemma describe_token_first c rest prev w tok :
  token (describe (c :: rest) prev w) = Some tok -> whitespace_byte c = false.
Proof.
  rewrite whitespace_byte_code. unfold JsMinify.describe. cbv zeta.
  destruct ((code c =? 10) || (code c =? 13))%Z eqn:Hnl; [discriminate|].
  destruct ((code c =? 32) || (code c =? 9))%Z eqn:Hsp; [discriminate|].
  intros _. apply orb_false_iff in Hsp as [-> ->]. rewrite !orb_false_r. reflexivity.
Qed.

(** InsertSpaceIfNeeded is not called before the first token. *)
Lemma describe_token_start u w tok :
  token (describe u kStartToken w) = Some tok ->
  separated (describe u kStartToken w) = false.
Proof.
  destruct u as [|c rest]; [discriminate|].
  pose proof (char_to_int_range char_is_signed c) as Hrange.
  unfold JsMinify.describe. cbv zeta.
  replace (kStartToken =? code c)%Z with false
    by (symmetry; apply Z.eqb_neq; unfold kStartToken; lia).
  repeat match goal with
         | |- context [if ?b then _ else _] =>
             lazymatch b with
             | context [if _ then _ else _] => fail
             | _ => destruct b
             end
         | |- context [match ?l with LoopReturn _ => _ | _ => _ end] => destruct l
         | |- context [let '(_, _) := ?p in _] => destruct p
         end; cbn; try discriminate; intros _; rewrite ?andb_false_r; reflexivity.
Qed.

Lemma Minify_loop_first_byte input fuel (m : Minifier (O:=StringConsumer.t)) :
  collapse_string_ m = false ->
  (prev_token_ m = kStartToken /\ out m = []) \/
    (exists c y, out m = c :: y /\ whitespace_byte c = false) ->
  let m' := Minify_loop char_is_signed CanKeywordPrecedeRegEx input fuel m in
  (prev_token_ m' = kStartToken /\ out m' = []) \/
    (exists c y, out m' = c :: y /\ whitespace_byte c = false).
Proof.
  revert m. induction fuel as [|fuel IH]; intros m Hcol HI; simpl; [exact HI|].
  destruct (Minify_cond input m) eqn:Hc; [|exact HI].
  pose proof (Minify_cond_unread _ _ Hc) as Hu.
  rewrite Minify_body_describe by exact Hcol.
  set (e := describe (substr_from input (index_ m)) (prev_token_ m) (whitespace_ m)).
  assert (Hstep : collapse_string_ (apply_emission m e) = false /\
            ((prev_token_ (apply_emission m e) = kStartToken /\
              out (apply_emission m e) = []) \/
             (exists c y, out (apply_emission m e) = c :: y /\ whitespace_byte c = false))).
  { destruct (raises e) eqn:Hr.
    { unfold apply_emission. rewrite Hr. fields. auto. }
    destruct (token e) as [tok|] eqn:Ht.
    2: { destruct (apply_emission_skip m e Hr Ht) as (Ho & _ & _ & Hp & _ & Hcs).
         rewrite Ho, Hp, Hcs. auto. }
    destruct (apply_emission_token m e tok Hr Ht) as (Ho & _ & _ & _ & _ & Hcs).
    split; [rewrite Hcs; exact Hcol|]. right. rewrite Ho.
    destruct HI as [[Hp Hout]|(c & y & Hout & Hw)].
    - subst e. rewrite Hp in *. rewrite (describe_token_start _ _ _ Ht).
      destruct (describe_token _ _ _ _ _ _ Ht) as (_ & Hn & Htext & _).
      rewrite Hout, Htext.
      destruct (substr_from input (index_ m)) as [|c u] eqn:Eu; [congruence|].
      destruct (consumed _) as [|k]; [lia|].
      exists c, (firstn k u).
      split; [|exact (describe_token_first _ _ _ _ _ Ht)].
      unfold separator. destruct (whitespace_ m); reflexivity.
    - rewrite Hout. simpl. eauto. }
  destruct Hstep as [Hcol' HI']. exact (IH _ Hcol' HI').
Qed.

End FirstByte.

(** X5: what MinifyJs produces never starts with a space, a tab or a
    linebreak, whether it succeeds or fails. *)
Theorem MinifyJs_first_byte char_is_signed CanKeywordPrecedeRegEx input c y :
  snd (MinifyJs char_is_signed CanKeywordPrecedeRegEx input []) = c :: y ->
  whitespace_byte c = false.
Proof.
  rewrite MinifyJs_eq. cbn [snd]. intros H.
  destruct (Minify_loop_first_byte char_is_signed CanKeywordPrecedeRegEx input
              (length input - 0) (init (StringConsumer.Build [])) eq_refl)
    as [[_ Ho]|(c' & y' & Ho & Hw)].
  - left. split; reflexivity.
  - unfold JsMinify.Minify in H. simpl in H, Ho. congruence.
  - unfold JsMinify.Minify in H. simpl in H, Ho. congruence.
Qed.

Lemma MinifyJs_first_byte_witness :
  snd (MinifyJs true JsKeywords.CanKeywordPrecedeRegEx (str "  /* c */ x = 1") []) =
    "x"%char :: str "=1" /\
  whitespace_byte "x" = false.
Proof.
  assert (H : snd (MinifyJs true JsKeywords.CanKeywordPrecedeRegEx
                     (str "  /* c */ x = 1") []) = "x"%char :: str "=1")
    by (vm_compute; reflexivity).
  split; [exact H|].
  exact (MinifyJs_first_byte true JsKeywords.CanKeywordPrecedeRegEx _ _ _ H).
Defined.

Section Names.

Variable char_is_signed : bool.
Variable CanKeywordPrecedeRegEx : bytes -> bool.

#[local] Abbreviation describe := (describe char_is_signed CanKeywordPrecedeRegEx).
#[local] Abbreviation code := (char_to_int char_is_signed).
#[local] Abbreviation Minify := (Minify char_is_signed CanKeywordPrecedeRegEx).
#[local] Abbreviation identifier_byte := (fun c => IsIdentifierChar (code c)).

Lemma name_loop_run a rest i token :
  forallb identifier_byte a = true ->
  can_follow char_is_signed kNameNumberToken rest = true ->
  name_loop char_is_signed (a ++ rest) i token = (i + length a, token ++ a).
Proof.
  intros Ha Hr. revert i token Ha.
  induction a as [|c a IH]; intros i token Ha; simpl in *.
  - rewrite Nat.add_0_r, app_nil_r. destruct rest as [|c rest]; [reflexivity|].
    simpl in *. destruct (IsIdentifierChar _); [discriminate|reflexivity].
  - apply andb_true_iff in Ha as [Hc Ha]. rewrite Hc, IH by exact Ha.
    rewrite <- app_assoc. f_equal. lia.
Qed.

(** A run of identifier bytes that the next byte does not continue is one
    name, number or keyword token. *)
Lemma describe_name a rest prev w :
  a <> [] -> forallb identifier_byte a = true ->
  can_follow char_is_signed kNameNumberToken rest = true ->
  describe (a ++ rest) prev w =
  emit_token (length a)
    ((prev =? kNameNumberToken) || (prev =? kKeywordCanPrecedeRegExToken) ||
     (prev =? kRegexToken))%Z
    (if CanKeywordPrecedeRegEx a then kKeywordCanPrecedeRegExToken else kNameNumberToken)
    a.
Proof.
  intros Hne Ha Hr.
  pose proof (name_loop_run a rest 0 [] Ha Hr) as Hn.
  destruct a as [|c a]; [congruence|]. clear Hne.
  simpl in Ha. apply andb_true_iff in Ha as [Hc _].
  change ((c :: a) ++ rest) with (c :: (a ++ rest)) in *.
  unfold JsMinify.describe. cbv zeta. rewrite Hn, Hc.
  assert (Hno : forall z, IsIdentifierChar z = false -> (code c =? z)%Z = false).
  { intros z Hz. apply Z.eqb_neq. intros E. rewrite E in Hc. congruence. }
  rewrite !Hno by reflexivity. reflexivity.
Qed.

Lemma whitespace_not_identifier c :
  whitespace_byte c = true -> identifier_byte c = false.
Proof.
  intros H. destruct (whitespace_byte_cases c H) as [->|[->|[->| ->]]];
    unfold char_to_int; destruct char_is_signed; reflexivity.
Qed.

(** A run of whitespace bytes is read without a change to the output. *)
Lemma Minify_skip_whitespace input ws rest (m : Minifier (O:=StringConsumer.t)) :
  error_ m = false ->
  substr_from input (index_ m) = ws ++ rest ->
  forallb whitespace_byte ws = true ->
  Minify input m =
  Minify input (set_index (set_whitespace m (skip_whitespace ws (whitespace_ m)))
                          (index_ m + length ws)).
Proof.
  revert m. induction ws as [|c ws IH]; intros m He Hu Hw.
  - simpl. rewrite Nat.add_0_r. destruct m; reflexivity.
  - simpl in Hw. apply andb_true_iff in Hw as [Hc Hw].
    assert (Hn : nth_error input (index_ m) = Some c).
    { rewrite <- (Nat.add_0_r (index_ m)), nth_error_unread, Hu. reflexivity. }
    rewrite Minify_unfold.
    replace (Minify_cond input m) with true.
    2: { symmetry. unfold Minify_cond. rewrite He, andb_true_r. apply Nat.ltb_lt.
         apply nth_error_Some. congruence. }
    rewrite (Minify_body_whitespace char_is_signed CanKeywordPrecedeRegEx input m c Hn Hc).
    rewrite IH; fields; try assumption.
    + f_equal. simpl. destruct m; simpl. f_equal. lia.
    + rewrite <- Nat.add_1_r, substr_from_unread, Hu. reflexivity.
Qed.

Lemma skip_whitespace_run ws :
  ws <> [] ->
  skip_whitespace ws NO_WHITESPACE =
  if existsb linebreak_byte ws then LINEBREAK else SPACE.
Proof.
  assert (H : forall ws w, w <> NO_WHITESPACE ->
            skip_whitespace ws w =
            if existsb linebreak_byte ws then LINEBREAK else w).
  { clear. induction ws as [|c ws IH]; intros w Hw; simpl; [reflexivity|].
    destruct (linebreak_byte c); simpl.
    - rewrite IH by discriminate. destruct (existsb _ _); reflexivity.
    - destruct w; try congruence; simpl; apply IH; discriminate. }
  destruct ws as [|c ws]; [congruence|]. intros _. simpl.
  destruct (linebreak_byte c); simpl; rewrite H by discriminate;
    destruct (existsb _ _); reflexivity.
Qed.

End Names.

(** X6: two names (or numbers or keywords) with nothing but whitespace
    between them come out with one byte between them: a newline when the
    whitespace holds a linebreak, a space otherwise. *)
Theorem MinifyJs_two_names char_is_signed CanKeywordPrecedeRegEx a ws b :
  a <> [] -> b <> [] -> ws <> [] ->
  forallb (fun c => IsIdentifierChar (char_to_int char_is_signed c)) a = true ->
  forallb (fun c => IsIdentifierChar (char_to_int char_is_signed c)) b = true ->
  forallb whitespace_byte ws = true ->
  MinifyJs char_is_signed CanKeywordPrecedeRegEx (a ++ ws ++ b) [] =
  (true, a ++ (if existsb linebreak_byte ws then "010"%char else " "%char) :: b).
Proof.
  intros Ha0 Hb0 Hw0 Ha Hb Hw. rewrite MinifyJs_eq.
  set (input := a ++ ws ++ b).
  set (m0 := init (StringConsumer.Build [])).
  assert (Hws : can_follow char_is_signed kNameNumberToken (ws ++ b) = true).
  { destruct ws as [|c ws]; [congruence|]. simpl in Hw.
    apply andb_true_iff in Hw as [Hc _]. unfold can_follow. cbv zeta.
    change ((c :: ws) ++ b) with (c :: (ws ++ b)). cbv iota.
    rewrite (whitespace_not_identifier char_is_signed c Hc).
    unfold char_to_int.
    destruct (whitespace_byte_cases c Hc) as [->|[->|[->| ->]]];
      destruct char_is_signed; reflexivity. }
  (* the first name *)
  rewrite Minify_unfold.
  replace (Minify_cond input m0) with true.
  2: { symmetry. unfold Minify_cond, input. simpl. rewrite andb_true_r.
       apply Nat.ltb_lt. rewrite length_app. destruct a; [congruence|simpl; lia]. }
  rewrite Minify_body_describe by reflexivity.
  change (substr_from input (index_ m0)) with (a ++ ws ++ b).
  rewrite (describe_name char_is_signed CanKeywordPrecedeRegEx a (ws ++ b) _ _ Ha0 Ha Hws).
  set (ta := if CanKeywordPrecedeRegEx a then kKeywordCanPrecedeRegExToken
             else kNameNumberToken).
  destruct (apply_emission_token m0
              (emit_token (length a)
                 ((prev_token_ m0 =? kNameNumberToken) ||
                  (prev_token_ m0 =? kKeywordCanPrecedeRegExToken) ||
                  (prev_token_ m0 =? kRegexToken))%Z ta a) ta eq_refl eq_refl)
    as (Ho1 & Hi1 & Hw1 & Hp1 & He1 & Hc1).
  remember (apply_emission m0 _) as m1 eqn:E1. clear E1.
  cbn in Ho1, Hi1, He1, Hc1.
  (* the whitespace *)
  rewrite (Minify_skip_whitespace char_is_signed CanKeywordPrecedeRegEx input ws b m1 He1).
  2: { rewrite Hi1. unfold substr_from, input. apply skipn_app_length. }
  2: exact Hw.
  rewrite Hw1, (skip_whitespace_run ws Hw0).
  set (w := if existsb linebreak_byte ws then LINEBREAK else SPACE).
  remember (set_index (set_whitespace m1 w) (index_ m1 + length ws)) as m2 eqn:E2.
  assert (F2 : index_ m2 = length a + length ws /\ whitespace_ m2 = w /\
               prev_token_ m2 = ta /\ error_ m2 = false /\ collapse_string_ m2 = false /\
               StringConsumer.output_ (output_ m2) = a).
  { subst m2. fields. rewrite Hi1. repeat split; solve [assumption | reflexivity]. }
  clear E2. destruct F2 as (Hi2 & Hw2 & Hp2 & He2 & Hc2 & Ho2).
  (* the second name *)
  rewrite Minify_unfold.
  replace (Minify_cond input m2) with true.
  2: { symmetry. unfold Minify_cond, input. rewrite He2, Hi2, andb_true_r.
       apply Nat.ltb_lt. rewrite !length_app. destruct b; [congruence|simpl; lia]. }
  rewrite Minify_body_describe by exact Hc2.
  replace (substr_from input (index_ m2)) with (b ++ []).
  2: { unfold substr_from, input. rewrite Hi2, app_nil_r, app_assoc.
       rewrite <- length_app. symmetry. apply skipn_app_length. }
  rewrite (describe_name char_is_signed CanKeywordPrecedeRegEx b [] _ _ Hb0 Hb eq_refl).
  set (tb := if CanKeywordPrecedeRegEx b then kKeywordCanPrecedeRegExToken
             else kNameNumberToken).
  destruct (apply_emission_token m2
              (emit_token (length b)
                 ((prev_token_ m2 =? kNameNumberToken) ||
                  (prev_token_ m2 =? kKeywordCanPrecedeRegExToken) ||
                  (prev_token_ m2 =? kRegexToken))%Z tb b) tb eq_refl eq_refl)
    as (Ho3 & Hi3 & Hw3 & Hp3 & He3 & Hc3).
  remember (apply_emission m2 _) as m3 eqn:E3. clear E3.
  cbn [separated text consumed emit_token] in Ho3, Hi3.
  rewrite Minify_unfold.
  replace (Minify_cond input m3) with false.
  2: { symmetry. unfold Minify_cond. apply andb_false_iff. left. apply Nat.ltb_ge.
       rewrite Hi3, Hi2. unfold input. rewrite !length_app. lia. }
  rewrite He3, He2, Ho3, Ho2, Hw2, Hp2. cbn [negb].
  f_equal. f_equal.
  assert (Hsep : ((ta =? kNameNumberToken) || (ta =? kKeywordCanPrecedeRegExToken) ||
                  (ta =? kRegexToken))%Z = true)
    by (unfold ta; destruct (CanKeywordPrecedeRegEx a); reflexivity).
  rewrite Hsep. unfold w, separator.
  destruct (existsb linebreak_byte ws); reflexivity.
Qed.

Lemma MinifyJs_two_names_witness :
  MinifyJs true JsKeywords.CanKeywordPrecedeRegEx
    (str "return" ++ [" "; "009"; " "]%char ++ str "x1") [] = (true, str "return x1").
Proof.
  apply (MinifyJs_two_names true JsKeywords.CanKeywordPrecedeRegEx
           (str "return") [" "; "009"; " "]%char (str "x1"));
    solve [discriminate | reflexivity].
Defined.

Section Strings.

Variable char_is_signed : bool.
Variable CanKeywordPrecedeRegEx : bytes -> bool.
Context {O : Type} {sink : OutputConsumer O}.

#[local] Abbreviation code := (char_to_int char_is_signed).

Lemma quote_byte_cases q :
  quote_byte q = true -> q = "'"%char \/ q = "034"%char \/ q = "`"%char.
Proof.
  unfold quote_byte. intros H.
  repeat (apply orb_true_iff in H as [H|H]); apply Ascii.eqb_eq in H; auto.
Qed.

Lemma code_eqb_quote q c :
  quote_byte q = true -> (code c =? code q)%Z = Ascii.eqb c q.
Proof.
  intros Hq.
  assert (E : code q = byte_code q /\ (byte_code q < 128)%Z).
  { destruct (quote_byte_cases q Hq) as [->|[->| ->]];
      unfold char_to_int; destruct char_is_signed; split; reflexivity. }
  destruct E as [-> Hlt]. apply char_to_int_eqb. exact Hlt.
Qed.

(** The scan of a string literal whose body holds neither its quote nor a
    backslash ends behind the closing quote. *)
Lemma string_loop_plain q body rest i :
  quote_byte q = true ->
  forallb (fun c => negb (Ascii.eqb c q) && negb (Ascii.eqb c "\"%char)) body = true ->
  string_loop char_is_signed (code q) (body ++ q :: rest) i =
  LoopReturn (i + length body + 1).
Proof.
  intros Hq Hb. revert i. induction body as [|c body IH]; intros i; simpl in *.
  - replace (code q =? 92)%Z with false.
    2: { destruct (quote_byte_cases q Hq) as [->|[->| ->]];
           unfold char_to_int; destruct char_is_signed; reflexivity. }
    rewrite Z.eqb_refl. f_equal. lia.
  - apply andb_true_iff in Hb as [Hc Hb]. apply andb_true_iff in Hc as [Hc1 Hc2].
    apply negb_true_iff in Hc1, Hc2.
    change 92%Z with (byte_code "\"). rewrite char_to_int_eqb by (vm_compute; reflexivity).
    rewrite Hc2, (code_eqb_quote q c Hq), Hc1, IH by exact Hb. f_equal. lia.
Qed.

(** The iteration that reads such a literal, with string collapsing or
    without. *)
Lemma Minify_body_string input (m : Minifier (O:=O)) q body rest :
  quote_byte q = true ->
  forallb (fun c => negb (Ascii.eqb c q) && negb (Ascii.eqb c "\"%char)) body = true ->
  substr_from input (index_ m) = q :: body ++ q :: rest ->
  Minify_body char_is_signed CanKeywordPrecedeRegEx input m =
  let m' := ChangeToken kStringToken (set_index m (index_ m + (length body + 2))) in
  if collapse_string_ m then output_push_back (output_push_back m' q) q
  else output_append m' (q :: body ++ [q]).
Proof.
  intros Hq Hb Hu.
  assert (Hn : nth_error input (index_ m) = Some q).
  { rewrite <- (Nat.add_0_r (index_ m)), nth_error_unread, Hu. reflexivity. }
  assert (Hrest : substr_from input (S (index_ m)) = body ++ q :: rest).
  { rewrite <- Nat.add_1_r, substr_from_unread, Hu. reflexivity. }
  unfold JsMinify.Minify_body. rewrite Hn. cbv zeta.
  replace ((code q =? 10) || (code q =? 13))%Z with false.
  2: { destruct (quote_byte_cases q Hq) as [->|[->| ->]];
         unfold char_to_int; destruct char_is_signed; reflexivity. }
  replace ((code q =? 32) || (code q =? 9))%Z with false.
  2: { destruct (quote_byte_cases q Hq) as [->|[->| ->]];
         unfold char_to_int; destruct char_is_signed; reflexivity. }
  replace ((code q =? 39) || (code q =? 34) || (code q =? 96))%Z with true.
  2: { destruct (quote_byte_cases q Hq) as [->|[->| ->]];
         unfold char_to_int; destruct char_is_signed; reflexivity. }
  unfold ConsumeString. rewrite Hn, Hrest, (string_loop_plain q body rest _ Hq Hb).
  cbv zeta. rewrite ChangeToken_collapse; fields.
  replace (S (index_ m) + length body + 1) with (index_ m + (length body + 2)) by lia.
  destruct (collapse_string_ m); [reflexivity|].
  f_equal. rewrite substr_unread, Hu.
  replace (index_ m + (length body + 2) - index_ m) with (S (length body + 1)) by lia.
  cbn [firstn]. f_equal.
  rewrite firstn_app, firstn_all2 by lia.
  replace (length body + 1 - length body) with 1 by lia. reflexivity.
Qed.

End Strings.

(** X7: a string literal whose body holds neither its quote nor a backslash
    is copied as it is, whitespace and comment openers inside it included;
    with string collapsing only its two quotes are left. *)
Theorem MinifyJs_string_literal char_is_signed CanKeywordPrecedeRegEx q body :
  quote_byte q = true ->
  forallb (fun c => negb (Ascii.eqb c q) && negb (Ascii.eqb c "\"%char)) body = true ->
  MinifyJs char_is_signed CanKeywordPrecedeRegEx (q :: body ++ [q]) [] =
    (true, q :: body ++ [q]) /\
  MinifyJsAndCollapseStrings char_is_signed CanKeywordPrecedeRegEx (q :: body ++ [q]) [] =
    (true, [q; q]).
Proof.
  intros Hq Hb. rewrite MinifyJs_eq, MinifyJsAndCollapseStrings_eq.
  set (input := q :: body ++ [q]).
  assert (Hlen : length input = length body + 2).
  { unfold input. simpl. rewrite length_app. simpl. lia. }
  assert (Hrun : forall m : Minifier (O:=StringConsumer.t),
    index_ m = 0 -> error_ m = false -> whitespace_ m = NO_WHITESPACE ->
    Minify char_is_signed CanKeywordPrecedeRegEx input m =
    Minify_body char_is_signed CanKeywordPrecedeRegEx input m /\
    error_ (Minify_body char_is_signed CanKeywordPrecedeRegEx input m) = false /\
    StringConsumer.output_
      (output_ (Minify_body char_is_signed CanKeywordPrecedeRegEx input m)) =
    StringConsumer.output_ (output_ m) ++
      (if collapse_string_ m then [q; q] else input)).
  { intros m Hi He Hw.
    assert (Hu : substr_from input (index_ m) = q :: body ++ [q])
      by (rewrite Hi; reflexivity).
    pose proof (Minify_body_string char_is_signed CanKeywordPrecedeRegEx input m q body []
                  Hq Hb Hu) as Hbody.
    cbv zeta in Hbody.
    assert (Hfields : index_ (Minify_body char_is_signed CanKeywordPrecedeRegEx input m) =
                        length input /\
                      error_ (Minify_body char_is_signed CanKeywordPrecedeRegEx input m) =
                        false /\
                      StringConsumer.output_
                        (output_ (Minify_body char_is_signed CanKeywordPrecedeRegEx input m)) =
                      StringConsumer.output_ (output_ m) ++
                        (if collapse_string_ m then [q; q] else input)).
    { rewrite Hbody, Hlen. unfold ChangeToken. fields. rewrite Hw. simpl.
      destruct m as [i o w p e cs]. simpl in *. subst.
      destruct cs; simpl; rewrite <- ?app_assoc; auto. }
    destruct Hfields as (Hi' & He' & Ho').
    split; [|split; assumption].
    rewrite Minify_unfold.
    replace (Minify_cond input m) with true.
    2: { symmetry. unfold Minify_cond. rewrite Hi, He, Hlen. apply andb_true_iff.
         split; [apply Nat.ltb_lt; lia|reflexivity]. }
    rewrite Minify_unfold.
    replace (Minify_cond input _) with false; [reflexivity|].
    symmetry. unfold Minify_cond. rewrite Hi'. rewrite Nat.ltb_irrefl. reflexivity. }
  split.
  - destruct (Hrun (init (StringConsumer.Build [])) eq_refl eq_refl eq_refl)
      as (-> & -> & ->). reflexivity.
  - destruct (Hrun (EnableStringCollapse (init (StringConsumer.Build [])))
                eq_refl eq_refl eq_refl) as (-> & -> & ->). reflexivity.
Qed.

Lemma MinifyJs_string_literal_witness :
  MinifyJs true JsKeywords.CanKeywordPrecedeRegEx (str "'a  // b /* c'") [] =
    (true, str "'a  // b /* c'") /\
  MinifyJsAndCollapseStrings true JsKeywords.CanKeywordPrecedeRegEx
    (str "'a  // b /* c'") [] = (true, str "''").
Proof.
  apply (MinifyJs_string_literal true JsKeywords.CanKeywordPrecedeRegEx "'"%char
           (str "a  // b /* c")); reflexivity.
Defined.

Section Collapsing.

Variable char_is_signed : bool.
Variable CanKeywordPrecedeRegEx : bytes -> bool.
Variable input_ : bytes.

#[local] Abbreviation Minify_body := (Minify_body char_is_signed CanKeywordPrecedeRegEx input_).
#[local] Abbreviation Minify_loop := (Minify_loop char_is_signed CanKeywordPrecedeRegEx input_).
#[local] Abbreviation out := (fun m : Minifier (O:=StringConsumer.t) =>
                                StringConsumer.output_ (output_ m)).

Ltac body_norm :=
  cbv beta iota zeta delta
    [ConsumeLineComment ConsumeBlockComment ConsumeRegex ConsumeNameOrNumber Peek
     ChangeToken InsertSpaceIfNeeded EnableStringCollapse
     set_index set_whitespace set_prev_token set_error set_output
     output_push_back output_append
     index_ output_ whitespace_ prev_token_ error_ collapse_string_
     Whitespace_eqb].

Ltac split_innermost :=
  repeat (match goal with
          | |- context [if ?b then _ else _] =>
              lazymatch b with
              | context [if _ then _ else _] => fail
              | _ => destruct b
              end
          | |- context [match ?l with LoopReturn _ => _ | _ => _ end] =>
              lazymatch l with
              | context [if _ then _ else _] => fail
              | _ => destruct l
              end
          | |- context [let '(_, _) := ?l in _] =>
              lazymatch l with
              | context [if _ then _ else _] => fail
              | _ => destruct l
              end
          end; body_norm).

(** With string collapsing an iteration differs from the one without it only
    in what a string literal adds to the output: its two quotes, for the
    whole literal. *)
Lemma Minify_body_collapsed i o w p e :
  let m1 := mkMinifier i o w p e true in
  let m2 := mkMinifier i o w p e false in
  index_ (Minify_body m1) = index_ (Minify_body m2) /\
  whitespace_ (Minify_body m1) = whitespace_ (Minify_body m2) /\
  prev_token_ (Minify_body m1) = prev_token_ (Minify_body m2) /\
  error_ (Minify_body m1) = error_ (Minify_body m2) /\
  length (out (Minify_body m1)) <= length (out (Minify_body m2)).
Proof.
  intros m1 m2.
  assert (Hsame : Minify_body m1 = EnableStringCollapse (Minify_body m2) ->
    index_ (Minify_body m1) = index_ (Minify_body m2) /\
    whitespace_ (Minify_body m1) = whitespace_ (Minify_body m2) /\
    prev_token_ (Minify_body m1) = prev_token_ (Minify_body m2) /\
    error_ (Minify_body m1) = error_ (Minify_body m2) /\
    length (out (Minify_body m1)) <= length (out (Minify_body m2))).
  { intros ->. simpl. repeat split; lia. }
  unfold JsMinify.Minify_body in *. subst m1 m2. cbn [index_] in *.
  destruct (nth_error input_ i) as [c|] eqn:Hn; [|apply Hsame; reflexivity].
  cbv zeta in *.
  destruct ((_ =? 10) || _)%Z; [apply Hsame; reflexivity|].
  destruct ((_ =? 32) || _)%Z; [apply Hsame; destruct w; reflexivity|].
  destruct ((_ =? 39) || _ || _)%Z.
  { clear Hsame. unfold ConsumeString. cbn [index_]. rewrite Hn.
    pose proof (string_loop_bounds char_is_signed (char_to_int char_is_signed c)
                  (substr_from input_ (S i)) (S i)) as Hb.
    destruct (string_loop _ _ _ _) as [n|n|n]; cbv zeta.
    2,3: cbn; repeat split; lia.
    rewrite !ChangeToken_collapse. cbn [collapse_string_ set_index].
    unfold ChangeToken. cbn [whitespace_ prev_token_ set_index index_ output_ error_
                             collapse_string_].
    assert (Hl : 2 <= length (substr input_ i (n - i))).
    { unfold substr. rewrite length_firstn, length_skipn.
      unfold substr_from in Hb. rewrite length_skipn in Hb. lia. }
    destruct (Whitespace_eqb w LINEBREAK && negb (CanSuppressLinebreak p kStringToken));
      cbn; repeat split; try reflexivity; rewrite !length_app; cbn; lia. }
  apply Hsame. clear Hsame.
  destruct w; body_norm; split_innermost; reflexivity.
Qed.

Lemma Minify_loop_collapsed fuel (m1 m2 : Minifier (O:=StringConsumer.t)) :
  collapse_string_ m1 = true -> collapse_string_ m2 = false ->
  index_ m1 = index_ m2 -> whitespace_ m1 = whitespace_ m2 ->
  prev_token_ m1 = prev_token_ m2 -> error_ m1 = error_ m2 ->
  length (out m1) <= length (out m2) ->
  error_ (Minify_loop fuel m1) = error_ (Minify_loop fuel m2) /\
  length (out (Minify_loop fuel m1)) <= length (out (Minify_loop fuel m2)).
Proof.
  revert m1 m2. induction fuel as [|fuel IH];
    intros m1 m2 Hc1 Hc2 Hi Hw Hp He Ho; simpl; [auto|].
  assert (Hcond : Minify_cond input_ m1 = Minify_cond input_ m2)
    by (unfold Minify_cond; rewrite Hi, He; reflexivity).
  rewrite Hcond. destruct (Minify_cond input_ m2) eqn:Hc; [|auto].
  destruct (Minify_body_advances char_is_signed CanKeywordPrecedeRegEx input_ m1 Hcond)
    as [Hc1' _].
  destruct (Minify_body_advances char_is_signed CanKeywordPrecedeRegEx input_ m2 Hc)
    as [Hc2' _].
  destruct m1 as [i o1 w p e cs1]. simpl in *. subst cs1.
  destruct (Minify_body_collapsed i o1 w p e) as (Hi' & Hw' & Hp' & He' & Ho').
  cbv zeta in *.
  assert (Hsim : sim (fun a b : StringConsumer.t =>
                        length (StringConsumer.output_ a) <= length (StringConsumer.output_ b))
                     (mkMinifier i o1 w p e false) m2).
  { unfold sim. simpl. repeat split; auto. }
  apply (sim_Minify_body char_is_signed CanKeywordPrecedeRegEx) with (input_ := input_)
    in Hsim.
  2: { intros a b c H. simpl. rewrite !length_app. simpl. lia. }
  2: { intros a b u H. simpl. rewrite !length_app. lia. }
  destruct Hsim as (Hi2 & Hw2 & Hp2 & He2 & _ & Ho2).
  apply IH; try congruence. lia.
Qed.

End Collapsing.

(** X8: collapsing the string literals never makes the output longer: on
    every input and caller's string, the string that
    MinifyJsAndCollapseStrings leaves is no longer than the one MinifyJs
    leaves. *)
Theorem MinifyJsAndCollapseStrings_shorter char_is_signed CanKeywordPrecedeRegEx input out :
  length (snd (MinifyJsAndCollapseStrings char_is_signed CanKeywordPrecedeRegEx input out)) <=
  length (snd (MinifyJs char_is_signed CanKeywordPrecedeRegEx input out)).
Proof.
  rewrite MinifyJs_eq, MinifyJsAndCollapseStrings_eq. cbn [snd].
  apply (Minify_loop_collapsed char_is_signed CanKeywordPrecedeRegEx input
           (length input - 0)
           (EnableStringCollapse (init (StringConsumer.Build out)))
           (init (StringConsumer.Build out))); reflexivity || (simpl; lia).
Qed.

Section Comments.

Variable char_is_signed : bool.
Variable CanKeywordPrecedeRegEx : bytes -> bool.

#[local] Abbreviation describe := (describe char_is_signed CanKeywordPrecedeRegEx).
#[local] Abbreviation code := (char_to_int char_is_signed).
#[local] Abbreviation Minify := (Minify char_is_signed CanKeywordPrecedeRegEx).
#[local] Abbreviation no_star := (forallb (fun c => negb (Ascii.eqb c "*"%char))).

Lemma code_ascii c c0 z :
  z = byte_code c0 -> (z < 128)%Z -> (code c =? z)%Z = Ascii.eqb c c0.
Proof. intros -> Hz. apply char_to_int_eqb. exact Hz. Qed.

(** The scan of a block comment whose body holds no star ends behind the
    star-slash that follows the body. *)
Lemma block_comment_loop_plain body rest i :
  no_star body = true ->
  block_comment_loop char_is_signed (body ++ "*"%char :: "/"%char :: rest) i =
  LoopReturn (i + length body + 2).
Proof.
  intros Hb. revert i. induction body as [|c body IH]; intros i; simpl in *.
  - rewrite (code_ascii "*" "*" 42), (code_ascii "/" "/" 47) by (vm_compute; reflexivity).
    simpl. f_equal. lia.
  - apply andb_true_iff in Hb as [Hc Hb]. apply negb_true_iff in Hc.
    rewrite (code_ascii c "*" 42), Hc, IH by (exact Hb || (vm_compute; reflexivity)).
    simpl. f_equal. lia.
Qed.

Lemma describe_block_comment body rest prev w :
  no_star body = true ->
  describe ("/"%char :: "*"%char :: body ++ "*"%char :: "/"%char :: rest) prev w =
  if match body with
     | [] => false
     | c :: _ => Ascii.eqb c "@"%char && Ascii.eqb (List.last body c) "@"%char
     end
  then emit_token (length body + 4) false kCCCommentToken
         ("/"%char :: "*"%char :: body ++ ["*"%char; "/"%char])
  else emit_skip (length body + 4) (space_after w).
Proof.
  intros Hb.
  assert (Hslash : code "/" = 47%Z) by (unfold char_to_int; destruct char_is_signed; reflexivity).
  assert (Hstar : code "*" = 42%Z) by (unfold char_to_int; destruct char_is_signed; reflexivity).
  unfold JsMinify.describe. cbv zeta. rewrite Hslash, Hstar.
  replace ((47 =? 10) || (47 =? 13))%Z with false by reflexivity.
  replace ((47 =? 32) || (47 =? 9))%Z with false by reflexivity.
  replace ((47 =? 39) || (47 =? 34) || (47 =? 96))%Z with false by reflexivity.
  replace (47 =? 47)%Z with true by reflexivity.
  replace (42 =? 47)%Z with false by reflexivity.
  replace (42 =? 42)%Z with true by reflexivity.
  cbv iota.
  change (skipn 2 ("/"%char :: "*"%char :: body ++ "*"%char :: "/"%char :: rest))
    with (body ++ "*"%char :: "/"%char :: rest).
  rewrite (block_comment_loop_plain body rest 2 Hb).
  replace (2 + length body + 2) with (length body + 4) by lia.
  set (u := "/"%char :: "*"%char :: body ++ "*"%char :: "/"%char :: rest).
  assert (Htext : firstn (length body + 4) u = "/"%char :: "*"%char :: body ++ ["*"%char; "/"%char]).
  { unfold u. replace (length body + 4) with (S (S (length body + 2))) by lia.
    cbn [firstn]. do 2 f_equal.
    rewrite firstn_app, firstn_all2 by lia.
    replace (length body + 2 - length body) with 2 by lia. reflexivity. }
  rewrite Htext.
  assert (H2 : match nth_error u 2 with
               | Some c' => (code c' =? 64)%Z
               | None => false
               end = match body with [] => false | c :: _ => Ascii.eqb c "@"%char end).
  { unfold u. destruct body as [|c body']; simpl.
    - rewrite Hstar. reflexivity.
    - apply (code_ascii c "@" 64); vm_compute; reflexivity. }
  assert (H3 : forall d, match nth_error u (length body + 4 - 3) with
               | Some c' => (code c' =? 64)%Z
               | None => false
               end = match body with
                     | [] => false
                     | _ :: _ => Ascii.eqb (List.last body d) "@"%char
                     end).
  { intros d. unfold u. replace (length body + 4 - 3) with (S (length body)) by lia.
    destruct body as [|c body'] using rev_ind; [simpl; rewrite Hstar; reflexivity|].
    clear IHbody'. rewrite last_last, length_app. simpl.
    replace (length body' + 1) with (S (length body')) by lia.
    cbn [nth_error].
    rewrite <- app_assoc, nth_error_app2, Nat.sub_diag by lia. simpl.
    destruct (body' ++ [c]) eqn:E; [destruct body'; discriminate|].
    apply (code_ascii c "@" 64); vm_compute; reflexivity. }
  rewrite H2. destruct body as [|c body']; [reflexivity|].
  rewrite (H3 c). reflexivity.
Qed.

End Comments.

(** X9: a block comment whose body holds no star is dropped, unless the
    body starts and ends with an at sign: such a conditional compilation
    comment is copied as it is. *)
Theorem MinifyJs_block_comment char_is_signed CanKeywordPrecedeRegEx body :
  forallb (fun c => negb (Ascii.eqb c "*"%char)) body = true ->
  MinifyJs char_is_signed CanKeywordPrecedeRegEx
    ("/"%char :: "*"%char :: body ++ ["*"%char; "/"%char]) [] =
  (true,
   if match body with
      | [] => false
      | c :: _ => Ascii.eqb c "@"%char && Ascii.eqb (List.last body c) "@"%char
      end
   then "/"%char :: "*"%char :: body ++ ["*"%char; "/"%char]
   else []).
Proof.
  intros Hb. rewrite MinifyJs_eq.
  set (input := "/"%char :: "*"%char :: body ++ ["*"%char; "/"%char]).
  set (m0 := init (StringConsumer.Build [])).
  assert (Hlen : length input = length body + 4).
  { unfold input. simpl. rewrite length_app. simpl. lia. }
  remember (Minify char_is_signed CanKeywordPrecedeRegEx input m0) as mf eqn:Emf.
  rewrite Minify_unfold in Emf.
  replace (Minify_cond input m0) with true in Emf.
  2: { symmetry. unfold Minify_cond. rewrite Hlen. simpl. rewrite andb_true_r.
       apply Nat.ltb_lt. lia. }
  rewrite Minify_body_describe in Emf by reflexivity.
  change (substr_from input (index_ m0))
    with ("/"%char :: "*"%char :: body ++ ["*"%char; "/"%char]) in Emf.
  rewrite (describe_block_comment char_is_signed CanKeywordPrecedeRegEx body [] _ _ Hb)
    in Emf.
  fold input in Emf.
  destruct (match body with
            | [] => false
            | c :: _ => Ascii.eqb c "@"%char && Ascii.eqb (List.last body c) "@"%char
            end).
  - destruct (apply_emission_token m0
                (emit_token (length body + 4) false kCCCommentToken input)
                kCCCommentToken eq_refl eq_refl) as (Ho & Hi & _ & _ & He & _).
    remember (apply_emission m0 _) as m1 eqn:E1. clear E1.
    rewrite Minify_unfold in Emf.
    replace (Minify_cond input m1) with false in Emf.
    2: { symmetry. unfold Minify_cond. apply andb_false_iff. left. apply Nat.ltb_ge.
         rewrite Hi, Hlen. simpl. lia. }
    subst mf. rewrite He, Ho. reflexivity.
  - destruct (apply_emission_skip m0
                (emit_skip (length body + 4) (space_after (whitespace_ m0)))
                eq_refl eq_refl) as (Ho & Hi & _ & _ & He & _).
    remember (apply_emission m0 _) as m1 eqn:E1. clear E1.
    rewrite Minify_unfold in Emf.
    replace (Minify_cond input m1) with false in Emf.
    2: { symmetry. unfold Minify_cond. apply andb_false_iff. left. apply Nat.ltb_ge.
         rewrite Hi, Hlen. simpl. lia. }
    subst mf. rewrite He, Ho. reflexivity.
Qed.

Lemma MinifyJs_block_comment_witness :
  MinifyJs true JsKeywords.CanKeywordPrecedeRegEx (str "/*@cc_on @*/") [] =
    (true, str "/*@cc_on @*/") /\
  MinifyJs true JsKeywords.CanKeywordPrecedeRegEx (str "/* a // b */") [] = (true, []).
Proof.
  split.
  - apply (MinifyJs_block_comment true JsKeywords.CanKeywordPrecedeRegEx (str "@cc_on @")).
    reflexivity.
  - apply (MinifyJs_block_comment true JsKeywords.CanKeywordPrecedeRegEx (str " a // b ")).
    reflexivity.
Defined.

(** ** Runs of the loop, token by token *)

Section Steps.

Variable char_is_signed : bool.
Variable CanKeywordPrecedeRegEx : bytes -> bool.
Variable input : bytes.

#[local] Abbreviation describe := (describe char_is_signed CanKeywordPrecedeRegEx).
#[local] Abbreviation Minify := (Minify char_is_signed CanKeywordPrecedeRegEx input).

(** The Minifier has [unread] left to read, is in the whitespace state [w]
    after the token [p], has raised no error, does not collapse strings and
    has written [o]. *)
#[local] Abbreviation state_is :=
  (fun (m : Minifier (O:=StringConsumer.t)) (unread : bytes) (w : Whitespace)
       (p : Z) (o : bytes) =>
     substr_from input (index_ m) = unread /\ whitespace_ m = w /\ prev_token_ m = p /\
     error_ m = false /\ collapse_string_ m = false /\
     StringConsumer.output_ (output_ m) = o).

Lemma Minify_cond_more (m : Minifier (O:=StringConsumer.t)) :
  error_ m = false -> substr_from input (index_ m) <> [] -> Minify_cond input m = true.
Proof.
  intros He Hu. unfold Minify_cond. rewrite He, andb_true_r. apply Nat.ltb_lt.
  destruct (Nat.lt_ge_cases (index_ m) (length input)) as [H|H]; [exact H|].
  exfalso. apply Hu. unfold substr_from. apply skipn_all2. exact H.
Qed.

Lemma step_token m unread w p o n sep tok s :
  state_is m unread w p o -> unread <> [] ->
  describe unread p w = emit_token n sep tok s ->
  exists m', Minify m = Minify m' /\
             state_is m' (skipn n unread) NO_WHITESPACE tok
                      (o ++ separator w sep p tok ++ s).
Proof.
  intros (Hu & Hw & Hp & He & Hc & Ho) Hne Hd.
  rewrite Minify_unfold, Minify_cond_more by (rewrite ?Hu; assumption).
  rewrite Minify_body_describe by exact Hc. rewrite Hu, Hp, Hw, Hd.
  destruct (apply_emission_token m (emit_token n sep tok s) tok eq_refl eq_refl)
    as (Ho1 & Hi1 & Hw1 & Hp1 & He1 & Hc1).
  exists (apply_emission m (emit_token n sep tok s)). split; [reflexivity|].
  cbn [consumed separated text emit_token] in Ho1, Hi1.
  rewrite Hi1, substr_from_unread, Hu, Ho1, Ho, Hw, Hp.
  repeat split; congruence.
Qed.

Lemma step_skip m unread w p o n w' :
  state_is m unread w p o -> unread <> [] ->
  describe unread p w = emit_skip n w' ->
  exists m', Minify m = Minify m' /\ state_is m' (skipn n unread) w' p o.
Proof.
  intros (Hu & Hw & Hp & He & Hc & Ho) Hne Hd.
  rewrite Minify_unfold, Minify_cond_more by (rewrite ?Hu; assumption).
  rewrite Minify_body_describe by exact Hc. rewrite Hu, Hp, Hw, Hd.
  destruct (apply_emission_skip m (emit_skip n w') eq_refl eq_refl)
    as (Ho1 & Hi1 & Hw1 & Hp1 & He1 & Hc1).
  exists (apply_emission m (emit_skip n w')). split; [reflexivity|].
  cbn [consumed whitespace_after emit_skip] in Hi1, Hw1.
  rewrite Hi1, substr_from_unread, Hu.
  repeat split; congruence.
Qed.

Lemma step_whitespace m ws rest w p o :
  state_is m (ws ++ rest) w p o -> forallb whitespace_byte ws = true ->
  exists m', Minify m = Minify m' /\ state_is m' rest (skip_whitespace ws w) p o.
Proof.
  intros (Hu & Hw & Hp & He & Hc & Ho) Hws.
  rewrite (Minify_skip_whitespace char_is_signed CanKeywordPrecedeRegEx input ws rest m
             He Hu Hws).
  eexists. split; [reflexivity|]. fields.
  rewrite substr_from_unread, Hu, skipn_app_length, Hw.
  repeat split; assumption.
Qed.

Lemma step_end m w p o :
  state_is m [] w p o ->
  negb (error_ (Minify m)) = true /\ StringConsumer.output_ (output_ (Minify m)) = o.
Proof.
  intros (Hu & Hw & Hp & He & Hc & Ho).
  rewrite Minify_unfold.
  replace (Minify_cond input m) with false; [rewrite He, Ho; auto|].
  symmetry. destruct (Minify_cond input m) eqn:E; [|reflexivity].
  apply Minify_cond_unread in E. congruence.
Qed.

Lemma state_init :
  state_is (init (StringConsumer.Build [])) input NO_WHITESPACE kStartToken [].
Proof. repeat split. Qed.

End Steps.

Section Shapes.

Variable char_is_signed : bool.
Variable CanKeywordPrecedeRegEx : bytes -> bool.

#[local] Abbreviation describe := (describe char_is_signed CanKeywordPrecedeRegEx).
#[local] Abbreviation code := (char_to_int char_is_signed).
#[local] Abbreviation identifier_byte := (fun c => IsIdentifierChar (code c)).
#[local] Abbreviation no_linebreak := (forallb (fun c => negb (linebreak_byte c))).
#[local] Abbreviation name_token :=
  (fun a => if CanKeywordPrecedeRegEx a then kKeywordCanPrecedeRegExToken
            else kNameNumberToken).

Lemma code_linebreak c :
  ((code c =? 10) || (code c =? 13))%Z = linebreak_byte c.
Proof.
  unfold linebreak_byte.
  rewrite (code_ascii char_is_signed c "010" 10), (code_ascii char_is_signed c "013" 13)
    by (vm_compute; reflexivity).
  reflexivity.
Qed.

Lemma code_blank c :
  ((code c =? 32) || (code c =? 9))%Z = Ascii.eqb c " "%char || Ascii.eqb c "009"%char.
Proof.
  rewrite (code_ascii char_is_signed c " " 32), (code_ascii char_is_signed c "009" 9)
    by (vm_compute; reflexivity).
  reflexivity.
Qed.

Lemma code_quote c :
  ((code c =? 39) || (code c =? 34) || (code c =? 96))%Z = quote_byte c.
Proof.
  unfold quote_byte.
  rewrite (code_ascii char_is_signed c "'" 39), (code_ascii char_is_signed c "034" 34),
    (code_ascii char_is_signed c "`" 96) by (vm_compute; reflexivity).
  reflexivity.
Qed.

Lemma whitespace_byte_false c :
  whitespace_byte c = false ->
  linebreak_byte c = false /\ Ascii.eqb c " "%char || Ascii.eqb c "009"%char = false.
Proof.
  unfold whitespace_byte. intros H.
  destruct (linebreak_byte c), (Ascii.eqb c " "), (Ascii.eqb c "009"); simpl in *;
    try discriminate; auto.
Qed.

(** The scan of a line comment stops at the first linebreak byte, or at the
    end of the input. *)
Lemma line_comment_loop_stops body rest i :
  no_linebreak body = true ->
  match rest with [] => true | c :: _ => linebreak_byte c end = true ->
  line_comment_loop char_is_signed (body ++ rest) i = i + length body.
Proof.
  intros Hb Hr. revert i. induction body as [|c body IH]; intros i; simpl in *.
  - rewrite Nat.add_0_r. destruct rest as [|c rest]; [reflexivity|].
    simpl. rewrite code_linebreak, Hr. reflexivity.
  - apply andb_true_iff in Hb as [Hc Hb]. apply negb_true_iff in Hc.
    rewrite code_linebreak, Hc, IH by exact Hb. lia.
Qed.

Lemma describe_line_comment body rest prev w :
  no_linebreak body = true ->
  match rest with [] => true | c :: _ => linebreak_byte c end = true ->
  describe ("/"%char :: "/"%char :: body ++ rest) prev w =
  emit_skip (S (S (length body))) LINEBREAK.
Proof.
  intros Hb Hr.
  assert (Hslash : code "/" = 47%Z) by (unfold char_to_int; destruct char_is_signed; reflexivity).
  unfold JsMinify.describe. cbv zeta. rewrite Hslash.
  replace ((47 =? 10) || (47 =? 13))%Z with false by reflexivity.
  replace ((47 =? 32) || (47 =? 9))%Z with false by reflexivity.
  replace ((47 =? 39) || (47 =? 34) || (47 =? 96))%Z with false by reflexivity.
  replace (47 =? 47)%Z with true by reflexivity.
  cbv iota. f_equal.
  cbn [line_comment_loop]. rewrite Hslash.
  replace ((47 =? 10) || (47 =? 13))%Z with false by reflexivity.
  cbv iota. rewrite (line_comment_loop_stops body rest 2 Hb Hr). lia.
Qed.

(** A byte that is whitespace or part of a name is none of '!', '+', '-'. *)
Lemma next_byte_plain rest z :
  match rest with [] => true | c' :: _ => whitespace_byte c' || identifier_byte c' end = true ->
  z = 33%Z \/ z = 43%Z \/ z = 45%Z ->
  (match rest with c' :: _ => code c' | [] => kEOF end =? z)%Z = false.
Proof.
  intros Hr Hz. destruct rest as [|c' rest].
  - destruct Hz as [->|[->| ->]]; reflexivity.
  - apply Z.eqb_neq. intros E. apply orb_true_iff in Hr as [Hr|Hr].
    + destruct (whitespace_byte_cases c' Hr) as [->|[->|[->| ->]]];
        unfold char_to_int in E; destruct char_is_signed; vm_compute in E;
        destruct Hz as [->|[->| ->]]; discriminate.
    + rewrite E in Hr. destruct Hz as [->|[->| ->]]; discriminate.
Qed.

Lemma starts_with_next c rest c1 c2 more :
  (match rest with c' :: _ => code c' | [] => kEOF end =? byte_code c2)%Z = false ->
  (byte_code c2 < 128)%Z ->
  starts_with (c :: rest) (c1 :: c2 :: more) = false.
Proof.
  intros H Hz. destruct rest as [|c' rest]; cbn [starts_with]; [apply andb_false_r|].
  rewrite char_to_int_eqb in H by exact Hz. rewrite H. apply andb_false_r.
Qed.

(** A byte that opens nothing (no whitespace, string, comment, regex or
    name) and stands before whitespace or a name is a token of its own. *)
Lemma describe_operator_after c rest prev w :
  whitespace_byte c = false -> quote_byte c = false ->
  Ascii.eqb c "/"%char = false -> identifier_byte c = false ->
  match rest with [] => true | c' :: _ => whitespace_byte c' || identifier_byte c' end = true ->
  describe (c :: rest) prev w =
  emit_token 1
    (((prev =? code c) && ((code c =? 43) || (code c =? 45))) ||
     ((prev =? kPlusPlusToken) && (code c =? 43)) ||
     ((prev =? kMinusMinusToken) && (code c =? 45)) ||
     ((prev =? 60) && (code c =? 33)) ||
     ((prev =? 33) && (code c =? 45)))%Z
    (code c) [c].
Proof.
  intros Hw Hq Hs Hi Hr.
  destruct (whitespace_byte_false c Hw) as [Hl Hb].
  unfold JsMinify.describe. cbv zeta.
  rewrite code_linebreak, Hl, code_blank, Hb, code_quote, Hq.
  rewrite (code_ascii char_is_signed c "/" 47), Hs, Hi by (vm_compute; reflexivity).
  cbv iota.
  replace (starts_with (c :: rest) (str "<!--")) with false.
  2: { symmetry. apply (starts_with_next c rest "<" "!" (str "--"));
       [apply (next_byte_plain rest 33); auto|vm_compute; reflexivity]. }
  replace (starts_with (c :: rest) (str "-->")) with false.
  2: { symmetry. apply (starts_with_next c rest "-" "-" (str ">"));
       [apply (next_byte_plain rest 45); auto|vm_compute; reflexivity]. }
  rewrite !andb_false_r.
  rewrite (next_byte_plain rest 43), (next_byte_plain rest 45) by auto.
  rewrite !andb_false_r. reflexivity.
Qed.

(** After a name it is emitted without a separating byte. *)
Lemma describe_operator c rest prev w :
  whitespace_byte c = false -> quote_byte c = false ->
  Ascii.eqb c "/"%char = false -> identifier_byte c = false ->
  match rest with [] => true | c' :: _ => whitespace_byte c' || identifier_byte c' end = true ->
  prev = kNameNumberToken \/ prev = kKeywordCanPrecedeRegExToken ->
  describe (c :: rest) prev w = emit_token 1 false (code c) [c].
Proof.
  intros Hw Hq Hs Hi Hr Hp.
  rewrite (describe_operator_after c rest prev w Hw Hq Hs Hi Hr). f_equal.
  pose proof (char_to_int_range char_is_signed c) as Hrange.
  assert (Hne : (prev =? code c)%Z = false)
    by (apply Z.eqb_neq; destruct Hp as [->| ->]; unfold kNameNumberToken,
          kKeywordCanPrecedeRegExToken; lia).
  rewrite Hne. destruct Hp as [->| ->]; reflexivity.
Qed.

#[local] Abbreviation regex_plain :=
  (forallb (fun c => negb (Ascii.eqb c "/"%char || Ascii.eqb c "\"%char ||
                           Ascii.eqb c "["%char || Ascii.eqb c "010"%char))).

(** The scan of a regex literal whose body holds no slash, backslash,
    opening bracket or newline ends behind the slash that follows the
    body. *)
Lemma regex_loop_plain body rest i :
  regex_plain body = true ->
  regex_loop char_is_signed (body ++ "/"%char :: rest) i false =
  LoopReturn (i + length body + 1).
Proof.
  intros Hb. revert i. induction body as [|c body IH]; intros i; simpl in *.
  - rewrite (code_ascii char_is_signed "/" "\" 92), (code_ascii char_is_signed "/" "/" 47)
      by (vm_compute; reflexivity).
    simpl. f_equal. lia.
  - apply andb_true_iff in Hb as [Hc Hb]. apply negb_true_iff in Hc.
    apply orb_false_iff in Hc as [Hc Hc4]. apply orb_false_iff in Hc as [Hc Hc3].
    apply orb_false_iff in Hc as [Hc1 Hc2].
    rewrite (code_ascii char_is_signed c "\" 92), Hc2,
      (code_ascii char_is_signed c "/" 47), Hc1,
      (code_ascii char_is_signed c "[" 91), Hc3,
      (code_ascii char_is_signed c "010" 10), Hc4 by (vm_compute; reflexivity).
    destruct (code c =? 93)%Z; rewrite IH by exact Hb; f_equal; lia.
Qed.

Lemma describe_regex c0 body rest prev w :
  regex_plain (c0 :: body) = true -> Ascii.eqb c0 "*"%char = false ->
  EndsPrimaryExpression prev = false ->
  describe ("/"%char :: c0 :: body ++ "/"%char :: rest) prev w =
  emit_token (S (S (S (length body)))) (prev =? 47)%Z kRegexToken
    ("/"%char :: c0 :: body ++ ["/"%char]).
Proof.
  intros Hb Hstar Hprev.
  assert (Hslash : code "/" = 47%Z) by (unfold char_to_int; destruct char_is_signed; reflexivity).
  pose proof (regex_loop_plain (c0 :: body) rest 1 Hb) as Hloop.
  simpl in Hb. apply andb_true_iff in Hb as [Hc _]. apply negb_true_iff in Hc.
  apply orb_false_iff in Hc as [Hc _]. apply orb_false_iff in Hc as [Hc _].
  apply orb_false_iff in Hc as [Hc _].
  unfold JsMinify.describe. cbv zeta. rewrite Hslash.
  replace ((47 =? 10) || (47 =? 13))%Z with false by reflexivity.
  replace ((47 =? 32) || (47 =? 9))%Z with false by reflexivity.
  replace ((47 =? 39) || (47 =? 34) || (47 =? 96))%Z with false by reflexivity.
  replace (47 =? 47)%Z with true by reflexivity.
  cbv iota.
  rewrite (code_ascii char_is_signed c0 "/" 47), Hc,
    (code_ascii char_is_signed c0 "*" 42), Hstar, Hprev by (vm_compute; reflexivity).
  change (c0 :: body ++ "/"%char :: rest) with ((c0 :: body) ++ "/"%char :: rest).
  rewrite Hloop.
  replace (1 + length (c0 :: body) + 1) with (S (S (S (length body)))) by (simpl; lia).
  f_equal. cbn [firstn app]. do 2 f_equal.
  rewrite firstn_app, firstn_all2 by lia.
  replace (S (length body) - length body) with 1 by lia. reflexivity.
Qed.

End Shapes.


Lemma can_follow_name_other char_is_signed c rest :
  IsIdentifierChar (char_to_int char_is_signed c) = false ->
  can_follow char_is_signed kNameNumberToken (c :: rest) = true.
Proof. intros H. unfold can_follow. cbv zeta. rewrite H. reflexivity. Qed.

Lemma name_token_separated (b : bool) :
  let t := if b then kKeywordCanPrecedeRegExToken else kNameNumberToken in
  ((t =? kNameNumberToken) || (t =? kKeywordCanPrecedeRegExToken) ||
   (t =? kRegexToken))%Z = true.
Proof. destruct b; reflexivity. Qed.

(** X24: a line comment after a name is dropped up to the linebreak that
    ends it, and the name that follows the linebreak is put on a line of its
    own; a line comment that runs to the end of the input is dropped. *)
Theorem MinifyJs_line_comment char_is_signed CanKeywordPrecedeRegEx a body nl b :
  a <> [] -> b <> [] ->
  forallb (fun c => IsIdentifierChar (char_to_int char_is_signed c)) a = true ->
  forallb (fun c => IsIdentifierChar (char_to_int char_is_signed c)) b = true ->
  forallb (fun c => negb (linebreak_byte c)) body = true ->
  linebreak_byte nl = true ->
  MinifyJs char_is_signed CanKeywordPrecedeRegEx
    (a ++ "/"%char :: "/"%char :: body ++ nl :: b) [] = (true, a ++ "010"%char :: b) /\
  MinifyJs char_is_signed CanKeywordPrecedeRegEx
    (a ++ "/"%char :: "/"%char :: body) [] = (true, a).
Proof.
  intros Ha0 Hb0 Ha Hb Hbody Hnl.
  assert (Hslash : IsIdentifierChar (char_to_int char_is_signed "/") = false)
    by (unfold char_to_int; destruct char_is_signed; reflexivity).
  split.
  - rewrite MinifyJs_eq.
    set (input := a ++ "/"%char :: "/"%char :: body ++ nl :: b).
    destruct (step_token char_is_signed CanKeywordPrecedeRegEx input _ _ _ _ _ _ _ _ _
                (state_init input) ltac:(unfold input; destruct a; [congruence|discriminate])
                (describe_name char_is_signed CanKeywordPrecedeRegEx a _ _ _ Ha0 Ha
                   (can_follow_name_other char_is_signed "/" _ Hslash)))
      as (m1 & E1 & S1).
    pose proof (skipn_app_length a ("/"%char :: "/"%char :: body ++ nl :: b)) as Hk.
    fold input in Hk. rewrite Hk in S1. cbn [separator app] in S1.
    destruct (step_skip char_is_signed CanKeywordPrecedeRegEx input _ _ _ _ _ _ _
                S1 ltac:(discriminate)
                (describe_line_comment char_is_signed CanKeywordPrecedeRegEx body (nl :: b)
                   _ _ Hbody Hnl))
      as (m2 & E2 & S2).
    change (skipn (S (S (length body))) ("/"%char :: "/"%char :: body ++ nl :: b))
      with (skipn (length body) (body ++ nl :: b)) in S2.
    rewrite skipn_app_length in S2.
    destruct (step_whitespace char_is_signed CanKeywordPrecedeRegEx input m2 [nl] b _ _ _ S2)
      as (m3 & E3 & S3).
    { simpl. unfold whitespace_byte. rewrite Hnl. reflexivity. }
    cbn [skip_whitespace] in S3. rewrite Hnl in S3.
    rewrite <- (app_nil_r b) in S3 at 1.
    destruct (step_token char_is_signed CanKeywordPrecedeRegEx input _ _ _ _ _ _ _ _ _
                S3 ltac:(rewrite app_nil_r; exact Hb0)
                (describe_name char_is_signed CanKeywordPrecedeRegEx b [] _ _ Hb0 Hb eq_refl))
      as (m4 & E4 & S4).
    rewrite skipn_app_length in S4.
    rewrite (name_token_separated (CanKeywordPrecedeRegEx a)) in S4.
    cbn [separator orb app] in S4.
    destruct (step_end char_is_signed CanKeywordPrecedeRegEx input m4 _ _ _ S4) as [He Ho].
    rewrite E1, E2, E3, E4, He, Ho. reflexivity.
  - rewrite MinifyJs_eq.
    set (input := a ++ "/"%char :: "/"%char :: body).
    destruct (step_token char_is_signed CanKeywordPrecedeRegEx input _ _ _ _ _ _ _ _ _
                (state_init input) ltac:(unfold input; destruct a; [congruence|discriminate])
                (describe_name char_is_signed CanKeywordPrecedeRegEx a _ _ _ Ha0 Ha
                   (can_follow_name_other char_is_signed "/" _ Hslash)))
      as (m1 & E1 & S1).
    pose proof (skipn_app_length a ("/"%char :: "/"%char :: body)) as Hk.
    fold input in Hk. rewrite Hk in S1. cbn [separator app] in S1.
    rewrite <- (app_nil_r body) in S1.
    destruct (step_skip char_is_signed CanKeywordPrecedeRegEx input _ _ _ _ _ _ _
                S1 ltac:(discriminate)
                (describe_line_comment char_is_signed CanKeywordPrecedeRegEx body []
                   _ _ Hbody eq_refl))
      as (m2 & E2 & S2).
    change (skipn (S (S (length body))) ("/"%char :: "/"%char :: body ++ []))
      with (skipn (length body) (body ++ [])) in S2.
    rewrite skipn_app_length in S2.
    destruct (step_end char_is_signed CanKeywordPrecedeRegEx input m2 _ _ _ S2) as [He Ho].
    rewrite E1, E2, He, Ho. reflexivity.
Qed.

Lemma MinifyJs_line_comment_witness :
  MinifyJs true JsKeywords.CanKeywordPrecedeRegEx (str "x// a /* b" ++ "010"%char :: str "y") []
    = (true, str "x" ++ "010"%char :: str "y") /\
  MinifyJs true JsKeywords.CanKeywordPrecedeRegEx (str "x// a /* b") [] = (true, str "x").
Proof.
  apply (MinifyJs_line_comment true JsKeywords.CanKeywordPrecedeRegEx
           (str "x") (str " a /* b") "010"%char (str "y"));
    solve [discriminate | reflexivity].
Defined.


Section Blanks.

#[local] Abbreviation blank_byte := (fun c => Ascii.eqb c " "%char || Ascii.eqb c "009"%char).

Lemma blank_whitespace ws :
  forallb blank_byte ws = true -> forallb whitespace_byte ws = true.
Proof.
  induction ws as [|c ws IH]; simpl; [reflexivity|].
  intros H. apply andb_true_iff in H as [Hc H]. rewrite (IH H), andb_true_r.
  unfold whitespace_byte. rewrite <- orb_assoc, Hc. apply orb_true_r.
Qed.

(** Spaces and tabs alone ask for no byte in front of a token that needs no
    separation. *)
Lemma separator_blank ws prev tok :
  forallb blank_byte ws = true ->
  separator (skip_whitespace ws NO_WHITESPACE) false prev tok = [].
Proof.
  assert (H : forall ws w, w <> LINEBREAK -> forallb blank_byte ws = true ->
                           skip_whitespace ws w <> LINEBREAK).
  { clear. induction ws as [|c ws IH]; intros w Hw Hb; simpl in *; [exact Hw|].
    apply andb_true_iff in Hb as [Hc Hb].
    assert (Hl : linebreak_byte c = false).
    { unfold linebreak_byte. apply orb_true_iff in Hc as [Hc|Hc];
        apply Ascii.eqb_eq in Hc; subst c; reflexivity. }
    rewrite Hl. apply IH; [|exact Hb]. destruct w; simpl; congruence. }
  intros Hb. specialize (H ws NO_WHITESPACE ltac:(discriminate) Hb).
  destruct (skip_whitespace ws NO_WHITESPACE); [reflexivity|reflexivity|congruence].
Qed.

Lemma skip_whitespace_blank ws :
  ws <> [] -> forallb blank_byte ws = true ->
  skip_whitespace ws NO_WHITESPACE = SPACE.
Proof.
  intros Hne Hb. rewrite (skip_whitespace_run ws Hne).
  replace (existsb linebreak_byte ws) with false; [reflexivity|].
  symmetry. clear Hne. induction ws as [|c ws IH]; simpl in *; [reflexivity|].
  apply andb_true_iff in Hb as [Hc Hb]. rewrite (IH Hb), orb_false_r.
  unfold linebreak_byte. apply orb_true_iff in Hc as [Hc|Hc];
    apply Ascii.eqb_eq in Hc; subst c; reflexivity.
Qed.

End Blanks.

(** X25: spaces and tabs around an operator or punctuation byte that stands
    between two names are dropped. *)
Theorem MinifyJs_operator char_is_signed CanKeywordPrecedeRegEx a ws1 c ws2 b :
  a <> [] -> b <> [] ->
  forallb (fun c => IsIdentifierChar (char_to_int char_is_signed c)) a = true ->
  forallb (fun c => IsIdentifierChar (char_to_int char_is_signed c)) b = true ->
  forallb (fun c => Ascii.eqb c " "%char || Ascii.eqb c "009"%char) ws1 = true ->
  forallb (fun c => Ascii.eqb c " "%char || Ascii.eqb c "009"%char) ws2 = true ->
  whitespace_byte c = false -> quote_byte c = false -> Ascii.eqb c "/"%char = false ->
  IsIdentifierChar (char_to_int char_is_signed c) = false ->
  MinifyJs char_is_signed CanKeywordPrecedeRegEx (a ++ ws1 ++ c :: ws2 ++ b) [] =
  (true, a ++ c :: b).
Proof.
  intros Ha0 Hb0 Ha Hb Hw1 Hw2 Hcw Hcq Hcs Hci.
  rewrite MinifyJs_eq.
  set (input := a ++ ws1 ++ c :: ws2 ++ b).
  assert (Hfollow : can_follow char_is_signed kNameNumberToken (ws1 ++ c :: ws2 ++ b) = true).
  { destruct ws1 as [|c1 ws1]; [exact (can_follow_name_other char_is_signed c _ Hci)|].
    apply can_follow_name_other. apply whitespace_not_identifier.
    apply blank_whitespace in Hw1. simpl in Hw1.
    apply andb_true_iff in Hw1 as [Hw1 _]. exact Hw1. }
  assert (Hnext : match ws2 ++ b with
                  | [] => true
                  | c' :: _ => whitespace_byte c' ||
                               IsIdentifierChar (char_to_int char_is_signed c')
                  end = true).
  { destruct ws2 as [|c2 ws2]; simpl.
    - destruct b as [|c' b]; [reflexivity|]. simpl in Hb.
      apply andb_true_iff in Hb as [Hb _]. rewrite Hb. apply orb_true_r.
    - apply blank_whitespace in Hw2. simpl in Hw2.
      apply andb_true_iff in Hw2 as [Hw2 _]. rewrite Hw2. reflexivity. }
  (* the first name *)
  destruct (step_token char_is_signed CanKeywordPrecedeRegEx input _ _ _ _ _ _ _ _ _
              (state_init input) ltac:(unfold input; destruct a; [congruence|discriminate])
              (describe_name char_is_signed CanKeywordPrecedeRegEx a _ _ _ Ha0 Ha Hfollow))
    as (m1 & E1 & S1).
  pose proof (skipn_app_length a (ws1 ++ c :: ws2 ++ b)) as Hk.
  fold input in Hk. rewrite Hk in S1. cbn [separator app] in S1. clear Hk.
  (* the blanks in front of the operator *)
  destruct (step_whitespace char_is_signed CanKeywordPrecedeRegEx input m1 ws1 _ _ _ _ S1
              (blank_whitespace ws1 Hw1))
    as (m2 & E2 & S2).
  (* the operator *)
  set (ta := if CanKeywordPrecedeRegEx a then kKeywordCanPrecedeRegExToken
             else kNameNumberToken) in *.
  assert (Hta : ta = kNameNumberToken \/ ta = kKeywordCanPrecedeRegExToken)
    by (unfold ta; destruct (CanKeywordPrecedeRegEx a); auto).
  destruct (step_token char_is_signed CanKeywordPrecedeRegEx input _ _ _ _ _ _ _ _ _
              S2 ltac:(discriminate)
              (describe_operator char_is_signed CanKeywordPrecedeRegEx c (ws2 ++ b) ta _
                 Hcw Hcq Hcs Hci Hnext Hta))
    as (m3 & E3 & S3).
  rewrite (separator_blank ws1 _ _ Hw1) in S3. cbn [skipn app] in S3.
  (* the blanks behind it *)
  destruct (step_whitespace char_is_signed CanKeywordPrecedeRegEx input m3 ws2 _ _ _ _ S3
              (blank_whitespace ws2 Hw2))
    as (m4 & E4 & S4).
  (* the second name *)
  rewrite <- (app_nil_r b) in S4 at 1.
  destruct (step_token char_is_signed CanKeywordPrecedeRegEx input _ _ _ _ _ _ _ _ _
              S4 ltac:(rewrite app_nil_r; exact Hb0)
              (describe_name char_is_signed CanKeywordPrecedeRegEx b [] _ _ Hb0 Hb eq_refl))
    as (m5 & E5 & S5).
  rewrite skipn_app_length in S5.
  pose proof (char_to_int_range char_is_signed c) as Hrange.
  replace ((char_to_int char_is_signed c =? kNameNumberToken) ||
           (char_to_int char_is_signed c =? kKeywordCanPrecedeRegExToken) ||
           (char_to_int char_is_signed c =? kRegexToken))%Z with false in S5.
  2: { symmetry. rewrite !orb_false_iff. repeat split; apply Z.eqb_neq;
       unfold kNameNumberToken, kKeywordCanPrecedeRegExToken, kRegexToken; lia. }
  rewrite (separator_blank ws2 _ _ Hw2) in S5. cbn [app] in S5.
  destruct (step_end char_is_signed CanKeywordPrecedeRegEx input m5 _ _ _ S5) as [He Ho].
  rewrite E1, E2, E3, E4, E5, He, Ho, <- app_assoc. reflexivity.
Qed.

Lemma MinifyJs_operator_witness :
  MinifyJs true JsKeywords.CanKeywordPrecedeRegEx (str "total  =  count") [] =
  (true, str "total=count").
Proof.
  apply (MinifyJs_operator true JsKeywords.CanKeywordPrecedeRegEx
           (str "total") (str "  ") "="%char (str "  ") (str "count"));
    solve [discriminate | reflexivity].
Defined.


(** X26: a regex literal at the start of the input whose body holds no
    slash, backslash, opening bracket or newline (and does not start with a
    star) is copied as it is, the whitespace inside it included. *)
Theorem MinifyJs_regex char_is_signed CanKeywordPrecedeRegEx c0 body :
  forallb (fun c => negb (Ascii.eqb c "/"%char || Ascii.eqb c "\"%char ||
                          Ascii.eqb c "["%char || Ascii.eqb c "010"%char))
          (c0 :: body) = true ->
  Ascii.eqb c0 "*"%char = false ->
  MinifyJs char_is_signed CanKeywordPrecedeRegEx
    ("/"%char :: c0 :: body ++ ["/"%char]) [] =
  (true, "/"%char :: c0 :: body ++ ["/"%char]).
Proof.
  intros Hb Hstar. rewrite MinifyJs_eq.
  set (input := "/"%char :: c0 :: body ++ ["/"%char]).
  destruct (step_token char_is_signed CanKeywordPrecedeRegEx input _ _ _ _ _ _ _ _ _
              (state_init input) ltac:(discriminate)
              (describe_regex char_is_signed CanKeywordPrecedeRegEx c0 body []
                 kStartToken _ Hb Hstar eq_refl))
    as (m1 & E1 & S1).
  replace (skipn (S (S (S (length body)))) input) with (@nil ascii) in S1.
  2: { symmetry. apply skipn_all2. unfold input. simpl. rewrite length_app. simpl. lia. }
  cbn [separator app] in S1.
  destruct (step_end char_is_signed CanKeywordPrecedeRegEx input m1 _ _ _ S1) as [He Ho].
  rewrite E1, He, Ho. reflexivity.
Qed.

Lemma MinifyJs_regex_witness :
  MinifyJs true JsKeywords.CanKeywordPrecedeRegEx (str "/a  b]+/") [] =
  (true, str "/a  b]+/").
Proof.
  apply (MinifyJs_regex true JsKeywords.CanKeywordPrecedeRegEx "a"%char (str "  b]+"));
    reflexivity.
Defined.


(** X27: two plus signs, or two minus signs, with spaces or tabs between
    them are not joined: one space is left between them, so that no ++ or --
    token appears that the input did not have. *)
Theorem MinifyJs_plus_plus char_is_signed CanKeywordPrecedeRegEx a s ws b :
  a <> [] -> b <> [] -> ws <> [] ->
  forallb (fun c => IsIdentifierChar (char_to_int char_is_signed c)) a = true ->
  forallb (fun c => IsIdentifierChar (char_to_int char_is_signed c)) b = true ->
  forallb (fun c => Ascii.eqb c " "%char || Ascii.eqb c "009"%char) ws = true ->
  s = "+"%char \/ s = "-"%char ->
  MinifyJs char_is_signed CanKeywordPrecedeRegEx (a ++ s :: ws ++ s :: b) [] =
  (true, a ++ s :: " "%char :: s :: b).
Proof.
  intros Ha0 Hb0 Hw0 Ha Hb Hw Hs.
  assert (Hsw : whitespace_byte s = false) by (destruct Hs as [->| ->]; reflexivity).
  assert (Hsq : quote_byte s = false) by (destruct Hs as [->| ->]; reflexivity).
  assert (Hss : Ascii.eqb s "/"%char = false) by (destruct Hs as [->| ->]; reflexivity).
  assert (Hsi : IsIdentifierChar (char_to_int char_is_signed s) = false)
    by (destruct Hs as [->| ->]; unfold char_to_int; destruct char_is_signed; reflexivity).
  assert (Hsign : ((char_to_int char_is_signed s =? 43) ||
                   (char_to_int char_is_signed s =? 45))%Z = true)
    by (destruct Hs as [->| ->]; unfold char_to_int; destruct char_is_signed; reflexivity).
  rewrite MinifyJs_eq.
  set (input := a ++ s :: ws ++ s :: b).
  set (ta := if CanKeywordPrecedeRegEx a then kKeywordCanPrecedeRegExToken
             else kNameNumberToken).
  assert (Hta : ta = kNameNumberToken \/ ta = kKeywordCanPrecedeRegExToken)
    by (unfold ta; destruct (CanKeywordPrecedeRegEx a); auto).
  assert (Hnext1 : match ws ++ s :: b with
                   | [] => true
                   | c' :: _ => whitespace_byte c' ||
                                IsIdentifierChar (char_to_int char_is_signed c')
                   end = true).
  { destruct ws as [|c1 ws]; [congruence|]. simpl.
    pose proof (blank_whitespace _ Hw) as Hw'. simpl in Hw'.
    apply andb_true_iff in Hw' as [Hw' _]. rewrite Hw'. reflexivity. }
  assert (Hnext2 : match b with
                   | [] => true
                   | c' :: _ => whitespace_byte c' ||
                                IsIdentifierChar (char_to_int char_is_signed c')
                   end = true).
  { destruct b as [|c' b]; [reflexivity|]. simpl in Hb.
    apply andb_true_iff in Hb as [Hb _]. rewrite Hb. apply orb_true_r. }
  (* the first name *)
  destruct (step_token char_is_signed CanKeywordPrecedeRegEx input _ _ _ _ _ _ _ _ _
              (state_init input) ltac:(unfold input; destruct a; [congruence|discriminate])
              (describe_name char_is_signed CanKeywordPrecedeRegEx a _ _ _ Ha0 Ha
                 (can_follow_name_other char_is_signed s _ Hsi)))
    as (m1 & E1 & S1).
  pose proof (skipn_app_length a (s :: ws ++ s :: b)) as Hk.
  fold input in Hk. rewrite Hk in S1. cbn [separator app] in S1. clear Hk.
  fold ta in S1.
  (* the first sign *)
  destruct (step_token char_is_signed CanKeywordPrecedeRegEx input _ _ _ _ _ _ _ _ _
              S1 ltac:(discriminate)
              (describe_operator char_is_signed CanKeywordPrecedeRegEx s (ws ++ s :: b) ta _
                 Hsw Hsq Hss Hsi Hnext1 Hta))
    as (m2 & E2 & S2).
  cbn [separator skipn app] in S2.
  (* the blanks *)
  destruct (step_whitespace char_is_signed CanKeywordPrecedeRegEx input m2 ws _ _ _ _ S2
              (blank_whitespace ws Hw))
    as (m3 & E3 & S3).
  rewrite (skip_whitespace_blank ws Hw0 Hw) in S3.
  (* the second sign *)
  destruct (step_token char_is_signed CanKeywordPrecedeRegEx input _ _ _ _ _ _ _ _ _
              S3 ltac:(discriminate)
              (describe_operator_after char_is_signed CanKeywordPrecedeRegEx s b _ _
                 Hsw Hsq Hss Hsi Hnext2))
    as (m4 & E4 & S4).
  rewrite Z.eqb_refl, Hsign in S4. cbn [andb orb separator app] in S4.
  change (skipn 1 (s :: b)) with b in S4.
  (* the second name *)
  rewrite <- (app_nil_r b) in S4 at 1.
  destruct (step_token char_is_signed CanKeywordPrecedeRegEx input _ _ _ _ _ _ _ _ _
              S4 ltac:(rewrite app_nil_r; exact Hb0)
              (describe_name char_is_signed CanKeywordPrecedeRegEx b [] _ _ Hb0 Hb eq_refl))
    as (m5 & E5 & S5).
  rewrite skipn_app_length in S5. cbn [separator app] in S5.
  destruct (step_end char_is_signed CanKeywordPrecedeRegEx input m5 _ _ _ S5) as [He Ho].
  rewrite E1, E2, E3, E4, E5, He, Ho, <- !app_assoc. reflexivity.
Qed.

Lemma MinifyJs_plus_plus_witness :
  MinifyJs true JsKeywords.CanKeywordPrecedeRegEx (str "a+  +b") [] = (true, str "a+ +b") /\
  MinifyJs true JsKeywords.CanKeywordPrecedeRegEx (str "a- -b") [] = (true, str "a- -b").
Proof.
  split.
  - apply (MinifyJs_plus_plus true JsKeywords.CanKeywordPrecedeRegEx
             (str "a") "+"%char (str "  ") (str "b"));
      solve [discriminate | reflexivity | auto].
  - apply (MinifyJs_plus_plus true JsKeywords.CanKeywordPrecedeRegEx
             (str "a") "-"%char (str " ") (str "b"));
      solve [discriminate | reflexivity | auto].
Defined.

End JsMinifyMore.

(** ** The resource collection and the redirect registry *)

Module ResourceCollectionMore.
Import ResourceCollection.
Import ResourceCollectionFacts.

(** ** Further properties of the collection *)

Section Adding.

Variable GetUriWithoutFragment : string -> option string.
Variable CanonicalizeUrl : string -> string.

#[local] Abbreviation url_canon_of := (url_canon_of GetUriWithoutFragment).
#[local] Abbreviation AddResource := (AddResource GetUriWithoutFragment).
#[local] Abbreviation GetResourceWithUrlOrNull := (GetResourceWithUrlOrNull GetUriWithoutFragment).
#[local] Abbreviation has_resource_with_url := (has_resource_with_url GetUriWithoutFragment).
#[local] Abbreviation IsValidResource := (IsValidResource GetUriWithoutFragment).
#[local] Abbreviation Built := (Built GetUriWithoutFragment CanonicalizeUrl).

Lemma AddResource_true c resource c' :
  AddResource c resource = (true, c') ->
  frozen_ c = false /\ IsValidResource c resource = true /\
  c' = mkCollection
         (resources_ c ++ [resource])
         (<[GetRequestUrl resource := resource]> (url_resource_map_ c))
         (<[GetHost resource :=
              ResourceSet_insert
                (default [] (host_resource_map_ c !! GetHost resource)) resource]>
            (host_resource_map_ c))
         (request_order_vector_ c) (primary_resource_url_ c) (frozen_ c)
         (resource_filter_ c) (redirect_registry_ c).
Proof.
  unfold ResourceCollection.AddResource, is_frozen.
  destruct (frozen_ c); [discriminate|].
  destruct (IsValidResource c resource); [|discriminate].
  simpl. intros [= <-]. auto.
Qed.

Lemma AddResource_false c resource c' :
  AddResource c resource = (false, c') -> c' = c.
Proof.
  unfold ResourceCollection.AddResource.
  destruct (is_frozen c); [congruence|].
  destruct (negb _); [congruence|discriminate].
Qed.

Lemma IsValidResource_true c resource :
  IsValidResource c resource = true ->
  GetRequestUrl resource <> "" /\
  has_resource_with_url c (GetRequestUrl resource) = false /\
  (0 < GetResponseStatusCode resource)%Z /\
  resource_filter_ c resource = true.
Proof.
  unfold ResourceCollection.IsValidResource.
  destruct (String.eqb_spec (GetRequestUrl resource) ""); [discriminate|].
  destruct (has_resource_with_url c _); [discriminate|].
  destruct (Z.leb_spec (GetResponseStatusCode resource) 0); [discriminate|].
  destruct (resource_filter_ c resource); [|discriminate]. auto.
Qed.

End Adding.

Section Lookup.

Variable GetUriWithoutFragment : string -> option string.

#[local] Abbreviation url_canon_of := (url_canon_of GetUriWithoutFragment).
#[local] Abbreviation AddResource := (AddResource GetUriWithoutFragment).
#[local] Abbreviation GetResourceWithUrlOrNull := (GetResourceWithUrlOrNull GetUriWithoutFragment).
#[local] Abbreviation has_resource_with_url := (has_resource_with_url GetUriWithoutFragment).

(** X10: after an accepted AddResource, a query finds the new resource when
    its URL without the fragment is the request URL of the resource, and
    finds what it found before otherwise. *)
Theorem AddResource_then_lookup c resource c' query :
  AddResource c resource = (true, c') ->
  GetResourceWithUrlOrNull c' query =
    (if String.eqb (url_canon_of query) (GetRequestUrl resource)
     then Some resource else GetResourceWithUrlOrNull c query) /\
  has_resource_with_url c' query =
    (String.eqb (url_canon_of query) (GetRequestUrl resource) ||
     has_resource_with_url c query).
Proof.
  intros H. apply AddResource_true in H as (_ & _ & ->).
  unfold ResourceCollection.GetResourceWithUrlOrNull,
    ResourceCollection.has_resource_with_url. simpl.
  destruct (String.eqb_spec (url_canon_of query) (GetRequestUrl resource)) as [E|E].
  - rewrite E, lookup_insert_eq. auto.
  - rewrite lookup_insert_ne by congruence. auto.
Qed.

(** X11: once a resource is accepted, every further resource whose request
    URL without its fragment is the request URL of the accepted one is
    refused as a duplicate, and the collection stays as it is. *)
Theorem AddResource_duplicate c resource c' duplicate :
  AddResource c resource = (true, c') ->
  url_canon_of (GetRequestUrl duplicate) = GetRequestUrl resource ->
  AddResource c' duplicate = (false, c').
Proof.
  intros H Hd.
  assert (Hh : has_resource_with_url c' (GetRequestUrl duplicate) = true).
  { apply AddResource_true in H as (_ & _ & ->).
    unfold ResourceCollection.has_resource_with_url. simpl.
    fold (url_canon_of (GetRequestUrl duplicate)).
    rewrite Hd, lookup_insert_eq. reflexivity. }
  unfold ResourceCollection.AddResource, ResourceCollection.IsValidResource.
  destruct (is_frozen c'); [reflexivity|].
  destruct (String.eqb _ ""); [reflexivity|].
  rewrite Hh. reflexivity.
Qed.

End Lookup.

Lemma AddResource_then_lookup_witness :
  let c := add_all [example_a] in
  AddResource GetUriWithoutFragment_model c example_b =
    (true, add_all [example_a; example_b]) /\
  GetResourceWithUrlOrNull GetUriWithoutFragment_model (add_all [example_a; example_b])
    "http://b/#x" = Some example_b.
Proof.
  intros c.
  assert (H : AddResource GetUriWithoutFragment_model c example_b =
              (true, add_all [example_a; example_b])) by (vm_compute; reflexivity).
  split; [exact H|].
  exact (proj1 (AddResource_then_lookup GetUriWithoutFragment_model c example_b _
                  "http://b/#x" H)).
Defined.

Lemma AddResource_duplicate_witness :
  let c := add_all [example_a] in
  let duplicate := example_resource 9 "http://b/#again" OTHER "" None in
  AddResource GetUriWithoutFragment_model c example_b =
    (true, add_all [example_a; example_b]) /\
  AddResource GetUriWithoutFragment_model (add_all [example_a; example_b]) duplicate =
    (false, add_all [example_a; example_b]).
Proof.
  intros c duplicate.
  assert (H : AddResource GetUriWithoutFragment_model c example_b =
              (true, add_all [example_a; example_b])) by (vm_compute; reflexivity).
  split; [exact H|].
  exact (AddResource_duplicate GetUriWithoutFragment_model c example_b _ duplicate H
           eq_refl).
Defined.

Section Invariants.

Variable GetUriWithoutFragment : string -> option string.
Variable CanonicalizeUrl : string -> string.

#[local] Abbreviation AddResource := (AddResource GetUriWithoutFragment).
#[local] Abbreviation SetPrimaryResourceUrl :=
  (SetPrimaryResourceUrl GetUriWithoutFragment CanonicalizeUrl).
#[local] Abbreviation has_resource_with_url := (has_resource_with_url GetUriWithoutFragment).
#[local] Abbreviation Built := (Built GetUriWithoutFragment CanonicalizeUrl).

Lemma SetPrimaryResourceUrl_fields c url :
  let c' := snd (SetPrimaryResourceUrl c url) in
  resources_ c' = resources_ c /\ url_resource_map_ c' = url_resource_map_ c /\
  host_resource_map_ c' = host_resource_map_ c /\
  request_order_vector_ c' = request_order_vector_ c /\
  frozen_ c' = frozen_ c /\ resource_filter_ c' = resource_filter_ c /\
  redirect_registry_ c' = redirect_registry_ c /\
  (primary_resource_url_ c' = primary_resource_url_ c \/
   has_resource_with_url c (primary_resource_url_ c') = true).
Proof.
  unfold ResourceCollection.SetPrimaryResourceUrl.
  destruct (is_frozen c); [simpl; repeat split; auto|].
  destruct (has_resource_with_url c (CanonicalizeUrl url)) eqn:E; simpl;
    repeat split; auto.
Qed.

Lemma AddResource_cases c resource :
  snd (AddResource c resource) = c \/ AddResource c resource = (true, snd (AddResource c resource)).
Proof.
  destruct (AddResource c resource) as [[|] c'] eqn:E; simpl; [auto|].
  left. exact (AddResource_false _ _ _ _ E).
Qed.

(** Before Freeze the collection is not frozen, its request-order view is
    empty and its registry is the new one. *)
Lemma Built_unfrozen c :
  Built c ->
  frozen_ c = false /\ request_order_vector_ c = [] /\
  redirect_registry_ c = new_RedirectRegistry.
Proof.
  induction 1 as [f|c r Hb IH|c url Hb IH]; [simpl; auto| |].
  - destruct (AddResource_cases c r) as [->|E]; [exact IH|].
    apply AddResource_true in E as (_ & _ & ->). simpl. exact IH.
  - destruct (SetPrimaryResourceUrl_fields c url) as (_ & _ & _ & -> & -> & _ & -> & _).
    exact IH.
Qed.

(** The URL map and the resource vector, by induction on how the collection
    was built. *)
Lemma Built_map_and_vector c :
  Built c ->
  (forall url r, url_resource_map_ c !! url = Some r ->
                 GetRequestUrl r = url /\ In r (resources_ c)) /\
  (forall r, In r (resources_ c) ->
             GetRequestUrl r <> "" /\ (0 < GetResponseStatusCode r)%Z /\
             resource_filter_ c r = true /\
             is_Some (url_resource_map_ c !! GetRequestUrl r)).
Proof.
  induction 1 as [f|c r Hb IH|c url Hb IH].
  - simpl. split; [intros url r H; rewrite lookup_empty in H; discriminate|].
    intros r [].
  - destruct (AddResource_cases c r) as [->|E]; [exact IH|].
    apply AddResource_true in E as (_ & Hv & ->). simpl.
    apply IsValidResource_true in Hv as (Hu & _ & Hs & Hf).
    destruct IH as [IH1 IH2]. split.
    + intros url r' H. rewrite in_app_iff.
      destruct (decide (GetRequestUrl r = url)) as [<-|Hne].
      * rewrite lookup_insert_eq in H. injection H as <-. simpl. auto.
      * rewrite lookup_insert_ne in H by exact Hne.
        destruct (IH1 _ _ H). auto.
    + intros r' Hin. apply in_app_iff in Hin as [Hin|[<-|[]]].
      * destruct (IH2 _ Hin) as (H1 & H2 & H3 & H4). repeat split; auto.
        destruct (decide (GetRequestUrl r = GetRequestUrl r')) as [E|Hne].
        -- rewrite E, lookup_insert_eq. eauto.
        -- rewrite lookup_insert_ne by exact Hne. exact H4.
      * repeat split; auto. rewrite lookup_insert_eq. eauto.
  - destruct (SetPrimaryResourceUrl_fields c url) as (-> & -> & _ & _ & _ & -> & _).
    exact IH.
Qed.

(** X12: in a collection that was only added to, the URL map and the
    resource vector agree: every entry of the map holds a resource of the
    vector under its request URL, and every resource of the vector passed
    the checks of IsValidResource and has its request URL as a key. *)
Theorem Built_url_resource_map c :
  Built c ->
  (forall url r, url_resource_map_ c !! url = Some r ->
                 GetRequestUrl r = url /\ In r (resources_ c)) /\
  (forall r, In r (resources_ c) ->
             GetRequestUrl r <> "" /\ (0 < GetResponseStatusCode r)%Z /\
             resource_filter_ c r = true /\
             is_Some (url_resource_map_ c !! GetRequestUrl r)).
Proof.
  exact (Built_map_and_vector c).
Qed.

End Invariants.

Lemma Built_add_all resources :
  Built GetUriWithoutFragment_model CanonicalizeUrl_model (add_all resources).
Proof.
  unfold add_all.
  assert (H : forall c, Built GetUriWithoutFragment_model CanonicalizeUrl_model c ->
            Built GetUriWithoutFragment_model CanonicalizeUrl_model
              (foldl (fun c r => snd (AddResource GetUriWithoutFragment_model c r))
                     c resources)).
  { induction resources as [|r rest IH]; intros c Hc; simpl; [exact Hc|].
    apply IH. constructor. exact Hc. }
  apply H. constructor.
Qed.

Lemma Built_url_resource_map_witness :
  Built GetUriWithoutFragment_model CanonicalizeUrl_model (add_all [example_a; example_b]) /\
  (url_resource_map_ (add_all [example_a; example_b]) !! "http://b/" = Some example_b ->
   GetRequestUrl example_b = "http://b/" /\
   In example_b (resources_ (add_all [example_a; example_b]))).
Proof.
  split; [apply Built_add_all|].
  exact (proj1 (Built_url_resource_map GetUriWithoutFragment_model CanonicalizeUrl_model
                  (add_all [example_a; example_b]) (Built_add_all _))
           "http://b/" example_b).
Defined.

Section Hosts.

Variable GetUriWithoutFragment : string -> option string.
Variable CanonicalizeUrl : string -> string.

#[local] Abbreviation AddResource := (AddResource GetUriWithoutFragment).
#[local] Abbreviation Built := (Built GetUriWithoutFragment CanonicalizeUrl).
#[local] Abbreviation by_url :=
  (fun a b : Resource => url_lt (GetRequestUrl a) (GetRequestUrl b)).

Lemma ResourceUrlLessThan_lt a b :
  ResourceUrlLessThan a b = true <-> url_lt (GetRequestUrl a) (GetRequestUrl b).
Proof.
  unfold ResourceUrlLessThan, String.ltb, url_lt.
  destruct (String.compare _ _); split; congruence.
Qed.

Lemma ResourceSet_insert_In s r x :
  In x (ResourceSet_insert s r) -> In x s \/ x = r.
Proof.
  induction s as [|y s IH]; simpl.
  - intros [<-|[]]. auto.
  - destruct (ResourceUrlLessThan r y); [simpl; intuition auto|].
    destruct (ResourceUrlLessThan y r); simpl; intuition auto.
Qed.

Lemma ResourceSet_insert_old s r x : In x s -> In x (ResourceSet_insert s r).
Proof.
  induction s as [|y s IH]; simpl; [tauto|].
  destruct (ResourceUrlLessThan r y); [simpl; intuition auto|].
  destruct (ResourceUrlLessThan y r); simpl; intuition auto.
Qed.

Lemma ResourceSet_insert_holds s r :
  exists x, In x (ResourceSet_insert s r) /\ GetRequestUrl x = GetRequestUrl r.
Proof.
  induction s as [|y s IH]; simpl.
  - exists r. auto.
  - destruct (ResourceUrlLessThan r y) eqn:E1; [exists r; simpl; auto|].
    destruct (ResourceUrlLessThan y r) eqn:E2.
    + destruct IH as (x & Hx & Hu). exists x. simpl. auto.
    + exists y. split; [simpl; auto|].
      unfold ResourceUrlLessThan, String.ltb in E1, E2.
      destruct (String.compare (GetRequestUrl r) (GetRequestUrl y)) eqn:C1;
        try discriminate.
      * apply String.compare_eq_iff in C1. congruence.
      * apply compare_Gt_lt in C1. unfold url_lt in C1. rewrite C1 in E2. discriminate.
Qed.

Lemma ResourceSet_insert_sorted s r :
  StronglySorted by_url s -> StronglySorted by_url (ResourceSet_insert s r).
Proof.
  induction 1 as [|y s Hs IH Hy]; simpl.
  - repeat constructor.
  - destruct (ResourceUrlLessThan r y) eqn:E1.
    + apply ResourceUrlLessThan_lt in E1. constructor; [constructor; assumption|].
      constructor; [exact E1|].
      eapply List.Forall_impl; [|exact Hy]. intros z Hz. simpl in *.
      eapply url_lt_trans; eassumption.
    + destruct (ResourceUrlLessThan y r) eqn:E2; [|constructor; assumption].
      apply ResourceUrlLessThan_lt in E2. constructor; [exact IH|].
      apply List.Forall_forall. intros z Hz.
      apply ResourceSet_insert_In in Hz as [Hz| ->]; [|exact E2].
      rewrite List.Forall_forall in Hy. auto.
Qed.

(** X13: in a collection that was only added to, the host map groups the
    resources by host: the set kept for a host is not empty, is in strictly
    ascending order of request URL, and holds resources of the vector with
    that host; and every resource of the vector has, in the set of its
    host, a resource with its request URL. *)
Theorem Built_host_resource_map c :
  Built c ->
  (forall host s, host_resource_map_ c !! host = Some s ->
     s <> [] /\ StronglySorted by_url s /\
     forall r, In r s -> GetHost r = host /\ In r (resources_ c)) /\
  (forall r, In r (resources_ c) ->
     exists s r', host_resource_map_ c !! GetHost r = Some s /\ In r' s /\
                  GetRequestUrl r' = GetRequestUrl r).
Proof.
  induction 1 as [f|c r Hb IH|c url Hb IH].
  - simpl. split; [intros host s H; rewrite lookup_empty in H; discriminate|].
    intros r [].
  - destruct (AddResource_cases GetUriWithoutFragment c r) as [->|E]; [exact IH|].
    apply AddResource_true in E as (_ & _ & ->). simpl.
    destruct IH as [IH1 IH2].
    assert (Hold : forall x, In x (default [] (host_resource_map_ c !! GetHost r)) ->
                     GetHost x = GetHost r /\ In x (resources_ c)).
    { intros x Hx. destruct (host_resource_map_ c !! GetHost r) as [s|] eqn:Es;
        [|destruct Hx]. destruct (IH1 _ _ Es) as (_ & _ & H). auto. }
    split.
    + intros host s H.
      destruct (decide (GetHost r = host)) as [<-|Hne].
      * rewrite lookup_insert_eq in H. injection H as <-. split; [|split].
        -- destruct (ResourceSet_insert_holds
                       (default [] (host_resource_map_ c !! GetHost r)) r) as (x & Hx & _).
           intros E. rewrite E in Hx. destruct Hx.
        -- apply ResourceSet_insert_sorted.
           destruct (host_resource_map_ c !! GetHost r) as [s|] eqn:Es; [|constructor].
           destruct (IH1 _ _ Es) as (_ & Hs & _). exact Hs.
        -- intros x Hx. rewrite in_app_iff.
           apply ResourceSet_insert_In in Hx as [Hx| ->]; [|simpl; auto].
           destruct (Hold x Hx). auto.
      * rewrite lookup_insert_ne in H by exact Hne.
        destruct (IH1 _ _ H) as (H1 & H2 & H3). split; [exact H1|]. split; [exact H2|].
        intros x Hx. rewrite in_app_iff. destruct (H3 x Hx). auto.
    + intros x Hx. apply in_app_iff in Hx as [Hx|[<-|[]]].
      * destruct (IH2 x Hx) as (s & x' & Hs & Hx' & Hu).
        destruct (decide (GetHost r = GetHost x)) as [E|Hne].
        -- rewrite <- E, lookup_insert_eq. eexists _, x'. split; [reflexivity|].
           split; [|exact Hu]. apply ResourceSet_insert_old.
           rewrite E, Hs. exact Hx'.
        -- rewrite lookup_insert_ne by exact Hne. eauto.
      * rewrite lookup_insert_eq.
        destruct (ResourceSet_insert_holds
                    (default [] (host_resource_map_ c !! GetHost r)) r) as (x & Hx & Hu).
        eauto.
  - destruct (SetPrimaryResourceUrl_fields GetUriWithoutFragment CanonicalizeUrl c url)
      as (-> & _ & -> & _).
    exact IH.
Qed.

End Hosts.

Lemma Built_host_resource_map_witness :
  Built GetUriWithoutFragment_model CanonicalizeUrl_model (add_all [example_b; example_a]) /\
  host_resource_map_ (add_all [example_b; example_a]) !! "www.example.com" =
    Some [example_a; example_b] /\
  StronglySorted (fun a b => url_lt (GetRequestUrl a) (GetRequestUrl b))
    [example_a; example_b].
Proof.
  assert (H : host_resource_map_ (add_all [example_b; example_a]) !! "www.example.com" =
              Some [example_a; example_b]) by (vm_compute; reflexivity).
  split; [apply Built_add_all|]. split; [exact H|].
  exact (proj1 (proj2 (proj1 (Built_host_resource_map GetUriWithoutFragment_model
                                 CanonicalizeUrl_model _ (Built_add_all _)) _ _ H))).
Defined.

Section RequestOrder.

Variable GetUriWithoutFragment : string -> option string.
Variable CanonicalizeUrl : string -> string.
Variable vector_growth : nat -> nat.

#[local] Abbreviation Built := (Built GetUriWithoutFragment CanonicalizeUrl).
#[local] Abbreviation Freeze := (Freeze GetUriWithoutFragment vector_growth).
#[local] Abbreviation not_before :=
  (fun a b : Resource => IsRequestStartTimeLessThan b a = false).
#[local] Abbreviation started_at :=
  (fun (t : Z) (r : Resource) => bool_decide (request_start_time_millis r = Some t)).

Lemma stable_insert_Permutation x v : Permutation (x :: v) (stable_insert x v).
Proof.
  induction v as [|y v IH]; simpl; [reflexivity|].
  destruct (IsRequestStartTimeLessThan y x); [|reflexivity].
  rewrite perm_swap. constructor. exact IH.
Qed.

Lemma stable_sort_Permutation v : Permutation v (stable_sort v).
Proof.
  induction v as [|x v IH]; simpl; [constructor|].
  rewrite <- stable_insert_Permutation. constructor. exact IH.
Qed.

Lemma stable_insert_In x v z : In z (stable_insert x v) <-> z = x \/ In z v.
Proof.
  split; intros H.
  - apply (Permutation_in _ (Permutation_sym (stable_insert_Permutation x v))) in H.
    destruct H; auto.
  - apply (Permutation_in _ (stable_insert_Permutation x v)). destruct H; simpl; auto.
Qed.

Lemma stable_insert_sorted x v :
  has_request_start_time_millis x = true ->
  forallb has_request_start_time_millis v = true ->
  StronglySorted not_before v -> StronglySorted not_before (stable_insert x v).
Proof.
  intros Hx Hv Hs. induction Hs as [|y v Hs IH Hy]; simpl.
  - repeat constructor.
  - simpl in Hv. apply andb_true_iff in Hv as [Hy0 Hv].
    unfold has_request_start_time_millis in Hx, Hy0.
    destruct (IsRequestStartTimeLessThan y x) eqn:E.
    + constructor; [exact (IH Hv)|].
      apply List.Forall_forall. intros z Hz. apply stable_insert_In in Hz as [->|Hz].
      * unfold IsRequestStartTimeLessThan in *.
        destruct (request_start_time_millis x), (request_start_time_millis y);
          try discriminate. apply Z.ltb_lt in E. apply Z.ltb_ge. lia.
      * rewrite List.Forall_forall in Hy. auto.
    + constructor; [constructor; assumption|].
      constructor; [exact E|].
      apply List.Forall_forall. intros z Hz.
      rewrite List.Forall_forall in Hy. specialize (Hy z Hz).
      rewrite forallb_forall in Hv. specialize (Hv z Hz).
      unfold IsRequestStartTimeLessThan, has_request_start_time_millis in *.
      destruct (request_start_time_millis x), (request_start_time_millis y),
        (request_start_time_millis z); try discriminate.
      apply Z.ltb_ge in E, Hy. apply Z.ltb_ge. lia.
Qed.

Lemma stable_sort_forallb (f : Resource -> bool) v :
  forallb f (stable_sort v) = forallb f v.
Proof.
  apply eq_true_iff_eq. rewrite !forallb_forall. split; intros H x Hx; apply H.
  - apply (Permutation_in _ (stable_sort_Permutation v)). exact Hx.
  - apply (Permutation_in _ (Permutation_sym (stable_sort_Permutation v))). exact Hx.
Qed.

Lemma stable_sort_sorted v :
  forallb has_request_start_time_millis v = true ->
  StronglySorted not_before (stable_sort v).
Proof.
  induction v as [|x v IH]; simpl; [constructor|].
  intros H. apply andb_true_iff in H as [Hx Hv].
  apply stable_insert_sorted; [exact Hx| |exact (IH Hv)].
  rewrite stable_sort_forallb. exact Hv.
Qed.

Lemma stable_insert_filter t x v :
  List.filter (started_at t) (stable_insert x v) =
  List.filter (started_at t) (x :: v).
Proof.
  induction v as [|y v IH]; simpl in *; [reflexivity|].
  destruct (IsRequestStartTimeLessThan y x) eqn:E; [|reflexivity].
  simpl. rewrite IH.
  unfold IsRequestStartTimeLessThan in E.
  destruct (request_start_time_millis x) as [tx|] eqn:Ex,
           (request_start_time_millis y) as [ty|] eqn:Ey; try discriminate.
  apply Z.ltb_lt in E.
  destruct (bool_decide_reflect (Some ty = Some t)) as [Hy|Hy],
           (bool_decide_reflect (Some tx = Some t)) as [Hx|Hx];
    try reflexivity.
  injection Hy as ->. injection Hx as ->. lia.
Qed.

Lemma stable_sort_filter t v :
  List.filter (started_at t) (stable_sort v) = List.filter (started_at t) v.
Proof.
  induction v as [|x v IH]; simpl; [reflexivity|].
  rewrite stable_insert_filter. simpl. rewrite IH. reflexivity.
Qed.

(** X14: Freeze of a collection that was only added to.  When every
    resource has a request start time (and there is a resource), the
    request-order view is the resource vector rearranged so that no resource
    starts before one in front of it, resources with the same start time
    keeping the order in which they were added.  When some resource has no
    start time, or there is no resource, there is no view. *)
Theorem Freeze_request_order c :
  Built c ->
  let frozen := snd (Freeze c) in
  (forallb has_request_start_time_millis (resources_ c) = true -> resources_ c <> [] ->
   exists view,
     GetResourcesInRequestOrder frozen = Some view /\
     Permutation (resources_ c) view /\
     StronglySorted not_before view /\
     forall t, List.filter (started_at t) view = List.filter (started_at t) (resources_ c)) /\
  (forallb has_request_start_time_millis (resources_ c) = false \/ resources_ c = [] ->
   GetResourcesInRequestOrder frozen = None).
Proof.
  intros Hb. destruct (Built_unfrozen _ _ c Hb) as (_ & Hv & _).
  unfold ResourceCollection.Freeze, GetResourcesInRequestOrder. simpl. split.
  - intros Hall Hne. rewrite Hall. exists (stable_sort (resources_ c)).
    split; [|split; [apply stable_sort_Permutation|split;
                     [apply stable_sort_sorted; exact Hall|intros t; apply stable_sort_filter]]].
    destruct (stable_sort (resources_ c)) eqn:E; [|reflexivity].
    pose proof (stable_sort_Permutation (resources_ c)) as Hp. rewrite E in Hp.
    apply Permutation_sym, Permutation_nil in Hp. congruence.
  - intros [Hnot| Hnil].
    + rewrite Hnot, Hv. reflexivity.
    + rewrite Hnil. reflexivity.
Qed.

End RequestOrder.

Lemma Freeze_request_order_witness :
  let c := add_all [example_c; example_a; example_p; example_b] in
  Built GetUriWithoutFragment_model CanonicalizeUrl_model c /\
  forallb has_request_start_time_millis (resources_ c) = true /\
  resources_ c <> [] /\
  GetResourcesInRequestOrder (snd (Freeze GetUriWithoutFragment_model vector_growth_model c)) =
    Some [example_p; example_a; example_b; example_c] /\
  exists view,
    GetResourcesInRequestOrder
      (snd (Freeze GetUriWithoutFragment_model vector_growth_model c)) = Some view /\
    Permutation (resources_ c) view.
Proof.
  intros c.
  assert (H1 : forallb has_request_start_time_millis (resources_ c) = true) by reflexivity.
  assert (H2 : resources_ c <> []) by discriminate.
  split; [apply Built_add_all|]. split; [exact H1|]. split; [exact H2|].
  split; [vm_compute; reflexivity|].
  destruct (proj1 (Freeze_request_order GetUriWithoutFragment_model CanonicalizeUrl_model
             vector_growth_model
                     c (Built_add_all _)) H1 H2) as (view & Hv & Hp & _).
  exists view. split; assumption.
Defined.

Section Primary.

Variable GetUriWithoutFragment : string -> option string.
Variable CanonicalizeUrl : string -> string.

#[local] Abbreviation url_canon_of := (url_canon_of GetUriWithoutFragment).
#[local] Abbreviation Built := (Built GetUriWithoutFragment CanonicalizeUrl).
#[local] Abbreviation SetPrimaryResourceUrl :=
  (SetPrimaryResourceUrl GetUriWithoutFragment CanonicalizeUrl).
#[local] Abbreviation GetPrimaryResourceOrNull :=
  (GetPrimaryResourceOrNull GetUriWithoutFragment).

(** X15: when stripping the fragment of a URL that has none changes
    nothing, a primary resource URL that SetPrimaryResourceUrl accepted is
    found again: GetPrimaryResourceOrNull gives the resource whose request
    URL is the canonical URL without its fragment. *)
Theorem SetPrimaryResourceUrl_then_get c url c' :
  Built c ->
  (forall u, url_canon_of (url_canon_of u) = url_canon_of u) ->
  SetPrimaryResourceUrl c url = (true, c') ->
  exists r, GetPrimaryResourceOrNull c' = Some r /\
            GetRequestUrl r = url_canon_of (CanonicalizeUrl url) /\
            In r (resources_ c').
Proof.
  intros Hb Hidem. unfold ResourceCollection.SetPrimaryResourceUrl.
  destruct (is_frozen c); [discriminate|].
  destruct (has_resource_with_url _ c (CanonicalizeUrl url)) eqn:Hh; [|discriminate].
  simpl. intros [= <-].
  unfold has_resource_with_url in Hh.
  destruct (url_resource_map_ c !! url_canon_of (CanonicalizeUrl url)) as [r|] eqn:Hr;
    [|discriminate].
  destruct (Built_map_and_vector _ _ c Hb) as [H1 H2].
  destruct (H1 _ _ Hr) as [Hu Hin]. destruct (H2 _ Hin) as (Hne & _).
  exists r. unfold ResourceCollection.GetPrimaryResourceOrNull, GetResourceWithUrlOrNull.
  simpl. rewrite <- Hu.
  destruct (String.eqb_spec (GetRequestUrl r) ""); [congruence|].
  rewrite Hu, Hidem, Hr. auto.
Qed.

End Primary.

Lemma strip_fragment_idempotent url :
  strip_fragment (strip_fragment url) = strip_fragment url.
Proof.
  induction url as [|c url IH]; simpl; [reflexivity|].
  destruct (Ascii.eqb c "#") eqn:E; [reflexivity|]. simpl. rewrite E, IH. reflexivity.
Qed.

Lemma SetPrimaryResourceUrl_then_get_witness :
  let c := add_all [example_a; example_b] in
  SetPrimaryResourceUrl GetUriWithoutFragment_model CanonicalizeUrl_model c "http://b/#top" =
    (true, mkCollection (resources_ c) (url_resource_map_ c) (host_resource_map_ c)
             (request_order_vector_ c) "http://b/#top" (frozen_ c) (resource_filter_ c)
             (redirect_registry_ c)) /\
  exists r, GetPrimaryResourceOrNull GetUriWithoutFragment_model
              (snd (SetPrimaryResourceUrl GetUriWithoutFragment_model CanonicalizeUrl_model
                      c "http://b/#top")) = Some r /\
            GetRequestUrl r = "http://b/".
Proof.
  intros c.
  assert (H : SetPrimaryResourceUrl GetUriWithoutFragment_model CanonicalizeUrl_model c
                "http://b/#top" =
              (true, mkCollection (resources_ c) (url_resource_map_ c) (host_resource_map_ c)
                       (request_order_vector_ c) "http://b/#top" (frozen_ c)
                       (resource_filter_ c) (redirect_registry_ c)))
    by reflexivity.
  split; [exact H|].
  destruct (SetPrimaryResourceUrl_then_get GetUriWithoutFragment_model CanonicalizeUrl_model
              c "http://b/#top" _ (Built_add_all _)
              (fun u => strip_fragment_idempotent u) H) as (r & Hr & Hu & _).
  exists r. rewrite H. split; [exact Hr|exact Hu].
Defined.

(** ** Further properties of the registry *)

Section ChainMap.

Variable GetUriWithoutFragment : string -> option string.
Variable vector_growth : nat -> nat.

#[local] Abbreviation BuildRedirectChains :=
  (BuildRedirectChains GetUriWithoutFragment vector_growth).
#[local] Abbreviation held :=
  (fun (a : nat) (chain : RedirectChain) => exists r, In r chain /\ address r = a).

Lemma map_chain_resources_lookup chain p m a :
  (held a chain -> map_chain_resources chain p m !! a = Some p) /\
  (~ held a chain -> map_chain_resources chain p m !! a = m !! a).
Proof.
  unfold map_chain_resources. revert m.
  induction chain as [|r chain IH] using rev_ind; intros m.
  - simpl. split; [intros (r & [] & _)|auto].
  - rewrite foldl_app. simpl. destruct (decide (address r = a)) as [E|Hne].
    + rewrite E, lookup_insert_eq. split; [auto|].
      intros Hn. exfalso. apply Hn. exists r. rewrite in_app_iff. simpl. auto.
    + rewrite lookup_insert_ne by exact Hne. destruct (IH m) as [IH1 IH2]. split.
      * intros (r' & Hin & Ha). apply IH1. apply in_app_iff in Hin as [Hin|[<-|[]]];
          [eauto|congruence].
      * intros Hn. apply IH2. intros (r' & Hin & Ha). apply Hn.
        exists r'. rewrite in_app_iff. auto.
Qed.

Lemma map_chains_lookup chains p m a :
  match map_chains chains p m !! a with
  | Some q =>
      (m !! a = Some q /\ forall chain, In chain chains -> ~ held a chain) \/
      (exists i chain, q = p + i /\ chains !! i = Some chain /\ held a chain /\
         forall j chain', i < j -> chains !! j = Some chain' -> ~ held a chain')
  | None => m !! a = None /\ forall chain, In chain chains -> ~ held a chain
  end.
Proof.
  revert p m. induction chains as [|chain chains IH]; intros p m; simpl.
  - destruct (m !! a); [left|]; split; auto.
  - specialize (IH (S p) (map_chain_resources chain p m)).
    unfold RedirectChainPtr in *.
    destruct (map_chain_resources_lookup chain p m a) as [Hin Hout].
    assert (Hdec : held a chain \/ ~ held a chain).
    { destruct (existsb (fun r => address r =? a) chain) eqn:E.
      - left. apply existsb_exists in E as (r & Hr & Ha). apply Nat.eqb_eq in Ha. eauto.
      - right. intros (r & Hr & Ha).
        assert (existsb (fun r => address r =? a) chain = true); [|congruence].
        apply existsb_exists. exists r. split; [exact Hr|apply Nat.eqb_eq; exact Ha]. }
    match goal with |- match ?x with _ => _ end => remember x as o eqn:Eo end.
    match type of IH with
    | match ?y with _ => _ end => change y with o in IH
    end.
    clear Eo. destruct o as [q|].
    + destruct IH as [[Hq Hno]|(i & chain' & -> & Hi & Hh & Hlast)].
      * destruct Hdec as [Hh|Hn].
        -- right. exists 0, chain. specialize (Hin Hh).
           pose proof (eq_trans (eq_sym Hin) Hq) as E. injection E as <-.
           split; [lia|]. split; [reflexivity|]. split; [exact Hh|].
           intros [|j] chain' Hj Hc; [lia|]. simpl in Hc.
           apply Hno. eapply list_elem_of_In, list_elem_of_lookup_2. exact Hc.
        -- left. specialize (Hout Hn). split; [exact (eq_trans (eq_sym Hout) Hq)|].
           intros chain' [<-|Hc]; auto.
      * right. exists (S i), chain'. split; [lia|]. split; [exact Hi|]. split; [exact Hh|].
        intros [|j] chain'' Hj Hc; [lia|]. simpl in Hc. apply (Hlast j); [lia|exact Hc].
    + destruct IH as [Hq Hno]. destruct Hdec as [Hh|Hn].
      * specialize (Hin Hh). pose proof (eq_trans (eq_sym Hin) Hq). discriminate.
      * specialize (Hout Hn). split; [exact (eq_trans (eq_sym Hout) Hq)|].
        intros chain' [<-|Hc]; auto.
Qed.

(** X16: the map that BuildRedirectChains fills in a new registry takes a
    resource to the last chain of the vector that holds it, and has no entry
    for a resource that no chain holds: GetRedirectChainOrNull answers
    accordingly. *)
Theorem BuildRedirectChains_map resource_collection resource :
  let registry := BuildRedirectChains new_RedirectRegistry resource_collection in
  match GetRedirectChainOrNull registry (Some resource) with
  | Some p =>
      exists chain,
        deref_chain registry p = Some chain /\ held (address resource) chain /\
        forall q chain', p < q -> deref_chain registry q = Some chain' ->
                         ~ held (address resource) chain'
  | None =>
      forall chain, In chain (GetRedirectChains registry) ->
                    ~ held (address resource) chain
  end.
Proof.
  unfold ResourceCollection.BuildRedirectChains.
  destruct (AppendRedirectChainResults _ _ _) as [g chains].
  destruct (push_backs_storage _ _ _ _ _) as [data capacity].
  unfold GetRedirectChainOrNull, deref_chain, GetRedirectChains. simpl.
  pose proof (map_chains_lookup chains data ∅ (address resource)) as H.
  destruct (map_chains chains data ∅ !! address resource) as [p|].
  - destruct H as [[H _]|(i & chain & -> & Hi & Hh & Hlast)].
    + rewrite lookup_empty in H. discriminate.
    + exists chain. split; [|split; [exact Hh|]].
      * rewrite (proj2 (Nat.leb_le data (data + i))) by lia.
        replace (data + i - data) with i by lia. exact Hi.
      * intros q chain' Hq Hd.
        destruct (Nat.leb_spec data q) as [Hle|Hlt]; [|discriminate].
        apply (Hlast (q - data)); [lia|exact Hd].
  - destruct H as [_ H]. exact H.
Qed.

End ChainMap.


Section Chains.

Variable GetUriWithoutFragment : string -> option string.
Variable CanonicalizeUrl : string -> string.
Variable vector_growth : nat -> nat.

#[local] Abbreviation GetResourceWithUrlOrNull :=
  (GetResourceWithUrlOrNull GetUriWithoutFragment).
#[local] Abbreviation PopulateRedirectChainResult_loop :=
  (PopulateRedirectChainResult_loop GetUriWithoutFragment).
#[local] Abbreviation PopulateRedirectChainResult :=
  (PopulateRedirectChainResult GetUriWithoutFragment).
#[local] Abbreviation AppendRedirectChainResults_loop :=
  (AppendRedirectChainResults_loop GetUriWithoutFragment).
#[local] Abbreviation BuildRedirectChains :=
  (BuildRedirectChains GetUriWithoutFragment vector_growth).
#[local] Abbreviation Built := (Built GetUriWithoutFragment CanonicalizeUrl).
#[local] Abbreviation Freeze := (Freeze GetUriWithoutFragment vector_growth).

(** The traversal: the collection is kept, URLs are only added to the
    processed set, the chain is only appended to, what is appended was found
    in the collection, and the resource of every URL that is newly processed
    was appended. *)
Lemma PopulateRedirectChainResult_loop_inv fuel g work_stack chain g' chain' :
  PopulateRedirectChainResult_loop fuel g work_stack chain = (g', chain') ->
  resource_collection_ g' = resource_collection_ g /\
  processed_ g ⊆ processed_ g' /\
  exists more,
    chain' = chain ++ more /\
    (forall r, In r more ->
               exists url, GetResourceWithUrlOrNull (resource_collection_ g) url = Some r) /\
    (forall url, url ∈ processed_ g' -> url ∉ processed_ g ->
                 exists r, GetResourceWithUrlOrNull (resource_collection_ g) url = Some r /\
                           In r more).
Proof.
  revert g work_stack chain.
  induction fuel as [|fuel IH]; intros g work_stack chain H; simpl in H.
  { injection H as <- <-. split; [reflexivity|]. split; [reflexivity|].
    exists []. rewrite app_nil_r. split; [reflexivity|].
    split; [intros r []|intros url H1 H2; contradiction]. }
  destruct work_stack as [|current work_stack].
  { injection H as <- <-. split; [reflexivity|]. split; [reflexivity|].
    exists []. rewrite app_nil_r. split; [reflexivity|].
    split; [intros r []|intros url H1 H2; contradiction]. }
  destruct (GetResourceWithUrlOrNull (resource_collection_ g) current) as [resource|] eqn:Er;
    [|exact (IH _ _ _ H)].
  destruct (bool_decide_reflect (current ∈ processed_ g)) as [Hp|Hp].
  - apply IH in H as (Hc & Hs & more & -> & Hm & Hn).
    split; [exact Hc|]. split; [exact Hs|].
    exists (resource :: more). rewrite <- app_assoc. split; [reflexivity|]. split.
    + intros r [<-|Hr]; eauto.
    + intros url H1 H2. destruct (Hn url H1 H2) as (r & Hr & Hin).
      exists r. simpl. auto.
  - destruct (RedirectMap_subscript (redirect_map_ g) current) as [m targets].
    apply IH in H as (Hc & Hs & more & -> & Hm & Hn). simpl in Hc, Hs, Hm, Hn.
    split; [exact Hc|]. split; [set_solver|].
    exists (resource :: more). rewrite <- app_assoc. split; [reflexivity|]. split.
    + intros r [<-|Hr]; eauto.
    + intros url H1 H2. destruct (decide (url = current)) as [->|Hne].
      * exists resource. simpl. auto.
      * destruct (Hn url H1) as (r & Hr & Hin); [set_solver|].
        exists r. simpl. auto.
Qed.

(** One traversal from a root that is not processed yet: the chain is empty
    when the collection has no resource for the root, and starts with that
    resource otherwise, the root being processed then. *)
Lemma PopulateRedirectChainResult_head g root g' chain' :
  PopulateRedirectChainResult g root [] = (g', chain') ->
  match GetResourceWithUrlOrNull (resource_collection_ g) root with
  | None => chain' = [] /\ g' = g
  | Some r => (exists rest, chain' = r :: rest) /\ root ∈ processed_ g'
  end.
Proof.
  unfold ResourceCollection.PopulateRedirectChainResult. simpl.
  destruct (GetResourceWithUrlOrNull (resource_collection_ g) root) as [r|].
  - destruct (bool_decide_reflect (root ∈ processed_ g)) as [Hp|Hp]; intros H.
    + apply PopulateRedirectChainResult_loop_inv in H as (_ & Hs & more & -> & _).
      split; [exists more; reflexivity|]. set_solver.
    + destruct (RedirectMap_subscript (redirect_map_ g) root) as [m targets].
      apply PopulateRedirectChainResult_loop_inv in H as (_ & Hs & more & -> & _).
      simpl in Hs. split; [exists more; reflexivity|]. set_solver.
  - intros H. destruct (RedirectMap_edges (redirect_map_ g)); simpl in H;
      injection H as <- <-; auto.
Qed.

(** All the traversals. *)
Lemma AppendRedirectChainResults_loop_inv g roots chains g' chains' :
  AppendRedirectChainResults_loop g roots chains = (g', chains') ->
  resource_collection_ g' = resource_collection_ g /\
  processed_ g ⊆ processed_ g' /\
  exists new,
    chains' = chains ++ new /\
    (forall chain r, In chain new -> In r chain ->
       exists url, GetResourceWithUrlOrNull (resource_collection_ g) url = Some r) /\
    (forall chain, In chain new ->
       chain = [] \/
       exists root r rest, In root roots /\ chain = r :: rest /\
         GetResourceWithUrlOrNull (resource_collection_ g) root = Some r) /\
    (forall url, url ∈ processed_ g' -> url ∉ processed_ g ->
       exists r chain, GetResourceWithUrlOrNull (resource_collection_ g) url = Some r /\
                       In chain new /\ In r chain) /\
    (forall root r, In root roots ->
       GetResourceWithUrlOrNull (resource_collection_ g) root = Some r ->
       root ∈ processed_ g').
Proof.
  revert g chains. induction roots as [|root roots IH]; intros g chains H; simpl in H.
  { injection H as <- <-. split; [reflexivity|]. split; [reflexivity|].
    exists []. rewrite app_nil_r. split; [reflexivity|].
    split; [intros chain r []|]. split; [intros chain []|].
    split; [intros url H1 H2; contradiction|intros root r []]. }
  destruct (bool_decide_reflect (root ∈ processed_ g)) as [Hp|Hp].
  - apply IH in H as (Hc & Hs & new & -> & Hm & Hh & Hn & Hr).
    split; [exact Hc|]. split; [exact Hs|]. exists new. split; [reflexivity|].
    split; [exact Hm|]. split; [|split; [exact Hn|]].
    + intros chain Hin. destruct (Hh chain Hin) as [->|(root' & r & rest & H1 & H2 & H3)];
        [auto|]. right. exists root', r, rest. simpl. auto.
    + intros root' r [<-|Hin] Hl; [set_solver|eauto].
  - destruct (PopulateRedirectChainResult g root []) as [g1 chain] eqn:Ep.
    pose proof (PopulateRedirectChainResult_head _ _ _ _ Ep) as Hhead.
    unfold ResourceCollection.PopulateRedirectChainResult in Ep.
    apply PopulateRedirectChainResult_loop_inv in Ep as (Hc1 & Hs1 & more & Em & Hm1 & Hn1).
    simpl in Em. subst more.
    apply IH in H as (Hc & Hs & new & -> & Hm & Hh & Hn & Hr).
    rewrite Hc1 in Hc, Hm, Hh, Hn, Hr.
    split; [exact Hc|]. split; [set_solver|].
    exists (chain :: new). rewrite <- app_assoc. split; [reflexivity|].
    split; [|split; [|split]].
    + intros chain' r [<-|Hin] Hr'; eauto.
    + intros chain' [<-|Hin].
      * destruct (GetResourceWithUrlOrNull (resource_collection_ g) root) as [r|] eqn:El.
        -- destruct Hhead as [[rest ->] _]. right. exists root, r, rest. simpl. auto.
        -- left. apply Hhead.
      * destruct (Hh chain' Hin) as [->|(root' & r & rest & H1 & H2 & H3)]; [auto|].
        right. exists root', r, rest. simpl. auto.
    + intros url H1 H2. destruct (decide (url ∈ processed_ g1)) as [Hin|Hout].
      * destruct (Hn1 url Hin H2) as (r & Hl & Hr'). exists r, chain. simpl. auto.
      * destruct (Hn url H1 Hout) as (r & chain' & Hl & Hc' & Hr').
        exists r, chain'. simpl. auto.
    + intros root' r [<-|Hin] Hl; [|eauto].
      rewrite Hl in Hhead. destruct Hhead as [_ Hhead]. set_solver.
Qed.

Lemma graph_of_fields resource_collection :
  resource_collection_ (graph_of resource_collection) = resource_collection /\
  processed_ (graph_of resource_collection) = ∅.
Proof.
  unfold graph_of.
  assert (Hgen : forall resources g0,
             resource_collection_ (foldl RedirectGraph_AddResource g0 resources)
             = resource_collection_ g0 /\
             processed_ (foldl RedirectGraph_AddResource g0 resources) = processed_ g0).
  { induction resources as [|r resources IH]; intros g0; simpl; [auto|].
    destruct (IH (RedirectGraph_AddResource g0 r)) as [-> ->].
    unfold RedirectGraph_AddResource. destruct (String.eqb _ _); auto. }
  apply Hgen.
Qed.

(** Every member of a chain was found in the collection. *)
Lemma BuildRedirectChains_members registry resource_collection chain r :
  In chain (redirect_chains_ (BuildRedirectChains registry resource_collection)) ->
  In r chain ->
  exists url, GetResourceWithUrlOrNull resource_collection url = Some r.
Proof.
  unfold ResourceCollection.BuildRedirectChains, AppendRedirectChainResults.
  fold (graph_of resource_collection).
  destruct (graph_of_fields resource_collection) as [Hcoll _].
  destruct (AppendRedirectChainResults_loop _ _ []) as [g' chains] eqn:E.
  apply AppendRedirectChainResults_loop_inv in E as (_ & _ & new & -> & Hm & _).
  rewrite Hcoll in Hm. destruct (push_backs_storage _ _ _ _ _) as [data capacity].
  simpl. apply Hm.
Qed.

(** X17: the chains that BuildRedirectChains computes.  Every chain is empty
    or starts with the resource that the collection finds under a redirect
    source; every member of a chain is a resource that the collection finds
    under some URL; and the resource found under a redirect source is a
    member of some chain. *)
Theorem BuildRedirectChains_chains registry resource_collection :
  let chains := GetRedirectChains (BuildRedirectChains registry resource_collection) in
  (forall chain, In chain chains ->
     chain = [] \/
     exists root r rest,
       is_source (resources_ resource_collection) root /\ chain = r :: rest /\
       GetResourceWithUrlOrNull resource_collection root = Some r) /\
  (forall chain r, In chain chains -> In r chain ->
     exists url, GetResourceWithUrlOrNull resource_collection url = Some r) /\
  (forall root r,
     is_source (resources_ resource_collection) root ->
     GetResourceWithUrlOrNull resource_collection root = Some r ->
     exists chain, In chain chains /\ In r chain).
Proof.
  unfold ResourceCollection.BuildRedirectChains, AppendRedirectChainResults.
  fold (graph_of resource_collection).
  assert (Hroots : forall u, In u (GetPriorizedRoots (graph_of resource_collection) []) <->
                             is_source (resources_ resource_collection) u).
  { destruct (AddResource_scan (new_RedirectGraph resource_collection)
                (resources_ resource_collection)) as [_ Hk]; [constructor|].
    fold (graph_of resource_collection) in Hk. intros u.
    unfold GetPriorizedRoots. rewrite GetPriorizedRoots_loop_filter. simpl.
    rewrite in_app_iff, !filter_In. specialize (Hk u). simpl in Hk.
    destruct (bool_decide (u ∈ destinations_ (graph_of resource_collection))); simpl;
      split.
    - intros [[_ [=]]|[H _]]. apply Hk in H as [[]|H]. exact H.
    - intros H. right. split; [|reflexivity]. apply Hk. auto.
    - intros [[H _]|[_ [=]]]. apply Hk in H as [[]|H]. exact H.
    - intros H. left. split; [|reflexivity]. apply Hk. auto. }
  remember (graph_of resource_collection) as g eqn:Eg.
  assert (Hcoll : resource_collection_ g = resource_collection /\ processed_ g = ∅).
  { subst g. apply graph_of_fields. }
  destruct Hcoll as [Hcoll Hproc].
  destruct (AppendRedirectChainResults_loop g (GetPriorizedRoots g []) []) as [g' chains] eqn:E.
  apply AppendRedirectChainResults_loop_inv in E as (_ & _ & new & -> & Hm & Hh & Hn & Hr).
  rewrite Hcoll in Hm, Hh, Hn, Hr.
  destruct (push_backs_storage _ _ _ _ _) as [data capacity]. simpl.
  split; [|split].
  - intros chain Hin. destruct (Hh chain Hin) as [->|(root & r & rest & H1 & H2 & H3)];
      [auto|]. right. exists root, r, rest. split; [apply Hroots, H1|auto].
  - exact Hm.
  - intros root r Hs Hl. apply Hroots in Hs. specialize (Hr root r Hs Hl).
    destruct (Hn root Hr) as (r' & chain & Hl' & Hc & Hin); [rewrite Hproc; set_solver|].
    exists chain. split; [exact Hc|]. congruence.
Qed.

Lemma Built_lookup_In c url r :
  Built c -> url_resource_map_ c !! url = Some r -> In r (resources_ c).
Proof.
  intros Hb. revert url. induction Hb as [f|c r' Hb IH|c u Hb IH]; intros url H.
  - simpl in H. rewrite lookup_empty in H. discriminate.
  - destruct (AddResource_cases GetUriWithoutFragment c r') as [E|E];
      [rewrite E in *; eauto|].
    apply AddResource_true in E as (_ & _ & E). rewrite E in *. simpl in *.
    rewrite in_app_iff. destruct (decide (GetRequestUrl r' = url)) as [<-|Hne].
    + rewrite lookup_insert_eq in H. injection H as <-. simpl. auto.
    + rewrite lookup_insert_ne in H by exact Hne. eauto.
  - destruct (SetPrimaryResourceUrl_fields GetUriWithoutFragment CanonicalizeUrl c u)
      as (E1 & E2 & _).
    rewrite E1. rewrite E2 in H. eauto.
Qed.

Lemma BuildFixUpRedirectChain_loop_In resources i chain r :
  In r (BuildFixUpRedirectChain_loop resources i chain) -> In r chain \/ In r resources.
Proof.
  revert i chain. induction resources as [|x resources IH]; intros i chain; simpl; [auto|].
  destruct (ResourceType_eqb _ _).
  - intros H. apply IH in H as [H|H]; [|auto].
    apply in_app_iff in H as [H|[<-|[]]]; auto.
  - destruct (0 <? i)%nat; [|auto].
    intros H. apply in_app_iff in H as [H|[<-|[]]]; auto.
Qed.

Lemma Init_erase_loop_chains chains m fixup_chain chain :
  In chain (fst (Init_erase_loop chains m fixup_chain)) ->
  In chain chains /\
  match chain with
  | [] => True
  | first :: _ => existsb (same_resource first) fixup_chain = false
  end.
Proof.
  revert m. induction chains as [|x chains IH]; intros m; simpl; [intros []|].
  destruct x as [|first x].
  - specialize (IH m). destruct (Init_erase_loop chains m fixup_chain) as [rest' m'].
    simpl in *. intros [<-|H]; [auto|]. destruct (IH H). auto.
  - destruct (existsb (same_resource first) fixup_chain) eqn:E.
    + intros H. apply IH in H as [H1 H2]. auto.
    + specialize (IH m). destruct (Init_erase_loop chains m fixup_chain) as [rest' m'].
      simpl in *. intros [<-|H]; [auto|]. destruct (IH H). auto.
Qed.

(** X18: after Freeze of a collection that was only added to, every member
    of every chain of the registry is a resource of the collection. *)
Theorem Freeze_chain_members c :
  Built c ->
  let registry := GetRedirectRegistry (snd (Freeze c)) in
  forall chain r, In chain (GetRedirectChains registry) -> In r chain ->
                  In r (resources_ c).
Proof.
  intros Hb. destruct (Built_unfrozen _ _ c Hb) as (_ & Hv & Hreg).
  unfold ResourceCollection.Freeze, GetRedirectRegistry, GetRedirectChains. simpl.
  rewrite Hreg, Hv.
  match goal with |- context [Init _ _ _ ?f] => remember f as frozen eqn:Ef end.
  assert (Hres : resources_ frozen = resources_ c) by (subst frozen; reflexivity).
  assert (Hmap : url_resource_map_ frozen = url_resource_map_ c)
    by (subst frozen; reflexivity).
  assert (Hfr : is_frozen frozen = true) by (subst frozen; reflexivity).
  assert (Hview : forall r, In r (request_order_vector_ frozen) -> In r (resources_ c)).
  { subst frozen. simpl. destruct (forallb _ _); [|intros r []].
    intros r Hr. eapply Permutation_in; [|exact Hr].
    apply Permutation_sym, stable_sort_Permutation. }
  clear Ef.
  assert (Hbuilt : forall chain r,
             In chain (redirect_chains_ (Init_build GetUriWithoutFragment vector_growth
                                           new_RedirectRegistry frozen)) ->
             In r chain -> In r (resources_ c)).
  { unfold Init_build. rewrite Hfr. simpl. intros chain r Hc Hr.
    destruct (BuildRedirectChains_members _ _ _ _ Hc Hr) as [url Hl].
    unfold ResourceCollection.GetResourceWithUrlOrNull in Hl. rewrite Hmap in Hl.
    exact (Built_lookup_In _ _ _ Hb Hl). }
  assert (Hfix : forall r, In r (BuildFixUpRedirectChain [] frozen) -> In r (resources_ c)).
  { unfold BuildFixUpRedirectChain, GetResourcesInRequestOrder.
    destruct (request_order_vector_ frozen) as [|x v]; [intros r []|].
    intros r Hr. apply BuildFixUpRedirectChain_loop_In in Hr as [[]|Hr]. auto. }
  unfold Init.
  remember (Init_build GetUriWithoutFragment vector_growth new_RedirectRegistry frozen)
    as built eqn:Eb.
  clear Eb.
  destruct (last (BuildFixUpRedirectChain [] frozen)) as [fixup_back|]; [|exact Hbuilt].
  match goal with |- context [if ?b then _ else _] => destruct b end; [|exact Hbuilt].
  pose proof (Init_erase_loop_chains (redirect_chains_ built)
                (resource_to_redirect_chain_map_ built)
                (BuildFixUpRedirectChain [] frozen)) as He.
  destruct (Init_erase_loop _ _ _) as [chains m].
  destruct (push_back_storage _ _ _ _) as [data capacity]. simpl in *.
  intros chain r Hc Hr. apply in_app_iff in Hc as [Hc|[<-|[]]].
  - destruct (He chain Hc) as [Hin _]. eauto.
  - auto.
Qed.

(** X19: when Init puts the fix-up chain into the registry (the chain is not
    empty, and the primary resource, or the last resource of the fix-up
    chain when there is no primary resource, has no chain or a shorter one),
    the fix-up chain is the last chain of the vector, no other chain starts
    with a resource of it, and the final redirect target of each of its
    resources is its last resource. *)
Theorem Init_fixup_chain registry resource_collection fixup_back :
  let fixup_chain := BuildFixUpRedirectChain [] resource_collection in
  let built := Init_build GetUriWithoutFragment vector_growth registry resource_collection in
  let primary_resource :=
    default fixup_back
      (GetPrimaryResourceOrNull GetUriWithoutFragment resource_collection) in
  last fixup_chain = Some fixup_back ->
  match GetRedirectChainOrNull built (Some primary_resource) with
  | None => True
  | Some p => length (default [] (deref_chain built p)) < length fixup_chain
  end ->
  let registry' := Init GetUriWithoutFragment vector_growth registry resource_collection in
  exists chains,
    GetRedirectChains registry' = chains ++ [fixup_chain] /\
    (forall first rest, In (first :: rest) chains ->
                        forall r, In r fixup_chain -> address r <> address first) /\
    (forall r, In r fixup_chain ->
               GetFinalRedirectTarget registry' (Some r) = Some (Some fixup_back)).
Proof.
  intros fixup_chain built primary_resource Hlast Hshort registry'.
  subst registry'. unfold Init. fold fixup_chain built. rewrite Hlast.
  assert (Hreplace :
            match GetRedirectChainOrNull built
                    (Some match GetPrimaryResourceOrNull GetUriWithoutFragment
                                  resource_collection with
                          | Some r => r
                          | None => fixup_back
                          end) with
            | Some p => (length (default [] (deref_chain built p)) <? length fixup_chain)%nat
            | None => true
            end = true).
  { subst primary_resource. unfold default in Hshort at 1.
    destruct (GetRedirectChainOrNull built _); [|reflexivity].
    apply Nat.ltb_lt. exact Hshort. }
  rewrite Hreplace.
  pose proof (Init_erase_loop_chains (redirect_chains_ built)
                (resource_to_redirect_chain_map_ built) fixup_chain) as He.
  destruct (Init_erase_loop _ _ _) as [chains m]. simpl in He.
  destruct (push_back_storage _ _ _ _) as [data capacity].
  exists chains. unfold GetRedirectChains. simpl. split; [reflexivity|]. split.
  - intros first rest Hin r Hr Ha. destruct (He _ Hin) as [_ Hno].
    assert (existsb (same_resource first) fixup_chain = true); [|congruence].
    apply existsb_exists. exists r. split; [exact Hr|].
    unfold same_resource. apply Nat.eqb_eq. auto.
  - intros r Hr. unfold GetFinalRedirectTarget, GetRedirectChainOrNull, deref_chain. simpl.
    destruct (map_chain_resources_lookup fixup_chain
                (data + (length (chains ++ [fixup_chain]) - 1)) m (address r)) as [Hin _].
    rewrite Hin by eauto.
    rewrite length_app. simpl.
    rewrite (proj2 (Nat.leb_le data (data + (length chains + 1 - 1)))) by lia.
    replace (data + (length chains + 1 - 1) - data) with (length chains) by lia.
    pose proof (list_lookup_middle chains [] fixup_chain (length chains) eq_refl) as E.
    match goal with
    | |- match ?x with _ => _ end = _ =>
        replace x with (Some fixup_chain) by (symmetry; exact E)
    end.
    rewrite Hlast. reflexivity.
Qed.

End Chains.


Lemma Freeze_chain_members_witness :
  let c := add_all [example_a; example_b; example_c] in
  Built GetUriWithoutFragment_model CanonicalizeUrl_model c /\
  let registry :=
    GetRedirectRegistry (snd (Freeze GetUriWithoutFragment_model vector_growth_model c)) in
  GetRedirectChains registry = [[example_a; example_b; example_c]] /\
  forall chain r, In chain (GetRedirectChains registry) -> In r chain ->
                  In r (resources_ c).
Proof.
  intros c. split; [apply Built_add_all|]. split; [vm_compute; reflexivity|].
  exact (Freeze_chain_members GetUriWithoutFragment_model CanonicalizeUrl_model
             vector_growth_model
           c (Built_add_all _)).
Defined.

(** The redirect target of A is missing from the collection: the chain that
    BuildRedirectChains finds is A alone, and the fix-up chain A, C replaces
    it. *)
Lemma Init_fixup_chain_witness :
  let c := freeze_all [example_a; example_c] in
  let built :=
    Init_build GetUriWithoutFragment_model vector_growth_model new_RedirectRegistry c in
  let registry' :=
    Init GetUriWithoutFragment_model vector_growth_model new_RedirectRegistry c in
  GetRedirectChains built = [[example_a]] /\
  last (BuildFixUpRedirectChain [] c) = Some example_c /\
  GetRedirectChainOrNull built (Some example_c) = None /\
  exists chains,
    GetRedirectChains registry' = chains ++ [[example_a; example_c]] /\
    (forall first rest, In (first :: rest) chains ->
                        forall r, In r [example_a; example_c] ->
                                  address r <> address first) /\
    (forall r, In r [example_a; example_c] ->
               GetFinalRedirectTarget registry' (Some r) = Some (Some example_c)).
Proof.
  intros c built registry'.
  assert (H1 : last (BuildFixUpRedirectChain [] c) = Some example_c)
    by (vm_compute; reflexivity).
  assert (H2 : GetRedirectChainOrNull built (Some example_c) = None)
    by (vm_compute; reflexivity).
  split; [vm_compute; reflexivity|]. split; [exact H1|]. split; [exact H2|].
  refine (Init_fixup_chain GetUriWithoutFragment_model vector_growth_model
            new_RedirectRegistry c example_c H1 _).
  vm_compute. exact I.
Defined.

End ResourceCollectionMore.

(** ** The image converter *)

Module ImageConverterMore.
Import ImageConverter.
Import ImageConverterFacts.

(** ** Further properties of the image converter *)

Section Conversions.

Variables PngReaderInterface JpegCompressionOptions WebpConfiguration Scanline : Type.
Variable default_WebpConfiguration : WebpConfiguration.
Variable size_less_than_scaled : nat -> nat -> Q -> bool.
Variable PngScanlineReader_InitializeRead :
  PngReaderInterface -> bytes -> bool -> option (PngImage Scanline).
Variable JpegScanlineWriter_Init : nat -> nat -> PixelFormat -> bool.
Variable JpegScanlineWriter_WriteNextScanline : list Scanline -> Scanline -> bool.
Variable JpegScanlineWriter_FinalizeWrite :
  JpegCompressionOptions -> list Scanline -> option bytes.
Variable WebpScanlineWriter_Init : nat -> nat -> PixelFormat -> bool.
Variable WebpScanlineWriter_InitializeWrite : WebpConfiguration -> bool.
Variable WebpScanlineWriter_WriteNextScanline : list Scanline -> Scanline -> bool.
Variable WebpScanlineWriter_FinalizeWrite :
  WebpConfiguration -> list Scanline -> option bytes.
Variable OptimizePngBestCompression : PngReaderInterface -> bytes -> option bytes.
Variable size_greater_than_scaled : nat -> nat -> Q -> bool.

#[local] Abbreviation ConvertPngToJpeg :=
  (ConvertPngToJpeg PngScanlineReader_InitializeRead
     JpegScanlineWriter_Init JpegScanlineWriter_WriteNextScanline
     JpegScanlineWriter_FinalizeWrite).

#[local] Abbreviation ConvertPngToWebp :=
  (ConvertPngToWebp PngScanlineReader_InitializeRead
     WebpScanlineWriter_Init WebpScanlineWriter_InitializeWrite
     WebpScanlineWriter_WriteNextScanline WebpScanlineWriter_FinalizeWrite).

#[local] Abbreviation OptimizePngOrConvertToJpeg :=
  (OptimizePngOrConvertToJpeg PngScanlineReader_InitializeRead
     JpegScanlineWriter_Init JpegScanlineWriter_WriteNextScanline
     JpegScanlineWriter_FinalizeWrite OptimizePngBestCompression
     size_greater_than_scaled).

#[local] Abbreviation convert :=
  (GetSmallestOfPngJpegWebp_convert default_WebpConfiguration
     PngScanlineReader_InitializeRead
     JpegScanlineWriter_Init JpegScanlineWriter_WriteNextScanline
     JpegScanlineWriter_FinalizeWrite
     WebpScanlineWriter_Init WebpScanlineWriter_InitializeWrite
     WebpScanlineWriter_WriteNextScanline WebpScanlineWriter_FinalizeWrite
     OptimizePngBestCompression).

#[local] Abbreviation GetSmallestOfPngJpegWebp :=
  (GetSmallestOfPngJpegWebp default_WebpConfiguration size_less_than_scaled
     PngScanlineReader_InitializeRead
     JpegScanlineWriter_Init JpegScanlineWriter_WriteNextScanline
     JpegScanlineWriter_FinalizeWrite
     WebpScanlineWriter_Init WebpScanlineWriter_InitializeWrite
     WebpScanlineWriter_WriteNextScanline WebpScanlineWriter_FinalizeWrite
     OptimizePngBestCompression).

#[local] Abbreviation select := (GetSmallestOfPngJpegWebp_select size_less_than_scaled).

(** Each row is offered to the writer after the rows in front of it. *)
#[local] Abbreviation written_in_turn :=
  (fun (WriteNextScanline : list Scanline -> Scanline -> bool)
       (before new_rows : list Scanline) =>
     forall i row, new_rows !! i = Some row ->
                   WriteNextScanline (before ++ take i new_rows) row = true).

(** The loop of ConvertImage, by induction on the scanlines that are left. *)
Lemma ConvertImage_rows reader WriteNextScanline FinalizeWrite
  (writer writer' : Writer Scanline) :
  ConvertImage reader WriteNextScanline FinalizeWrite writer = (true, writer') <->
  exists new_rows out,
    reader = map Some new_rows /\
    written_in_turn WriteNextScanline (rows writer) new_rows /\
    FinalizeWrite (rows writer ++ new_rows) = Some out /\
    writer' = mkWriter (rows writer ++ new_rows) out.
Proof.
  revert writer. induction reader as [|scan reader IH]; intros writer; simpl.
  - split.
    + destruct (FinalizeWrite (rows writer)) as [out|] eqn:E; [|discriminate].
      intros [= <-]. exists [], out. rewrite app_nil_r.
      split; [reflexivity|]. split; [intros i row H; destruct i; discriminate|auto].
    + intros (new_rows & out & Hr & _ & Hf & ->).
      destruct new_rows; [|discriminate]. rewrite app_nil_r in *. rewrite Hf. reflexivity.
  - destruct scan as [scan_row|].
    + destruct (WriteNextScanline (rows writer) scan_row) eqn:Ew.
      * rewrite IH. simpl. split.
        -- intros (new_rows & out & -> & Hw & Hf & ->).
           exists (scan_row :: new_rows), out. rewrite <- app_assoc in *. simpl in *.
           split; [reflexivity|]. split; [|auto].
           intros [|i] row H; simpl in *.
           ++ injection H as <-. rewrite app_nil_r. exact Ew.
           ++ specialize (Hw i row H). rewrite <- app_assoc in Hw. exact Hw.
        -- intros (new_rows & out & Hr & Hw & Hf & ->).
           destruct new_rows as [|row0 new_rows]; [discriminate|].
           injection Hr as -> ->. exists new_rows, out. rewrite <- app_assoc. simpl.
           split; [reflexivity|]. split; [|auto].
           intros i row H. specialize (Hw (S i) row H). simpl in Hw.
           rewrite <- app_assoc. exact Hw.
      * split; [discriminate|].
        intros (new_rows & out & Hr & Hw & _).
        destruct new_rows as [|row new_rows]; [discriminate|].
        injection Hr as -> ->. specialize (Hw 0 row eq_refl). simpl in Hw.
        rewrite app_nil_r in Hw. congruence.
    + split; [discriminate|].
      intros (new_rows & out & Hr & _). destruct new_rows; discriminate.
Qed.

(** X20: ConvertImage succeeds exactly when every scanline is read, the
    writer accepts each of them in turn and FinalizeWrite succeeds on all of
    them; the writer then holds the rows it had followed by the new ones,
    and the bytes that FinalizeWrite gave. *)
Theorem ConvertImage_true reader WriteNextScanline FinalizeWrite
  (writer writer' : Writer Scanline) :
  ConvertImage reader WriteNextScanline FinalizeWrite writer = (true, writer') <->
  exists new_rows out,
    reader = map Some new_rows /\
    written_in_turn WriteNextScanline (rows writer) new_rows /\
    FinalizeWrite (rows writer ++ new_rows) = Some out /\
    writer' = mkWriter (rows writer ++ new_rows) out.
Proof.
  exact (ConvertImage_rows reader WriteNextScanline FinalizeWrite writer writer').
Qed.

(** The image that a writer is given: it has rows and columns and a pixel
    format that is supported. *)
#[local] Abbreviation convertible :=
  (fun png : PngImage Scanline =>
     0 < GetImageHeight png /\ 0 < GetImageWidth png /\ GetPixelFormat png = SUPPORTED).

Lemma convertible_test (png : PngImage Scanline) :
  (0 <? GetImageHeight png)%nat && (0 <? GetImageWidth png)%nat &&
  negb (match GetPixelFormat png with UNSUPPORTED => true | SUPPORTED => false end) = true
  <-> convertible png.
Proof.
  rewrite !andb_true_iff, !Nat.ltb_lt. destruct (GetPixelFormat png); simpl; split.
  - intros [_ [=]].
  - intros (_ & _ & [=]).
  - intros [[H1 H2] _]. auto.
  - intros (H1 & H2 & _). auto.
Qed.

(** X21: ConvertPngToJpeg succeeds with [out] exactly when the reader
    initialises (without the gray-to-RGB transform), the image has rows,
    columns and a supported format, the JPEG writer initialises for it,
    every scanline is read and written in turn, and FinalizeWrite gives
    [out].  ConvertPngToWebp succeeds under the same conditions on the
    reader with the gray-to-RGB transform and the WebP writer, whose
    InitializeWrite must succeed as well; the writer it hands back holds all
    the rows. *)
Theorem ConvertPng_success png_struct_reader input :
  (forall options out,
     ConvertPngToJpeg png_struct_reader input options = (true, out) <->
     exists png new_rows,
       PngScanlineReader_InitializeRead png_struct_reader input false = Some png /\
       convertible png /\
       JpegScanlineWriter_Init (GetImageWidth png) (GetImageHeight png)
                               (GetPixelFormat png) = true /\
       scanlines png = map Some new_rows /\
       written_in_turn JpegScanlineWriter_WriteNextScanline [] new_rows /\
       JpegScanlineWriter_FinalizeWrite options new_rows = Some out) /\
  (forall webp_config out webp_writer,
     ConvertPngToWebp png_struct_reader input webp_config = (true, out, webp_writer) <->
     exists png new_rows,
       PngScanlineReader_InitializeRead png_struct_reader input true = Some png /\
       convertible png /\
       WebpScanlineWriter_Init (GetImageWidth png) (GetImageHeight png)
                               (GetPixelFormat png) = true /\
       WebpScanlineWriter_InitializeWrite webp_config = true /\
       scanlines png = map Some new_rows /\
       written_in_turn WebpScanlineWriter_WriteNextScanline [] new_rows /\
       WebpScanlineWriter_FinalizeWrite webp_config new_rows = Some out /\
       webp_writer = Some (mkWriter new_rows out)).
Proof.
  split.
  - intros options out. unfold ImageConverter.ConvertPngToJpeg.
    destruct (PngScanlineReader_InitializeRead png_struct_reader input false) as [png|];
      [|split; [discriminate|intros (png & rows & [=] & _)]].
    pose proof (convertible_test png) as Hc.
    destruct (_ && _ && _).
    + destruct (JpegScanlineWriter_Init _ _ _) eqn:Ei.
      * destruct (ConvertImage _ _ _ _) as [ok writer] eqn:Ec. split.
        -- intros [= -> <-]. apply ConvertImage_rows in Ec as (rows & out & Hr & Hw & Hf & ->).
           exists png, rows. simpl in *. repeat split; try tauto; auto.
        -- intros (png' & rows & [= <-] & _ & _ & Hr & Hw & Hf).
           assert (E : ConvertImage (scanlines png) JpegScanlineWriter_WriteNextScanline
                         (JpegScanlineWriter_FinalizeWrite options) (mkWriter [] [])
                       = (true, mkWriter rows out)).
           { apply ConvertImage_rows. exists rows, out. simpl. auto. }
           rewrite E in Ec. injection Ec as <- <-. reflexivity.
      * split; [discriminate|]. intros (png' & rows & [= <-] & _ & Hi & _). congruence.
    + split; [discriminate|]. intros (png' & rows & [= <-] & Hconv & _).
      apply Hc in Hconv. discriminate.
  - intros webp_config out webp_writer. unfold ImageConverter.ConvertPngToWebp.
    destruct (PngScanlineReader_InitializeRead png_struct_reader input true) as [png|];
      [|split; [discriminate|intros (png & rows & [=] & _)]].
    pose proof (convertible_test png) as Hc.
    destruct (_ && _ && _).
    + destruct (WebpScanlineWriter_Init _ _ _) eqn:Ei; simpl.
      * destruct (WebpScanlineWriter_InitializeWrite webp_config) eqn:Ew.
        -- destruct (ConvertImage _ _ _ _) as [ok writer] eqn:Ec. split.
           ++ intros [= -> <- <-].
              apply ConvertImage_rows in Ec as (rows & out & Hr & Hw & Hf & ->).
              exists png, rows. simpl in *. repeat split; try tauto; auto.
           ++ intros (png' & rows & [= <-] & _ & _ & _ & Hr & Hw & Hf & ->).
              assert (E : ConvertImage (scanlines png) WebpScanlineWriter_WriteNextScanline
                            (WebpScanlineWriter_FinalizeWrite webp_config) (mkWriter [] [])
                          = (true, mkWriter rows out)).
              { apply ConvertImage_rows. exists rows, out. simpl. auto. }
              rewrite E in Ec. injection Ec as <- <-. reflexivity.
        -- split; [discriminate|].
           intros (png' & rows & [= <-] & _ & _ & Hi & _). congruence.
      * split; [discriminate|]. intros (png' & rows & [= <-] & _ & Hi & _). congruence.
    + split; [discriminate|]. intros (png' & rows & [= <-] & Hconv & _).
      apply Hc in Hconv. discriminate.
Qed.

(** The selection among the candidates, when it completes, gives a candidate
    that is not empty, under the type of that candidate. *)
Lemma select_result input c type out :
  select input c = Done (type, out) ->
  out <> [] /\
  ((type = IMAGE_WEBP /\ (out = webp_lossless_out c \/ out = webp_lossy_out c)) \/
   (type = IMAGE_PNG /\ out = png_out c) \/
   (type = IMAGE_JPEG /\ out = jpeg_out c)).
Proof.
  unfold GetSmallestOfPngJpegWebp_select, SelectSmallerImage.
  destruct input as [|i0 input], (webp_lossless_out c) as [|a0 a], (png_out c) as [|b0 b],
    (webp_lossy_out c) as [|l0 l], (jpeg_out c) as [|j0 j];
    cbn [length Nat.ltb Nat.leb andb orb negb ImageType_eqb bind deref];
    repeat match goal with
      | |- context [size_less_than_scaled ?x ?y ?z] =>
          destruct (size_less_than_scaled x y z);
          cbn [length Nat.ltb Nat.leb andb orb negb ImageType_eqb bind deref]
      end;
    intros H; try discriminate; injection H as <- <-;
    (split; [discriminate|]); tauto.
Qed.

(** X22: when GetSmallestOfPngJpegWebp completes, the image it gives is one
    of the candidates it prepared and is not empty, and the type it returns
    is IMAGE_WEBP or IMAGE_PNG: it returns neither IMAGE_NONE nor
    IMAGE_JPEG, and [out] is the input only if a candidate equals it. *)
Theorem GetSmallestOfPngJpegWebp_result
  png_struct_reader input jpeg_options webp_config type out :
  GetSmallestOfPngJpegWebp png_struct_reader input jpeg_options webp_config
    = Done (type, out) ->
  out <> [] /\
  exists c,
    convert png_struct_reader input jpeg_options webp_config = Done c /\
    ((type = IMAGE_WEBP /\ (out = webp_lossless_out c \/ out = webp_lossy_out c)) \/
     (type = IMAGE_PNG /\ out = png_out c)).
Proof.
  unfold ImageConverter.GetSmallestOfPngJpegWebp. intros H.
  destruct (convert png_struct_reader input jpeg_options webp_config) as [c|p] eqn:Hc;
    [|discriminate].
  simpl in H. destruct (select_result _ _ _ _ H) as [Hne Hcases].
  split; [exact Hne|]. exists c. split; [reflexivity|].
  destruct Hcases as [Hw|[Hp|[_ Hj]]]; [auto|auto|].
  destruct jpeg_options as [options|].
  - apply convert_jpeg_out in Hc. rewrite Hc in Hj. contradiction.
  - assert (Hn : exists p, convert png_struct_reader input None webp_config
                           = NullDereference p) by apply convert_null_jpeg_options.
    destruct Hn as [p Hp]. congruence.
Qed.

(** X23: for an image that the JPEG writer is not given (the reader does not
    initialise, or the image has no rows, no columns or an unsupported
    format), OptimizePngOrConvertToJpeg gives what the PNG optimizer gives:
    it succeeds with the optimized PNG, marked as PNG, when the optimizer
    succeeds, and fails with an empty output otherwise. *)
Theorem OptimizePngOrConvertToJpeg_not_convertible png_struct_reader input options :
  match PngScanlineReader_InitializeRead png_struct_reader input false with
  | Some png => ~ convertible png
  | None => True
  end ->
  OptimizePngOrConvertToJpeg png_struct_reader input options =
  match OptimizePngBestCompression png_struct_reader input with
  | Some optimized_png_out => (true, optimized_png_out, true)
  | None => (false, [], false)
  end.
Proof.
  intros H. unfold ImageConverter.OptimizePngOrConvertToJpeg.
  assert (E : ConvertPngToJpeg png_struct_reader input options = (false, [])).
  { unfold ImageConverter.ConvertPngToJpeg.
    destruct (PngScanlineReader_InitializeRead png_struct_reader input false) as [png|];
      [|reflexivity].
    pose proof (convertible_test png) as Hc.
    destruct (_ && _ && _); [|reflexivity]. exfalso. apply H, Hc. reflexivity. }
  rewrite E. destruct (OptimizePngBestCompression png_struct_reader input); reflexivity.
Qed.

End Conversions.


Lemma GetSmallestOfPngJpegWebp_result_witness :
  let InitializeRead := fun (_ : unit) (_ : bytes) (_ : bool) =>
    Some {| GetImageWidth := 1; GetImageHeight := 1; GetPixelFormat := SUPPORTED;
            scanlines := [Some tt] |} in
  let smaller := fun (a b : nat) (_ : Q) => (a <? b)%nat in
  let yes3 := fun (_ _ : nat) (_ : PixelFormat) => true in
  let write := fun (_ : list unit) (_ : unit) => true in
  let finalize := fun (_ : unit) (_ : list unit) => Some (str "w") in
  let optimize := fun (_ : unit) (_ : bytes) => Some (str "png") in
  GetSmallestOfPngJpegWebp tt smaller InitializeRead yes3 write finalize
    yes3 (fun _ => true) write finalize optimize tt (str "input") (Some tt) (Some tt)
    = Done (IMAGE_WEBP, str "w") /\
  str "w" <> [] /\
  exists c,
    GetSmallestOfPngJpegWebp_convert tt InitializeRead yes3 write finalize
      yes3 (fun _ => true) write finalize optimize tt (str "input") (Some tt) (Some tt)
      = Done c /\
    ((IMAGE_WEBP = IMAGE_WEBP /\
      (str "w" = webp_lossless_out c \/ str "w" = webp_lossy_out c)) \/
     (IMAGE_WEBP = IMAGE_PNG /\ str "w" = png_out c)).
Proof.
  intros InitializeRead smaller yes3 write finalize optimize.
  assert (H : GetSmallestOfPngJpegWebp tt smaller InitializeRead yes3 write finalize
                yes3 (fun _ => true) write finalize optimize tt (str "input")
                (Some tt) (Some tt) = Done (IMAGE_WEBP, str "w")) by reflexivity.
  split; [exact H|].
  exact (GetSmallestOfPngJpegWebp_result unit unit unit unit tt smaller
           InitializeRead yes3 write finalize yes3 (fun _ => true) write finalize optimize
           tt (str "input") (Some tt) (Some tt) _ _ H).
Defined.

(** An image without rows: the optimized PNG is the result. *)
Lemma OptimizePngOrConvertToJpeg_not_convertible_witness :
  let InitializeRead := fun (_ : unit) (_ : bytes) (_ : bool) =>
    Some {| GetImageWidth := 1; GetImageHeight := 0; GetPixelFormat := SUPPORTED;
            scanlines := @nil (option unit) |} in
  let greater := fun (a b : nat) (_ : Q) => (b <? a)%nat in
  let yes3 := fun (_ _ : nat) (_ : PixelFormat) => true in
  let write := fun (_ : list unit) (_ : unit) => true in
  let finalize := fun (_ : unit) (_ : list unit) => Some (str "j") in
  let optimize := fun (_ : unit) (_ : bytes) => Some (str "png") in
  match InitializeRead tt (str "input") false with
  | Some png =>
      ~ (0 < GetImageHeight png /\ 0 < GetImageWidth png /\ GetPixelFormat png = SUPPORTED)
  | None => True
  end /\
  OptimizePngOrConvertToJpeg InitializeRead yes3 write finalize optimize greater
    tt (str "input") tt = (true, str "png", true).
Proof.
  intros InitializeRead greater yes3 write finalize optimize.
  assert (H : match InitializeRead tt (str "input") false with
              | Some png =>
                  ~ (0 < GetImageHeight png /\ 0 < GetImageWidth png /\
                     GetPixelFormat png = SUPPORTED)
              | None => True
              end) by (simpl; lia).
  split; [exact H|].
  exact (OptimizePngOrConvertToJpeg_not_convertible unit unit unit
           InitializeRead yes3 write finalize optimize greater tt (str "input") tt H).
Defined.

End ImageConverterMore.
